(** * WebRTC examples: signaling relays and session orchestration

    A shallow embedding of the three signaling servers (group-video-call,
    expanded-video-call, broadcast) and of the client hooks that own the
    peer connections (useWebRTC of both mesh examples,
    useBroadcasterWebRTC, useViewerWebRTC and the broadcast App's message
    handler), followed by the properties the specification states about
    them.  The development also covers the code around them: the hash
    routing of expanded-video-call, the Apps of the three examples, the
    chat and screen-share operations of the expanded hook, and the
    relays as systems run over arbitrary sequences of transport events,
    with the invariants and compositions the code itself shows.

    Conventions.
    - A JavaScript [Map] is an insertion-ordered association list
      ([JsMap]): [set] on a present key keeps its position, [set] on an
      absent key appends, iteration follows the list.  An object held in
      a map and mutated in place is written back under its key.
    - A WebSocket object is identified by a number ([WsId]); its
      [readyState] is owned by the transport and only read by the relays.
    - A relay handler is synchronous: it is one function from the state
      it closes over to the new state and the effects it performed, in
      program order.
    - The hooks' handlers are [async].  Each is given as one function
      (the invocation run to completion); for useWebRTC of
      group-video-call the offer and answer handlers are also given
      await by await ([GroupCallAsync]), and shown to agree with the
      one-step handlers when nothing is handled in between.
    - The ICE engine is external: a peer connection records the calls
      made to it, and its promises are taken to resolve.  Console output
      of the hooks is not recorded; the relays' is. *)

From Stdlib Require Import ZArith Lia.
From stdpp Require Import base option list strings.

Open Scope string_scope.
Open Scope list_scope.

(* naive_solver clears hypotheses that may already be gone *)
#[local] Set Warnings "-clear-no-such-hyp".

(** ** JavaScript maps *)

Abbreviation JsMap V := (list (string * V)).

Section JsMap.
Context {V : Type}.
Implicit Types (m : JsMap V) (k : string) (v : V).

Fixpoint jm_get k m : option V :=
  match m with
  | [] => None
  | (k', v) :: m' => if decide (k' = k) then Some v else jm_get k m'
  end.

Definition jm_has k m : bool :=
  match jm_get k m with Some _ => true | None => false end.

Fixpoint jm_set k v m : JsMap V :=
  match m with
  | [] => [(k, v)]
  | (k', v') :: m' =>
      if decide (k' = k) then (k', v) :: m' else (k', v') :: jm_set k v m'
  end.

Fixpoint jm_delete k m : JsMap V :=
  match m with
  | [] => []
  | (k', v') :: m' =>
      if decide (k' = k) then jm_delete k m' else (k', v') :: jm_delete k m'
  end.

Definition jm_keys m : list string := m.*1.
Definition jm_values m : list V := m.*2.
Definition jm_size m : nat := length m.
End JsMap.

Arguments jm_keys : simpl never.
Arguments jm_values : simpl never.

(** ** Transport handles *)

Definition WsId := nat.

Inductive ReadyState := CONNECTING | OPEN | CLOSING | CLOSED.

Definition is_open (rs : ReadyState) : bool :=
  match rs with OPEN => true | _ => false end.

(** JavaScript truthiness of a [string | null]: [null] and the empty
    string are falsy. *)
Definition truthy (o : option string) : bool :=
  match o with
  | Some s => if decide (s = "") then false else true
  | None => false
  end.

(** [a || b] on strings. *)
Definition or_default (a b : string) : string :=
  if decide (a = "") then b else a.

(** ** The mesh relay of group-video-call (server/index.ts)

  [rooms] is the module-level [Map<string, Map<string, Peer>>];
  [currentRoomId] and [currentPeerId] are the variables each connection
  closes over. *)

Module GroupRelay.

Record Peer := { peerId : string; ws : WsId }.

Inductive SignalKind := KOffer | KAnswer | KIceCandidate.

(** A parsed inbound message, by its [type]; the fields of a signal
    other than [to] are relayed untouched and kept opaque. *)
Inductive ClientMsg :=
| Join (roomId peerId : string)
| Signal (kind : SignalKind) (to : string) (body : string)
| OtherType.

(** [data] as received: [JSON.parse] either yields a message or throws. *)
Inductive Inbound :=
| Parsed (m : ClientMsg)
| Malformed.

Inductive ServerMsg :=
| RoomPeers (peers : list string)
| PeerJoined (p : string)
| PeerLeft (p : string)
| Relayed (kind : SignalKind) (to : string) (body : string).

Inductive LogEntry :=
| LogJoined (p room : string) (size : nat)
| LogLeft (p room : string) (size : nat)
| LogError.

Inductive Effect :=
| Send (s : WsId) (m : ServerMsg)
| Log (l : LogEntry).

Record World := {
  rooms : JsMap (JsMap Peer);
  readyState : WsId → ReadyState
}.

Record Conn := {
  conn_ws : WsId;
  currentRoomId : option string;
  currentPeerId : option string
}.

Definition init_world : World :=
  {| rooms := []; readyState := λ _, OPEN |}.

Definition new_conn (s : WsId) : Conn :=
  {| conn_ws := s; currentRoomId := None; currentPeerId := None |}.

Definition with_rooms (w : World) (r : JsMap (JsMap Peer)) : World :=
  {| rooms := r; readyState := readyState w |}.

Definition sock_open (w : World) (s : WsId) : bool := is_open (readyState w s).

(** [forwardToPeer(roomId, toPeerId, message)]; [roomId] is
    [currentRoomId!], which is [null] before the first join. *)
Definition forwardToPeer (w : World) (roomId : option string)
    (toPeerId : string) (message : ServerMsg) : list Effect :=
  match roomId with
  | None => []
  | Some rid =>
      match jm_get rid (rooms w) with
      | Some room =>
          match jm_get toPeerId room with
          | Some peer =>
              if sock_open w (ws peer) then [Send (ws peer) message] else []
          | None => []
          end
      | None => []
      end
  end.

(** The body of [room.forEach] in [broadcast]. *)
Definition notify (w : World) (message : ServerMsg) (excludePeerId : string)
    (peer : Peer) : list Effect :=
  if decide (peerId peer ≠ excludePeerId) then
    if sock_open w (ws peer) then [Send (ws peer) message] else []
  else [].

(** [broadcast(roomId, message, excludePeerId)]. *)
Definition broadcast (w : World) (roomId : string) (message : ServerMsg)
    (excludePeerId : string) : list Effect :=
  match jm_get roomId (rooms w) with
  | Some room => jm_values room ≫= notify w message excludePeerId
  | None => []
  end.

(** [ws.on('message', ...)]. *)
Definition on_message (w : World) (c : Conn) (data : Inbound)
    : World * Conn * list Effect :=
  match data with
  | Malformed => (w, c, [Log LogError])
  | Parsed (Join roomId peerId) =>
      let c' := {| conn_ws := conn_ws c;
                   currentRoomId := Some roomId;
                   currentPeerId := Some peerId |} in
      let rooms1 :=
        if jm_has roomId (rooms w) then rooms w
        else jm_set roomId [] (rooms w) in
      let room := default [] (jm_get roomId rooms1) in
      let existingPeers := jm_keys room in
      let room' := jm_set peerId {| peerId := peerId; ws := conn_ws c |} room in
      let w' := with_rooms w (jm_set roomId room' rooms1) in
      (w', c',
       Send (conn_ws c) (RoomPeers existingPeers)
         :: broadcast w' roomId (PeerJoined peerId) peerId
         ++ [Log (LogJoined peerId roomId (jm_size room'))])
  | Parsed (Signal kind to body) =>
      (w, c, forwardToPeer w (currentRoomId c) to (Relayed kind to body))
  | Parsed OtherType => (w, c, [])
  end.

(** [ws.on('close', ...)]. *)
Definition on_close (w : World) (c : Conn) : World * list Effect :=
  if truthy (currentRoomId c) && truthy (currentPeerId c) then
    match currentRoomId c, currentPeerId c with
    | Some rid, Some pid =>
        match jm_get rid (rooms w) with
        | Some room =>
            let room' := jm_delete pid room in
            let w1 := with_rooms w (jm_set rid room' (rooms w)) in
            let effs :=
              broadcast w1 rid (PeerLeft pid) pid
                ++ [Log (LogLeft pid rid (jm_size room'))] in
            if decide (jm_size room' = 0)
            then (with_rooms w1 (jm_delete rid (rooms w1)), effs)
            else (w1, effs)
        | None => (w, [])
        end
    | _, _ => (w, [])
    end
  else (w, []).

(** The members of [roomId] before a handler runs. *)
Definition members (w : World) (roomId : string) : JsMap Peer :=
  default [] (jm_get roomId (rooms w)).

(** Every entry of every room is stored under its own [peerId]. *)
Definition keyed (room : JsMap Peer) : bool :=
  forallb (λ kp, bool_decide (peerId kp.2 = kp.1)) room.

Definition wf (w : World) : Prop :=
  forallb (λ r, keyed r.2) (rooms w) = true.

(** A signal relayed on a connection whose room is not registered, or
    addressed to a peer that is not in the room. *)
Definition dangling (w : World) (c : Conn) (m : ClientMsg) : bool :=
  match m with
  | Signal _ to _ =>
      match currentRoomId c with
      | Some rid =>
          match jm_get rid (rooms w) with
          | Some room => negb (jm_has to room)
          | None => true
          end
      | None => true
      end
  | Join _ _ | OtherType => false
  end.

End GroupRelay.

(** ** The mesh relay of expanded-video-call (server/index.ts)

    The same relay with a username and a screen-sharing flag per peer. *)

Module ExpandedRelay.

Record PeerInfo := {
  peerId : string;
  username : string;
  ws : WsId;
  isScreenSharing : bool
}.

(** An element of the [room-peers] list. *)
Record PeerSummary := {
  sum_peerId : string;
  sum_username : string;
  sum_isScreenSharing : bool
}.

Inductive SignalKind := KOffer | KAnswer | KIceCandidate.

Inductive ClientMsg :=
| Join (roomId peerId username : string)
| UsernameUpdate (username : string)
| ScreenShareStarted
| ScreenShareStopped
| Signal (kind : SignalKind) (to : string) (body : string)
| OtherType.

Inductive Inbound :=
| Parsed (m : ClientMsg)
| Malformed.

Inductive ServerMsg :=
| RoomPeers (peers : list PeerSummary)
| PeerJoined (p username : string)
| PeerLeft (p : string)
| UsernameUpdated (p username : string)
| ScreenShareStartedBy (p : string)
| ScreenShareStoppedBy (p : string)
| Relayed (kind : SignalKind) (to : string) (body : string)
    (from : option string) (username : string).

Inductive LogEntry :=
| LogJoined (p username room : string) (size : nat)
| LogLeft (p username room : string) (size : nat)
| LogError.

Inductive Effect :=
| Send (s : WsId) (m : ServerMsg)
| Log (l : LogEntry).

Record World := {
  rooms : JsMap (JsMap PeerInfo);
  readyState : WsId → ReadyState
}.

Record Conn := {
  conn_ws : WsId;
  currentRoomId : option string;
  currentPeerId : option string;
  currentUsername : string
}.

Definition init_world : World :=
  {| rooms := []; readyState := λ _, OPEN |}.

Definition new_conn (s : WsId) : Conn :=
  {| conn_ws := s; currentRoomId := None; currentPeerId := None;
     currentUsername := "Anonymous" |}.

Definition with_rooms (w : World) (r : JsMap (JsMap PeerInfo)) : World :=
  {| rooms := r; readyState := readyState w |}.

Definition sock_open (w : World) (s : WsId) : bool := is_open (readyState w s).

Definition summary (p : PeerInfo) : PeerSummary :=
  {| sum_peerId := peerId p; sum_username := username p;
     sum_isScreenSharing := isScreenSharing p |}.

Definition forwardToPeer (w : World) (roomId : option string)
    (toPeerId : string) (message : ServerMsg) : list Effect :=
  match roomId with
  | None => []
  | Some rid =>
      match jm_get rid (rooms w) with
      | Some room =>
          match jm_get toPeerId room with
          | Some peer =>
              if sock_open w (ws peer) then [Send (ws peer) message] else []
          | None => []
          end
      | None => []
      end
  end.

Definition notify (w : World) (message : ServerMsg) (excludePeerId : string)
    (peer : PeerInfo) : list Effect :=
  if decide (peerId peer ≠ excludePeerId) then
    if sock_open w (ws peer) then [Send (ws peer) message] else []
  else [].

Definition broadcast (w : World) (roomId : string) (message : ServerMsg)
    (excludePeerId : string) : list Effect :=
  match jm_get roomId (rooms w) with
  | Some room => jm_values room ≫= notify w message excludePeerId
  | None => []
  end.

(** [peer.isScreenSharing = b] on the sender's own entry, when the room
    and the entry exist. *)
Definition set_sharing (w : World) (rid pid : string) (b : bool) : World :=
  match jm_get rid (rooms w) with
  | Some room =>
      match jm_get pid room with
      | Some peer =>
          let peer' := {| peerId := peerId peer; username := username peer;
                          ws := ws peer; isScreenSharing := b |} in
          with_rooms w (jm_set rid (jm_set pid peer' room) (rooms w))
      | None => w
      end
  | None => w
  end.

Definition on_message (w : World) (c : Conn) (data : Inbound)
    : World * Conn * list Effect :=
  match data with
  | Malformed => (w, c, [Log LogError])
  | Parsed (Join roomId pid uname) =>
      let currentUsername' := or_default uname "Anonymous" in
      let c' := {| conn_ws := conn_ws c;
                   currentRoomId := Some roomId;
                   currentPeerId := Some pid;
                   currentUsername := currentUsername' |} in
      let rooms1 :=
        if jm_has roomId (rooms w) then rooms w
        else jm_set roomId [] (rooms w) in
      let room := default [] (jm_get roomId rooms1) in
      let existingPeers := summary <$> jm_values room in
      let room' :=
        jm_set pid {| peerId := pid; username := currentUsername';
                      ws := conn_ws c; isScreenSharing := false |} room in
      let w' := with_rooms w (jm_set roomId room' rooms1) in
      (w', c',
       Send (conn_ws c) (RoomPeers existingPeers)
         :: broadcast w' roomId (PeerJoined pid currentUsername') pid
         ++ [Log (LogJoined pid currentUsername' roomId (jm_size room'))])
  | Parsed (UsernameUpdate uname) =>
      if truthy (currentRoomId c) && truthy (currentPeerId c) then
        match currentRoomId c, currentPeerId c with
        | Some rid, Some pid =>
            match jm_get rid (rooms w) with
            | Some room =>
                match jm_get pid room with
                | Some peer =>
                    let peer' := {| peerId := peerId peer; username := uname;
                                    ws := ws peer;
                                    isScreenSharing := isScreenSharing peer |} in
                    let w' := with_rooms w (jm_set rid (jm_set pid peer' room) (rooms w)) in
                    let c' := {| conn_ws := conn_ws c;
                                 currentRoomId := currentRoomId c;
                                 currentPeerId := currentPeerId c;
                                 currentUsername := uname |} in
                    (w', c', broadcast w' rid (UsernameUpdated pid uname) pid)
                | None => (w, c, [])
                end
            | None => (w, c, [])
            end
        | _, _ => (w, c, [])
        end
      else (w, c, [])
  | Parsed ScreenShareStarted =>
      if truthy (currentRoomId c) && truthy (currentPeerId c) then
        match currentRoomId c, currentPeerId c with
        | Some rid, Some pid =>
            let w' := set_sharing w rid pid true in
            (w', c, broadcast w' rid (ScreenShareStartedBy pid) pid)
        | _, _ => (w, c, [])
        end
      else (w, c, [])
  | Parsed ScreenShareStopped =>
      if truthy (currentRoomId c) && truthy (currentPeerId c) then
        match currentRoomId c, currentPeerId c with
        | Some rid, Some pid =>
            let w' := set_sharing w rid pid false in
            (w', c, broadcast w' rid (ScreenShareStoppedBy pid) pid)
        | _, _ => (w, c, [])
        end
      else (w, c, [])
  | Parsed (Signal kind to body) =>
      (w, c,
       forwardToPeer w (currentRoomId c) to
         (Relayed kind to body (currentPeerId c) (currentUsername c)))
  | Parsed OtherType => (w, c, [])
  end.

Definition on_close (w : World) (c : Conn) : World * list Effect :=
  if truthy (currentRoomId c) && truthy (currentPeerId c) then
    match currentRoomId c, currentPeerId c with
    | Some rid, Some pid =>
        match jm_get rid (rooms w) with
        | Some room =>
            let room' := jm_delete pid room in
            let w1 := with_rooms w (jm_set rid room' (rooms w)) in
            let effs :=
              broadcast w1 rid (PeerLeft pid) pid
                ++ [Log (LogLeft pid (currentUsername c) rid (jm_size room'))] in
            if decide (jm_size room' = 0)
            then (with_rooms w1 (jm_delete rid (rooms w1)), effs)
            else (w1, effs)
        | None => (w, [])
        end
    | _, _ => (w, [])
    end
  else (w, []).

Definition members (w : World) (roomId : string) : JsMap PeerInfo :=
  default [] (jm_get roomId (rooms w)).

Definition keyed (room : JsMap PeerInfo) : bool :=
  forallb (λ kp, bool_decide (peerId kp.2 = kp.1)) room.

Definition wf (w : World) : Prop :=
  forallb (λ r, keyed r.2) (rooms w) = true.

(** The message references a room or a peer that is not there: a signal
    relayed on a connection whose room is not registered, or addressed to
    a peer that is not in the room; a username update or a screen-share
    notice, whose handlers look up the sender's own entry, on a
    connection whose room, or whose own entry in the room, is not
    registered.  ([join] creates the room it names.) *)
Definition dangling (w : World) (c : Conn) (m : ClientMsg) : bool :=
  match m with
  | Signal _ to _ =>
      match currentRoomId c with
      | Some rid =>
          match jm_get rid (rooms w) with
          | Some room => negb (jm_has to room)
          | None => true
          end
      | None => true
      end
  | UsernameUpdate _ | ScreenShareStarted | ScreenShareStopped =>
      match currentRoomId c, currentPeerId c with
      | Some rid, Some pid =>
          match jm_get rid (rooms w) with
          | Some room => negb (jm_has pid room)
          | None => true
          end
      | _, _ => true
      end
  | Join _ _ _ | OtherType => false
  end.

(** The handler finds the room and goes on without checking that the
    sender's own entry is registered in it: a screen-share notice sets
    the flag [if (peer)] and calls [broadcast] either way. *)
Definition peer_unchecked (w : World) (c : Conn) (m : ClientMsg) : bool :=
  match m with
  | ScreenShareStarted | ScreenShareStopped =>
      truthy (currentRoomId c) && truthy (currentPeerId c) &&
      match currentRoomId c with
      | Some rid => jm_has rid (rooms w)
      | None => false
      end
  | _ => false
  end.

End ExpandedRelay.

(** ** The star relay of broadcast (server/index.ts)

    [broadcasts] is the module-level [Map<string, BroadcastRoom>].  The
    clock ([Date.now()], in milliseconds) and the pending [setTimeout]
    callbacks are part of the world. *)

Module StarRelay.

Inductive Role := Broadcaster | Viewer.

(** [BroadcasterInfo] and [ViewerInfo] are the same structural type. *)
Record PartyInfo := { peerId : string; username : string; ws : WsId }.

Record BroadcastRoom := {
  broadcastId : string;
  broadcaster : option PartyInfo;
  viewers : JsMap PartyInfo;
  isLive : bool
}.

Inductive ClientMsg :=
| CreateBroadcast (peerId username : string)
| StartBroadcast (broadcastId : string)
| EndBroadcast (broadcastId : string)
| JoinBroadcast (broadcastId peerId username : string)
| LeaveBroadcast (broadcastId peerId : string)
| Offer (to sdp : string)
| Answer (to sdp : string)
| IceCandidate (to candidate : string)
| ChatMessage (broadcastId text : string)
| OtherType.

Inductive Inbound :=
| Parsed (m : ClientMsg)
| Malformed.

Inductive ServerMsg :=
| BroadcastCreated (broadcastId : string)
| BroadcastStarted (broadcastId : string)
| BroadcastEnded (broadcastId : string)
| BroadcastInfo (broadcastId : string) (isLive : bool) (broadcasterUsername : string)
| ViewerJoined (peerId username : string)
| ViewerLeft (peerId : string)
| ViewerCount (count : nat)
| OfferFrom (from : option string) (sdp : string)
| AnswerFrom (from : option string) (sdp : string)
| IceCandidateFrom (from : option string) (candidate : string)
| Chat (id : N * option string) (from : option string) (username text : string)
    (timestamp : N)
| Error (message : string).

Inductive LogEntry :=
| LogCreated (broadcastId username peerId : string)
| LogLive (broadcastId : string) (viewers : nat)
| LogEnded (broadcastId : string)
| LogViewerJoined (username peerId broadcastId : string) (viewers : nat)
| LogViewerLeft (username broadcastId : string) (viewers : nat)
| LogBroadcasterDisconnected (username broadcastId : string)
| LogViewerDisconnected (username broadcastId : string) (viewers : nat)
| LogCleanedUp (broadcastId : string)
| LogError.

Inductive Effect :=
| Send (s : WsId) (m : ServerMsg)
| Log (l : LogEntry).

(** A pending [setTimeout] callback of the close handler: [owner] is the
    connection whose variables the callback closes over, [armed_at] the
    clock when [setTimeout] was called and [due] the earliest clock at
    which the callback may run. *)
Record Timer := { owner : WsId; armed_at : N; due : N }.

Record World := {
  broadcasts : JsMap BroadcastRoom;
  readyState : WsId → ReadyState;
  now : N;
  timers : list Timer
}.

Record Conn := {
  conn_ws : WsId;
  currentBroadcastId : option string;
  currentPeerId : option string;
  currentUsername : string;
  currentRole : option Role
}.

Definition init_world : World :=
  {| broadcasts := []; readyState := λ _, OPEN; now := 0%N; timers := [] |}.

Definition new_conn (s : WsId) : Conn :=
  {| conn_ws := s; currentBroadcastId := None; currentPeerId := None;
     currentUsername := "Anonymous"; currentRole := None |}.

Definition with_broadcasts (w : World) (b : JsMap BroadcastRoom) : World :=
  {| broadcasts := b; readyState := readyState w; now := now w; timers := timers w |}.

Definition with_timers (w : World) (t : list Timer) : World :=
  {| broadcasts := broadcasts w; readyState := readyState w; now := now w; timers := t |}.

Definition sock_open (w : World) (s : WsId) : bool := is_open (readyState w s).

Definition set_live (room : BroadcastRoom) (b : bool) : BroadcastRoom :=
  {| broadcastId := broadcastId room; broadcaster := broadcaster room;
     viewers := viewers room; isLive := b |}.

Definition set_viewers (room : BroadcastRoom) (v : JsMap PartyInfo) : BroadcastRoom :=
  {| broadcastId := broadcastId room; broadcaster := broadcaster room;
     viewers := v; isLive := isLive room |}.

(** [if (p.ws.readyState === WebSocket.OPEN) p.ws.send(...)], once per
    message. *)
Definition send_if_open (w : World) (p : PartyInfo) (ms : list ServerMsg) : list Effect :=
  if sock_open w (ws p) then Send (ws p) <$> ms else [].

(** [room.viewers.forEach(viewer => ...)]. *)
Definition to_viewers (w : World) (room : BroadcastRoom) (m : ServerMsg) : list Effect :=
  jm_values (viewers room) ≫= λ v, send_if_open w v [m].

(** [if (room.broadcaster && room.broadcaster.ws.readyState === OPEN)]. *)
Definition to_broadcaster (w : World) (room : BroadcastRoom) (ms : list ServerMsg) : list Effect :=
  match broadcaster room with
  | Some b => send_if_open w b ms
  | None => []
  end.

(** [room.broadcaster?.peerId === currentPeerId]. *)
Definition is_broadcaster_of (room : BroadcastRoom) (c : Conn) : bool :=
  match broadcaster room with
  | Some b => bool_decide (currentPeerId c = Some (peerId b))
  | None => false
  end.

(** [broadcasts.get(currentBroadcastId!)]. *)
Definition current_room (w : World) (c : Conn) : option BroadcastRoom :=
  match currentBroadcastId c with
  | Some bid => jm_get bid (broadcasts w)
  | None => None
  end.

(** [ws.on('message', ...)]; [fresh] is what [generateBroadcastId()]
    returns when it is called. *)
Definition on_message (w : World) (c : Conn) (fresh : string) (data : Inbound)
    : World * Conn * list Effect :=
  match data with
  | Malformed => (w, c, [Log LogError])
  | Parsed (CreateBroadcast pid uname) =>
      let bid := fresh in
      let currentUsername' := or_default uname "Broadcaster" in
      let c' := {| conn_ws := conn_ws c;
                   currentBroadcastId := Some bid;
                   currentPeerId := Some pid;
                   currentUsername := currentUsername';
                   currentRole := Some Broadcaster |} in
      let room := {| broadcastId := bid;
                     broadcaster := Some {| peerId := pid; username := currentUsername';
                                            ws := conn_ws c |};
                     viewers := [];
                     isLive := false |} in
      (with_broadcasts w (jm_set bid room (broadcasts w)), c',
       [Send (conn_ws c) (BroadcastCreated bid);
        Log (LogCreated bid currentUsername' pid)])
  | Parsed (StartBroadcast bid) =>
      match jm_get bid (broadcasts w) with
      | Some room =>
          if is_broadcaster_of room c then
            let room' := set_live room true in
            let w' := with_broadcasts w (jm_set bid room' (broadcasts w)) in
            (w', c,
             to_viewers w' room' (BroadcastStarted bid)
               ++ [Log (LogLive bid (jm_size (viewers room')))])
          else (w, c, [])
      | None => (w, c, [])
      end
  | Parsed (EndBroadcast bid) =>
      match jm_get bid (broadcasts w) with
      | Some room =>
          if is_broadcaster_of room c then
            let room' := set_live room false in
            let w' := with_broadcasts w (jm_set bid room' (broadcasts w)) in
            (w', c,
             to_viewers w' room' (BroadcastEnded bid) ++ [Log (LogEnded bid)])
          else (w, c, [])
      | None => (w, c, [])
      end
  | Parsed (JoinBroadcast bid pid uname) =>
      match jm_get bid (broadcasts w) with
      | None => (w, c, [Send (conn_ws c) (Error "Broadcast not found")])
      | Some room =>
          let currentUsername' := or_default uname "Viewer" in
          let c' := {| conn_ws := conn_ws c;
                       currentBroadcastId := Some bid;
                       currentPeerId := Some pid;
                       currentUsername := currentUsername';
                       currentRole := Some Viewer |} in
          let room' :=
            set_viewers room
              (jm_set pid {| peerId := pid; username := currentUsername';
                             ws := conn_ws c |} (viewers room)) in
          let w' := with_broadcasts w (jm_set bid room' (broadcasts w)) in
          (w', c',
           Send (conn_ws c)
             (BroadcastInfo bid (isLive room')
                (match broadcaster room' with
                 | Some b => or_default (username b) "Unknown"
                 | None => "Unknown"
                 end))
             :: to_broadcaster w' room'
                  [ViewerJoined pid currentUsername';
                   ViewerCount (jm_size (viewers room'))]
             ++ [Log (LogViewerJoined currentUsername' pid bid (jm_size (viewers room')))])
      end
  | Parsed (LeaveBroadcast bid pid) =>
      match jm_get bid (broadcasts w) with
      | Some room =>
          let room' := set_viewers room (jm_delete pid (viewers room)) in
          let w' := with_broadcasts w (jm_set bid room' (broadcasts w)) in
          (w', c,
           to_broadcaster w' room'
             [ViewerLeft pid; ViewerCount (jm_size (viewers room'))]
             ++ [Log (LogViewerLeft (currentUsername c) bid (jm_size (viewers room')))])
      | None => (w, c, [])
      end
  | Parsed (Offer to sdp) =>
      match current_room w c with
      | Some room =>
          match jm_get to (viewers room) with
          | Some viewer => (w, c, send_if_open w viewer [OfferFrom (currentPeerId c) sdp])
          | None => (w, c, [])
          end
      | None => (w, c, [])
      end
  | Parsed (Answer to sdp) =>
      match current_room w c with
      | Some room => (w, c, to_broadcaster w room [AnswerFrom (currentPeerId c) sdp])
      | None => (w, c, [])
      end
  | Parsed (IceCandidate to candidate) =>
      match current_room w c with
      | Some room =>
          match currentRole c with
          | Some Broadcaster =>
              match jm_get to (viewers room) with
              | Some viewer =>
                  (w, c, send_if_open w viewer [IceCandidateFrom (currentPeerId c) candidate])
              | None => (w, c, [])
              end
          | _ =>
              (w, c, to_broadcaster w room [IceCandidateFrom (currentPeerId c) candidate])
          end
      | None => (w, c, [])
      end
  | Parsed (ChatMessage bid text) =>
      match jm_get bid (broadcasts w) with
      | Some room =>
          let chatMsg :=
            Chat (now w, currentPeerId c) (currentPeerId c) (currentUsername c)
                 text (now w) in
          (w, c, to_broadcaster w room [chatMsg] ++ to_viewers w room chatMsg)
      | None => (w, c, [])
      end
  | Parsed OtherType => (w, c, [])
  end.

(** The grace period of the cleanup timer, in milliseconds. *)
Definition GRACE_MS : N := 30000.

(** [ws.on('close', ...)]. *)
Definition on_close (w : World) (c : Conn) : World * list Effect :=
  if truthy (currentBroadcastId c) && truthy (currentPeerId c) then
    match currentBroadcastId c, currentPeerId c with
    | Some bid, Some pid =>
        match jm_get bid (broadcasts w) with
        | Some room =>
            match currentRole c with
            | Some Broadcaster =>
                let room' := set_live room false in
                let w1 := with_broadcasts w (jm_set bid room' (broadcasts w)) in
                let timer := {| owner := conn_ws c; armed_at := now w;
                                due := (now w + GRACE_MS)%N |} in
                (with_timers w1 (timers w1 ++ [timer]),
                 to_viewers w1 room' (BroadcastEnded bid)
                   ++ [Log (LogBroadcasterDisconnected (currentUsername c) bid)])
            | _ =>
                let room' := set_viewers room (jm_delete pid (viewers room)) in
                let w1 := with_broadcasts w (jm_set bid room' (broadcasts w)) in
                (w1,
                 to_broadcaster w1 room'
                   [ViewerLeft pid; ViewerCount (jm_size (viewers room'))]
                   ++ [Log (LogViewerDisconnected (currentUsername c) bid
                              (jm_size (viewers room')))])
            end
        | None => (w, [])
        end
    | _, _ => (w, [])
    end
  else (w, []).

(** The [setTimeout] callback of the close handler, run with the variables
    of the connection that armed it. *)
Definition cleanup (w : World) (c : Conn) : World * list Effect :=
  match currentBroadcastId c with
  | Some bid =>
      match jm_get bid (broadcasts w) with
      | Some currentRoom =>
          if negb (isLive currentRoom) && bool_decide (jm_size (viewers currentRoom) = 0)
          then (with_broadcasts w (jm_delete bid (broadcasts w)), [Log (LogCleanedUp bid)])
          else (w, [])
      | None => (w, [])
      end
  | None => (w, [])
  end.

(** [room.broadcaster] is there and has peer id [p]. *)
Definition is_broadcaster_id (room : BroadcastRoom) (p : string) : bool :=
  match broadcaster room with
  | Some b => bool_decide (peerId b = p)
  | None => false
  end.

(** The message references a broadcast or a peer that is not there: it
    names a broadcast that is not registered, or is relayed on a
    connection whose current broadcast is not registered, or names (in
    [peerId] or [to]) a peer that is not registered in the broadcast in
    the role the message is about: the viewer that leaves, the viewer an
    offer or a broadcaster's candidate is for, the broadcaster an answer
    or another sender's candidate is for.  ([create-broadcast] and
    [join-broadcast] name the peer they register.) *)
Definition dangling (w : World) (c : Conn) (m : ClientMsg) : bool :=
  match m with
  | StartBroadcast bid | EndBroadcast bid | JoinBroadcast bid _ _
  | ChatMessage bid _ =>
      negb (jm_has bid (broadcasts w))
  | LeaveBroadcast bid pid =>
      match jm_get bid (broadcasts w) with
      | Some room => negb (jm_has pid (viewers room))
      | None => true
      end
  | Offer to _ =>
      match current_room w c with
      | Some room => negb (jm_has to (viewers room))
      | None => true
      end
  | Answer to _ =>
      match current_room w c with
      | Some room => negb (is_broadcaster_id room to)
      | None => true
      end
  | IceCandidate to _ =>
      match current_room w c with
      | Some room =>
          match currentRole c with
          | Some Broadcaster => negb (jm_has to (viewers room))
          | _ => negb (is_broadcaster_id room to)
          end
      | None => true
      end
  | CreateBroadcast _ _ | OtherType => false
  end.

(** The handler finds the broadcast and goes on without checking that
    the peer the message names is registered in it: [leave-broadcast]
    calls [room.viewers.delete(peerId)] and notifies the broadcaster
    whatever [peerId] is, and [answer] and the [else] branch of
    [ice-candidate] never read [to]. *)
Definition peer_unchecked (w : World) (c : Conn) (m : ClientMsg) : bool :=
  match m with
  | LeaveBroadcast bid _ => jm_has bid (broadcasts w)
  | Answer _ _ =>
      match current_room w c with
      | Some _ => true
      | None => false
      end
  | IceCandidate _ _ =>
      match current_room w c with
      | Some _ =>
          match currentRole c with
          | Some Broadcaster => false
          | _ => true
          end
      | None => false
      end
  | _ => false
  end.

(** *** The relay as a whole

    One [Conn] per accepted socket; the transport delivers messages only
    on sockets that are connected and not yet closed, emits [close] once
    per socket, and runs a timer callback no earlier than its delay. *)

Inductive ConnStatus :=
| Absent
| Connected (c : Conn)
| Gone (c : Conn) (closed_at : N).

Record Sys := { world : World; conns : WsId → ConnStatus }.

Inductive Event :=
| EvConnect (s : WsId)
| EvMessage (s : WsId) (fresh : string) (data : Inbound)
| EvClose (s : WsId)
| EvReadyState (s : WsId) (rs : ReadyState)
| EvTick (dt : N)
| EvFire (i : nat).

Definition init_sys : Sys := {| world := init_world; conns := λ _, Absent |}.

Definition set_conn (σ : Sys) (s : WsId) (st : ConnStatus) : WsId → ConnStatus :=
  λ s', if decide (s' = s) then st else conns σ s'.

Definition step (σ : Sys) (e : Event) : Sys * list Effect :=
  let w := world σ in
  match e with
  | EvConnect s =>
      match conns σ s with
      | Absent => ({| world := w; conns := set_conn σ s (Connected (new_conn s)) |}, [])
      | _ => (σ, [])
      end
  | EvMessage s fresh data =>
      match conns σ s with
      | Connected c =>
          let '(w', c', effs) := on_message w c fresh data in
          ({| world := w'; conns := set_conn σ s (Connected c') |}, effs)
      | _ => (σ, [])
      end
  | EvClose s =>
      match conns σ s with
      | Connected c =>
          let '(w', effs) := on_close w c in
          ({| world := w'; conns := set_conn σ s (Gone c (now w)) |}, effs)
      | _ => (σ, [])
      end
  | EvReadyState s rs =>
      ({| world := {| broadcasts := broadcasts w;
                      readyState := λ s', if decide (s' = s) then rs else readyState w s';
                      now := now w; timers := timers w |};
          conns := conns σ |}, [])
  | EvTick dt =>
      ({| world := {| broadcasts := broadcasts w; readyState := readyState w;
                      now := (now w + dt)%N; timers := timers w |};
          conns := conns σ |}, [])
  | EvFire i =>
      match timers w !! i with
      | Some t =>
          if bool_decide (due t ≤ now w)%N then
            let w1 := with_timers w (delete i (timers w)) in
            match conns σ (owner t) with
            | Connected c | Gone c _ =>
                let '(w', effs) := cleanup w1 c in
                ({| world := w'; conns := conns σ |}, effs)
            | Absent => ({| world := w1; conns := conns σ |}, [])
            end
          else (σ, [])
      | None => (σ, [])
      end
  end.

Definition run (σ : Sys) (es : list Event) : Sys :=
  foldl (λ σ e, (step σ e).1) σ es.

(** What holds of every pending cleanup timer: the socket that armed it
    is gone, it was a broadcaster's, it was closed when the timer was
    armed, and the timer is due one grace period later.  And a connected
    socket's variables belong to that socket. *)
Definition timers_armed_by_close (σ : Sys) : Prop :=
  (∀ t, t ∈ timers (world σ) →
     ∃ c, conns σ (owner t) = Gone c (armed_at t) ∧
          currentRole c = Some Broadcaster ∧
          due t = (armed_at t + GRACE_MS)%N) ∧
  (∀ s c, conns σ s = Connected c → conn_ws c = s).

(** [generateBroadcastId()] is a random draw and [create-broadcast]
    does not check it.  In the run [es] from [σ] it never returns the id
    of a broadcast that is registered when it is called. *)
Fixpoint fresh_ids (σ : Sys) (es : list Event) : bool :=
  match es with
  | [] => true
  | e :: rest =>
      match e with
      | EvMessage s fresh (Parsed (CreateBroadcast _ _)) =>
          match conns σ s with
          | Connected _ => negb (jm_has fresh (broadcasts (world σ)))
          | _ => true
          end
      | _ => true
      end
      && fresh_ids (step σ e).1 rest
  end.

(** Socket [s] carries connection [c], which is open or has closed and
    left a cleanup timer that has not fired yet. *)
Definition holds (σ : Sys) (s : WsId) (c : Conn) : Prop :=
  conns σ s = Connected c ∨
  ∃ t at_, t ∈ timers (world σ) ∧ owner t = s ∧ conns σ s = Gone c at_.

(** What holds of every run in which no registered id is issued again:
    no socket has two pending timers, and a connection that is open or
    has a pending timer, and whose role is broadcaster, is the
    broadcaster of the broadcast it is bound to, which is registered. *)
Definition broadcaster_bound (σ : Sys) : Prop :=
  timers_armed_by_close σ ∧
  NoDup (owner <$> timers (world σ)) ∧
  ∀ s c bid,
    holds σ s c → currentRole c = Some Broadcaster →
    currentBroadcastId c = Some bid →
    ∃ room b,
      jm_get bid (broadcasts (world σ)) = Some room ∧
      broadcaster room = Some b ∧ ws b = s ∧ currentPeerId c = Some (peerId b).

(** Messages the relay put on socket [s], in order. *)
Definition inbox (s : WsId) (effs : list Effect) : list ServerMsg :=
  effs ≫= λ e, match e with
               | Send s' m => if decide (s' = s) then [m] else []
               | Log _ => []
               end.

(** An example run: broadcaster B creates broadcast
    ABC123 on socket 0 and its socket closes at clock 5000; the cleanup
    timer is tried at clock 34999 and again at clock 35000. *)
Definition grace_scenario (wait : N) : list Event :=
  [EvConnect 0;
   EvTick 5000;
   EvMessage 0 "ABC123"
     (Parsed (CreateBroadcast "B" "Bea"));
   EvClose 0;
   EvTick wait].

(** An example run in which an id is issued twice: B1 creates broadcast
    ABC123 on socket 0 and its socket closes at clock 0; at clock 10000
    B2 creates a broadcast on socket 1 and is given ABC123 again; if
    [b2_closes], B2's socket closes at clock 20000; the clock then
    advances to 30000. *)
Definition reissue_scenario (b2_closes : bool) : list Event :=
  [EvConnect 0;
   EvMessage 0 "ABC123" (Parsed (CreateBroadcast "B1" "Bea"));
   EvClose 0;
   EvTick 10000;
   EvConnect 1;
   EvMessage 1 "ABC123" (Parsed (CreateBroadcast "B2" "Bob"));
   EvTick 10000]
  ++ (if b2_closes then [EvClose 1] else [])
  ++ [EvTick 10000].

End StarRelay.

(** ** RTCPeerConnection, as the hooks use it

    The ICE engine is external.  A peer connection is represented by what
    the hooks did to it: the descriptions they set, the candidates they
    passed to [addIceCandidate] (in call order), the calls of
    [restartIce] and of [close].  [inst] numbers the objects in the order
    [new RTCPeerConnection] constructed them. *)

Module Rtc.

Inductive Description :=
| LocalOffer (inst : nat)
| LocalAnswer (inst : nat)
| Remote (sdp : string).

Inductive ConnectionState :=
| StNew | StConnecting | StConnected | StDisconnected | StFailed | StClosed.

Record PeerConnection := {
  inst : nat;
  senders : list string;
  channels : list string;
  localDescription : option Description;
  remoteDescription : option Description;
  candidates : list string;
  connectionState : ConnectionState;
  restarts : nat;
  closed : bool
}.

Definition new_pc (n : nat) : PeerConnection :=
  {| inst := n; senders := []; channels := []; localDescription := None;
     remoteDescription := None; candidates := []; connectionState := StNew;
     restarts := 0; closed := false |}.

Definition addTrack (track : string) (pc : PeerConnection) : PeerConnection :=
  {| inst := inst pc; senders := senders pc ++ [track]; channels := channels pc;
     localDescription := localDescription pc;
     remoteDescription := remoteDescription pc; candidates := candidates pc;
     connectionState := connectionState pc; restarts := restarts pc;
     closed := closed pc |}.

(** [stream.getTracks().forEach(track => pc.addTrack(track, stream))] for a
    stream that may be [null]. *)
Definition addTracks (stream : option (list string)) (pc : PeerConnection) : PeerConnection :=
  match stream with
  | Some tracks => foldl (λ pc t, addTrack t pc) pc tracks
  | None => pc
  end.

Definition createDataChannel (label : string) (pc : PeerConnection) : PeerConnection :=
  {| inst := inst pc; senders := senders pc; channels := channels pc ++ [label];
     localDescription := localDescription pc;
     remoteDescription := remoteDescription pc; candidates := candidates pc;
     connectionState := connectionState pc; restarts := restarts pc;
     closed := closed pc |}.

Definition createOffer (pc : PeerConnection) : Description := LocalOffer (inst pc).
Definition createAnswer (pc : PeerConnection) : Description := LocalAnswer (inst pc).

Definition setLocalDescription (d : Description) (pc : PeerConnection) : PeerConnection :=
  {| inst := inst pc; senders := senders pc; channels := channels pc;
     localDescription := Some d;
     remoteDescription := remoteDescription pc; candidates := candidates pc;
     connectionState := connectionState pc; restarts := restarts pc;
     closed := closed pc |}.

Definition setRemoteDescription (d : Description) (pc : PeerConnection) : PeerConnection :=
  {| inst := inst pc; senders := senders pc; channels := channels pc;
     localDescription := localDescription pc;
     remoteDescription := Some d; candidates := candidates pc;
     connectionState := connectionState pc; restarts := restarts pc;
     closed := closed pc |}.

Definition addIceCandidate (c : string) (pc : PeerConnection) : PeerConnection :=
  {| inst := inst pc; senders := senders pc; channels := channels pc;
     localDescription := localDescription pc;
     remoteDescription := remoteDescription pc; candidates := candidates pc ++ [c];
     connectionState := connectionState pc; restarts := restarts pc;
     closed := closed pc |}.

Definition restartIce (pc : PeerConnection) : PeerConnection :=
  {| inst := inst pc; senders := senders pc; channels := channels pc;
     localDescription := localDescription pc;
     remoteDescription := remoteDescription pc; candidates := candidates pc;
     connectionState := connectionState pc; restarts := S (restarts pc);
     closed := closed pc |}.

(** The transport reports a new connectivity state on the object. *)
Definition setConnectionState (st : ConnectionState) (pc : PeerConnection) : PeerConnection :=
  {| inst := inst pc; senders := senders pc; channels := channels pc;
     localDescription := localDescription pc;
     remoteDescription := remoteDescription pc; candidates := candidates pc;
     connectionState := st; restarts := restarts pc;
     closed := closed pc |}.

(** [for (const candidate of pending) await pc.addIceCandidate(...)]. *)
Definition drain (pending : list string) (pc : PeerConnection) : PeerConnection :=
  foldl (λ pc c, addIceCandidate c pc) pc pending.

(** The body shared by every [pc.onconnectionstatechange] in the
    repository: log, and on ['failed'] call [pc.restartIce()]. *)
Definition onconnectionstatechange (pc : PeerConnection) : PeerConnection :=
  match connectionState pc with
  | StFailed => restartIce pc
  | _ => pc
  end.

(** The same session: the two records differ at most in the connectivity
    state last reported and in the number of [restartIce] calls. *)
Definition same_session (a b : PeerConnection) : Prop :=
  inst a = inst b ∧ senders a = senders b ∧ channels a = channels b ∧
  localDescription a = localDescription b ∧
  remoteDescription a = remoteDescription b ∧
  candidates a = candidates b ∧ closed a = closed b.

Arguments addTracks : simpl never.
Arguments drain : simpl never.
Arguments onconnectionstatechange : simpl never.

End Rtc.

(** ** useWebRTC of group-video-call *)

Module GroupCall.
Import Rtc.

Record RemotePeer := { peerId : string; stream : option string }.

Inductive SignalingMessage :=
| OfferTo (from to : string) (sdp : Description)
| AnswerTo (from to : string) (sdp : Description).

Record State := {
  props_localStream : option (list string);
  props_peerId : string;
  remotePeers : list RemotePeer;
  peerConnections : JsMap PeerConnection;
  pendingCandidates : JsMap (list string);
  constructed : nat;
  sent : list SignalingMessage
}.

Definition init (localStream : option (list string)) (self : string) : State :=
  {| props_localStream := localStream; props_peerId := self; remotePeers := [];
     peerConnections := []; pendingCandidates := []; constructed := 0; sent := [] |}.

Definition knows (remotePeerId : string) (prev : list RemotePeer) : bool :=
  existsb (λ p, bool_decide (peerId p = remotePeerId)) prev.

Definition createPeerConnection (remotePeerId : string) (initiator : bool)
    (s : State) : State :=
  if jm_has remotePeerId (peerConnections s) then s
  else
    let pc := addTracks (props_localStream s) (new_pc (constructed s)) in
    let pc' := if initiator then setLocalDescription (createOffer pc) pc else pc in
    {| props_localStream := props_localStream s;
       props_peerId := props_peerId s;
       remotePeers :=
         if knows remotePeerId (remotePeers s) then remotePeers s
         else remotePeers s ++ [{| peerId := remotePeerId; stream := None |}];
       peerConnections := jm_set remotePeerId pc' (peerConnections s);
       pendingCandidates := pendingCandidates s;
       constructed := S (constructed s);
       sent :=
         if initiator
         then sent s ++ [OfferTo (props_peerId s) remotePeerId (createOffer pc)]
         else sent s |}.

(** The part of [handleOffer] and [handleAnswer] after the connection is
    found: set the remote description, drain the pending candidates,
    delete the queue. *)
Definition applyRemote (remotePeerId : string) (sdp : string)
    (pc : PeerConnection) (s : State) : PeerConnection * JsMap (list string) :=
  let pc1 := setRemoteDescription (Remote sdp) pc in
  let pending := default [] (jm_get remotePeerId (pendingCandidates s)) in
  (drain pending pc1, jm_delete remotePeerId (pendingCandidates s)).

Definition handleOffer (remotePeerId : string) (sdp : string) (s : State) : State :=
  let s1 :=
    if negb (jm_has remotePeerId (peerConnections s))
    then createPeerConnection remotePeerId false s else s in
  match jm_get remotePeerId (peerConnections s1) with
  | None => s1
  | Some pc =>
      let '(pc2, pending') := applyRemote remotePeerId sdp pc s1 in
      let answer := createAnswer pc2 in
      {| props_localStream := props_localStream s1;
         props_peerId := props_peerId s1;
         remotePeers := remotePeers s1;
         peerConnections :=
           jm_set remotePeerId (setLocalDescription answer pc2) (peerConnections s1);
         pendingCandidates := pending';
         constructed := constructed s1;
         sent := sent s1 ++ [AnswerTo (props_peerId s1) remotePeerId answer] |}
  end.

Definition handleAnswer (remotePeerId : string) (sdp : string) (s : State) : State :=
  match jm_get remotePeerId (peerConnections s) with
  | None => s
  | Some pc =>
      let '(pc2, pending') := applyRemote remotePeerId sdp pc s in
      {| props_localStream := props_localStream s;
         props_peerId := props_peerId s;
         remotePeers := remotePeers s;
         peerConnections := jm_set remotePeerId pc2 (peerConnections s);
         pendingCandidates := pending';
         constructed := constructed s;
         sent := sent s |}
  end.

(** [pc?.remoteDescription] is truthy. *)
Definition has_remote (remotePeerId : string) (s : State) : option PeerConnection :=
  match jm_get remotePeerId (peerConnections s) with
  | Some pc => if remoteDescription pc is Some _ then Some pc else None
  | None => None
  end.

Definition handleIceCandidate (remotePeerId : string) (candidate : string)
    (s : State) : State :=
  match has_remote remotePeerId s with
  | Some pc =>
      {| props_localStream := props_localStream s;
         props_peerId := props_peerId s;
         remotePeers := remotePeers s;
         peerConnections :=
           jm_set remotePeerId (addIceCandidate candidate pc) (peerConnections s);
         pendingCandidates := pendingCandidates s;
         constructed := constructed s;
         sent := sent s |}
  | None =>
      let pending1 :=
        if negb (jm_has remotePeerId (pendingCandidates s))
        then jm_set remotePeerId [] (pendingCandidates s)
        else pendingCandidates s in
      let queue := default [] (jm_get remotePeerId pending1) in
      {| props_localStream := props_localStream s;
         props_peerId := props_peerId s;
         remotePeers := remotePeers s;
         peerConnections := peerConnections s;
         pendingCandidates := jm_set remotePeerId (queue ++ [candidate]) pending1;
         constructed := constructed s;
         sent := sent s |}
  end.

Definition removePeer (remotePeerId : string) (s : State) : State :=
  {| props_localStream := props_localStream s;
     props_peerId := props_peerId s;
     remotePeers := filter (λ p, peerId p ≠ remotePeerId) (remotePeers s);
     peerConnections := jm_delete remotePeerId (peerConnections s);
     pendingCandidates := jm_delete remotePeerId (pendingCandidates s);
     constructed := constructed s;
     sent := sent s |}.

Definition closeAllConnections (s : State) : State :=
  {| props_localStream := props_localStream s;
     props_peerId := props_peerId s;
     remotePeers := [];
     peerConnections := [];
     pendingCandidates := [];
     constructed := constructed s;
     sent := sent s |}.

(** The transport reports [st] on the connection to [remotePeerId]; the
    [onconnectionstatechange] handler installed by [createPeerConnection]
    runs. *)
Definition connectionStateChanged (remotePeerId : string) (st : ConnectionState)
    (s : State) : State :=
  match jm_get remotePeerId (peerConnections s) with
  | Some pc =>
      {| props_localStream := props_localStream s;
         props_peerId := props_peerId s;
         remotePeers := remotePeers s;
         peerConnections :=
           jm_set remotePeerId (onconnectionstatechange (setConnectionState st pc))
             (peerConnections s);
         pendingCandidates := pendingCandidates s;
         constructed := constructed s;
         sent := sent s |}
  | None => s
  end.

(** What reaches the hook: signaling messages from a remote peer, local
    requests to connect, and reports of the transport. *)
Inductive Event :=
| Create (remotePeerId : string) (initiator : bool)
| GotOffer (from sdp : string)
| GotAnswer (from sdp : string)
| GotIceCandidate (from candidate : string)
| StateChanged (remotePeerId : string) (st : ConnectionState).

Definition step (s : State) (e : Event) : State :=
  match e with
  | Create p i => createPeerConnection p i s
  | GotOffer p sdp => handleOffer p sdp s
  | GotAnswer p sdp => handleAnswer p sdp s
  | GotIceCandidate p c => handleIceCandidate p c s
  | StateChanged p st => connectionStateChanged p st s
  end.

Definition run (s : State) (es : list Event) : State := foldl step s es.

(** The candidates received from [p], in arrival order. *)
Definition arrivals (p : string) (es : list Event) : list string :=
  es ≫= λ e, match e with
             | GotIceCandidate q c => if decide (q = p) then [c] else []
             | _ => []
             end.

(** The candidates passed to [addIceCandidate] on the connection to [p]. *)
Definition applied (p : string) (s : State) : list string :=
  match jm_get p (peerConnections s) with
  | Some pc => candidates pc
  | None => []
  end.

(** The pending-candidate queue of [p]. *)
Definition queued (p : string) (s : State) : list string :=
  default [] (jm_get p (pendingCandidates s)).

(** A remote description is set on the connection to [p]. *)
Definition described (p : string) (s : State) : bool :=
  match has_remote p s with Some _ => true | None => false end.

(** The remote peer an event is about. *)
Definition peer_of (e : Event) : string :=
  match e with
  | Create p _ | GotOffer p _ | GotAnswer p _ | GotIceCandidate p _
  | StateChanged p _ => p
  end.

(** The per-peer candidate invariant: what was passed to the engine
    followed by what is still queued is [arr], and a peer with a remote
    description has no queue. *)
Definition ice_inv (p : string) (s : State) (arr : list string) : Prop :=
  applied p s ++ queued p s = arr ∧
  (described p s = true → jm_get p (pendingCandidates s) = None).

End GroupCall.

(** ** useWebRTC of group-video-call, await by await

    [handleOffer] and [handleAnswer] are [async]: at every [await] of an
    engine promise the invocation is suspended and the next signaling
    message may be handled before it resumes (the App calls the handlers
    without awaiting them).  A [Task] is an invocation suspended at one
    of those awaits.  [pc.remoteDescription] is set when the promise of
    [setRemoteDescription] resolves; [addIceCandidate] is recorded when
    it is called, the engine serving its calls in call order.

    The [for ... of] loop iterates the array it fetched after the
    remote description was set.  While a loop for [p] is suspended the
    connection to [p] has a remote description, so [handleIceCandidate]
    does not push to that array: [Draining] carries the elements not yet
    visited. *)

Module GroupCallAsync.
Import Rtc GroupCall.

Inductive Task :=
| SettingRemote (answers : bool) (p sdp : string)
| Draining (answers : bool) (p : string) (rest : list string)
| CreatingAnswer (p : string)
| SettingLocal (p : string) (answer : Description).

Definition update_pc (p : string) (f : PeerConnection → PeerConnection)
    (s : State) : State :=
  match jm_get p (peerConnections s) with
  | Some pc =>
      {| props_localStream := props_localStream s;
         props_peerId := props_peerId s;
         remotePeers := remotePeers s;
         peerConnections := jm_set p (f pc) (peerConnections s);
         pendingCandidates := pendingCandidates s;
         constructed := constructed s;
         sent := sent s |}
  | None => s
  end.

Definition delete_queue (p : string) (s : State) : State :=
  {| props_localStream := props_localStream s;
     props_peerId := props_peerId s;
     remotePeers := remotePeers s;
     peerConnections := peerConnections s;
     pendingCandidates := jm_delete p (pendingCandidates s);
     constructed := constructed s;
     sent := sent s |}.

Definition send_answer (p : string) (answer : Description) (s : State) : State :=
  {| props_localStream := props_localStream s;
     props_peerId := props_peerId s;
     remotePeers := remotePeers s;
     peerConnections := peerConnections s;
     pendingCandidates := pendingCandidates s;
     constructed := constructed s;
     sent := sent s ++ [AnswerTo (props_peerId s) p answer] |}.

(** [handleOffer] up to [await pc.setRemoteDescription(...)]. *)
Definition begin_offer (p sdp : string) (s : State) : State * option Task :=
  let s1 :=
    if negb (jm_has p (peerConnections s))
    then createPeerConnection p false s else s in
  match jm_get p (peerConnections s1) with
  | None => (s1, None)
  | Some _ => (s1, Some (SettingRemote true p sdp))
  end.

(** [handleAnswer] up to [await pc.setRemoteDescription(...)]. *)
Definition begin_answer (p sdp : string) (s : State) : State * option Task :=
  match jm_get p (peerConnections s) with
  | None => (s, None)
  | Some _ => (s, Some (SettingRemote false p sdp))
  end.

(** One more turn of the loop, or the statements after it, up to the next
    await. *)
Definition continue_drain (answers : bool) (p : string) (rest : list string)
    (s : State) : State * option Task :=
  match rest with
  | c :: rest' => (update_pc p (addIceCandidate c) s, Some (Draining answers p rest'))
  | [] =>
      (delete_queue p s, if answers then Some (CreatingAnswer p) else None)
  end.

(** The awaited promise resolves and the invocation runs to its next
    await, or to its end. *)
Definition resume (t : Task) (s : State) : State * option Task :=
  match t with
  | SettingRemote answers p sdp =>
      let s1 := update_pc p (setRemoteDescription (Remote sdp)) s in
      continue_drain answers p (default [] (jm_get p (pendingCandidates s1))) s1
  | Draining answers p rest => continue_drain answers p rest s
  | CreatingAnswer p =>
      match jm_get p (peerConnections s) with
      | Some pc => (s, Some (SettingLocal p (createAnswer pc)))
      | None => (s, None)
      end
  | SettingLocal p answer =>
      (send_answer p answer (update_pc p (setLocalDescription answer) s), None)
  end.

(** What the event loop does next: handle a message that arrived, or
    resume the [i]-th suspended invocation. *)
Inductive Action :=
| ArriveOffer (from sdp : string)
| ArriveAnswer (from sdp : string)
| ArriveIceCandidate (from candidate : string)
| Resume (i : nat).

Definition spawn (r : State * option Task) (pool : list Task) : State * list Task :=
  match r.2 with
  | Some t => (r.1, pool ++ [t])
  | None => (r.1, pool)
  end.

Definition act (σ : State * list Task) (a : Action) : State * list Task :=
  let '(s, pool) := σ in
  match a with
  | ArriveOffer p sdp => spawn (begin_offer p sdp s) pool
  | ArriveAnswer p sdp => spawn (begin_answer p sdp s) pool
  | ArriveIceCandidate p c => (handleIceCandidate p c s, pool)
  | Resume i =>
      match pool !! i with
      | Some t =>
          let r := resume t s in
          match r.2 with
          | Some t' => (r.1, <[i := t']> pool)
          | None => (r.1, delete i pool)
          end
      | None => σ
      end
  end.

Definition schedule (σ : State * list Task) (as_ : list Action) : State * list Task :=
  foldl act σ as_.

(** The candidates received from [p], in arrival order. *)
Definition arrived (p : string) (as_ : list Action) : list string :=
  as_ ≫= λ a, match a with
              | ArriveIceCandidate q c => if decide (q = p) then [c] else []
              | _ => []
              end.

(** An invocation resumed again and again with nothing in between. *)
Fixpoint complete (fuel : nat) (r : State * option Task) : State * option Task :=
  match fuel, r.2 with
  | S n, Some t => complete n (resume t r.1)
  | _, _ => r
  end.

End GroupCallAsync.

(** ** useWebRTC of expanded-video-call *)

Module ExpandedCall.
Import Rtc.

Record RemotePeer := {
  peerId : string;
  username : string;
  stream : option string;
  screenStream : option string
}.

Inductive SignalingMessage :=
| OfferTo (to : string) (sdp : Description) (username : string)
| AnswerTo (to : string) (sdp : Description).

Record State := {
  localStreamRef : option (list string);
  screenStreamRef : option (list string);
  usernameRef : string;
  remotePeers : list RemotePeer;
  peerConnections : JsMap PeerConnection;
  dataChannels : JsMap string;
  pendingCandidates : JsMap (list string);
  constructed : nat;
  sent : list SignalingMessage
}.

Definition init (localStream screenStream : option (list string)) (uname : string) : State :=
  {| localStreamRef := localStream; screenStreamRef := screenStream;
     usernameRef := uname; remotePeers := []; peerConnections := [];
     dataChannels := []; pendingCandidates := []; constructed := 0; sent := [] |}.

Definition knows (remotePeerId : string) (prev : list RemotePeer) : bool :=
  existsb (λ p, bool_decide (peerId p = remotePeerId)) prev.

Definition createPeerConnection (remotePeerId remoteUsername : string)
    (initiator : bool) (s : State) : State :=
  if jm_has remotePeerId (peerConnections s) then s
  else
    let pc0 := addTracks (screenStreamRef s)
                 (addTracks (localStreamRef s) (new_pc (constructed s))) in
    let pc := if initiator then createDataChannel "chat" pc0 else pc0 in
    let pc' := if initiator then setLocalDescription (createOffer pc) pc else pc in
    {| localStreamRef := localStreamRef s;
       screenStreamRef := screenStreamRef s;
       usernameRef := usernameRef s;
       remotePeers :=
         if knows remotePeerId (remotePeers s) then remotePeers s
         else remotePeers s
                ++ [{| peerId := remotePeerId; username := remoteUsername;
                       stream := None; screenStream := None |}];
       peerConnections := jm_set remotePeerId pc' (peerConnections s);
       dataChannels :=
         if initiator then jm_set remotePeerId "chat" (dataChannels s)
         else dataChannels s;
       pendingCandidates := pendingCandidates s;
       constructed := S (constructed s);
       sent :=
         if initiator
         then sent s ++ [OfferTo remotePeerId (createOffer pc) (usernameRef s)]
         else sent s |}.

(** [p.peerId === remotePeerId && p.username === 'Unknown' ? {...p,
    username: remoteUsername} : p]. *)
Definition rename_unknown (remotePeerId remoteUsername : string) (p : RemotePeer)
    : RemotePeer :=
  if bool_decide (peerId p = remotePeerId) && bool_decide (username p = "Unknown")
  then {| peerId := peerId p; username := remoteUsername;
          stream := stream p; screenStream := screenStream p |}
  else p.

Definition applyRemote (remotePeerId : string) (sdp : string)
    (pc : PeerConnection) (s : State) : PeerConnection * JsMap (list string) :=
  let pc1 := setRemoteDescription (Remote sdp) pc in
  let pending := default [] (jm_get remotePeerId (pendingCandidates s)) in
  (drain pending pc1, jm_delete remotePeerId (pendingCandidates s)).

Definition handleOffer (remotePeerId remoteUsername : string) (sdp : string)
    (s : State) : State :=
  let s1 :=
    if negb (jm_has remotePeerId (peerConnections s))
    then createPeerConnection remotePeerId remoteUsername false s
    else
      {| localStreamRef := localStreamRef s;
         screenStreamRef := screenStreamRef s;
         usernameRef := usernameRef s;
         remotePeers := rename_unknown remotePeerId remoteUsername <$> remotePeers s;
         peerConnections := peerConnections s;
         dataChannels := dataChannels s;
         pendingCandidates := pendingCandidates s;
         constructed := constructed s;
         sent := sent s |} in
  match jm_get remotePeerId (peerConnections s1) with
  | None => s1
  | Some pc =>
      let '(pc2, pending') := applyRemote remotePeerId sdp pc s1 in
      let answer := createAnswer pc2 in
      {| localStreamRef := localStreamRef s1;
         screenStreamRef := screenStreamRef s1;
         usernameRef := usernameRef s1;
         remotePeers := remotePeers s1;
         peerConnections :=
           jm_set remotePeerId (setLocalDescription answer pc2) (peerConnections s1);
         dataChannels := dataChannels s1;
         pendingCandidates := pending';
         constructed := constructed s1;
         sent := sent s1 ++ [AnswerTo remotePeerId answer] |}
  end.

Definition handleAnswer (remotePeerId : string) (sdp : string) (s : State) : State :=
  match jm_get remotePeerId (peerConnections s) with
  | None => s
  | Some pc =>
      let '(pc2, pending') := applyRemote remotePeerId sdp pc s in
      {| localStreamRef := localStreamRef s;
         screenStreamRef := screenStreamRef s;
         usernameRef := usernameRef s;
         remotePeers := remotePeers s;
         peerConnections := jm_set remotePeerId pc2 (peerConnections s);
         dataChannels := dataChannels s;
         pendingCandidates := pending';
         constructed := constructed s;
         sent := sent s |}
  end.

(** The negation of [!pc || !pc.remoteDescription]. *)
Definition has_remote (remotePeerId : string) (s : State) : option PeerConnection :=
  match jm_get remotePeerId (peerConnections s) with
  | Some pc => if remoteDescription pc is Some _ then Some pc else None
  | None => None
  end.

Definition handleIceCandidate (remotePeerId : string) (candidate : string)
    (s : State) : State :=
  match has_remote remotePeerId s with
  | None =>
      let pending := default [] (jm_get remotePeerId (pendingCandidates s)) in
      {| localStreamRef := localStreamRef s;
         screenStreamRef := screenStreamRef s;
         usernameRef := usernameRef s;
         remotePeers := remotePeers s;
         peerConnections := peerConnections s;
         dataChannels := dataChannels s;
         pendingCandidates :=
           jm_set remotePeerId (pending ++ [candidate]) (pendingCandidates s);
         constructed := constructed s;
         sent := sent s |}
  | Some pc =>
      {| localStreamRef := localStreamRef s;
         screenStreamRef := screenStreamRef s;
         usernameRef := usernameRef s;
         remotePeers := remotePeers s;
         peerConnections :=
           jm_set remotePeerId (addIceCandidate candidate pc) (peerConnections s);
         dataChannels := dataChannels s;
         pendingCandidates := pendingCandidates s;
         constructed := constructed s;
         sent := sent s |}
  end.

Definition removePeer (remotePeerId : string) (s : State) : State :=
  {| localStreamRef := localStreamRef s;
     screenStreamRef := screenStreamRef s;
     usernameRef := usernameRef s;
     remotePeers := filter (λ p, peerId p ≠ remotePeerId) (remotePeers s);
     peerConnections := jm_delete remotePeerId (peerConnections s);
     dataChannels := jm_delete remotePeerId (dataChannels s);
     pendingCandidates := jm_delete remotePeerId (pendingCandidates s);
     constructed := constructed s;
     sent := sent s |}.

Definition closeAllConnections (s : State) : State :=
  {| localStreamRef := localStreamRef s;
     screenStreamRef := screenStreamRef s;
     usernameRef := usernameRef s;
     remotePeers := [];
     peerConnections := [];
     dataChannels := [];
     pendingCandidates := [];
     constructed := constructed s;
     sent := sent s |}.

Definition connectionStateChanged (remotePeerId : string) (st : ConnectionState)
    (s : State) : State :=
  match jm_get remotePeerId (peerConnections s) with
  | Some pc =>
      {| localStreamRef := localStreamRef s;
         screenStreamRef := screenStreamRef s;
         usernameRef := usernameRef s;
         remotePeers := remotePeers s;
         peerConnections :=
           jm_set remotePeerId (onconnectionstatechange (setConnectionState st pc))
             (peerConnections s);
         dataChannels := dataChannels s;
         pendingCandidates := pendingCandidates s;
         constructed := constructed s;
         sent := sent s |}
  | None => s
  end.

Inductive Event :=
| Create (remotePeerId remoteUsername : string) (initiator : bool)
| GotOffer (from username sdp : string)
| GotAnswer (from sdp : string)
| GotIceCandidate (from candidate : string)
| StateChanged (remotePeerId : string) (st : ConnectionState).

Definition step (s : State) (e : Event) : State :=
  match e with
  | Create p u i => createPeerConnection p u i s
  | GotOffer p u sdp => handleOffer p u sdp s
  | GotAnswer p sdp => handleAnswer p sdp s
  | GotIceCandidate p c => handleIceCandidate p c s
  | StateChanged p st => connectionStateChanged p st s
  end.

Definition run (s : State) (es : list Event) : State := foldl step s es.

Definition arrivals (p : string) (es : list Event) : list string :=
  es ≫= λ e, match e with
             | GotIceCandidate q c => if decide (q = p) then [c] else []
             | _ => []
             end.

Definition applied (p : string) (s : State) : list string :=
  match jm_get p (peerConnections s) with
  | Some pc => candidates pc
  | None => []
  end.

Definition queued (p : string) (s : State) : list string :=
  default [] (jm_get p (pendingCandidates s)).

Definition described (p : string) (s : State) : bool :=
  match has_remote p s with Some _ => true | None => false end.

Definition peer_of (e : Event) : string :=
  match e with
  | Create p _ _ | GotOffer p _ _ | GotAnswer p _ | GotIceCandidate p _
  | StateChanged p _ => p
  end.

Definition ice_inv (p : string) (s : State) (arr : list string) : Prop :=
  applied p s ++ queued p s = arr ∧
  (described p s = true → jm_get p (pendingCandidates s) = None).

End ExpandedCall.

(** ** useBroadcasterWebRTC of broadcast *)

Module BroadcasterRtc.
Import Rtc.

Record ViewerInfo := { peerId : string; username : string }.

Inductive SignalingMessage :=
| OfferTo (to : string) (sdp : Description).

Record State := {
  viewers : list ViewerInfo;
  viewerCount : Z;
  localStreamRef : option (list string);
  peerConnections : JsMap PeerConnection;
  pendingCandidates : JsMap (list string);
  constructed : nat;
  sent : list SignalingMessage
}.

Definition init (localStream : option (list string)) : State :=
  {| viewers := []; viewerCount := 0; localStreamRef := localStream;
     peerConnections := []; pendingCandidates := []; constructed := 0; sent := [] |}.

Definition knows (viewerPeerId : string) (prev : list ViewerInfo) : bool :=
  existsb (λ v, bool_decide (peerId v = viewerPeerId)) prev.

Definition createConnectionForViewer (viewerPeerId viewerUsername : string)
    (s : State) : State :=
  if jm_has viewerPeerId (peerConnections s) then s
  else
    let pc := addTracks (localStreamRef s) (new_pc (constructed s)) in
    let offer := createOffer pc in
    {| viewers :=
         if knows viewerPeerId (viewers s) then viewers s
         else viewers s ++ [{| peerId := viewerPeerId; username := viewerUsername |}];
       viewerCount := (viewerCount s + 1)%Z;
       localStreamRef := localStreamRef s;
       peerConnections :=
         jm_set viewerPeerId (setLocalDescription offer pc) (peerConnections s);
       pendingCandidates := pendingCandidates s;
       constructed := S (constructed s);
       sent := sent s ++ [OfferTo viewerPeerId offer] |}.

Definition handleAnswer (viewerPeerId : string) (sdp : string) (s : State) : State :=
  match jm_get viewerPeerId (peerConnections s) with
  | None => s
  | Some pc =>
      let pc1 := setRemoteDescription (Remote sdp) pc in
      let pending := default [] (jm_get viewerPeerId (pendingCandidates s)) in
      {| viewers := viewers s;
         viewerCount := viewerCount s;
         localStreamRef := localStreamRef s;
         peerConnections := jm_set viewerPeerId (drain pending pc1) (peerConnections s);
         pendingCandidates := jm_delete viewerPeerId (pendingCandidates s);
         constructed := constructed s;
         sent := sent s |}
  end.

Definition has_remote (viewerPeerId : string) (s : State) : option PeerConnection :=
  match jm_get viewerPeerId (peerConnections s) with
  | Some pc => if remoteDescription pc is Some _ then Some pc else None
  | None => None
  end.

Definition handleIceCandidate (viewerPeerId : string) (candidate : string)
    (s : State) : State :=
  match has_remote viewerPeerId s with
  | None =>
      let pending := default [] (jm_get viewerPeerId (pendingCandidates s)) in
      {| viewers := viewers s;
         viewerCount := viewerCount s;
         localStreamRef := localStreamRef s;
         peerConnections := peerConnections s;
         pendingCandidates :=
           jm_set viewerPeerId (pending ++ [candidate]) (pendingCandidates s);
         constructed := constructed s;
         sent := sent s |}
  | Some pc =>
      {| viewers := viewers s;
         viewerCount := viewerCount s;
         localStreamRef := localStreamRef s;
         peerConnections :=
           jm_set viewerPeerId (addIceCandidate candidate pc) (peerConnections s);
         pendingCandidates := pendingCandidates s;
         constructed := constructed s;
         sent := sent s |}
  end.

Definition removeViewer (viewerPeerId : string) (s : State) : State :=
  {| viewers := filter (λ v, peerId v ≠ viewerPeerId) (viewers s);
     viewerCount := Z.max 0 (viewerCount s - 1);
     localStreamRef := localStreamRef s;
     peerConnections := jm_delete viewerPeerId (peerConnections s);
     pendingCandidates := jm_delete viewerPeerId (pendingCandidates s);
     constructed := constructed s;
     sent := sent s |}.

Definition closeAllConnections (s : State) : State :=
  {| viewers := [];
     viewerCount := 0;
     localStreamRef := localStreamRef s;
     peerConnections := [];
     pendingCandidates := [];
     constructed := constructed s;
     sent := sent s |}.

Definition connectionStateChanged (viewerPeerId : string) (st : ConnectionState)
    (s : State) : State :=
  match jm_get viewerPeerId (peerConnections s) with
  | Some pc =>
      {| viewers := viewers s;
         viewerCount := viewerCount s;
         localStreamRef := localStreamRef s;
         peerConnections :=
           jm_set viewerPeerId (onconnectionstatechange (setConnectionState st pc))
             (peerConnections s);
         pendingCandidates := pendingCandidates s;
         constructed := constructed s;
         sent := sent s |}
  | None => s
  end.

End BroadcasterRtc.

(** ** useViewerWebRTC of broadcast *)

Module ViewerRtc.
Import Rtc.

Inductive SignalingMessage :=
| AnswerTo (to : string) (sdp : Description).

Record State := {
  peerConnection : option PeerConnection;
  pendingCandidates : list string;
  constructed : nat;
  sent : list SignalingMessage
}.

Definition init : State :=
  {| peerConnection := None; pendingCandidates := []; constructed := 0; sent := [] |}.

Definition handleOffer (sdp : string) (s : State) : State :=
  let '(pc, n) :=
    match peerConnection s with
    | Some pc => (pc, constructed s)
    | None => (new_pc (constructed s), S (constructed s))
    end in
  let pc2 := drain (pendingCandidates s) (setRemoteDescription (Remote sdp) pc) in
  let answer := createAnswer pc2 in
  {| peerConnection := Some (setLocalDescription answer pc2);
     pendingCandidates := [];
     constructed := n;
     sent := sent s ++ [AnswerTo "broadcaster" answer] |}.

Definition handleIceCandidate (candidate : string) (s : State) : State :=
  match peerConnection s with
  | Some pc =>
      if remoteDescription pc is Some _ then
        {| peerConnection := Some (addIceCandidate candidate pc);
           pendingCandidates := pendingCandidates s;
           constructed := constructed s; sent := sent s |}
      else
        {| peerConnection := peerConnection s;
           pendingCandidates := pendingCandidates s ++ [candidate];
           constructed := constructed s; sent := sent s |}
  | None =>
      {| peerConnection := None;
         pendingCandidates := pendingCandidates s ++ [candidate];
         constructed := constructed s; sent := sent s |}
  end.

Definition closeConnection (s : State) : State :=
  {| peerConnection := None; pendingCandidates := [];
     constructed := constructed s; sent := sent s |}.

End ViewerRtc.

(** ** App of broadcast: the signaling-message handler and the go-live
    and leave actions

    The messages the App receives are the relay's [ServerMsg]; the ones
    it sends itself are the relay's [ClientMsg]; [sent] lists those that
    went out on the socket, [signalingOpen] tells whether the socket of
    [useSignaling] is open.  [view] stands for both
    the [view] state and [viewRef.current], which an effect copies from
    it after every render. *)

Module BroadcastApp.

Inductive AppView := Home | BroadcasterLobby | ViewerLobby | Broadcasting | Viewing.

Record ChatMessage := {
  id : N * option string;
  from : option string;
  username : string;
  text : string;
  timestamp : N
}.

Record State := {
  view : AppView;
  broadcastId : option string;
  peerId : string;
  isLive : bool;
  broadcasterUsername : option string;
  messages : list ChatMessage;
  isConnecting : bool;
  broadcasterWebRTC : BroadcasterRtc.State;
  viewerWebRTC : ViewerRtc.State;
  signalingOpen : bool;
  sent : list StarRelay.ClientMsg
}.

Definition init (self : string) (localStream : option (list string)) : State :=
  {| view := Home; broadcastId := None; peerId := self; isLive := false;
     broadcasterUsername := None; messages := []; isConnecting := false;
     broadcasterWebRTC := BroadcasterRtc.init localStream;
     viewerWebRTC := ViewerRtc.init; signalingOpen := false; sent := [] |}.

Definition with_view (v : AppView) (s : State) : State :=
  {| view := v; broadcastId := broadcastId s; peerId := peerId s;
     isLive := isLive s; broadcasterUsername := broadcasterUsername s;
     messages := messages s; isConnecting := isConnecting s;
     broadcasterWebRTC := broadcasterWebRTC s; viewerWebRTC := viewerWebRTC s;
     signalingOpen := signalingOpen s;
     sent := sent s |}.

Definition with_isLive (b : bool) (s : State) : State :=
  {| view := view s; broadcastId := broadcastId s; peerId := peerId s;
     isLive := b; broadcasterUsername := broadcasterUsername s;
     messages := messages s; isConnecting := isConnecting s;
     broadcasterWebRTC := broadcasterWebRTC s; viewerWebRTC := viewerWebRTC s;
     signalingOpen := signalingOpen s;
     sent := sent s |}.

Definition with_broadcaster (b : BroadcasterRtc.State) (s : State) : State :=
  {| view := view s; broadcastId := broadcastId s; peerId := peerId s;
     isLive := isLive s; broadcasterUsername := broadcasterUsername s;
     messages := messages s; isConnecting := isConnecting s;
     broadcasterWebRTC := b; viewerWebRTC := viewerWebRTC s;
     signalingOpen := signalingOpen s;
     sent := sent s |}.

Definition with_viewer (v : ViewerRtc.State) (s : State) : State :=
  {| view := view s; broadcastId := broadcastId s; peerId := peerId s;
     isLive := isLive s; broadcasterUsername := broadcasterUsername s;
     messages := messages s; isConnecting := isConnecting s;
     broadcasterWebRTC := broadcasterWebRTC s; viewerWebRTC := v;
     signalingOpen := signalingOpen s;
     sent := sent s |}.

(** The socket of [useSignaling] reports open ([ws.onopen]). *)
Definition onopen (s : State) : State :=
  {| view := view s; broadcastId := broadcastId s; peerId := peerId s;
     isLive := isLive s; broadcasterUsername := broadcasterUsername s;
     messages := messages s; isConnecting := isConnecting s;
     broadcasterWebRTC := broadcasterWebRTC s; viewerWebRTC := viewerWebRTC s;
     signalingOpen := true;
     sent := sent s |}.

(** [signaling.send]: the message goes out when the socket is open and
    is dropped with a warning otherwise. *)
Definition send (m : StarRelay.ClientMsg) (s : State) : State :=
  if signalingOpen s then
    {| view := view s; broadcastId := broadcastId s; peerId := peerId s;
       isLive := isLive s; broadcasterUsername := broadcasterUsername s;
       messages := messages s; isConnecting := isConnecting s;
       broadcasterWebRTC := broadcasterWebRTC s; viewerWebRTC := viewerWebRTC s;
       signalingOpen := signalingOpen s;
       sent := sent s ++ [m] |}
  else s.

Definition handleSignalingMessage (message : StarRelay.ServerMsg) (s : State) : State :=
  match message with
  | StarRelay.BroadcastCreated bid =>
      {| view := view s; broadcastId := Some bid; peerId := peerId s;
         isLive := isLive s; broadcasterUsername := broadcasterUsername s;
         messages := messages s; isConnecting := isConnecting s;
         broadcasterWebRTC := broadcasterWebRTC s; viewerWebRTC := viewerWebRTC s;
         signalingOpen := signalingOpen s;
         sent := sent s |}
  | StarRelay.BroadcastInfo _ live uname =>
      {| view := view s; broadcastId := broadcastId s; peerId := peerId s;
         isLive := live; broadcasterUsername := Some uname;
         messages := messages s; isConnecting := false;
         broadcasterWebRTC := broadcasterWebRTC s; viewerWebRTC := viewerWebRTC s;
         signalingOpen := signalingOpen s;
         sent := sent s |}
  | StarRelay.BroadcastStarted _ => with_isLive true s
  | StarRelay.BroadcastEnded _ =>
      let s1 := with_isLive false s in
      match view s with
      | Viewing => with_view ViewerLobby s1
      | _ => s1
      end
  | StarRelay.ViewerJoined pid uname =>
      match view s with
      | Broadcasting =>
          with_broadcaster
            (BroadcasterRtc.createConnectionForViewer pid uname (broadcasterWebRTC s)) s
      | _ => s
      end
  | StarRelay.ViewerLeft pid =>
      with_broadcaster (BroadcasterRtc.removeViewer pid (broadcasterWebRTC s)) s
  | StarRelay.ViewerCount _ => s
  | StarRelay.OfferFrom _ sdp =>
      match view s with
      | Viewing => with_viewer (ViewerRtc.handleOffer sdp (viewerWebRTC s)) s
      | ViewerLobby =>
          with_viewer (ViewerRtc.handleOffer sdp (viewerWebRTC s)) (with_view Viewing s)
      | _ => s
      end
  | StarRelay.AnswerFrom from sdp =>
      match view s, from with
      | Broadcasting, Some p =>
          if truthy from
          then with_broadcaster (BroadcasterRtc.handleAnswer p sdp (broadcasterWebRTC s)) s
          else s
      | _, _ => s
      end
  | StarRelay.IceCandidateFrom from candidate =>
      match view s, from with
      | Broadcasting, Some p =>
          if truthy from
          then with_broadcaster
                 (BroadcasterRtc.handleIceCandidate p candidate (broadcasterWebRTC s)) s
          else s
      | Viewing, _ =>
          with_viewer (ViewerRtc.handleIceCandidate candidate (viewerWebRTC s)) s
      | _, _ => s
      end
  | StarRelay.Chat i f u t ts =>
      {| view := view s; broadcastId := broadcastId s; peerId := peerId s;
         isLive := isLive s; broadcasterUsername := broadcasterUsername s;
         messages := messages s
                     ++ [{| id := i; from := f; username := u; text := t;
                            timestamp := ts |}];
         isConnecting := isConnecting s;
         broadcasterWebRTC := broadcasterWebRTC s; viewerWebRTC := viewerWebRTC s;
         signalingOpen := signalingOpen s;
         sent := sent s |}
  | StarRelay.Error _ => s
  end.

(** [handleGoLive]. *)
Definition handleGoLive (s : State) : State :=
  if truthy (broadcastId s) then
    match broadcastId s with
    | Some bid =>
        with_view Broadcasting (with_isLive true (send (StarRelay.StartBroadcast bid) s))
    | None => s
    end
  else s.

(** [handleLeaveBroadcast]: tell the relay, drop the connection to the
    broadcaster, close the signaling socket ([signaling.disconnect()]) and
    go home. *)
Definition handleLeaveBroadcast (s : State) : State :=
  let s1 :=
    if truthy (broadcastId s) then
      match broadcastId s with
      | Some bid => send (StarRelay.LeaveBroadcast bid (peerId s)) s
      | None => s
      end
    else s in
  {| view := Home; broadcastId := None; peerId := peerId s1;
     isLive := false; broadcasterUsername := None;
     messages := []; isConnecting := isConnecting s1;
     broadcasterWebRTC := broadcasterWebRTC s1;
     viewerWebRTC := ViewerRtc.closeConnection (viewerWebRTC s1);
     signalingOpen := false;
     sent := sent s1 |}.

(** The App handles the messages that arrived, in order. *)
Definition receive (ms : list StarRelay.ServerMsg) (s : State) : State :=
  foldl (λ s m, handleSignalingMessage m s) s ms.

End BroadcastApp.

(** ** utils/routing of expanded-video-call

    Meeting ids and the hash route.  [Math.random] is external: the
    generator takes the indices [Math.floor(Math.random() * chars.length)]
    it draws, [rnd k] being the one of its [k]-th draw.  A string is a
    sequence of characters; the hash of a location holds ASCII only. *)

Module Routing.
Import Stdlib.Strings.Ascii.

Definition chars : string := "abcdefghijklmnopqrstuvwxyz0123456789".

Definition segments : list nat := [4; 4; 4].

(** [chars[i]] as [join('')] renders it: the character, or nothing for
    an index past the end. *)
Definition char_at (i : nat) : string :=
  match String.get i chars with
  | Some a => String a ""
  | None => ""
  end.

(** [Array.from({ length }, () => chars[...]).join('')], the draws
    starting at number [k]. *)
Definition segment (rnd : nat → nat) (k length : nat) : string :=
  String.concat "" ((λ j, char_at (rnd (k + j))) <$> seq 0 length).

(** [segments.map(...)], left to right. *)
Fixpoint map_segments (rnd : nat → nat) (k : nat) (segs : list nat) : list string :=
  match segs with
  | [] => []
  | length :: rest => segment rnd k length :: map_segments rnd (k + length) rest
  end.

Definition generateMeetingId (rnd : nat → nat) : string :=
  String.concat "-" (map_segments rnd 0 segments).

Inductive Route :=
| RouteHome
| RouteMeeting (meetingId : string).

(** [hash.slice(1)]. *)
Definition slice1 (hash : string) : string :=
  match hash with
  | "" => ""
  | String _ rest => rest
  end.

(** The character class [[a-z0-9-]]. *)
Definition id_char (a : Ascii.ascii) : bool :=
  let n := Ascii.N_of_ascii a in
  ((97 <=? n) && (n <=? 122) || (48 <=? n) && (n <=? 57) || (n =? 45))%N.

Fixpoint all_id_chars (s : string) : bool :=
  match s with
  | "" => true
  | String a rest => id_char a && all_id_chars rest
  end.

(** [s.startsWith(prefix)], returning what follows the prefix. *)
Fixpoint strip_prefix (prefix s : string) : option string :=
  match prefix, s with
  | "", _ => Some s
  | String a p, String b rest =>
      if Ascii.eqb a b then strip_prefix p rest else None
  | String _ _, "" => None
  end.

(** [hash.match(/^\/meeting\/([a-z0-9-]+)$/)]: the captured group. *)
Definition match_meeting (hash : string) : option string :=
  match strip_prefix "/meeting/" hash with
  | Some rest =>
      if negb (String.eqb rest "") && all_id_chars rest then Some rest else None
  | None => None
  end.

(** [parseRoute()], [location] being [window.location.hash]. *)
Definition parseRoute (location : string) : Route :=
  let hash := slice1 location in
  if String.eqb hash "" || String.eqb hash "/" then RouteHome
  else
    match match_meeting hash with
    | Some meetingId => RouteMeeting meetingId
    | None => RouteHome
    end.

(** [window.location.hash = path], read back: one leading [#] of the
    value is dropped, and a fragment that is not empty is read with [#]
    in front.  (Percent-encoding of the fragment is left out; it touches
    none of the characters of a path built below.) *)
Definition navigateTo (path : string) : string :=
  let fragment :=
    match path with
    | String "#"%char rest => rest
    | _ => path
    end in
  if String.eqb fragment "" then "" else String "#"%char fragment.

Definition navigateToHome : string := navigateTo "/".

Definition navigateToMeeting (meetingId : string) : string :=
  navigateTo ("/meeting/" +:+ meetingId).

(** [getMeetingUrl(meetingId)] for a page at [baseUrl]. *)
Definition getMeetingUrl (baseUrl meetingId : string) : string :=
  baseUrl +:+ "#/meeting/" +:+ meetingId.

End Routing.

(** ** The mesh relays as a whole

    One set of connection variables per accepted socket.  The transport
    delivers a message only on a socket that is connected and not yet
    closed, and emits [close] once per socket. *)

Module GroupSystem.
Import GroupRelay.

Inductive ConnStatus :=
| Absent
| Connected (c : Conn)
| Gone.

Record Sys := { world : World; conns : WsId → ConnStatus }.

Inductive Event :=
| EvConnect (s : WsId)
| EvMessage (s : WsId) (data : Inbound)
| EvClose (s : WsId)
| EvReadyState (s : WsId) (rs : ReadyState).

Definition init_sys : Sys := {| world := init_world; conns := λ _, Absent |}.

Definition set_conn (σ : Sys) (s : WsId) (st : ConnStatus) : WsId → ConnStatus :=
  λ s', if decide (s' = s) then st else conns σ s'.

Definition step (σ : Sys) (e : Event) : Sys * list Effect :=
  let w := world σ in
  match e with
  | EvConnect s =>
      match conns σ s with
      | Absent => ({| world := w; conns := set_conn σ s (Connected (new_conn s)) |}, [])
      | _ => (σ, [])
      end
  | EvMessage s data =>
      match conns σ s with
      | Connected c =>
          let '(w', c', effs) := on_message w c data in
          ({| world := w'; conns := set_conn σ s (Connected c') |}, effs)
      | _ => (σ, [])
      end
  | EvClose s =>
      match conns σ s with
      | Connected c =>
          let '(w', effs) := on_close w c in
          ({| world := w'; conns := set_conn σ s Gone |}, effs)
      | _ => (σ, [])
      end
  | EvReadyState s rs =>
      ({| world := {| rooms := rooms w;
                      readyState := λ s', if decide (s' = s) then rs else readyState w s' |};
          conns := conns σ |}, [])
  end.

Definition run (σ : Sys) (es : list Event) : Sys :=
  foldl (λ σ e, (step σ e).1) σ es.

(** What holds of the registry at any time: no room is registered
    twice or is empty, and within a room no peer id is registered twice
    and every entry sits under its own peer id. *)
Definition registry_ok (w : World) : Prop :=
  NoDup (jm_keys (rooms w)) ∧
  ∀ rid room, (rid, room) ∈ rooms w →
    room ≠ [] ∧ NoDup (jm_keys room) ∧ keyed room = true.

End GroupSystem.

Module ExpandedSystem.
Import ExpandedRelay.

Inductive ConnStatus :=
| Absent
| Connected (c : Conn)
| Gone.

Record Sys := { world : World; conns : WsId → ConnStatus }.

Inductive Event :=
| EvConnect (s : WsId)
| EvMessage (s : WsId) (data : Inbound)
| EvClose (s : WsId)
| EvReadyState (s : WsId) (rs : ReadyState).

Definition init_sys : Sys := {| world := init_world; conns := λ _, Absent |}.

Definition set_conn (σ : Sys) (s : WsId) (st : ConnStatus) : WsId → ConnStatus :=
  λ s', if decide (s' = s) then st else conns σ s'.

Definition step (σ : Sys) (e : Event) : Sys * list Effect :=
  let w := world σ in
  match e with
  | EvConnect s =>
      match conns σ s with
      | Absent => ({| world := w; conns := set_conn σ s (Connected (new_conn s)) |}, [])
      | _ => (σ, [])
      end
  | EvMessage s data =>
      match conns σ s with
      | Connected c =>
          let '(w', c', effs) := on_message w c data in
          ({| world := w'; conns := set_conn σ s (Connected c') |}, effs)
      | _ => (σ, [])
      end
  | EvClose s =>
      match conns σ s with
      | Connected c =>
          let '(w', effs) := on_close w c in
          ({| world := w'; conns := set_conn σ s Gone |}, effs)
      | _ => (σ, [])
      end
  | EvReadyState s rs =>
      ({| world := {| rooms := rooms w;
                      readyState := λ s', if decide (s' = s) then rs else readyState w s' |};
          conns := conns σ |}, [])
  end.

Definition run (σ : Sys) (es : list Event) : Sys :=
  foldl (λ σ e, (step σ e).1) σ es.

Definition registry_ok (w : World) : Prop :=
  NoDup (jm_keys (rooms w)) ∧
  ∀ rid room, (rid, room) ∈ rooms w →
    room ≠ [] ∧ NoDup (jm_keys room) ∧ keyed room = true.

End ExpandedSystem.

(** ** What holds of the broadcast registry at any time *)

Module StarInvariant.
Import StarRelay.

(** A room registered under [bid]: it carries that id, it has a
    broadcaster, whose username is not empty, and its viewers are
    registered once each, under their own peer id, with a username that
    is not empty. *)
Definition room_ok (bid : string) (room : BroadcastRoom) : Prop :=
  broadcastId room = bid ∧
  (∃ b, broadcaster room = Some b ∧ username b ≠ "") ∧
  NoDup (jm_keys (viewers room)) ∧
  ∀ k v, (k, v) ∈ viewers room → peerId v = k ∧ username v ≠ "".

Definition registry_ok (w : World) : Prop :=
  NoDup (jm_keys (broadcasts w)) ∧
  ∀ bid room, (bid, room) ∈ broadcasts w → room_ok bid room.

End StarInvariant.

(** ** The broadcast hooks over time

    The calls that reach useViewerWebRTC and useBroadcasterWebRTC, each
    handler invocation run to completion before the next. *)

Module ViewerRun.
Import Rtc ViewerRtc.

Inductive Event :=
| GotOffer (sdp : string)
| GotIceCandidate (candidate : string)
| Close.

Definition step (s : State) (e : Event) : State :=
  match e with
  | GotOffer sdp => handleOffer sdp s
  | GotIceCandidate c => handleIceCandidate c s
  | Close => closeConnection s
  end.

Definition run (s : State) (es : list Event) : State := foldl step s es.

(** The candidates received since the connection was last closed, in
    arrival order. *)
Definition arrivals (es : list Event) : list string :=
  foldl (λ acc e, match e with
                  | GotIceCandidate c => acc ++ [c]
                  | Close => []
                  | GotOffer _ => acc
                  end) [] es.

(** The candidates passed to [addIceCandidate] on the connection. *)
Definition applied (s : State) : list string :=
  match peerConnection s with
  | Some pc => candidates pc
  | None => []
  end.

(** A remote description is set on the connection. *)
Definition described (s : State) : bool :=
  match peerConnection s with
  | Some pc => if remoteDescription pc is Some _ then true else false
  | None => false
  end.

End ViewerRun.

Module BroadcasterRun.
Import Rtc BroadcasterRtc.

Inductive Event :=
| ViewerJoined (viewerPeerId viewerUsername : string)
| GotAnswer (viewerPeerId sdp : string)
| GotIceCandidate (viewerPeerId candidate : string)
| ViewerLeft (viewerPeerId : string)
| CloseAll
| StateChanged (viewerPeerId : string) (st : ConnectionState).

Definition step (s : State) (e : Event) : State :=
  match e with
  | ViewerJoined p u => createConnectionForViewer p u s
  | GotAnswer p sdp => handleAnswer p sdp s
  | GotIceCandidate p c => handleIceCandidate p c s
  | ViewerLeft p => removeViewer p s
  | CloseAll => closeAllConnections s
  | StateChanged p st => connectionStateChanged p st s
  end.

Definition run (s : State) (es : list Event) : State := foldl step s es.

(** What the hook keeps between calls: the viewer count is not negative
    and not above the number of connections, and the viewer list names
    the peers that have a connection, in the order of the map. *)
Definition tally_ok (s : State) : Prop :=
  (0 ≤ viewerCount s ≤ Z.of_nat (jm_size (peerConnections s)))%Z ∧
  peerId <$> viewers s = jm_keys (peerConnections s) ∧
  NoDup (jm_keys (peerConnections s)).

(** The candidates received from viewer [p] since its connection and
    queue were last dropped, in arrival order. *)
Definition arrivals (p : string) (es : list Event) : list string :=
  foldl (λ acc e, match e with
                  | GotIceCandidate q c => if decide (q = p) then acc ++ [c] else acc
                  | ViewerLeft q => if decide (q = p) then [] else acc
                  | CloseAll => []
                  | _ => acc
                  end) [] es.

(** The candidates passed to [addIceCandidate] on the connection to [p]. *)
Definition applied (p : string) (s : State) : list string :=
  match jm_get p (peerConnections s) with
  | Some pc => candidates pc
  | None => []
  end.

(** The pending-candidate queue of [p]. *)
Definition queued (p : string) (s : State) : list string :=
  default [] (jm_get p (pendingCandidates s)).

(** A remote description is set on the connection to [p]. *)
Definition described (p : string) (s : State) : bool :=
  match has_remote p s with Some _ => true | None => false end.

End BroadcasterRun.

(** ** App of broadcast: the remaining actions *)

Module BroadcastAppOps.
Import BroadcastApp.

(** [handleSendMessage]. *)
Definition handleSendMessage (text : string) (s : State) : State :=
  if truthy (broadcastId s) then
    match broadcastId s with
    | Some bid => send (StarRelay.ChatMessage bid text) s
    | None => s
    end
  else s.

(** [handleJoinAsViewer]. *)
Definition handleJoinAsViewer (s : State) : State := with_view Viewing s.

(** [handleEndBroadcast]: tell the relay, close every viewer connection,
    close the signaling socket and go home.  (The media tracks it stops
    are not part of the state.) *)
Definition handleEndBroadcast (s : State) : State :=
  let s1 :=
    if truthy (broadcastId s) then
      match broadcastId s with
      | Some bid => send (StarRelay.EndBroadcast bid) s
      | None => s
      end
    else s in
  {| view := Home; broadcastId := None; peerId := peerId s1;
     isLive := false; broadcasterUsername := broadcasterUsername s1;
     messages := []; isConnecting := isConnecting s1;
     broadcasterWebRTC := BroadcasterRtc.closeAllConnections (broadcasterWebRTC s1);
     viewerWebRTC := viewerWebRTC s1;
     signalingOpen := false;
     sent := sent s1 |}.

(** [handleBack]. *)
Definition handleBack (s : State) : State :=
  {| view := Home; broadcastId := None; peerId := peerId s;
     isLive := false; broadcasterUsername := None;
     messages := []; isConnecting := isConnecting s;
     broadcasterWebRTC := BroadcasterRtc.closeAllConnections (broadcasterWebRTC s);
     viewerWebRTC := ViewerRtc.closeConnection (viewerWebRTC s);
     signalingOpen := false;
     sent := sent s |}.

(** The chat entries the messages of a list give rise to, in order. *)
Definition chats_of (ms : list StarRelay.ServerMsg) : list ChatMessage :=
  ms ≫= λ m, match m with
             | StarRelay.Chat i f u t ts =>
                 [{| id := i; from := f; username := u; text := t; timestamp := ts |}]
             | _ => []
             end.

End BroadcastAppOps.

(** ** App of group-video-call: the signaling-message handler

    The fields of a received message are optional, as in the
    [SignalingMessage] type; a field that is missing or falsy is [None]
    (or, for a peer id, the empty string).  [webrtcRef] tells whether
    the effect that stores the hook's functions in [webrtcRef.current]
    has run. *)

Module GroupApp.
Import GroupCall.

Inductive Incoming :=
| RoomPeers (peers : option (list string))
| PeerJoined (peerId : option string)
| PeerLeft (peerId : option string)
| Offer (from sdp : option string)
| Answer (from sdp : option string)
| IceCandidate (from candidate : option string)
| Join.

Record State := {
  webrtcRef : bool;
  webrtc : GroupCall.State
}.

Definition with_webrtc (h : GroupCall.State) (s : State) : State :=
  {| webrtcRef := webrtcRef s; webrtc := h |}.

(** [message.peers?.forEach(remotePeerId =>
    webrtc.createPeerConnection(remotePeerId, true))]. *)
Definition connect_all (peers : list string) (h : GroupCall.State) : GroupCall.State :=
  foldl (λ h remotePeerId, createPeerConnection remotePeerId true h) h peers.

Definition handleSignalingMessage (message : Incoming) (s : State) : State :=
  if negb (webrtcRef s) then s
  else
    match message with
    | RoomPeers (Some peers) => with_webrtc (connect_all peers (webrtc s)) s
    | RoomPeers None => s
    | PeerJoined _ => s
    | PeerLeft (Some p) =>
        if truthy (Some p) then with_webrtc (removePeer p (webrtc s)) s else s
    | PeerLeft None => s
    | Offer (Some from) (Some sdp) =>
        if truthy (Some from) then with_webrtc (handleOffer from sdp (webrtc s)) s else s
    | Offer _ _ => s
    | Answer (Some from) (Some sdp) =>
        if truthy (Some from) then with_webrtc (handleAnswer from sdp (webrtc s)) s else s
    | Answer _ _ => s
    | IceCandidate (Some from) (Some candidate) =>
        if truthy (Some from)
        then with_webrtc (handleIceCandidate from candidate (webrtc s)) s else s
    | IceCandidate _ _ => s
    | Join => s
    end.

(** [handleLeave], as far as the connections go. *)
Definition handleLeave (s : State) : State :=
  with_webrtc (closeAllConnections (webrtc s)) s.

(** The peers the offers of a list are addressed to, in order. *)
Definition offers_to (ms : list SignalingMessage) : list string :=
  ms ≫= λ m, match m with
             | OfferTo _ to _ => [to]
             | AnswerTo _ _ _ => []
             end.

End GroupApp.

(** ** useWebRTC of expanded-video-call: streams, names and screen sharing

    A media stream is identified by its [id]; a sender of a connection
    by the track it sends.  Each handler invocation is run to
    completion. *)

Module ExpandedOps.
Import Rtc ExpandedCall.

(** The [prev.map] of [pc.ontrack], on the entry of the remote peer. *)
Definition on_stream (remoteStream : string) (p : RemotePeer) : RemotePeer :=
  match stream p with
  | Some st =>
      if decide (remoteStream ≠ st)
      then {| peerId := peerId p; username := username p;
              stream := stream p; screenStream := Some remoteStream |}
      else {| peerId := peerId p; username := username p;
              stream := Some remoteStream; screenStream := screenStream p |}
  | None =>
      {| peerId := peerId p; username := username p;
         stream := Some remoteStream; screenStream := screenStream p |}
  end.

Definition with_remotePeers (l : list RemotePeer) (s : State) : State :=
  {| localStreamRef := localStreamRef s; screenStreamRef := screenStreamRef s;
     usernameRef := usernameRef s; remotePeers := l;
     peerConnections := peerConnections s; dataChannels := dataChannels s;
     pendingCandidates := pendingCandidates s; constructed := constructed s;
     sent := sent s |}.

(** [pc.ontrack] of the connection created for [remotePeerId], which
    closes over [remoteUsername]; [remoteStream] is the first stream of
    the event. *)
Definition ontrack (remotePeerId remoteUsername remoteStream : string) (s : State) : State :=
  with_remotePeers
    (if knows remotePeerId (remotePeers s)
     then (λ p, if decide (peerId p = remotePeerId) then on_stream remoteStream p else p)
            <$> remotePeers s
     else remotePeers s
            ++ [{| peerId := remotePeerId; username := remoteUsername;
                   stream := Some remoteStream; screenStream := None |}])
    s.

Definition updatePeerUsername (pid newUsername : string) (s : State) : State :=
  with_remotePeers
    ((λ p, if decide (peerId p = pid)
           then {| peerId := peerId p; username := newUsername;
                   stream := stream p; screenStream := screenStream p |}
           else p) <$> remotePeers s)
    s.

Definition clearPeerScreenStream (pid : string) (s : State) : State :=
  with_remotePeers
    ((λ p, if decide (peerId p = pid)
           then {| peerId := peerId p; username := username p;
                   stream := stream p; screenStream := None |}
           else p) <$> remotePeers s)
    s.

(** The effect that copies the [screenStream] prop into
    [screenStreamRef]. *)
Definition setScreenStream (screenStream : option (list string)) (s : State) : State :=
  {| localStreamRef := localStreamRef s; screenStreamRef := screenStream;
     usernameRef := usernameRef s; remotePeers := remotePeers s;
     peerConnections := peerConnections s; dataChannels := dataChannels s;
     pendingCandidates := pendingCandidates s; constructed := constructed s;
     sent := sent s |}.

(** [pc.removeTrack(sender)] for the sender found by
    [senders.find(s => s.track === track)], if any. *)
Fixpoint remove_first (track : string) (l : list string) : list string :=
  match l with
  | [] => []
  | t :: rest => if decide (t = track) then rest else t :: remove_first track rest
  end.

Definition removeTrack (track : string) (pc : PeerConnection) : PeerConnection :=
  {| inst := inst pc; senders := remove_first track (senders pc);
     channels := channels pc; localDescription := localDescription pc;
     remoteDescription := remoteDescription pc; candidates := candidates pc;
     connectionState := connectionState pc; restarts := restarts pc;
     closed := closed pc |}.

(** [createOffer], [setLocalDescription] and the offer sent for it. *)
Definition renegotiate (pc : PeerConnection) : PeerConnection :=
  setLocalDescription (createOffer pc) pc.

Definition offers (uname : string) (pcs : JsMap PeerConnection) : list SignalingMessage :=
  (λ kp, OfferTo kp.1 (createOffer kp.2) uname) <$> pcs.

(** [addScreenShareTrack(stream)]. *)
Definition addScreenShareTrack (stream : list string) (s : State) : State :=
  let pcs := prod_map id (addTracks (Some stream)) <$> peerConnections s in
  {| localStreamRef := localStreamRef s; screenStreamRef := screenStreamRef s;
     usernameRef := usernameRef s; remotePeers := remotePeers s;
     peerConnections := prod_map id renegotiate <$> pcs;
     dataChannels := dataChannels s;
     pendingCandidates := pendingCandidates s; constructed := constructed s;
     sent := sent s ++ offers (usernameRef s) pcs |}.

(** [removeScreenShareTrack()]. *)
Definition removeScreenShareTrack (s : State) : State :=
  match screenStreamRef s with
  | None => s
  | Some tracks =>
      let pcs :=
        prod_map id (λ pc, foldl (λ pc t, removeTrack t pc) pc tracks)
          <$> peerConnections s in
      {| localStreamRef := localStreamRef s; screenStreamRef := screenStreamRef s;
         usernameRef := usernameRef s; remotePeers := remotePeers s;
         peerConnections := prod_map id renegotiate <$> pcs;
         dataChannels := dataChannels s;
         pendingCandidates := pendingCandidates s; constructed := constructed s;
         sent := sent s ++ offers (usernameRef s) pcs |}
  end.

(** What reaches the hook.  A track event is raised by a connection the
    hook holds and runs the [ontrack] installed when that connection was
    created, with the username it closes over; the others are calls of
    the functions the hook returns. *)
Inductive Event :=
| Call (e : ExpandedCall.Event)
| Remove (remotePeerId : string)
| CloseAll
| Track (remotePeerId remoteUsername remoteStream : string)
| Rename (pid newUsername : string)
| ClearScreen (pid : string)
| ScreenStream (screenStream : option (list string))
| AddScreen (stream : list string)
| RemoveScreen.

Definition step (s : State) (e : Event) : State :=
  match e with
  | Call e => ExpandedCall.step s e
  | Remove p => removePeer p s
  | CloseAll => closeAllConnections s
  | Track p u remoteStream =>
      if jm_has p (peerConnections s) then ontrack p u remoteStream s else s
  | Rename p u => updatePeerUsername p u s
  | ClearScreen p => clearPeerScreenStream p s
  | ScreenStream o => setScreenStream o s
  | AddScreen stream => addScreenShareTrack stream s
  | RemoveScreen => removeScreenShareTrack s
  end.

Definition run (s : State) (es : list Event) : State := foldl step s es.

End ExpandedOps.

(** ** Chat of expanded-video-call: useChat, sendChatMessage of useWebRTC
    and the chat panel of CallScreen

    Chat travels over the data channels.  The state of a channel is
    owned by the transport; what was handed to [channel.send] is
    recorded with the peer the channel belongs to. *)

Module ExpandedChat.

Record ChatMessage := {
  id : string * N;
  from : string;
  username : string;
  text : string;
  timestamp : N
}.

(** *** useChat *)

Record Chat := { messages : list ChatMessage; unreadCount : nat }.

Definition init_chat : Chat := {| messages := []; unreadCount := 0 |}.

Definition addMessage (message : ChatMessage) (c : Chat) : Chat :=
  {| messages := messages c ++ [message]; unreadCount := unreadCount c + 1 |}.

Definition clearMessages (c : Chat) : Chat := {| messages := []; unreadCount := 0 |}.

Definition markAsRead (c : Chat) : Chat :=
  {| messages := messages c; unreadCount := 0 |}.

(** *** CallScreen *)

Inductive ChannelState := ChConnecting | ChOpen | ChClosing | ChClosed.

Record Screen := {
  isChatOpen : bool;
  chat : Chat;
  handed : list (string * ChatMessage)
}.

Definition init : Screen := {| isChatOpen := false; chat := init_chat; handed := [] |}.

(** [handleChatMessage], the [onChatMessage] of the hook. *)
Definition handleChatMessage (message : ChatMessage) (s : Screen) : Screen :=
  {| isChatOpen := isChatOpen s; chat := addMessage message (chat s);
     handed := handed s |}.

(** [channel.onmessage]: [data] parses to a message or does not. *)
Definition onmessage (data : option ChatMessage) (s : Screen) : Screen :=
  match data with
  | Some message => handleChatMessage message s
  | None => s
  end.

(** [sendChatMessage(text)] of the hook with peer id [self] and username
    [uname], over the data channels [channels] (peer id and state, in
    the order of [dataChannelsRef]); [t_id] and [t_stamp] are the two
    readings of [Date.now()]. *)
Definition sendChatMessage (self uname text : string) (t_id t_stamp : N)
    (channels : JsMap ChannelState) (s : Screen) : Screen :=
  let message := {| id := (self, t_id); from := self; username := uname;
                    text := text; timestamp := t_stamp |} in
  let sends :=
    channels ≫= λ kc, match kc.2 with
                      | ChOpen => [(kc.1, message)]
                      | _ => []
                      end in
  handleChatMessage message
    {| isChatOpen := isChatOpen s; chat := chat s; handed := handed s ++ sends |}.

(** [handleToggleChat]. *)
Definition handleToggleChat (s : Screen) : Screen :=
  {| isChatOpen := negb (isChatOpen s);
     chat := if negb (isChatOpen s) then markAsRead (chat s) else chat s;
     handed := handed s |}.

Inductive Event :=
| Received (data : option ChatMessage)
| Sent (self uname text : string) (t_id t_stamp : N) (channels : JsMap ChannelState)
| Toggled.

Definition step (s : Screen) (e : Event) : Screen :=
  match e with
  | Received data => onmessage data s
  | Sent self uname text t_id t_stamp channels =>
      sendChatMessage self uname text t_id t_stamp channels s
  | Toggled => handleToggleChat s
  end.

Definition run (s : Screen) (es : list Event) : Screen := foldl step s es.

(** The messages an event adds to the chat list. *)
Definition added (e : Event) : list ChatMessage :=
  match e with
  | Received (Some message) => [message]
  | Received None => []
  | Sent self uname text t_id t_stamp _ =>
      [{| id := (self, t_id); from := self; username := uname; text := text;
          timestamp := t_stamp |}]
  | Toggled => []
  end.

End ExpandedChat.

(** ** App of expanded-video-call: views, the hash route and the media
    stream

    [location] is [window.location.hash].  The local stream is the list
    of its tracks; [stopped] lists the tracks [track.stop()] was called
    on. *)

Module ExpandedApp.
Import Routing.

Inductive AppView := Home | Lobby | Call.

Record AppState := {
  view : AppView;
  meetingId : option string;
  username : option string;
  isAudioEnabled : bool;
  isVideoEnabled : bool
}.

Record App := {
  appState : AppState;
  streamRef : option (list string);
  stopped : list string;
  location : string
}.

Definition home : AppState :=
  {| view := Home; meetingId := None; username := None;
     isAudioEnabled := true; isVideoEnabled := true |}.

(** [x || null] for a string that may be missing. *)
Definition or_null (x : option string) : option string :=
  if truthy x then x else None.

(** The initializer of [useState]. *)
Definition init (location : string) : App :=
  let route := parseRoute location in
  {| appState :=
       {| view := if route is RouteMeeting _ then Lobby else Home;
          meetingId := or_null (if route is RouteMeeting id then Some id else None);
          username := None; isAudioEnabled := true; isVideoEnabled := true |};
     streamRef := None; stopped := []; location := location |}.

Definition is_call (v : AppView) : bool := if v is Call then true else false.

(** [handleHashChange] for the new [location]. *)
Definition handleHashChange (location : string) (s : AppState) : AppState :=
  match parseRoute location with
  | RouteHome => home
  | RouteMeeting id =>
      if truthy (Some id) then
        if negb (is_call (view s)) || bool_decide (meetingId s ≠ Some id)
        then {| view := Lobby; meetingId := Some id; username := username s;
                isAudioEnabled := isAudioEnabled s;
                isVideoEnabled := isVideoEnabled s |}
        else s
      else s
  end.

(** [handleJoinFromLobby]. *)
Definition handleJoinFromLobby (uname : string) (stream : list string)
    (audio video : bool) (a : App) : App :=
  {| appState :=
       {| view := Call; meetingId := meetingId (appState a); username := Some uname;
          isAudioEnabled := audio; isVideoEnabled := video |};
     streamRef := Some stream; stopped := stopped a; location := location a |}.

(** [stopMedia]. *)
Definition stopMedia (a : App) : App :=
  match streamRef a with
  | Some tracks =>
      {| appState := appState a; streamRef := None;
         stopped := stopped a ++ tracks; location := location a |}
  | None => a
  end.

(** [handleLeaveCall]. *)
Definition handleLeaveCall (a : App) : App :=
  let a1 := stopMedia a in
  {| appState := home; streamRef := None; stopped := stopped a1;
     location := navigateToHome |}.

(** What the App renders. *)
Inductive Rendered :=
| HomeScreen
| LobbyScreen (meetingId : string)
| CallScreen (meetingId username : string) (localStream : list string).

Definition render (a : App) : Rendered :=
  match view (appState a), meetingId (appState a) with
  | Home, _ => HomeScreen
  | Lobby, Some id =>
      if truthy (Some id) then LobbyScreen id else HomeScreen
  | Call, Some id =>
      match username (appState a), streamRef a with
      | Some uname, Some stream =>
          if truthy (Some id) && truthy (Some uname)
          then CallScreen id uname stream else HomeScreen
      | _, _ => HomeScreen
      end
  | _, None => HomeScreen
  end.

(** What happens to the App: the hash changes; the lobby, when it is
    rendered, calls [onJoin] with a trimmed username that is not empty
    and its local stream; the call screen, when it is rendered, calls
    [onLeave]. *)
Inductive Event :=
| HashChange (location : string)
| JoinFromLobby (uname : string) (stream : list string) (audio video : bool)
| LeaveCall.

Definition step (a : App) (e : Event) : App :=
  match e with
  | HashChange loc =>
      {| appState := handleHashChange loc (appState a); streamRef := streamRef a;
         stopped := stopped a; location := loc |}
  | JoinFromLobby uname stream audio video =>
      match render a with
      | LobbyScreen _ =>
          if truthy (Some uname) then handleJoinFromLobby uname stream audio video a
          else a
      | _ => a
      end
  | LeaveCall =>
      match render a with
      | CallScreen _ _ _ => handleLeaveCall a
      | _ => a
      end
  end.

Definition run (a : App) (es : list Event) : App := foldl step a es.

End ExpandedApp.

(** * Properties *)

(** ** JavaScript maps *)

Section JsMapFacts.
Context {V : Type}.
Implicit Types (m : JsMap V) (k : string) (v : V).

Lemma jm_get_set_eq k v m : jm_get k (jm_set k v m) = Some v.
Proof.
  induction m as [|[k' v'] m IH]; simpl.
  - by rewrite decide_True.
  - destruct (decide (k' = k)) as [->|Hne]; simpl.
    + by rewrite decide_True.
    + by rewrite decide_False.
Qed.

Lemma jm_get_set_ne k k' v m : k ≠ k' → jm_get k' (jm_set k v m) = jm_get k' m.
Proof.
  intros Hne. induction m as [|[k0 v0] m IH]; simpl.
  - by rewrite decide_False.
  - destruct (decide (k0 = k)) as [->|Hk]; simpl.
    + by rewrite !decide_False.
    + by rewrite IH.
Qed.

Lemma jm_get_delete_eq k m : jm_get k (jm_delete k m) = None.
Proof.
  induction m as [|[k' v'] m IH]; simpl; [done|].
  destruct (decide (k' = k)) as [->|Hne]; simpl; [done|].
  by rewrite decide_False.
Qed.

Lemma jm_get_delete_ne k k' m : k ≠ k' → jm_get k' (jm_delete k m) = jm_get k' m.
Proof.
  intros Hne. induction m as [|[k0 v0] m IH]; simpl; [done|].
  destruct (decide (k0 = k)) as [->|Hk]; simpl.
  - by rewrite decide_False.
  - by rewrite IH.
Qed.

Lemma jm_set_absent k v m : jm_get k m = None → jm_set k v m = m ++ [(k, v)].
Proof.
  induction m as [|[k' v'] m IH]; simpl; [done|].
  destruct (decide (k' = k)); [done|]. intros H. by rewrite IH.
Qed.

Lemma jm_delete_absent k m : jm_get k m = None → jm_delete k m = m.
Proof.
  induction m as [|[k' v'] m IH]; simpl; [done|].
  destruct (decide (k' = k)); [done|]. intros H. by rewrite IH.
Qed.

Lemma jm_delete_idemp k m : jm_delete k (jm_delete k m) = jm_delete k m.
Proof. apply jm_delete_absent, jm_get_delete_eq. Qed.

Lemma jm_get_None_keys k m : jm_get k m = None ↔ k ∉ jm_keys m.
Proof.
  unfold jm_keys. induction m as [|[k' v'] m IH]; simpl.
  - split; [intros _; apply not_elem_of_nil | done].
  - rewrite not_elem_of_cons. destruct (decide (k' = k)) as [->|Hne].
    + split; [done | intros [? _]; done].
    + rewrite IH. split; [intros ?; split; [congruence | done] | by intros [_ ?]].
Qed.

Lemma jm_get_Some_elem k v m : jm_get k m = Some v → (k, v) ∈ m.
Proof.
  induction m as [|[k' v'] m IH]; simpl; [done|].
  destruct (decide (k' = k)) as [->|Hne].
  - intros [= ->]. apply list_elem_of_here.
  - intros H. apply list_elem_of_further. auto.
Qed.


Lemma jm_elem_get k v m : NoDup (jm_keys m) → (k, v) ∈ m → jm_get k m = Some v.
Proof.
  unfold jm_keys. induction m as [|[k' v'] m IH]; simpl.
  - intros _ H. by apply elem_of_nil in H.
  - rewrite NoDup_cons. intros [Hk Hnd] [Heq|Hin]%elem_of_cons.
    + injection Heq as -> ->. by rewrite decide_True.
    + destruct (decide (k' = k)) as [->|Hne]; [|by apply IH].
      exfalso. apply Hk. apply list_elem_of_fmap. by exists (k, v).
Qed.

Lemma jm_keys_set k v m :
  jm_keys (jm_set k v m) = if jm_has k m then jm_keys m else jm_keys m ++ [k].
Proof.
  unfold jm_has, jm_keys. induction m as [|[k' v'] m IH]; [done|].
  cbn [jm_set jm_get]. destruct (decide (k' = k)) as [->|Hne]; [done|].
  rewrite !fmap_cons, IH. by destruct (jm_get k m).
Qed.

Lemma jm_keys_delete k m : jm_keys (jm_delete k m) = filter (λ x, x ≠ k) (jm_keys m).
Proof.
  unfold jm_keys. induction m as [|[k' v'] m IH]; [done|].
  cbn [jm_delete]. rewrite fmap_cons. destruct (decide (k' = k)) as [->|Hne].
  - rewrite filter_cons_False; [done | by intros ?].
  - rewrite filter_cons_True; [|done]. by rewrite fmap_cons, IH.
Qed.

Lemma jm_set_NoDup k v m : NoDup (jm_keys m) → NoDup (jm_keys (jm_set k v m)).
Proof.
  intros Hnd. rewrite jm_keys_set. unfold jm_has.
  destruct (jm_get k m) eqn:E; [done|].
  apply NoDup_app. split_and!; [done | | apply NoDup_singleton].
  intros x Hx ->%list_elem_of_singleton. by apply jm_get_None_keys in E.
Qed.

Lemma jm_delete_NoDup k m : NoDup (jm_keys m) → NoDup (jm_keys (jm_delete k m)).
Proof. intros Hnd. rewrite jm_keys_delete. by apply NoDup_filter. Qed.

Lemma jm_delete_elem k k' v m : (k', v) ∈ jm_delete k m ↔ k' ≠ k ∧ (k', v) ∈ m.
Proof.
  induction m as [|[k0 v0] m IH]; simpl.
  - split; [intros H; by apply elem_of_nil in H | intros [_ H]; by apply elem_of_nil in H].
  - destruct (decide (k0 = k)) as [->|Hne].
    + rewrite IH, elem_of_cons. naive_solver.
    + rewrite !elem_of_cons, IH. naive_solver.
Qed.

Lemma jm_has_true k m : jm_has k m = true ↔ is_Some (jm_get k m).
Proof. unfold jm_has. destruct (jm_get k m); split; try done; by intros [? ?]. Qed.

Lemma jm_has_false k m : jm_has k m = false ↔ jm_get k m = None.
Proof. unfold jm_has. by destruct (jm_get k m). Qed.
Lemma jm_set_set k v1 v2 m : jm_set k v2 (jm_set k v1 m) = jm_set k v2 m.
Proof.
  induction m as [|[k' v'] m IH]; simpl.
  - by rewrite decide_True.
  - destruct (decide (k' = k)) as [->|Hne]; simpl.
    + by rewrite decide_True.
    + by rewrite decide_False, IH.
Qed.

Lemma jm_set_id k v m : jm_get k m = Some v → jm_set k v m = m.
Proof.
  induction m as [|[k' v'] m IH]; simpl; [done|].
  destruct (decide (k' = k)) as [->|Hne].
  - by intros [= ->].
  - intros H. by rewrite IH.
Qed.

Lemma jm_forallb_set (P : string * V → bool) k v m :
  forallb P m = true → P (k, v) = true → forallb P (jm_set k v m) = true.
Proof.
  intros Hm Hv. induction m as [|[k' v'] m IH]; simpl in *.
  - by rewrite Hv.
  - apply andb_prop in Hm as [H1 H2].
    destruct (decide (k' = k)) as [->|Hne]; simpl.
    + by rewrite Hv, H2.
    + by rewrite H1, IH.
Qed.

Lemma jm_forallb_delete (P : string * V → bool) k m :
  forallb P m = true → forallb P (jm_delete k m) = true.
Proof.
  intros Hm. induction m as [|[k' v'] m IH]; simpl in *; [done|].
  apply andb_prop in Hm as [H1 H2].
  destruct (decide (k' = k)); simpl; [by apply IH|]. by rewrite H1, IH.
Qed.

Lemma jm_forallb_get (P : string * V → bool) k v m :
  forallb P m = true → jm_get k m = Some v → P (k, v) = true.
Proof.
  intros Hm Hget%jm_get_Some_elem. rewrite forallb_forall in Hm.
  by apply Hm, list_elem_of_In.
Qed.

Lemma jm_has_set k k' v m : jm_has k m = true → jm_has k (jm_set k' v m) = true.
Proof.
  unfold jm_has. destruct (decide (k' = k)) as [->|Hne].
  - by rewrite jm_get_set_eq.
  - by rewrite jm_get_set_ne.
Qed.

Lemma jm_has_delete_inv k k' m :
  jm_has k m = true → jm_has k (jm_delete k' m) = false → k' = k.
Proof.
  unfold jm_has. destruct (decide (k' = k)) as [->|Hne]; [done|].
  rewrite jm_get_delete_ne by done. by destruct (jm_get k m).
Qed.

End JsMapFacts.

(** ** The mesh relay of group-video-call *)

Section GroupRelayFacts.
Import GroupRelay.

Lemma group_keyed_elem room k p :
  keyed room = true → (k, p) ∈ room → peerId p = k.
Proof.
  unfold keyed. rewrite forallb_forall. intros H Hin.
  apply list_elem_of_In, H in Hin. by apply bool_decide_eq_true in Hin.
Qed.

Lemma group_wf_room w rid room :
  wf w → jm_get rid (rooms w) = Some room → keyed room = true.
Proof.
  unfold wf. rewrite forallb_forall. intros H Hget.
  apply jm_get_Some_elem, list_elem_of_In in Hget. by apply H in Hget.
Qed.

Lemma group_wf_members w rid : wf w → keyed (members w rid) = true.
Proof.
  intros Hwf. unfold members. destruct (jm_get rid (rooms w)) eqn:E; [|done].
  by eapply group_wf_room.
Qed.

Lemma group_value_key (room : JsMap Peer) q :
  keyed room = true → q ∈ jm_values room → peerId q ∈ jm_keys room.
Proof.
  intros Hk [[k p] [-> Hin]]%list_elem_of_fmap. simpl.
  rewrite (group_keyed_elem _ _ _ Hk Hin).
  apply list_elem_of_fmap. by exists (k, p).
Qed.

Lemma group_elem_of_notify w msg ex p e :
  e ∈ notify w msg ex p ↔
  peerId p ≠ ex ∧ sock_open w (ws p) = true ∧ e = Send (ws p) msg.
Proof.
  unfold notify. destruct (decide (peerId p ≠ ex)) as [Hne|Heq].
  - destruct (sock_open w (ws p)).
    + rewrite list_elem_of_singleton. naive_solver.
    + rewrite elem_of_nil. naive_solver.
  - rewrite elem_of_nil. naive_solver.
Qed.

Lemma group_elem_of_broadcast w rid msg ex e :
  e ∈ broadcast w rid msg ex ↔
  ∃ room p, jm_get rid (rooms w) = Some room ∧ p ∈ jm_values room ∧
            peerId p ≠ ex ∧ sock_open w (ws p) = true ∧ e = Send (ws p) msg.
Proof.
  unfold broadcast. destruct (jm_get rid (rooms w)) as [room|].
  - rewrite list_elem_of_bind. setoid_rewrite group_elem_of_notify.
    split.
    + intros (p & (? & ? & ?) & ?). by exists room, p.
    + intros (room' & p & [= <-] & ? & ? & ? & ?). by exists p.
  - rewrite elem_of_nil. split; [done|]. by intros (? & ? & ? & _).
Qed.

(** The room a join writes to, whether it existed or was just created. *)
Lemma group_join_room_lookup {V} rid (rs : JsMap (JsMap V)) :
  jm_get rid (if jm_has rid rs then rs else jm_set rid [] rs)
  = Some (default [] (jm_get rid rs)).
Proof.
  unfold jm_has. destruct (jm_get rid rs) eqn:E; [done|].
  by rewrite jm_get_set_eq.
Qed.

(** [wf] holds initially and every handler keeps it. *)
Lemma group_wf_init : wf init_world.
Proof. done. Qed.

Lemma group_wf_on_message w c data : wf w → wf (on_message w c data).1.1.
Proof.
  intros Hwf. destruct data as [[roomId pid|kind to body|]|]; simpl; try done.
  unfold wf. simpl. apply jm_forallb_set.
  - unfold jm_has. destruct (jm_get roomId (rooms w)); [done|].
    by apply jm_forallb_set.
  - simpl. unfold keyed. apply jm_forallb_set; [|by apply bool_decide_eq_true].
    rewrite group_join_room_lookup. by apply group_wf_members.
Qed.

Lemma group_wf_on_close w c : wf w → wf (on_close w c).1.
Proof.
  intros Hwf. unfold on_close.
  destruct (truthy (currentRoomId c) && truthy (currentPeerId c)); [|done].
  destruct (currentRoomId c) as [rid|]; [|done].
  destruct (currentPeerId c) as [pid|]; [|done].
  destruct (jm_get rid (rooms w)) as [room|] eqn:E; [|done].
  assert (Hset : wf (with_rooms w (jm_set rid (jm_delete pid room) (rooms w)))).
  { unfold wf. simpl. apply jm_forallb_set; [done|]. simpl.
    apply jm_forallb_delete. by eapply group_wf_room. }
  destruct (decide (jm_size (jm_delete pid room) = 0)); simpl; [|done].
  unfold wf. simpl. by apply jm_forallb_delete.
Qed.

(** What a join of a peer that is not yet a member does: the room gains
    the joiner, the first effect is the reply carrying the keys of the
    members found, and the [Send]s are that reply plus one [peer-joined]
    per member found whose socket is open. *)
Lemma group_join_spec w c roomId pid :
  wf w →
  jm_get pid (members w roomId) = None →
  ∃ w' c' rest,
    on_message w c (Parsed (Join roomId pid))
      = (w', c', Send (conn_ws c) (RoomPeers (jm_keys (members w roomId))) :: rest) ∧
    jm_get roomId (rooms w')
      = Some (members w roomId ++ [(pid, {| peerId := pid; ws := conn_ws c |})]) ∧
    (pid ∉ jm_keys (members w roomId)) ∧
    (∀ s m, Send s m ∈ rest ↔
       m = PeerJoined pid ∧
       ∃ q, q ∈ jm_values (members w roomId) ∧ ws q = s ∧ sock_open w s = true) ∧
    (∀ q, q ∈ jm_values (members w roomId) →
       peerId q ∈ jm_keys (members w roomId) ∧
       (Send (ws q) (PeerJoined pid) ∈ rest ↔ sock_open w (ws q) = true)).
Proof.
  intros Hwf Hnew.
  pose proof (group_wf_members w roomId Hwf) as Hkeyed.
  assert (Hnotin : pid ∉ jm_keys (members w roomId)) by (by apply jm_get_None_keys).
  assert (Hsends : ∀ s m,
    Send s m ∈ broadcast
        (with_rooms w (jm_set roomId
           (jm_set pid {| peerId := pid; ws := conn_ws c |} (members w roomId))
           (if jm_has roomId (rooms w) then rooms w else jm_set roomId [] (rooms w))))
        roomId (PeerJoined pid) pid
      ++ [Log (LogJoined pid roomId
            (jm_size (jm_set pid {| peerId := pid; ws := conn_ws c |} (members w roomId))))]
    ↔ m = PeerJoined pid ∧
      ∃ q, q ∈ jm_values (members w roomId) ∧ ws q = s ∧ sock_open w s = true).
  { intros s m. rewrite elem_of_app, list_elem_of_singleton, group_elem_of_broadcast.
    cbn [rooms with_rooms]. rewrite jm_get_set_eq, (jm_set_absent _ _ _ Hnew).
    split.
    - intros [(room & p & [= <-] & Hin & Hne & Hopen & [= -> ->])|[=]].
      split; [done|]. exists p. split_and!; [|done|done].
      unfold jm_values in Hin. rewrite fmap_app, elem_of_app in Hin.
      destruct Hin as [Hin|Hin%list_elem_of_singleton]; [done|].
      subst p. by simpl in Hne.
    - intros [-> (q & Hq & <- & Hopen)]. left.
      eexists _, q. split_and!; [done| | | done | done].
      + unfold jm_values. rewrite fmap_app, elem_of_app. by left.
      + intros Heq. apply Hnotin. rewrite <- Heq.
        by apply group_value_key. }
  eexists _, _, _. split; [|split_and!].
  - unfold on_message. cbv zeta. rewrite group_join_room_lookup.
    fold (members w roomId). reflexivity.
  - simpl. by rewrite jm_get_set_eq, (jm_set_absent _ _ _ Hnew).
  - done.
  - done.
  - intros q Hq. split; [by apply group_value_key|].
    split.
    + by intros [_ (q' & _ & <- & Hopen)]%Hsends.
    + intros Hopen. apply Hsends. split; [done|]. by exists q.
Qed.

End GroupRelayFacts.
(** ** The mesh relay of expanded-video-call *)

Section ExpandedRelayFacts.
Import ExpandedRelay.

Lemma exp_keyed_elem room k p :
  keyed room = true → (k, p) ∈ room → peerId p = k.
Proof.
  unfold keyed. rewrite forallb_forall. intros H Hin.
  apply list_elem_of_In, H in Hin. by apply bool_decide_eq_true in Hin.
Qed.

Lemma exp_wf_room w rid room :
  wf w → jm_get rid (rooms w) = Some room → keyed room = true.
Proof.
  unfold wf. rewrite forallb_forall. intros H Hget.
  apply jm_get_Some_elem, list_elem_of_In in Hget. by apply H in Hget.
Qed.

Lemma exp_wf_members w rid : wf w → keyed (members w rid) = true.
Proof.
  intros Hwf. unfold members. destruct (jm_get rid (rooms w)) eqn:E; [|done].
  by eapply exp_wf_room.
Qed.

Lemma exp_value_key (room : JsMap PeerInfo) q :
  keyed room = true → q ∈ jm_values room → peerId q ∈ jm_keys room.
Proof.
  intros Hk [[k p] [-> Hin]]%list_elem_of_fmap. simpl.
  rewrite (exp_keyed_elem _ _ _ Hk Hin).
  apply list_elem_of_fmap. by exists (k, p).
Qed.

Lemma exp_elem_of_notify w msg ex p e :
  e ∈ notify w msg ex p ↔
  peerId p ≠ ex ∧ sock_open w (ws p) = true ∧ e = Send (ws p) msg.
Proof.
  unfold notify. destruct (decide (peerId p ≠ ex)) as [Hne|Heq].
  - destruct (sock_open w (ws p)).
    + rewrite list_elem_of_singleton. naive_solver.
    + rewrite elem_of_nil. naive_solver.
  - rewrite elem_of_nil. naive_solver.
Qed.

Lemma exp_elem_of_broadcast w rid msg ex e :
  e ∈ broadcast w rid msg ex ↔
  ∃ room p, jm_get rid (rooms w) = Some room ∧ p ∈ jm_values room ∧
            peerId p ≠ ex ∧ sock_open w (ws p) = true ∧ e = Send (ws p) msg.
Proof.
  unfold broadcast. destruct (jm_get rid (rooms w)) as [room|].
  - rewrite list_elem_of_bind. setoid_rewrite exp_elem_of_notify.
    split.
    + intros (p & (? & ? & ?) & ?). by exists room, p.
    + intros (room' & p & [= <-] & ? & ? & ? & ?). by exists p.
  - rewrite elem_of_nil. split; [done|]. by intros (? & ? & ? & _).
Qed.

Lemma exp_wf_init : wf init_world.
Proof. done. Qed.

Lemma exp_wf_set_entry w rid room pid (p p' : PeerInfo) :
  wf w → jm_get rid (rooms w) = Some room → jm_get pid room = Some p →
  peerId p' = peerId p →
  wf (with_rooms w (jm_set rid (jm_set pid p' room) (rooms w))).
Proof.
  intros Hwf Hroom Hp Hid. unfold wf. simpl. apply jm_forallb_set; [done|]. simpl.
  pose proof (exp_wf_room _ _ _ Hwf Hroom) as Hk.
  unfold keyed in *. apply jm_forallb_set; [done|]. simpl.
  rewrite Hid. by apply (jm_forallb_get _ _ _ _ Hk Hp).
Qed.

Lemma exp_wf_set_sharing w rid pid b : wf w → wf (set_sharing w rid pid b).
Proof.
  intros Hwf. unfold set_sharing.
  destruct (jm_get rid (rooms w)) as [room|] eqn:Hroom; [|done].
  destruct (jm_get pid room) as [p|] eqn:Hp; [|done].
  by eapply exp_wf_set_entry.
Qed.

Lemma exp_wf_on_message w c data : wf w → wf (on_message w c data).1.1.
Proof.
  intros Hwf.
  destruct data as [[roomId pid uname|uname| | |kind to body|]|]; simpl; try done.
  - unfold wf. simpl. apply jm_forallb_set.
    + unfold jm_has. destruct (jm_get roomId (rooms w)); [done|].
      by apply jm_forallb_set.
    + simpl. unfold keyed. apply jm_forallb_set; [|by apply bool_decide_eq_true].
      rewrite group_join_room_lookup. by apply exp_wf_members.
  - destruct (truthy (currentRoomId c) && truthy (currentPeerId c)); [|done].
    destruct (currentRoomId c) as [rid|]; [|done].
    destruct (currentPeerId c) as [pid|]; [|done].
    destruct (jm_get rid (rooms w)) as [room|] eqn:Hroom; [|done].
    destruct (jm_get pid room) as [p|] eqn:Hp; [|done]. simpl.
    by eapply exp_wf_set_entry.
  - destruct (truthy (currentRoomId c) && truthy (currentPeerId c)); [|done].
    destruct (currentRoomId c) as [rid|]; [|done].
    destruct (currentPeerId c) as [pid|]; [|done]. simpl.
    by apply exp_wf_set_sharing.
  - destruct (truthy (currentRoomId c) && truthy (currentPeerId c)); [|done].
    destruct (currentRoomId c) as [rid|]; [|done].
    destruct (currentPeerId c) as [pid|]; [|done]. simpl.
    by apply exp_wf_set_sharing.
Qed.

Lemma exp_wf_on_close w c : wf w → wf (on_close w c).1.
Proof.
  intros Hwf. unfold on_close.
  destruct (truthy (currentRoomId c) && truthy (currentPeerId c)); [|done].
  destruct (currentRoomId c) as [rid|]; [|done].
  destruct (currentPeerId c) as [pid|]; [|done].
  destruct (jm_get rid (rooms w)) as [room|] eqn:E; [|done].
  assert (Hset : wf (with_rooms w (jm_set rid (jm_delete pid room) (rooms w)))).
  { unfold wf. simpl. apply jm_forallb_set; [done|]. simpl.
    apply jm_forallb_delete. by eapply exp_wf_room. }
  destruct (decide (jm_size (jm_delete pid room) = 0)); simpl; [|done].
  unfold wf. simpl. by apply jm_forallb_delete.
Qed.

Lemma exp_join_spec w c roomId pid uname :
  wf w →
  jm_get pid (members w roomId) = None →
  ∃ w' c' rest,
    on_message w c (Parsed (Join roomId pid uname))
      = (w', c', Send (conn_ws c) (RoomPeers (summary <$> jm_values (members w roomId))) :: rest) ∧
    jm_get roomId (rooms w')
      = Some (members w roomId
              ++ [(pid, {| peerId := pid; username := or_default uname "Anonymous";
                           ws := conn_ws c; isScreenSharing := false |})]) ∧
    (pid ∉ sum_peerId <$> (summary <$> jm_values (members w roomId))) ∧
    (∀ s m, Send s m ∈ rest ↔
       m = PeerJoined pid (or_default uname "Anonymous") ∧
       ∃ q, q ∈ jm_values (members w roomId) ∧ ws q = s ∧ sock_open w s = true) ∧
    (∀ q, q ∈ jm_values (members w roomId) →
       summary q ∈ summary <$> jm_values (members w roomId) ∧
       (Send (ws q) (PeerJoined pid (or_default uname "Anonymous")) ∈ rest
        ↔ sock_open w (ws q) = true)).
Proof.
  intros Hwf Hnew.
  pose proof (exp_wf_members w roomId Hwf) as Hkeyed.
  assert (Hnotin : pid ∉ jm_keys (members w roomId)) by (by apply jm_get_None_keys).
  set (me := {| peerId := pid; username := or_default uname "Anonymous";
                ws := conn_ws c; isScreenSharing := false |}).
  assert (Hsends : ∀ s m,
    Send s m ∈ broadcast
        (with_rooms w (jm_set roomId (jm_set pid me (members w roomId))
           (if jm_has roomId (rooms w) then rooms w else jm_set roomId [] (rooms w))))
        roomId (PeerJoined pid (or_default uname "Anonymous")) pid
      ++ [Log (LogJoined pid (or_default uname "Anonymous") roomId
            (jm_size (jm_set pid me (members w roomId))))]
    ↔ m = PeerJoined pid (or_default uname "Anonymous") ∧
      ∃ q, q ∈ jm_values (members w roomId) ∧ ws q = s ∧ sock_open w s = true).
  { intros s m. rewrite elem_of_app, list_elem_of_singleton, exp_elem_of_broadcast.
    cbn [rooms with_rooms]. rewrite jm_get_set_eq, (jm_set_absent _ _ _ Hnew).
    split.
    - intros [(room & p & [= <-] & Hin & Hne & Hopen & [= -> ->])|[=]].
      split; [done|]. exists p. split_and!; [|done|done].
      unfold jm_values in Hin. rewrite fmap_app, elem_of_app in Hin.
      destruct Hin as [Hin|Hin%list_elem_of_singleton]; [done|].
      subst p. by simpl in Hne.
    - intros [-> (q & Hq & <- & Hopen)]. left.
      eexists _, q. split_and!; [done| | | done | done].
      + unfold jm_values. rewrite fmap_app, elem_of_app. by left.
      + intros Heq. apply Hnotin. rewrite <- Heq.
        by apply exp_value_key. }
  eexists _, _, _. split; [|split_and!].
  - unfold on_message. cbv zeta. rewrite group_join_room_lookup.
    fold (members w roomId). reflexivity.
  - cbn [rooms with_rooms]. by rewrite jm_get_set_eq, (jm_set_absent _ _ _ Hnew).
  - rewrite <- list_fmap_compose. intros [q [Hq Hin]]%list_elem_of_fmap.
    apply Hnotin. simpl in Hq. rewrite Hq. by apply exp_value_key.
  - done.
  - intros q Hq. split; [by apply list_elem_of_fmap_2|].
    split.
    + by intros [_ (q' & _ & <- & Hopen)]%Hsends.
    + intros Hopen. apply Hsends. split; [done|]. by exists q.
Qed.

End ExpandedRelayFacts.

(** ** Peer connections *)

Section RtcFacts.
Import Rtc.

Lemma drain_candidates pending pc :
  candidates (drain pending pc) = candidates pc ++ pending.
Proof.
  unfold drain. revert pc. induction pending as [|c l IH]; intros pc; simpl.
  - by rewrite app_nil_r.
  - rewrite IH. simpl. by rewrite <- app_assoc.
Qed.

Lemma drain_remoteDescription pending pc :
  remoteDescription (drain pending pc) = remoteDescription pc.
Proof.
  unfold drain. revert pc. induction pending as [|c l IH]; intros pc; simpl; [done|].
  by rewrite IH.
Qed.

Lemma drain_restarts pending pc : restarts (drain pending pc) = restarts pc.
Proof.
  unfold drain. revert pc. induction pending as [|c l IH]; intros pc; simpl; [done|].
  by rewrite IH.
Qed.

Lemma drain_inst pending pc : inst (drain pending pc) = inst pc.
Proof.
  unfold drain. revert pc. induction pending as [|c l IH]; intros pc; simpl; [done|].
  by rewrite IH.
Qed.

Lemma addTracks_candidates stream pc :
  candidates (addTracks stream pc) = candidates pc.
Proof.
  destruct stream as [tracks|]; [|done]. unfold addTracks.
  revert pc. induction tracks as [|t l IH]; intros pc; simpl; [done|].
  by rewrite IH.
Qed.

Lemma addTracks_remoteDescription stream pc :
  remoteDescription (addTracks stream pc) = remoteDescription pc.
Proof.
  destruct stream as [tracks|]; [|done]. unfold addTracks.
  revert pc. induction tracks as [|t l IH]; intros pc; simpl; [done|].
  by rewrite IH.
Qed.

Lemma onconnectionstatechange_candidates pc :
  candidates (onconnectionstatechange pc) = candidates pc.
Proof. unfold onconnectionstatechange. by destruct (connectionState pc). Qed.

Lemma onconnectionstatechange_remoteDescription pc :
  remoteDescription (onconnectionstatechange pc) = remoteDescription pc.
Proof. unfold onconnectionstatechange. by destruct (connectionState pc). Qed.

End RtcFacts.

(** ** useWebRTC of group-video-call *)

Section GroupCallFacts.
Import Rtc GroupCall.

Lemma group_run_snoc s es e : run s (es ++ [e]) = step (run s es) e.
Proof. unfold run. by rewrite foldl_app. Qed.

Lemma group_arrivals_snoc p es e :
  arrivals p (es ++ [e]) = arrivals p es ++ arrivals p [e].
Proof. unfold arrivals. by rewrite bind_app. Qed.

Lemma group_create_has p i s :
  jm_has p (peerConnections (createPeerConnection p i s)) = true.
Proof.
  unfold createPeerConnection. destruct (jm_has p (peerConnections s)) eqn:E; [done|].
  simpl. unfold jm_has. by rewrite jm_get_set_eq.
Qed.

(** A candidate that arrives while no remote description is set is
    appended to the queue; nothing is passed to the engine. *)
Lemma group_candidate_queued p c s :
  described p s = false →
  queued p (handleIceCandidate p c s) = queued p s ++ [c] ∧
  applied p (handleIceCandidate p c s) = applied p s.
Proof.
  unfold described, handleIceCandidate. destruct (has_remote p s); [done|].
  intros _. unfold queued, applied. simpl. rewrite jm_get_set_eq. split; [|done].
  simpl. unfold jm_has. destruct (jm_get p (pendingCandidates s)) eqn:E; simpl.
  - by rewrite E.
  - by rewrite jm_get_set_eq.
Qed.

(** A candidate that arrives once the remote description is set goes
    straight to the engine. *)
Lemma group_candidate_applied p c s :
  described p s = true →
  applied p (handleIceCandidate p c s) = applied p s ++ [c] ∧
  pendingCandidates (handleIceCandidate p c s) = pendingCandidates s.
Proof.
  unfold described, handleIceCandidate, has_remote, applied.
  destruct (jm_get p (peerConnections s)) as [pc|] eqn:E; [|done].
  destruct (remoteDescription pc); [|done]. intros _. simpl.
  by rewrite jm_get_set_eq.
Qed.

(** Applying an offer drains the queue in order and deletes it. *)
Lemma group_offer_drains p sdp s :
  applied p (handleOffer p sdp s) = applied p s ++ queued p s ∧
  jm_get p (pendingCandidates (handleOffer p sdp s)) = None ∧
  described p (handleOffer p sdp s) = true.
Proof.
  unfold handleOffer, applied, queued, described, has_remote.
  destruct (jm_has p (peerConnections s)) eqn:Hhas; simpl.
  - apply jm_has_true in Hhas as [pc Hpc]. rewrite Hpc. simpl.
    rewrite !jm_get_set_eq, jm_get_delete_eq. simpl.
    by rewrite drain_candidates, drain_remoteDescription.
  - apply jm_has_false in Hhas. unfold createPeerConnection.
    replace (jm_has p (peerConnections s)) with false
      by (symmetry; by apply jm_has_false).
    rewrite Hhas. simpl. rewrite !jm_get_set_eq. simpl.
    rewrite !jm_get_set_eq, jm_get_delete_eq. simpl.
    rewrite drain_candidates, drain_remoteDescription. simpl.
    by rewrite addTracks_candidates.
Qed.

(** So does applying an answer, on a connection that exists. *)
Lemma group_answer_drains p sdp s :
  jm_has p (peerConnections s) = true →
  applied p (handleAnswer p sdp s) = applied p s ++ queued p s ∧
  jm_get p (pendingCandidates (handleAnswer p sdp s)) = None ∧
  described p (handleAnswer p sdp s) = true.
Proof.
  intros [pc Hpc]%jm_has_true.
  unfold handleAnswer, applied, queued, described, has_remote.
  rewrite Hpc. simpl. rewrite !jm_get_set_eq, jm_get_delete_eq. simpl.
  by rewrite drain_candidates, drain_remoteDescription.
Qed.

(** An event about another peer leaves the connection and the queue of
    [p] alone. *)
Lemma group_step_other p e s :
  peer_of e ≠ p →
  jm_get p (peerConnections (step s e)) = jm_get p (peerConnections s) ∧
  jm_get p (pendingCandidates (step s e)) = jm_get p (pendingCandidates s).
Proof.
  intros Hne. destruct e as [q i|q sdp|q sdp|q c|q st]; simpl in Hne; simpl.
  - unfold createPeerConnection. destruct (jm_has q (peerConnections s)); [done|].
    simpl. by rewrite jm_get_set_ne.
  - unfold handleOffer, createPeerConnection.
    destruct (jm_has q (peerConnections s)) eqn:Hhas; simpl.
    + destruct (jm_get q (peerConnections s)); [|done]. simpl.
      by rewrite jm_get_set_ne, jm_get_delete_ne.
    + rewrite jm_get_set_eq. simpl.
      by rewrite !jm_get_set_ne, jm_get_delete_ne.
  - unfold handleAnswer. destruct (jm_get q (peerConnections s)); [|done]. simpl.
    by rewrite jm_get_set_ne, jm_get_delete_ne.
  - unfold handleIceCandidate. destruct (has_remote q s); simpl.
    + by rewrite jm_get_set_ne.
    + rewrite jm_get_set_ne by done.
      destruct (jm_has q (pendingCandidates s)); simpl; [done|].
      by rewrite jm_get_set_ne.
  - unfold connectionStateChanged. destruct (jm_get q (peerConnections s)); [|done].
    simpl. by rewrite jm_get_set_ne.
Qed.

Lemma group_arrivals_other p e : peer_of e ≠ p → arrivals p [e] = [].
Proof.
  intros Hne. destruct e; try done. simpl in *.
  unfold arrivals. simpl. by rewrite decide_False.
Qed.

(** Every event keeps the invariant, extended by what the event brought. *)
Lemma group_step_inv p s arr e :
  ice_inv p s arr → ice_inv p (step s e) (arr ++ arrivals p [e]).
Proof.
  intros [Hsum Hq]. destruct (decide (peer_of e = p)) as [Heq|Hne].
  - destruct e as [q i|q sdp|q sdp|q c|q st]; simpl in Heq; subst q.
    + (* createPeerConnection *)
      unfold arrivals; simpl. rewrite app_nil_r.
      unfold createPeerConnection.
      destruct (jm_has p (peerConnections s)) eqn:Hhas; [done|].
      apply jm_has_false in Hhas.
      unfold ice_inv, applied, queued, described, has_remote in *. simpl.
      rewrite jm_get_set_eq. rewrite Hhas in Hsum.
      split; [|by destruct i; simpl; rewrite addTracks_remoteDescription].
      by destruct i; simpl; rewrite addTracks_candidates.
    + (* handleOffer *)
      unfold arrivals; simpl. rewrite app_nil_r.
      destruct (group_offer_drains p sdp s) as (Ha & Hp & Hd).
      split; [|done]. unfold queued. simpl. rewrite Hp, Ha. simpl.
      by rewrite app_nil_r.
    + (* handleAnswer *)
      unfold arrivals; simpl. rewrite app_nil_r.
      destruct (jm_has p (peerConnections s)) eqn:Hhas.
      * destruct (group_answer_drains p sdp s Hhas) as (Ha & Hp & Hd).
        split; [|done]. unfold queued. simpl. rewrite Hp, Ha. simpl.
        by rewrite app_nil_r.
      * apply jm_has_false in Hhas. unfold handleAnswer. by rewrite Hhas.
    + (* handleIceCandidate *)
      unfold arrivals; simpl. rewrite decide_True by done. simpl.
      destruct (described p s) eqn:Hd.
      * destruct (group_candidate_applied p c s Hd) as (Ha & Hp).
        assert (Hd' : described p (handleIceCandidate p c s) = true).
        { revert Hd. unfold described, handleIceCandidate, has_remote.
          destruct (jm_get p (peerConnections s)) as [pc|]; [|done].
          destruct (remoteDescription pc) eqn:Hr; [|done]. intros _. simpl.
          rewrite jm_get_set_eq. simpl. by rewrite Hr. }
        split; [|by rewrite Hp; auto].
        unfold queued in *. rewrite Hp, Ha. rewrite (Hq eq_refl) in *.
        simpl in *. rewrite app_nil_r in *. by subst.
      * destruct (group_candidate_queued p c s Hd) as (Hqu & Ha).
        split.
        -- rewrite Ha, Hqu, app_assoc. by rewrite Hsum.
        -- revert Hd. unfold described, handleIceCandidate.
           destruct (has_remote p s) eqn:Hr; [done|]. intros _.
           unfold has_remote in *. simpl. by rewrite Hr.
    + (* connection state change *)
      unfold arrivals; simpl. rewrite app_nil_r.
      unfold connectionStateChanged.
      destruct (jm_get p (peerConnections s)) as [pc|] eqn:Hpc; [|done].
      unfold ice_inv, applied, queued, described, has_remote in *. simpl.
      rewrite jm_get_set_eq. rewrite Hpc in *.
      rewrite onconnectionstatechange_candidates,
        onconnectionstatechange_remoteDescription. simpl.
      split; [done|]. by destruct (remoteDescription pc).
  - rewrite (group_arrivals_other p e Hne), app_nil_r.
    destruct (group_step_other p e s Hne) as [Hpc Hpend].
    unfold ice_inv, applied, queued, described, has_remote in *.
    by rewrite Hpc, Hpend.
Qed.

Lemma group_run_inv p s arr es :
  ice_inv p s arr → ice_inv p (run s es) (arr ++ arrivals p es).
Proof.
  intros Hinv. induction es as [|e es IH] using rev_ind.
  - unfold arrivals. simpl. by rewrite app_nil_r.
  - rewrite group_run_snoc, group_arrivals_snoc, app_assoc.
    by apply group_step_inv.
Qed.

Lemma group_init_inv p localStream self : ice_inv p (init localStream self) [].
Proof. by split. Qed.

End GroupCallFacts.

(** ** useWebRTC of expanded-video-call *)

Section ExpandedCallFacts.
Import Rtc ExpandedCall.

Lemma expc_run_snoc s es e : run s (es ++ [e]) = step (run s es) e.
Proof. unfold run. by rewrite foldl_app. Qed.

Lemma expc_arrivals_snoc p es e :
  arrivals p (es ++ [e]) = arrivals p es ++ arrivals p [e].
Proof. unfold arrivals. by rewrite bind_app. Qed.

Lemma expc_create_has p u i s :
  jm_has p (peerConnections (createPeerConnection p u i s)) = true.
Proof.
  unfold createPeerConnection. destruct (jm_has p (peerConnections s)) eqn:E; [done|].
  simpl. unfold jm_has. by rewrite jm_get_set_eq.
Qed.

(** A candidate that arrives while no remote description is set is
    appended to the queue; nothing is passed to the engine. *)
Lemma expc_candidate_queued p c s :
  described p s = false →
  queued p (handleIceCandidate p c s) = queued p s ++ [c] ∧
  applied p (handleIceCandidate p c s) = applied p s.
Proof.
  unfold described, handleIceCandidate. destruct (has_remote p s); [done|].
  intros _. unfold queued, applied. simpl. by rewrite jm_get_set_eq.
Qed.

(** A candidate that arrives once the remote description is set goes
    straight to the engine. *)
Lemma expc_candidate_applied p c s :
  described p s = true →
  applied p (handleIceCandidate p c s) = applied p s ++ [c] ∧
  pendingCandidates (handleIceCandidate p c s) = pendingCandidates s.
Proof.
  unfold described, handleIceCandidate, has_remote, applied.
  destruct (jm_get p (peerConnections s)) as [pc|] eqn:E; [|done].
  destruct (remoteDescription pc); [|done]. intros _. simpl.
  by rewrite jm_get_set_eq.
Qed.

(** Applying an offer drains the queue in order and deletes it. *)
Lemma expc_offer_drains p u sdp s :
  applied p (handleOffer p u sdp s) = applied p s ++ queued p s ∧
  jm_get p (pendingCandidates (handleOffer p u sdp s)) = None ∧
  described p (handleOffer p u sdp s) = true.
Proof.
  unfold handleOffer, applied, queued, described, has_remote.
  destruct (jm_has p (peerConnections s)) eqn:Hhas; simpl.
  - apply jm_has_true in Hhas as [pc Hpc]. rewrite Hpc. simpl.
    rewrite !jm_get_set_eq, jm_get_delete_eq. simpl.
    by rewrite drain_candidates, drain_remoteDescription.
  - apply jm_has_false in Hhas. unfold createPeerConnection.
    replace (jm_has p (peerConnections s)) with false
      by (symmetry; by apply jm_has_false).
    rewrite Hhas. simpl. rewrite !jm_get_set_eq. simpl.
    rewrite !jm_get_set_eq, jm_get_delete_eq. simpl.
    rewrite drain_candidates, drain_remoteDescription. simpl.
    by rewrite !addTracks_candidates.
Qed.

(** So does applying an answer, on a connection that exists. *)
Lemma expc_answer_drains p sdp s :
  jm_has p (peerConnections s) = true →
  applied p (handleAnswer p sdp s) = applied p s ++ queued p s ∧
  jm_get p (pendingCandidates (handleAnswer p sdp s)) = None ∧
  described p (handleAnswer p sdp s) = true.
Proof.
  intros [pc Hpc]%jm_has_true.
  unfold handleAnswer, applied, queued, described, has_remote.
  rewrite Hpc. simpl. rewrite !jm_get_set_eq, jm_get_delete_eq. simpl.
  by rewrite drain_candidates, drain_remoteDescription.
Qed.

(** An event about another peer leaves the connection and the queue of
    [p] alone. *)
Lemma expc_step_other p e s :
  peer_of e ≠ p →
  jm_get p (peerConnections (step s e)) = jm_get p (peerConnections s) ∧
  jm_get p (pendingCandidates (step s e)) = jm_get p (pendingCandidates s).
Proof.
  intros Hne. destruct e as [q u i|q u sdp|q sdp|q c|q st]; simpl in Hne; simpl.
  - unfold createPeerConnection. destruct (jm_has q (peerConnections s)); [done|].
    simpl. by rewrite jm_get_set_ne.
  - unfold handleOffer, createPeerConnection.
    destruct (jm_has q (peerConnections s)) eqn:Hhas; simpl.
    + destruct (jm_get q (peerConnections s)); [|done]. simpl.
      by rewrite jm_get_set_ne, jm_get_delete_ne.
    + rewrite jm_get_set_eq. simpl.
      by rewrite !jm_get_set_ne, jm_get_delete_ne.
  - unfold handleAnswer. destruct (jm_get q (peerConnections s)); [|done]. simpl.
    by rewrite jm_get_set_ne, jm_get_delete_ne.
  - unfold handleIceCandidate. destruct (has_remote q s); simpl;
      by rewrite jm_get_set_ne.
  - unfold connectionStateChanged. destruct (jm_get q (peerConnections s)); [|done].
    simpl. by rewrite jm_get_set_ne.
Qed.

Lemma expc_arrivals_other p e : peer_of e ≠ p → arrivals p [e] = [].
Proof.
  intros Hne. destruct e; try done. simpl in *.
  unfold arrivals. simpl. by rewrite decide_False.
Qed.

(** Every event keeps the invariant, extended by what the event brought. *)
Lemma expc_step_inv p s arr e :
  ice_inv p s arr → ice_inv p (step s e) (arr ++ arrivals p [e]).
Proof.
  intros [Hsum Hq]. destruct (decide (peer_of e = p)) as [Heq|Hne].
  - destruct e as [q u i|q u sdp|q sdp|q c|q st]; simpl in Heq; subst q.
    + (* createPeerConnection *)
      unfold arrivals; simpl. rewrite app_nil_r.
      unfold createPeerConnection.
      destruct (jm_has p (peerConnections s)) eqn:Hhas; [done|].
      apply jm_has_false in Hhas.
      unfold ice_inv, applied, queued, described, has_remote in *. simpl.
      rewrite jm_get_set_eq. rewrite Hhas in Hsum.
      split; [|by destruct i; simpl; rewrite !addTracks_remoteDescription].
      by destruct i; simpl; rewrite !addTracks_candidates.
    + (* handleOffer *)
      unfold arrivals; simpl. rewrite app_nil_r.
      destruct (expc_offer_drains p u sdp s) as (Ha & Hp & Hd).
      split; [|done]. unfold queued. simpl. rewrite Hp, Ha. simpl.
      by rewrite app_nil_r.
    + (* handleAnswer *)
      unfold arrivals; simpl. rewrite app_nil_r.
      destruct (jm_has p (peerConnections s)) eqn:Hhas.
      * destruct (expc_answer_drains p sdp s Hhas) as (Ha & Hp & Hd).
        split; [|done]. unfold queued. simpl. rewrite Hp, Ha. simpl.
        by rewrite app_nil_r.
      * apply jm_has_false in Hhas. unfold handleAnswer. by rewrite Hhas.
    + (* handleIceCandidate *)
      unfold arrivals; simpl. rewrite decide_True by done. simpl.
      destruct (described p s) eqn:Hd.
      * destruct (expc_candidate_applied p c s Hd) as (Ha & Hp).
        assert (Hd' : described p (handleIceCandidate p c s) = true).
        { revert Hd. unfold described, handleIceCandidate, has_remote.
          destruct (jm_get p (peerConnections s)) as [pc|]; [|done].
          destruct (remoteDescription pc) eqn:Hr; [|done]. intros _. simpl.
          rewrite jm_get_set_eq. simpl. by rewrite Hr. }
        split; [|by rewrite Hp; auto].
        unfold queued in *. rewrite Hp, Ha. rewrite (Hq eq_refl) in *.
        simpl in *. rewrite app_nil_r in *. by subst.
      * destruct (expc_candidate_queued p c s Hd) as (Hqu & Ha).
        split.
        -- rewrite Ha, Hqu, app_assoc. by rewrite Hsum.
        -- revert Hd. unfold described, handleIceCandidate.
           destruct (has_remote p s) eqn:Hr; [done|]. intros _.
           unfold has_remote in *. simpl. by rewrite Hr.
    + (* connection state change *)
      unfold arrivals; simpl. rewrite app_nil_r.
      unfold connectionStateChanged.
      destruct (jm_get p (peerConnections s)) as [pc|] eqn:Hpc; [|done].
      unfold ice_inv, applied, queued, described, has_remote in *. simpl.
      rewrite jm_get_set_eq. rewrite Hpc in *.
      rewrite onconnectionstatechange_candidates,
        onconnectionstatechange_remoteDescription. simpl.
      split; [done|]. by destruct (remoteDescription pc).
  - rewrite (expc_arrivals_other p e Hne), app_nil_r.
    destruct (expc_step_other p e s Hne) as [Hpc Hpend].
    unfold ice_inv, applied, queued, described, has_remote in *.
    by rewrite Hpc, Hpend.
Qed.

Lemma expc_run_inv p s arr es :
  ice_inv p s arr → ice_inv p (run s es) (arr ++ arrivals p es).
Proof.
  intros Hinv. induction es as [|e es IH] using rev_ind.
  - unfold arrivals. simpl. by rewrite app_nil_r.
  - rewrite expc_run_snoc, expc_arrivals_snoc, app_assoc.
    by apply expc_step_inv.
Qed.

Lemma expc_init_inv p localStream screenStream self :
  ice_inv p (init localStream screenStream self) [].
Proof. by split. Qed.

End ExpandedCallFacts.

(** ** useWebRTC of group-video-call, await by await *)

Section GroupCallAsyncFacts.
Import Rtc GroupCall GroupCallAsync.

Lemma async_complete_done fuel s : complete fuel (s, None) = (s, None).
Proof. by destruct fuel. Qed.

Lemma async_complete_add n m r : complete (n + m) r = complete m (complete n r).
Proof.
  revert r. induction n as [|n IH]; intros [s [t|]]; simpl; try done.
  by rewrite async_complete_done.
Qed.

Lemma async_update_pc_get p f s pc :
  jm_get p (peerConnections s) = Some pc →
  jm_get p (peerConnections (update_pc p f s)) = Some (f pc).
Proof. intros H. unfold update_pc. rewrite H. simpl. by rewrite jm_get_set_eq. Qed.

Lemma async_update_pc_twice p f g s :
  update_pc p g (update_pc p f s) = update_pc p (g ∘ f) s.
Proof.
  unfold update_pc. destruct (jm_get p (peerConnections s)) as [pc|] eqn:E; simpl.
  - rewrite jm_get_set_eq. simpl. by rewrite jm_set_set.
  - by rewrite E.
Qed.

Lemma async_update_pc_ext p f g s :
  (∀ pc, f pc = g pc) → update_pc p f s = update_pc p g s.
Proof.
  intros H. unfold update_pc. destruct (jm_get p (peerConnections s)); [|done].
  by rewrite H.
Qed.

(** A loop that nothing interrupts passes the rest of the array to the
    engine and deletes the queue. *)
Lemma async_drain_uninterrupted answers p rest s :
  complete (length rest) (continue_drain answers p rest s)
  = (delete_queue p (update_pc p (drain rest) s),
     if answers then Some (CreatingAnswer p) else None).
Proof.
  revert s. induction rest as [|c rest IH]; intros s.
  - simpl. f_equal. f_equal. unfold update_pc.
    destruct (jm_get p (peerConnections s)) as [pc|] eqn:E; [|done].
    unfold drain. simpl. rewrite (jm_set_id _ _ _ E). by destruct s.
  - cbn [length complete continue_drain snd fst resume]. rewrite IH.
    by rewrite async_update_pc_twice.
Qed.

Lemma async_complete_S n t s : complete (S n) (s, Some t) = complete n (resume t s).
Proof. done. Qed.

(** [handleOffer] run to completion, await after await with nothing in
    between, is the one-step [handleOffer]. *)
Lemma async_offer_uninterrupted p sdp s :
  ∃ fuel, complete fuel (begin_offer p sdp s) = (handleOffer p sdp s, None).
Proof.
  unfold begin_offer, handleOffer.
  set (s1 := if negb (jm_has p (peerConnections s))
             then createPeerConnection p false s else s).
  destruct (jm_get p (peerConnections s1)) as [pc|] eqn:Hpc; [|by exists 0].
  set (pending := default [] (jm_get p (pendingCandidates s1))).
  set (pc2 := drain pending (setRemoteDescription (Remote sdp) pc)).
  exists (S (length pending + 2)).
  rewrite async_complete_S.
  assert (Hr : resume (SettingRemote true p sdp) s1
               = continue_drain true p pending
                   (update_pc p (setRemoteDescription (Remote sdp)) s1)).
  { unfold resume, update_pc, pending. by rewrite Hpc. }
  rewrite Hr, async_complete_add, async_drain_uninterrupted, async_update_pc_twice.
  set (s3 := delete_queue p _).
  assert (Hpc3 : jm_get p (peerConnections s3) = Some pc2).
  { unfold s3, delete_queue. cbn [peerConnections].
    by rewrite (async_update_pc_get _ _ _ _ Hpc). }
  rewrite async_complete_S. unfold resume at 1. rewrite Hpc3.
  rewrite async_complete_S. cbn [complete resume].
  f_equal. unfold send_answer, update_pc. rewrite Hpc3.
  unfold s3, delete_queue, update_pc, applyRemote. rewrite Hpc.
  cbn. fold pending. fold pc2. by rewrite jm_set_set.
Qed.

(** [handleAnswer] likewise. *)
Lemma async_answer_uninterrupted p sdp s :
  ∃ fuel, complete fuel (begin_answer p sdp s) = (handleAnswer p sdp s, None).
Proof.
  unfold begin_answer, handleAnswer.
  destruct (jm_get p (peerConnections s)) as [pc|] eqn:Hpc; [|by exists 0].
  set (pending := default [] (jm_get p (pendingCandidates s))).
  exists (S (length pending)).
  rewrite async_complete_S.
  assert (Hr : resume (SettingRemote false p sdp) s
               = continue_drain false p pending
                   (update_pc p (setRemoteDescription (Remote sdp)) s)).
  { unfold resume, update_pc, pending. by rewrite Hpc. }
  rewrite Hr, async_drain_uninterrupted, async_update_pc_twice.
  f_equal. unfold delete_queue, update_pc, applyRemote. by rewrite Hpc.
Qed.

End GroupCallAsyncFacts.

(** ** useBroadcasterWebRTC *)

Section BroadcasterFacts.
Import Rtc BroadcasterRtc.

Lemma bc_create_has p u s :
  jm_has p (peerConnections (createConnectionForViewer p u s)) = true.
Proof.
  unfold createConnectionForViewer.
  destruct (jm_has p (peerConnections s)) eqn:E; [done|].
  simpl. unfold jm_has. by rewrite jm_get_set_eq.
Qed.

Lemma bc_create_existing p u s :
  jm_has p (peerConnections s) = true → createConnectionForViewer p u s = s.
Proof. intros H. unfold createConnectionForViewer. by rewrite H. Qed.

Lemma bc_create_NoDup p u s :
  NoDup (jm_keys (peerConnections s)) →
  NoDup (jm_keys (peerConnections (createConnectionForViewer p u s))).
Proof.
  intros H. unfold createConnectionForViewer.
  destruct (jm_has p (peerConnections s)); [done|]. simpl. by apply jm_set_NoDup.
Qed.

Lemma bc_create_has_other p q u s :
  q ≠ p →
  jm_has p (peerConnections (createConnectionForViewer q u s))
  = jm_has p (peerConnections s).
Proof.
  intros Hne. unfold createConnectionForViewer.
  destruct (jm_has q (peerConnections s)); [done|].
  simpl. unfold jm_has. by rewrite jm_get_set_ne.
Qed.

Lemma bc_remove_has p q s :
  jm_has p (peerConnections (removeViewer q s)) = true →
  jm_has p (peerConnections s) = true.
Proof.
  simpl. unfold jm_has. destruct (decide (q = p)) as [->|Hne].
  - by rewrite jm_get_delete_eq.
  - by rewrite jm_get_delete_ne.
Qed.

Lemma bc_answer_has p q sdp s :
  jm_has p (peerConnections (handleAnswer q sdp s)) = jm_has p (peerConnections s).
Proof.
  unfold handleAnswer.
  destruct (jm_get q (peerConnections s)) as [pc|] eqn:E; [|done].
  simpl. unfold jm_has. destruct (decide (q = p)) as [->|Hne].
  - by rewrite jm_get_set_eq, E.
  - by rewrite jm_get_set_ne.
Qed.

Lemma bc_candidate_has p q cand s :
  jm_has p (peerConnections (handleIceCandidate q cand s))
  = jm_has p (peerConnections s).
Proof.
  unfold handleIceCandidate, has_remote.
  destruct (jm_get q (peerConnections s)) as [pc|] eqn:E; [|done].
  destruct (remoteDescription pc); [|done].
  simpl. unfold jm_has. destruct (decide (q = p)) as [->|Hne].
  - by rewrite jm_get_set_eq, E.
  - by rewrite jm_get_set_ne.
Qed.

End BroadcasterFacts.

(** ** The star relay of broadcast *)

Section StarRelayFacts.
Import StarRelay.

Lemma star_elem_of_send_if_open w p ms e :
  e ∈ send_if_open w p ms ↔
  sock_open w (ws p) = true ∧ ∃ m, m ∈ ms ∧ e = Send (ws p) m.
Proof.
  unfold send_if_open. destruct (sock_open w (ws p)).
  - rewrite list_elem_of_fmap. naive_solver.
  - rewrite elem_of_nil. naive_solver.
Qed.

Lemma star_elem_of_to_viewers w room m e :
  e ∈ to_viewers w room m ↔
  ∃ v, v ∈ jm_values (viewers room) ∧ sock_open w (ws v) = true ∧ e = Send (ws v) m.
Proof.
  unfold to_viewers. rewrite list_elem_of_bind.
  setoid_rewrite star_elem_of_send_if_open.
  setoid_rewrite list_elem_of_singleton. naive_solver.
Qed.

Lemma star_elem_of_to_broadcaster w room ms e :
  e ∈ to_broadcaster w room ms ↔
  ∃ b, broadcaster room = Some b ∧ sock_open w (ws b) = true ∧
       ∃ m, m ∈ ms ∧ e = Send (ws b) m.
Proof.
  unfold to_broadcaster. destruct (broadcaster room) as [b|].
  - rewrite star_elem_of_send_if_open. naive_solver.
  - rewrite elem_of_nil. naive_solver.
Qed.

Lemma star_is_broadcaster_of room c :
  is_broadcaster_of room c = true ↔
  ∃ b, broadcaster room = Some b ∧ currentPeerId c = Some (peerId b).
Proof.
  unfold is_broadcaster_of. destruct (broadcaster room) as [b|].
  - rewrite bool_decide_eq_true. naive_solver.
  - naive_solver.
Qed.

(** [to_viewers] reads the viewers and the sockets only. *)
Lemma star_to_viewers_live w bs room b m :
  to_viewers (with_broadcasts w bs) (set_live room b) m = to_viewers w room m.
Proof. done. Qed.

(** [to_viewers] as a list: one message per viewer whose socket is open,
    in registry order. *)
Lemma star_to_viewers_list w room m :
  to_viewers w room m
  = (λ v, Send (ws v) m) <$> filter (λ v, sock_open w (ws v) = true) (jm_values (viewers room)).
Proof.
  unfold to_viewers. induction (jm_values (viewers room)) as [|v l IH]; [done|].
  rewrite bind_cons, IH. unfold send_if_open.
  destruct (sock_open w (ws v)) eqn:E.
  - by rewrite filter_cons_True.
  - rewrite filter_cons_False; [done|congruence].
Qed.

End StarRelayFacts.

(** ** The star relay as a whole *)

Section StarSystemFacts.
Import StarRelay.

Lemma star_on_message_timers w c fresh data :
  timers (on_message w c fresh data).1.1 = timers w.
Proof.
  destruct data as [m|]; [|done].
  destruct m as [pid u|bid|bid|bid pid u|bid pid|to sdp|to sdp|to cand|bid text|];
    simpl; try done.
  - destruct (jm_get bid (broadcasts w)) as [room|]; [|done].
    by destruct (is_broadcaster_of room c).
  - destruct (jm_get bid (broadcasts w)) as [room|]; [|done].
    by destruct (is_broadcaster_of room c).
  - by destruct (jm_get bid (broadcasts w)).
  - by destruct (jm_get bid (broadcasts w)).
  - destruct (current_room w c) as [room|]; [|done].
    by destruct (jm_get to (viewers room)).
  - by destruct (current_room w c).
  - destruct (current_room w c) as [room|]; [|done].
    destruct (currentRole c) as [[|]|]; try done.
    by destruct (jm_get to (viewers room)).
  - by destruct (jm_get bid (broadcasts w)).
Qed.

Lemma star_on_message_conn_ws w c fresh data :
  conn_ws (on_message w c fresh data).1.2 = conn_ws c.
Proof.
  destruct data as [m|]; [|done].
  destruct m as [pid u|bid|bid|bid pid u|bid pid|to sdp|to sdp|to cand|bid text|];
    simpl; try done.
  - destruct (jm_get bid (broadcasts w)) as [room|]; [|done].
    by destruct (is_broadcaster_of room c).
  - destruct (jm_get bid (broadcasts w)) as [room|]; [|done].
    by destruct (is_broadcaster_of room c).
  - by destruct (jm_get bid (broadcasts w)).
  - by destruct (jm_get bid (broadcasts w)).
  - destruct (current_room w c) as [room|]; [|done].
    by destruct (jm_get to (viewers room)).
  - by destruct (current_room w c).
  - destruct (current_room w c) as [room|]; [|done].
    destruct (currentRole c) as [[|]|]; try done.
    by destruct (jm_get to (viewers room)).
  - by destruct (jm_get bid (broadcasts w)).
Qed.

(** No message handler removes a broadcast from the registry. *)
Lemma star_on_message_keeps w c fresh data bid :
  jm_has bid (broadcasts w) = true →
  jm_has bid (broadcasts (on_message w c fresh data).1.1) = true.
Proof.
  intros H. destruct data as [m|]; [|done].
  destruct m as [pid u|b|b|b pid u|b pid|to sdp|to sdp|to cand|b text|];
    simpl; try done.
  - by apply jm_has_set.
  - destruct (jm_get b (broadcasts w)) as [room|]; [|done].
    destruct (is_broadcaster_of room c); [|done]. by apply jm_has_set.
  - destruct (jm_get b (broadcasts w)) as [room|]; [|done].
    destruct (is_broadcaster_of room c); [|done]. by apply jm_has_set.
  - destruct (jm_get b (broadcasts w)); [|done]. by apply jm_has_set.
  - destruct (jm_get b (broadcasts w)); [|done]. by apply jm_has_set.
  - destruct (current_room w c) as [room|]; [|done].
    by destruct (jm_get to (viewers room)).
  - by destruct (current_room w c).
  - destruct (current_room w c) as [room|]; [|done].
    destruct (currentRole c) as [[|]|]; try done.
    by destruct (jm_get to (viewers room)).
  - by destruct (jm_get b (broadcasts w)).
Qed.

(** Neither does the close handler. *)
Lemma star_on_close_keeps w c bid :
  jm_has bid (broadcasts w) = true →
  jm_has bid (broadcasts (on_close w c).1) = true.
Proof.
  intros H. unfold on_close.
  destruct (truthy (currentBroadcastId c) && truthy (currentPeerId c)); [|done].
  destruct (currentBroadcastId c) as [b|]; [|done].
  destruct (currentPeerId c) as [pid|]; [|done].
  destruct (jm_get b (broadcasts w)) as [room|]; [|done].
  destruct (currentRole c) as [[|]|]; simpl; by apply jm_has_set.
Qed.

(** The close handler arms at most one timer, its own, at the current
    clock, and only for a broadcaster. *)
Lemma star_on_close_timers w c :
  timers (on_close w c).1 = timers w ∨
  (currentRole c = Some Broadcaster ∧
   timers (on_close w c).1
   = timers w ++ [{| owner := conn_ws c; armed_at := now w;
                     due := (now w + GRACE_MS)%N |}]).
Proof.
  unfold on_close.
  destruct (truthy (currentBroadcastId c) && truthy (currentPeerId c)); [|by left].
  destruct (currentBroadcastId c) as [b|]; [|by left].
  destruct (currentPeerId c) as [pid|]; [|by left].
  destruct (jm_get b (broadcasts w)) as [room|]; [|by left].
  destruct (currentRole c) as [[|]|]; simpl; first [by left | by right].
Qed.

Lemma star_cleanup_timers w c : timers (cleanup w c).1 = timers w.
Proof.
  unfold cleanup. destruct (currentBroadcastId c) as [b|]; [|done].
  destruct (jm_get b (broadcasts w)) as [room|]; [|done].
  by destruct (negb (isLive room) && bool_decide (jm_size (viewers room) = 0)).
Qed.

(** The timer callback removes nothing but the broadcast its connection
    is bound to. *)
Lemma star_cleanup_removes w c bid :
  jm_has bid (broadcasts w) = true →
  jm_has bid (broadcasts (cleanup w c).1) = false →
  currentBroadcastId c = Some bid.
Proof.
  unfold cleanup. intros Hin Hout.
  destruct (currentBroadcastId c) as [b|]; [|simpl in Hout; congruence].
  destruct (jm_get b (broadcasts w)) as [room|]; [|simpl in Hout; congruence].
  destruct (negb (isLive room) && bool_decide (jm_size (viewers room) = 0));
    [|simpl in Hout; congruence].
  simpl in Hout. f_equal. by eapply jm_has_delete_inv.
Qed.

Lemma star_run_snoc σ es e : run σ (es ++ [e]) = (step (run σ es) e).1.
Proof. unfold run. by rewrite foldl_app. Qed.

Lemma star_init_armed : timers_armed_by_close init_sys.
Proof.
  split.
  - intros t Ht. by apply elem_of_nil in Ht.
  - done.
Qed.

Lemma star_step_armed σ e :
  timers_armed_by_close σ → timers_armed_by_close (step σ e).1.
Proof.
  intros [Ht Hc]. destruct e as [s|s fresh data|s|s rs|dt|i]; simpl.
  - (* connect *)
    destruct (conns σ s) eqn:Hs; try by split.
    split; simpl.
    + intros t Hin. destruct (Ht t Hin) as (c & Hg & Hrest).
      exists c. split; [|done]. unfold set_conn.
      destruct (decide (owner t = s)) as [Heq|]; [rewrite Heq in Hg; congruence | done].
    + intros s' c. unfold set_conn.
      destruct (decide (s' = s)) as [->|]; [by intros [= <-] | apply Hc].
  - (* message *)
    destruct (conns σ s) as [|c|c at_] eqn:Hs; try by split.
    pose proof (star_on_message_timers (world σ) c fresh data) as Htm.
    pose proof (star_on_message_conn_ws (world σ) c fresh data) as Hws.
    destruct (on_message (world σ) c fresh data) as [[w' c'] effs].
    simpl in *. split; simpl.
    + rewrite Htm. intros t Hin. destruct (Ht t Hin) as (c0 & Hg & Hrest).
      exists c0. split; [|done]. unfold set_conn.
      destruct (decide (owner t = s)) as [Heq|]; [rewrite Heq in Hg; congruence | done].
    + intros s' c0. unfold set_conn.
      destruct (decide (s' = s)) as [->|]; [|apply Hc].
      intros [= <-]. rewrite Hws. by apply Hc.
  - (* close *)
    destruct (conns σ s) as [|c|c at_] eqn:Hs; try by split.
    pose proof (star_on_close_timers (world σ) c) as Htm.
    destruct (on_close (world σ) c) as [w' effs]. simpl in *.
    assert (Hold : ∀ t, t ∈ timers (world σ) →
      ∃ c0, set_conn σ s (Gone c (now (world σ))) (owner t) = Gone c0 (armed_at t) ∧
            currentRole c0 = Some Broadcaster ∧ due t = (armed_at t + GRACE_MS)%N).
    { intros t Hin. destruct (Ht t Hin) as (c0 & Hg & Hrest).
      exists c0. split; [|done]. unfold set_conn.
      destruct (decide (owner t = s)) as [Heq|]; [rewrite Heq in Hg; congruence | done]. }
    split; simpl.
    + destruct Htm as [->|[Hrole ->]]; [done|].
      intros t [Hin|Hin]%elem_of_app; [by apply Hold|].
      apply list_elem_of_singleton in Hin. subst t.
      simpl. exists c. rewrite (Hc s c Hs). unfold set_conn.
      by rewrite decide_True.
    + intros s' c0. unfold set_conn.
      destruct (decide (s' = s)) as [->|]; [done | apply Hc].
  - (* readyState *) by split.
  - (* tick *) by split.
  - (* timer *)
    destruct (timers (world σ) !! i) as [t|] eqn:Hi; [|by split].
    destruct (bool_decide (due t ≤ now (world σ))%N); [|by split].
    assert (Hsub : ∀ t', t' ∈ delete i (timers (world σ)) → t' ∈ timers (world σ)).
    { intros t'. apply list_elem_of_delete_inv. }
    destruct (conns σ (owner t)) as [|c|c at_] eqn:Ho.
    + split; simpl; [|done]. intros t' Hin. by apply Ht, Hsub.
    + pose proof (star_cleanup_timers
                    (with_timers (world σ) (delete i (timers (world σ)))) c) as Htm.
      destruct (cleanup _ c) as [w' effs]. simpl in *. split; simpl; [|done].
      rewrite Htm. intros t' Hin. by apply Ht, Hsub.
    + pose proof (star_cleanup_timers
                    (with_timers (world σ) (delete i (timers (world σ)))) c) as Htm.
      destruct (cleanup _ c) as [w' effs]. simpl in *. split; simpl; [|done].
      rewrite Htm. intros t' Hin. by apply Ht, Hsub.
Qed.

Lemma star_run_armed es : timers_armed_by_close (run init_sys es).
Proof.
  induction es as [|e es IH] using rev_ind.
  - apply star_init_armed.
  - rewrite star_run_snoc. by apply star_step_armed.
Qed.

(** A step that removes a broadcast from the registry is the firing of a
    cleanup timer that has waited the whole grace period. *)
Lemma star_step_removal σ e bid :
  timers_armed_by_close σ →
  jm_has bid (broadcasts (world σ)) = true →
  jm_has bid (broadcasts (world (step σ e).1)) = false →
  ∃ i t c,
    e = EvFire i ∧ timers (world σ) !! i = Some t ∧
    conns σ (owner t) = Gone c (armed_at t) ∧
    currentRole c = Some Broadcaster ∧
    currentBroadcastId c = Some bid ∧
    (armed_at t + GRACE_MS ≤ now (world σ))%N.
Proof.
  intros [Ht Hc] Hin Hout. destruct e as [s|s fresh data|s|s rs|dt|i]; simpl in Hout.
  - destruct (conns σ s); simpl in Hout; congruence.
  - destruct (conns σ s) as [|c|c at_]; simpl in Hout; try congruence.
    pose proof (star_on_message_keeps (world σ) c fresh data bid Hin) as Hk.
    destruct (on_message (world σ) c fresh data) as [[w' c'] effs].
    simpl in *. congruence.
  - destruct (conns σ s) as [|c|c at_]; simpl in Hout; try congruence.
    pose proof (star_on_close_keeps (world σ) c bid Hin) as Hk.
    destruct (on_close (world σ) c) as [w' effs]. simpl in *. congruence.
  - simpl in Hout. congruence.
  - simpl in Hout. congruence.
  - destruct (timers (world σ) !! i) as [t|] eqn:Hi; [|simpl in Hout; congruence].
    destruct (bool_decide (due t ≤ now (world σ))%N) eqn:Hdue;
      [|simpl in Hout; congruence].
    apply bool_decide_eq_true in Hdue.
    destruct (Ht t) as (c & Hg & Hrole & Hd).
    { by eapply list_elem_of_lookup_2. }
    rewrite Hg in Hout.
    pose proof (star_cleanup_removes
                  (with_timers (world σ) (delete i (timers (world σ)))) c bid Hin) as Hrm.
    destruct (cleanup _ c) as [w' effs]. simpl in *.
    exists i, t, c. split_and!; try done; [by apply Hrm | by rewrite <- Hd].
Qed.

End StarSystemFacts.

(** ** The star relay when no registered id is issued again *)

Section StarBound.
Import StarRelay.

Lemma star_fresh_snoc σ es e :
  fresh_ids σ (es ++ [e]) = fresh_ids σ es && fresh_ids (run σ es) [e].
Proof.
  revert σ. induction es as [|e0 es IH]; intros σ.
  - simpl. by rewrite andb_true_r.
  - change ((e0 :: es) ++ [e]) with (e0 :: (es ++ [e])).
    cbn [fresh_ids]. rewrite IH. cbn [run foldl].
    by rewrite andb_assoc.
Qed.

Lemma star_owner_delete (l : list Timer) i t t' :
  NoDup (owner <$> l) → l !! i = Some t → t' ∈ delete i l → owner t' ≠ owner t.
Proof.
  intros Hnd Hi Hin. rewrite delete_take_drop in Hin.
  rewrite <-(take_drop_middle l i t Hi) in Hnd.
  rewrite fmap_app, fmap_cons in Hnd.
  apply NoDup_app in Hnd as (_ & Hdisj & [Hnot _]%NoDup_cons).
  apply elem_of_app in Hin as [Hin|Hin]; intros Heq.
  - apply (Hdisj (owner t')); [apply list_elem_of_fmap; eauto|].
    rewrite Heq. apply elem_of_cons. by left.
  - apply Hnot. rewrite <-Heq. apply list_elem_of_fmap. eauto.
Qed.

(** Only [create-broadcast] writes the [broadcaster] of a room, and it
    writes the room of the id it was given. *)
Lemma star_on_message_broadcaster w c fresh data bid room :
  jm_get bid (broadcasts w) = Some room →
  (∀ pid u, data = Parsed (CreateBroadcast pid u) → fresh ≠ bid) →
  ∃ room', jm_get bid (broadcasts (on_message w c fresh data).1.1) = Some room' ∧
           broadcaster room' = broadcaster room.
Proof.
  intros Hroom Hfresh. destruct data as [m|]; [|by exists room].
  destruct m as [pid u|b|b|b pid u|b pid|to sdp|to sdp|to cand|b text|];
    simpl; try (by exists room).
  - specialize (Hfresh pid u eq_refl). rewrite jm_get_set_ne by done. by exists room.
  - destruct (jm_get b (broadcasts w)) as [r0|] eqn:E; [|by exists room].
    destruct (is_broadcaster_of r0 c); [|by exists room]. simpl.
    destruct (decide (b = bid)) as [->|Hne].
    + rewrite jm_get_set_eq. eexists. split; [done|]. simpl. congruence.
    + rewrite jm_get_set_ne by done. by exists room.
  - destruct (jm_get b (broadcasts w)) as [r0|] eqn:E; [|by exists room].
    destruct (is_broadcaster_of r0 c); [|by exists room]. simpl.
    destruct (decide (b = bid)) as [->|Hne].
    + rewrite jm_get_set_eq. eexists. split; [done|]. simpl. congruence.
    + rewrite jm_get_set_ne by done. by exists room.
  - destruct (jm_get b (broadcasts w)) as [r0|] eqn:E; [|by exists room]. simpl.
    destruct (decide (b = bid)) as [->|Hne].
    + rewrite jm_get_set_eq. eexists. split; [done|]. simpl. congruence.
    + rewrite jm_get_set_ne by done. by exists room.
  - destruct (jm_get b (broadcasts w)) as [r0|] eqn:E; [|by exists room]. simpl.
    destruct (decide (b = bid)) as [->|Hne].
    + rewrite jm_get_set_eq. eexists. split; [done|]. simpl. congruence.
    + rewrite jm_get_set_ne by done. by exists room.
  - destruct (current_room w c) as [r0|]; [|by exists room].
    destruct (jm_get to (viewers r0)); by exists room.
  - destruct (current_room w c); by exists room.
  - destruct (current_room w c) as [r0|]; [|by exists room].
    destruct (currentRole c) as [[|]|]; try (by exists room).
    destruct (jm_get to (viewers r0)); by exists room.
  - destruct (jm_get b (broadcasts w)); by exists room.
Qed.

(** A handler leaves the variables of its connection alone, or makes it
    a viewer, or makes it the broadcaster of the room it creates. *)
Lemma star_on_message_conn w c fresh data :
  let r := on_message w c fresh data in
  r.1.2 = c ∨ currentRole r.1.2 = Some Viewer ∨
  ∃ pid u room b,
    data = Parsed (CreateBroadcast pid u) ∧
    currentBroadcastId r.1.2 = Some fresh ∧ currentPeerId r.1.2 = Some pid ∧
    jm_get fresh (broadcasts r.1.1) = Some room ∧
    broadcaster room = Some b ∧ ws b = conn_ws c ∧ peerId b = pid.
Proof.
  destruct data as [m|]; [|by left].
  destruct m as [pid u|b|b|b pid u|b pid|to sdp|to sdp|to cand|b text|];
    simpl; try (by left).
  - right. right. eexists pid, u, _, _. rewrite jm_get_set_eq. simpl. done.
  - destruct (jm_get b (broadcasts w)) as [r0|]; [|by left].
    destruct (is_broadcaster_of r0 c); by left.
  - destruct (jm_get b (broadcasts w)) as [r0|]; [|by left].
    destruct (is_broadcaster_of r0 c); by left.
  - destruct (jm_get b (broadcasts w)) as [r0|]; [|by left]. right. by left.
  - destruct (jm_get b (broadcasts w)); by left.
  - destruct (current_room w c) as [r0|]; [|by left].
    destruct (jm_get to (viewers r0)); by left.
  - destruct (current_room w c); by left.
  - destruct (current_room w c) as [r0|]; [|by left].
    destruct (currentRole c) as [[|]|]; try (by left).
    destruct (jm_get to (viewers r0)); by left.
  - destruct (jm_get b (broadcasts w)); by left.
Qed.

Lemma star_on_close_broadcaster w c bid room :
  jm_get bid (broadcasts w) = Some room →
  ∃ room', jm_get bid (broadcasts (on_close w c).1) = Some room' ∧
           broadcaster room' = broadcaster room.
Proof.
  intros Hroom. unfold on_close.
  destruct (truthy (currentBroadcastId c) && truthy (currentPeerId c));
    [|by exists room].
  destruct (currentBroadcastId c) as [b|]; [|by exists room].
  destruct (currentPeerId c) as [pid|]; [|by exists room].
  destruct (jm_get b (broadcasts w)) as [r0|] eqn:E; [|by exists room].
  destruct (currentRole c) as [[|]|]; simpl;
    (destruct (decide (b = bid)) as [->|Hne];
     [rewrite jm_get_set_eq; eexists; split; [done|]; simpl; congruence
     |rewrite jm_get_set_ne by done; by exists room]).
Qed.

Lemma star_cleanup_other w c bid :
  currentBroadcastId c ≠ Some bid →
  jm_get bid (broadcasts (cleanup w c).1) = jm_get bid (broadcasts w).
Proof.
  intros Hne. unfold cleanup.
  destruct (currentBroadcastId c) as [b|]; [|done].
  destruct (jm_get b (broadcasts w)) as [r0|]; [|done].
  destruct (negb (isLive r0) && bool_decide (jm_size (viewers r0) = 0)); [|done].
  simpl. apply jm_get_delete_ne. congruence.
Qed.

Lemma star_init_bound : broadcaster_bound init_sys.
Proof.
  split_and!.
  - apply star_init_armed.
  - apply NoDup_nil_2.
  - intros s c bid [H|(t & a & Ht & _)]; [done|]. by apply elem_of_nil in Ht.
Qed.

Lemma star_step_bound σ e :
  broadcaster_bound σ → fresh_ids σ [e] = true → broadcaster_bound (step σ e).1.
Proof.
  intros (Harm & Hnd & Hb) Hfresh.
  split; [by apply star_step_armed|].
  destruct Harm as [Ht Hc].
  destruct e as [s|s fresh data|s|s rs|dt|i]; simpl in *.
  - (* connect *)
    destruct (conns σ s) eqn:Hs; try by split.
    split; [done|]. intros s' c bid Hh Hrole Hbid. simpl in *.
    apply Hb; [|done..]. unfold holds in *. simpl in *. unfold set_conn in Hh.
    destruct (decide (s' = s)) as [->|Hne]; [|done].
    destruct Hh as [[= <-]|(t & a & _ & _ & [=])]. done.
  - (* message *)
    destruct (conns σ s) as [|c|c at_] eqn:Hs; try by split.
    pose proof (star_on_message_timers (world σ) c fresh data) as Htm.
    pose proof (star_on_message_conn (world σ) c fresh data) as Hconn.
    pose proof (star_on_message_broadcaster (world σ) c fresh data) as Hfr.
    destruct (on_message (world σ) c fresh data) as [[w' c'] effs].
    simpl in *. rewrite Htm. split; [done|].
    assert (∀ bid room, jm_get bid (broadcasts (world σ)) = Some room →
            ∀ pid u, data = Parsed (CreateBroadcast pid u) → fresh ≠ bid) as Hnew.
    { intros bid room Hroom pid u ->. rewrite andb_true_r in Hfresh.
      apply negb_true_iff, jm_has_false in Hfresh. congruence. }
    assert (∀ s0 c0 bid, holds σ s0 c0 → currentRole c0 = Some Broadcaster →
            currentBroadcastId c0 = Some bid →
            ∃ room b, jm_get bid (broadcasts w') = Some room ∧
                      broadcaster room = Some b ∧ ws b = s0 ∧
                      currentPeerId c0 = Some (peerId b)) as Hold.
    { intros s0 c0 bid Hh Hrole Hbid.
      destruct (Hb s0 c0 bid Hh Hrole Hbid) as (room & b & Hroom & Hbr & Hws & Hp).
      destruct (Hfr bid room Hroom (Hnew bid room Hroom)) as (room' & Hroom' & Hbr').
      exists room', b. by rewrite Hbr'. }
    intros s' c0 bid Hh Hrole Hbid. unfold holds in Hh. simpl in Hh.
    unfold set_conn in Hh. destruct (decide (s' = s)) as [->|Hne].
    + destruct Hh as [[= <-]|(t & a & _ & _ & [=])].
      destruct Hconn as [->|[Hv|(pid & u & room & b & -> & Hcb & Hcp & Hroom & Hbr & Hws & Hpid)]].
      * apply Hold; [by left|done..].
      * congruence.
      * rewrite Hcb in Hbid. injection Hbid as <-.
        exists room, b. rewrite Hcp, Hpid, Hws. split_and!; try done. by apply Hc.
    + apply Hold; [|done..]. destruct Hh as [Hh|(t & a & Hin & Ho & Hg)]; [by left|].
      right. rewrite Htm in Hin. by exists t, a.
  - (* close *)
    destruct (conns σ s) as [|c|c at_] eqn:Hs; try by split.
    pose proof (star_on_close_timers (world σ) c) as Htm.
    pose proof (star_on_close_broadcaster (world σ) c) as Hfr.
    destruct (on_close (world σ) c) as [w' effs]. simpl in *.
    assert (s ∉ owner <$> timers (world σ)) as Hnew.
    { intros (t & Ho & Hin)%list_elem_of_fmap.
      destruct (Ht t Hin) as (c0 & Hg & _). rewrite <-Ho in Hg. congruence. }
    split.
    + destruct Htm as [->|[_ ->]]; [done|].
      rewrite fmap_app. apply NoDup_app. split_and!; [done| |apply NoDup_singleton].
      intros x Hx [->|[]%elem_of_nil]%elem_of_cons. simpl in Hx.
      by rewrite (Hc s c Hs) in Hx.
    + intros s' c0 bid Hh Hrole Hbid.
      assert (holds σ s' c0) as Hbefore.
      { unfold holds in *. simpl in *. unfold set_conn in Hh.
        destruct (decide (s' = s)) as [->|Hne].
        - destruct Hh as [[=]|(t & a & _ & _ & [= <- _])]. by left.
        - destruct Hh as [Hh|(t & a & Hin & Ho & Hg)]; [by left|].
          right. exists t, a. split_and!; try done.
          destruct Htm as [Heq|[_ Heq]]; rewrite Heq in Hin; [done|].
          apply elem_of_app in Hin as [Hin|[->|[]%elem_of_nil]%elem_of_cons]; [done|].
          simpl in Ho. rewrite (Hc s c Hs) in Ho. congruence. }
      destruct (Hb s' c0 bid Hbefore Hrole Hbid) as (room & b & Hroom & Hbr & Hws & Hp).
      destruct (Hfr bid room Hroom) as (room' & Hroom' & Hbr').
      exists room', b. by rewrite Hbr'.
  - (* readyState *)
    split; [done|]. intros s' c0 bid Hh. by apply Hb.
  - (* tick *)
    split; [done|]. intros s' c0 bid Hh. by apply Hb.
  - (* timer *)
    destruct (timers (world σ) !! i) as [t|] eqn:Hi; [|by split].
    destruct (bool_decide (due t ≤ now (world σ))%N); [|by split].
    assert (t ∈ timers (world σ)) as Hin by (by eapply list_elem_of_lookup_2).
    destruct (Ht t Hin) as (co & Hg & Hrole_o & _). rewrite Hg.
    pose proof (star_cleanup_timers
                  (with_timers (world σ) (delete i (timers (world σ)))) co) as Htm.
    pose proof (star_cleanup_other
                  (with_timers (world σ) (delete i (timers (world σ)))) co) as Hfr.
    destruct (cleanup _ co) as [w' effs]. simpl in *. rewrite Htm. split.
    + rewrite list_fmap_delete. eapply sublist_NoDup; [done|apply sublist_delete].
    + intros s' c0 bid Hh Hrole Hbid.
      assert (holds σ s' c0) as Hbefore.
      { destruct Hh as [Hh|(t' & a & Hin' & Ho & Hg')]; [by left|].
        right. exists t', a. split_and!; try done. simpl in Hin'. rewrite Htm in Hin'.
        by eapply list_elem_of_delete_inv. }
      destruct (Hb s' c0 bid Hbefore Hrole Hbid) as (room & b & Hroom & Hbr & Hws & Hp).
      destruct (decide (currentBroadcastId co = Some bid)) as [Heq|Hne].
      * exfalso.
        destruct (Hb (owner t) co bid) as (room2 & b2 & Hroom2 & Hbr2 & Hws2 & _);
          [right; by exists t, (armed_at t)|done..|].
        assert (s' = owner t) as -> by congruence.
        destruct Hh as [Hh|(t' & a & Hin' & Ho & Hg')]; [simpl in Hh; congruence|].
        simpl in Hin'. rewrite Htm in Hin'.
        by apply (star_owner_delete _ _ _ _ Hnd Hi Hin').
      * exists room, b. by rewrite Hfr.
Qed.

Lemma star_run_bound es :
  fresh_ids init_sys es = true → broadcaster_bound (run init_sys es).
Proof.
  induction es as [|e es IH] using rev_ind; intros Hf.
  - apply star_init_bound.
  - rewrite star_fresh_snoc in Hf. apply andb_true_iff in Hf as [Hf1 Hf2].
    rewrite star_run_snoc. by apply star_step_bound; [apply IH|].
Qed.

(** A timer that removes a broadcast found it off air and without
    viewers. *)
Lemma star_fire_removes_idle σ i bid :
  jm_has bid (broadcasts (world σ)) = true →
  jm_has bid (broadcasts (world (step σ (EvFire i)).1)) = false →
  ∃ room, jm_get bid (broadcasts (world σ)) = Some room ∧
          isLive room = false ∧ viewers room = [].
Proof.
  intros Hin Hout. simpl in Hout.
  destruct (timers (world σ) !! i) as [t|]; [|simpl in Hout; congruence].
  destruct (bool_decide (due t ≤ now (world σ))%N); [|simpl in Hout; congruence].
  set (w1 := with_timers (world σ) (delete i (timers (world σ)))) in *.
  assert (∀ c, jm_has bid (broadcasts (cleanup w1 c).1) = false →
               ∃ room, jm_get bid (broadcasts (world σ)) = Some room ∧
                       isLive room = false ∧ viewers room = []) as Hcl.
  { intros c. unfold cleanup. simpl.
    destruct (currentBroadcastId c) as [b|]; [|simpl; congruence].
    destruct (jm_get b (broadcasts (world σ))) as [room|] eqn:E; [|simpl; congruence].
    destruct (negb (isLive room) && bool_decide (jm_size (viewers room) = 0)) eqn:Hc;
      [|simpl; congruence].
    simpl. intros Hd. assert (b = bid) as -> by by eapply jm_has_delete_inv.
    apply andb_prop in Hc as [Hl Hv]. apply bool_decide_eq_true in Hv.
    exists room. split_and!; [done|by destruct (isLive room)|].
    by destruct (viewers room). }
  destruct (conns σ (owner t)) as [|c|c at_].
  - simpl in Hout. congruence.
  - specialize (Hcl c). destruct (cleanup w1 c) as [w' effs]. simpl in *. auto.
  - specialize (Hcl c). destruct (cleanup w1 c) as [w' effs]. simpl in *. auto.
Qed.

End StarBound.
(** ** Candidate queueing (both mesh hooks) *)

(** C1 (amended).  For every remote peer [p] and every sequence of
    events reaching the hook (local connection requests, offers, answers,
    ICE candidates and connectivity reports, for [p] and for other peers,
    in any order), each handler invocation running to completion before
    the next event is handled:
    - a candidate from [p] that arrives while no remote description is
      set for [p] is appended to the pending queue of [p] and not passed
      to the engine;
    - handling an offer from [p] (or an answer, on an existing
      connection) passes the queue of [p] to the engine in queue order,
      after what was passed before, and deletes the queue;
    - at every point the candidates passed to the engine followed by the
      ones still queued are exactly the candidates that arrived from [p],
      in arrival order, and once a remote description is set there is no
      queue, so every candidate has been passed to the engine exactly
      once, in arrival order.
    Stated for useWebRTC of group-video-call and of expanded-video-call.
    The one-step [handleOffer] and [handleAnswer] are what the await-level
    semantics does when nothing is handled between the awaits of an
    invocation. *)
Theorem ice_candidates_fifo_no_loss :
  (* group-video-call *)
  ((∀ p c s,
      GroupCall.described p s = false →
      GroupCall.queued p (GroupCall.handleIceCandidate p c s)
        = GroupCall.queued p s ++ [c] ∧
      GroupCall.applied p (GroupCall.handleIceCandidate p c s)
        = GroupCall.applied p s) ∧
   (∀ p sdp s,
      GroupCall.applied p (GroupCall.handleOffer p sdp s)
        = GroupCall.applied p s ++ GroupCall.queued p s ∧
      jm_get p (GroupCall.pendingCandidates (GroupCall.handleOffer p sdp s)) = None ∧
      GroupCall.described p (GroupCall.handleOffer p sdp s) = true) ∧
   (∀ p sdp s,
      jm_has p (GroupCall.peerConnections s) = true →
      GroupCall.applied p (GroupCall.handleAnswer p sdp s)
        = GroupCall.applied p s ++ GroupCall.queued p s ∧
      jm_get p (GroupCall.pendingCandidates (GroupCall.handleAnswer p sdp s)) = None ∧
      GroupCall.described p (GroupCall.handleAnswer p sdp s) = true) ∧
   (∀ localStream self es p,
      let s := GroupCall.run (GroupCall.init localStream self) es in
      GroupCall.applied p s ++ GroupCall.queued p s = GroupCall.arrivals p es ∧
      (GroupCall.described p s = true →
       jm_get p (GroupCall.pendingCandidates s) = None ∧
       GroupCall.applied p s = GroupCall.arrivals p es)) ∧
   (∀ p sdp s,
      ∃ fuel, GroupCallAsync.complete fuel (GroupCallAsync.begin_offer p sdp s)
              = (GroupCall.handleOffer p sdp s, None)) ∧
   (∀ p sdp s,
      ∃ fuel, GroupCallAsync.complete fuel (GroupCallAsync.begin_answer p sdp s)
              = (GroupCall.handleAnswer p sdp s, None))) ∧
  (* expanded-video-call *)
  ((∀ p c s,
      ExpandedCall.described p s = false →
      ExpandedCall.queued p (ExpandedCall.handleIceCandidate p c s)
        = ExpandedCall.queued p s ++ [c] ∧
      ExpandedCall.applied p (ExpandedCall.handleIceCandidate p c s)
        = ExpandedCall.applied p s) ∧
   (∀ p u sdp s,
      ExpandedCall.applied p (ExpandedCall.handleOffer p u sdp s)
        = ExpandedCall.applied p s ++ ExpandedCall.queued p s ∧
      jm_get p (ExpandedCall.pendingCandidates (ExpandedCall.handleOffer p u sdp s)) = None ∧
      ExpandedCall.described p (ExpandedCall.handleOffer p u sdp s) = true) ∧
   (∀ p sdp s,
      jm_has p (ExpandedCall.peerConnections s) = true →
      ExpandedCall.applied p (ExpandedCall.handleAnswer p sdp s)
        = ExpandedCall.applied p s ++ ExpandedCall.queued p s ∧
      jm_get p (ExpandedCall.pendingCandidates (ExpandedCall.handleAnswer p sdp s)) = None ∧
      ExpandedCall.described p (ExpandedCall.handleAnswer p sdp s) = true) ∧
   (∀ localStream screenStream uname es p,
      let s := ExpandedCall.run (ExpandedCall.init localStream screenStream uname) es in
      ExpandedCall.applied p s ++ ExpandedCall.queued p s = ExpandedCall.arrivals p es ∧
      (ExpandedCall.described p s = true →
       jm_get p (ExpandedCall.pendingCandidates s) = None ∧
       ExpandedCall.applied p s = ExpandedCall.arrivals p es))).
Proof.
  split; split_and!.
  - apply group_candidate_queued.
  - apply group_offer_drains.
  - apply group_answer_drains.
  - intros localStream self es p s.
    destruct (group_run_inv p _ [] es (group_init_inv p localStream self))
      as [Hsum Hq].
    simpl in Hsum. fold s in Hsum, Hq. split; [done|].
    intros Hd. specialize (Hq Hd). split; [done|].
    rewrite <- Hsum. unfold GroupCall.queued. rewrite Hq. simpl.
    by rewrite app_nil_r.
  - apply async_offer_uninterrupted.
  - apply async_answer_uninterrupted.
  - apply expc_candidate_queued.
  - apply expc_offer_drains.
  - apply expc_answer_drains.
  - intros localStream screenStream uname es p s.
    destruct (expc_run_inv p _ [] es (expc_init_inv p localStream screenStream uname))
      as [Hsum Hq].
    simpl in Hsum. fold s in Hsum, Hq. split; [done|].
    intros Hd. specialize (Hq Hd). split; [done|].
    rewrite <- Hsum. unfold ExpandedCall.queued. rewrite Hq. simpl.
    by rewrite app_nil_r.
Qed.

(** Two candidates arrive before the offer, one after: the engine gets
    all three, in arrival order. *)
Lemma ice_candidates_fifo_no_loss_witness :
  GroupCall.applied "P"
    (GroupCall.run (GroupCall.init None "me")
       [GroupCall.GotIceCandidate "P" "c1"; GroupCall.GotIceCandidate "Q" "d1";
        GroupCall.GotIceCandidate "P" "c2"; GroupCall.GotOffer "P" "sdp";
        GroupCall.GotIceCandidate "P" "c3"])
  = ["c1"; "c2"; "c3"].
Proof.
  exact (proj2 (proj2 (proj1 (proj2 (proj2 (proj2 (proj1 ice_candidates_fifo_no_loss))))
           None "me"
           [GroupCall.GotIceCandidate "P" "c1"; GroupCall.GotIceCandidate "Q" "d1";
            GroupCall.GotIceCandidate "P" "c2"; GroupCall.GotOffer "P" "sdp";
            GroupCall.GotIceCandidate "P" "c3"] "P") eq_refl)).
Defined.

(** The claim as stated fails when a candidate is handled while the drain
    of an earlier offer is suspended at an await.  The offer from P
    arrives and [handleOffer] awaits [setRemoteDescription]; c1 and c2
    arrive and are queued; the description is set and the loop passes c1
    to the engine and awaits; c3 arrives, finds a remote description and
    goes straight to the engine; the loop resumes with c2.  Every
    invocation has finished, the queue is gone, every candidate was passed
    once, and the engine got c1, c3, c2. *)
Lemma candidate_overtakes_queue_during_drain :
  let schedule :=
    [GroupCallAsync.ArriveOffer "P" "sdp";
     GroupCallAsync.ArriveIceCandidate "P" "c1";
     GroupCallAsync.ArriveIceCandidate "P" "c2";
     GroupCallAsync.Resume 0;
     GroupCallAsync.ArriveIceCandidate "P" "c3";
     GroupCallAsync.Resume 0; GroupCallAsync.Resume 0;
     GroupCallAsync.Resume 0; GroupCallAsync.Resume 0] in
  let σ := GroupCallAsync.schedule (GroupCall.init None "me", []) schedule in
  σ.2 = [] ∧
  jm_get "P" (GroupCall.pendingCandidates σ.1) = None ∧
  GroupCallAsync.arrived "P" schedule = ["c1"; "c2"; "c3"] ∧
  GroupCall.applied "P" σ.1 = ["c1"; "c3"; "c2"] ∧
  GroupCall.applied "P" σ.1 ≠ GroupCallAsync.arrived "P" schedule.
Proof. vm_compute. by split_and!. Qed.

(** ** Joining a room (both mesh relays) *)

(** C2 (amended).  For every join of a peer that is not yet a member of
    the room, on a registry whose entries are stored under their own
    peerId: the relay registers the joiner at the end of the room; its
    first effect is the [room-peers] reply to the joiner, carrying the
    members found (the joiner is not among them); the remaining sends are
    [peer-joined] notices for the joiner, one to every member found whose
    socket is open and to nobody else.  So every member found is in the
    snapshot, and it is sent a notice if and only if its socket is open.
    Stated for the relays of group-video-call and expanded-video-call. *)
Theorem join_snapshot_and_notices :
  (∀ w c roomId pid,
     GroupRelay.wf w →
     jm_get pid (GroupRelay.members w roomId) = None →
     ∃ w' c' rest,
       GroupRelay.on_message w c (GroupRelay.Parsed (GroupRelay.Join roomId pid))
         = (w', c',
            GroupRelay.Send (GroupRelay.conn_ws c)
              (GroupRelay.RoomPeers (jm_keys (GroupRelay.members w roomId))) :: rest) ∧
       jm_get roomId (GroupRelay.rooms w')
         = Some (GroupRelay.members w roomId
                 ++ [(pid, {| GroupRelay.peerId := pid;
                              GroupRelay.ws := GroupRelay.conn_ws c |})]) ∧
       (pid ∉ jm_keys (GroupRelay.members w roomId)) ∧
       (∀ s m, GroupRelay.Send s m ∈ rest ↔
          m = GroupRelay.PeerJoined pid ∧
          ∃ q, q ∈ jm_values (GroupRelay.members w roomId) ∧
               GroupRelay.ws q = s ∧ GroupRelay.sock_open w s = true) ∧
       (∀ q, q ∈ jm_values (GroupRelay.members w roomId) →
          GroupRelay.peerId q ∈ jm_keys (GroupRelay.members w roomId) ∧
          (GroupRelay.Send (GroupRelay.ws q) (GroupRelay.PeerJoined pid) ∈ rest
           ↔ GroupRelay.sock_open w (GroupRelay.ws q) = true))) ∧
  (∀ w c roomId pid uname,
     ExpandedRelay.wf w →
     jm_get pid (ExpandedRelay.members w roomId) = None →
     ∃ w' c' rest,
       ExpandedRelay.on_message w c
           (ExpandedRelay.Parsed (ExpandedRelay.Join roomId pid uname))
         = (w', c',
            ExpandedRelay.Send (ExpandedRelay.conn_ws c)
              (ExpandedRelay.RoomPeers
                 (ExpandedRelay.summary <$> jm_values (ExpandedRelay.members w roomId)))
              :: rest) ∧
       jm_get roomId (ExpandedRelay.rooms w')
         = Some (ExpandedRelay.members w roomId
                 ++ [(pid, {| ExpandedRelay.peerId := pid;
                              ExpandedRelay.username := or_default uname "Anonymous";
                              ExpandedRelay.ws := ExpandedRelay.conn_ws c;
                              ExpandedRelay.isScreenSharing := false |})]) ∧
       (pid ∉ ExpandedRelay.sum_peerId
                <$> (ExpandedRelay.summary <$> jm_values (ExpandedRelay.members w roomId))) ∧
       (∀ s m, ExpandedRelay.Send s m ∈ rest ↔
          m = ExpandedRelay.PeerJoined pid (or_default uname "Anonymous") ∧
          ∃ q, q ∈ jm_values (ExpandedRelay.members w roomId) ∧
               ExpandedRelay.ws q = s ∧ ExpandedRelay.sock_open w s = true) ∧
       (∀ q, q ∈ jm_values (ExpandedRelay.members w roomId) →
          ExpandedRelay.summary q
            ∈ ExpandedRelay.summary <$> jm_values (ExpandedRelay.members w roomId) ∧
          (ExpandedRelay.Send (ExpandedRelay.ws q)
             (ExpandedRelay.PeerJoined pid (or_default uname "Anonymous")) ∈ rest
           ↔ ExpandedRelay.sock_open w (ExpandedRelay.ws q) = true))).
Proof. split; [apply group_join_spec | apply exp_join_spec]. Qed.

(** B joins room r1, where A is: A is in B's snapshot and A is notified. *)
Lemma join_snapshot_and_notices_witness :
  let w := {| GroupRelay.rooms :=
                [("r1", [("A", {| GroupRelay.peerId := "A"; GroupRelay.ws := 1 |})])];
              GroupRelay.readyState := λ _, OPEN |} in
  GroupRelay.wf w ∧
  jm_get "B" (GroupRelay.members w "r1") = None ∧
  ∃ w' c' rest,
    GroupRelay.on_message w (GroupRelay.new_conn 2)
        (GroupRelay.Parsed (GroupRelay.Join "r1" "B"))
      = (w', c', GroupRelay.Send 2 (GroupRelay.RoomPeers ["A"]) :: rest) ∧
    GroupRelay.Send 1 (GroupRelay.PeerJoined "B") ∈ rest.
Proof.
  intros w. split; [reflexivity|]. split; [reflexivity|].
  destruct (proj1 join_snapshot_and_notices w (GroupRelay.new_conn 2) "r1" "B"
              eq_refl eq_refl) as (w' & c' & rest & Heq & _ & _ & _ & Hq).
  exists w', c', rest. split; [exact Heq|].
  apply (Hq {| GroupRelay.peerId := "A"; GroupRelay.ws := 1 |}).
  - apply list_elem_of_here.
  - reflexivity.
Defined.

(** The claim as stated fails for a member whose socket is no longer
    open but whose close handler has not run yet.  A is in room r1 and
    its socket is closing; B joins: B's snapshot lists A, and the only
    effects are the reply to B and the log line, so A gets no
    [peer-joined]. *)
Lemma join_skips_member_with_closing_socket :
  let w := {| GroupRelay.rooms :=
                [("r1", [("A", {| GroupRelay.peerId := "A"; GroupRelay.ws := 1 |})])];
              GroupRelay.readyState := λ s, if decide (s = 1) then CLOSING else OPEN |} in
  let r := GroupRelay.on_message w (GroupRelay.new_conn 2)
             (GroupRelay.Parsed (GroupRelay.Join "r1" "B")) in
  GroupRelay.wf w ∧
  jm_get "B" (GroupRelay.members w "r1") = None ∧
  r.2 = [GroupRelay.Send 2 (GroupRelay.RoomPeers ["A"]);
         GroupRelay.Log (GroupRelay.LogJoined "B" "r1" 2)] ∧
  ¬ (∀ q, q ∈ jm_values (GroupRelay.members w "r1") →
       (GroupRelay.peerId q ∈ ["A"]
        ↔ GroupRelay.Send (GroupRelay.ws q) (GroupRelay.PeerJoined "B") ∈ r.2)).
Proof.
  intros w r. split_and!; [reflexivity..|].
  intros H.
  destruct (H {| GroupRelay.peerId := "A"; GroupRelay.ws := 1 |}) as [Hsent _].
  { apply list_elem_of_here. }
  specialize (Hsent (list_elem_of_here _ _)).
  change r.2 with [GroupRelay.Send 2 (GroupRelay.RoomPeers ["A"]);
                   GroupRelay.Log (GroupRelay.LogJoined "B" "r1" 2)] in Hsent.
  simpl in Hsent.
  apply elem_of_cons in Hsent as [Hsent|Hsent]; [discriminate|].
  apply elem_of_cons in Hsent as [Hsent|Hsent]; [discriminate|].
  by apply elem_of_nil in Hsent.
Qed.

(** ** One connection per remote peer *)

Section SingleConnection.
Import Rtc.

Lemma group_create_existing p i s :
  jm_has p (GroupCall.peerConnections s) = true →
  GroupCall.createPeerConnection p i s = s.
Proof. intros H. unfold GroupCall.createPeerConnection. by rewrite H. Qed.

Lemma group_create_NoDup p i s :
  NoDup (jm_keys (GroupCall.peerConnections s)) →
  NoDup (jm_keys (GroupCall.peerConnections (GroupCall.createPeerConnection p i s))).
Proof.
  intros H. unfold GroupCall.createPeerConnection.
  destruct (jm_has p (GroupCall.peerConnections s)); [done|]. simpl.
  by apply jm_set_NoDup.
Qed.

Lemma expc_create_existing p u i s :
  jm_has p (ExpandedCall.peerConnections s) = true →
  ExpandedCall.createPeerConnection p u i s = s.
Proof. intros H. unfold ExpandedCall.createPeerConnection. by rewrite H. Qed.

Lemma expc_create_NoDup p u i s :
  NoDup (jm_keys (ExpandedCall.peerConnections s)) →
  NoDup (jm_keys (ExpandedCall.peerConnections
                    (ExpandedCall.createPeerConnection p u i s))).
Proof.
  intros H. unfold ExpandedCall.createPeerConnection.
  destruct (jm_has p (ExpandedCall.peerConnections s)); [done|]. simpl.
  by apply jm_set_NoDup.
Qed.

(** C3.  In each hook the connections are the values of a map keyed by
    the remote peer.  A creation request for a remote peer that already
    has a connection returns the state it was given: the map still holds
    the first instance, no [RTCPeerConnection] is constructed and nothing
    is sent.  Hence asking twice is asking once, after a request the peer
    has a connection, and the keys of the map stay free of duplicates.
    Stated for [createPeerConnection] of both mesh hooks and for
    [createConnectionForViewer] of the broadcaster hook. *)
Theorem duplicate_connection_request_is_noop :
  (* group-video-call *)
  ((∀ p i s,
      jm_has p (GroupCall.peerConnections s) = true →
      GroupCall.createPeerConnection p i s = s) ∧
   (∀ p i i' s,
      GroupCall.createPeerConnection p i' (GroupCall.createPeerConnection p i s)
      = GroupCall.createPeerConnection p i s) ∧
   (∀ p i s,
      jm_has p (GroupCall.peerConnections (GroupCall.createPeerConnection p i s)) = true) ∧
   (∀ p i s,
      NoDup (jm_keys (GroupCall.peerConnections s)) →
      NoDup (jm_keys (GroupCall.peerConnections (GroupCall.createPeerConnection p i s))))) ∧
  (* expanded-video-call *)
  ((∀ p u i s,
      jm_has p (ExpandedCall.peerConnections s) = true →
      ExpandedCall.createPeerConnection p u i s = s) ∧
   (∀ p u u' i i' s,
      ExpandedCall.createPeerConnection p u' i'
        (ExpandedCall.createPeerConnection p u i s)
      = ExpandedCall.createPeerConnection p u i s) ∧
   (∀ p u i s,
      jm_has p (ExpandedCall.peerConnections
                  (ExpandedCall.createPeerConnection p u i s)) = true) ∧
   (∀ p u i s,
      NoDup (jm_keys (ExpandedCall.peerConnections s)) →
      NoDup (jm_keys (ExpandedCall.peerConnections
                        (ExpandedCall.createPeerConnection p u i s))))) ∧
  (* broadcast *)
  ((∀ p u s,
      jm_has p (BroadcasterRtc.peerConnections s) = true →
      BroadcasterRtc.createConnectionForViewer p u s = s) ∧
   (∀ p u u' s,
      BroadcasterRtc.createConnectionForViewer p u'
        (BroadcasterRtc.createConnectionForViewer p u s)
      = BroadcasterRtc.createConnectionForViewer p u s) ∧
   (∀ p u s,
      jm_has p (BroadcasterRtc.peerConnections
                  (BroadcasterRtc.createConnectionForViewer p u s)) = true) ∧
   (∀ p u s,
      NoDup (jm_keys (BroadcasterRtc.peerConnections s)) →
      NoDup (jm_keys (BroadcasterRtc.peerConnections
                        (BroadcasterRtc.createConnectionForViewer p u s))))).
Proof.
  split_and!.
  - apply group_create_existing.
  - intros. apply group_create_existing, group_create_has.
  - apply group_create_has.
  - apply group_create_NoDup.
  - apply expc_create_existing.
  - intros. apply expc_create_existing, expc_create_has.
  - apply expc_create_has.
  - apply expc_create_NoDup.
  - apply bc_create_existing.
  - intros. apply bc_create_existing, bc_create_has.
  - apply bc_create_has.
  - apply bc_create_NoDup.
Qed.

(** The broadcaster already holds connection number 0 to viewer v1 and
    has sent its offer; a second request constructs and sends nothing. *)
Lemma duplicate_connection_request_is_noop_witness :
  let s := BroadcasterRtc.createConnectionForViewer "v1" "Vic"
             (BroadcasterRtc.init (Some ["video"; "audio"])) in
  jm_has "v1" (BroadcasterRtc.peerConnections s) = true ∧
  BroadcasterRtc.createConnectionForViewer "v1" "Vic" s = s ∧
  BroadcasterRtc.constructed s = 1 ∧
  BroadcasterRtc.viewerCount s = 1%Z.
Proof.
  intros s. split; [reflexivity|]. split; [|split; reflexivity].
  exact (proj1 (proj2 (proj2 duplicate_connection_request_is_noop)) "v1" "Vic" s eq_refl).
Defined.

End SingleConnection.

(** ** Connectivity failure *)

Section ConnectivityFailure.
Import Rtc.

Lemma same_session_refl pc : same_session pc pc.
Proof. by repeat split. Qed.

Lemma same_session_failed a b :
  same_session a b →
  same_session a (onconnectionstatechange (setConnectionState StFailed b)).
Proof. unfold same_session. simpl. tauto. Qed.

Lemma restarts_failed pc :
  restarts (onconnectionstatechange (setConnectionState StFailed pc)) = S (restarts pc).
Proof. done. Qed.

Lemma restarts_not_failed st pc :
  st ≠ StFailed →
  restarts (onconnectionstatechange (setConnectionState st pc)) = restarts pc.
Proof. by destruct st. Qed.

Lemma group_failed_reports n p pc s :
  jm_get p (GroupCall.peerConnections s) = Some pc →
  let s' := Nat.iter n (GroupCall.connectionStateChanged p StFailed) s in
  ∃ pc', jm_get p (GroupCall.peerConnections s') = Some pc' ∧
         restarts pc' = restarts pc + n ∧ same_session pc pc' ∧
         jm_keys (GroupCall.peerConnections s') = jm_keys (GroupCall.peerConnections s) ∧
         GroupCall.remotePeers s' = GroupCall.remotePeers s ∧
         GroupCall.pendingCandidates s' = GroupCall.pendingCandidates s ∧
         GroupCall.sent s' = GroupCall.sent s.
Proof.
  intros Hpc. induction n as [|n IH]; simpl.
  - exists pc. rewrite Nat.add_0_r. split_and!; try done; apply same_session_refl.
  - destruct IH as (pc' & Hget & Hr & Hsame & Hk & Hrp & Hpend & Hsent).
    set (s0 := Nat.iter n _ s) in *.
    unfold GroupCall.connectionStateChanged. rewrite Hget. simpl.
    eexists. rewrite jm_get_set_eq. split; [done|].
    rewrite jm_keys_set. unfold jm_has. rewrite Hget.
    split_and!; try done;
      try (rewrite restarts_failed, Hr; lia); by apply same_session_failed.
Qed.

Lemma expc_failed_reports n p pc s :
  jm_get p (ExpandedCall.peerConnections s) = Some pc →
  let s' := Nat.iter n (ExpandedCall.connectionStateChanged p StFailed) s in
  ∃ pc', jm_get p (ExpandedCall.peerConnections s') = Some pc' ∧
         restarts pc' = restarts pc + n ∧ same_session pc pc' ∧
         jm_keys (ExpandedCall.peerConnections s')
           = jm_keys (ExpandedCall.peerConnections s) ∧
         ExpandedCall.remotePeers s' = ExpandedCall.remotePeers s ∧
         ExpandedCall.pendingCandidates s' = ExpandedCall.pendingCandidates s ∧
         ExpandedCall.sent s' = ExpandedCall.sent s.
Proof.
  intros Hpc. induction n as [|n IH]; simpl.
  - exists pc. rewrite Nat.add_0_r. split_and!; try done; apply same_session_refl.
  - destruct IH as (pc' & Hget & Hr & Hsame & Hk & Hrp & Hpend & Hsent).
    set (s0 := Nat.iter n _ s) in *.
    unfold ExpandedCall.connectionStateChanged. rewrite Hget. simpl.
    eexists. rewrite jm_get_set_eq. split; [done|].
    rewrite jm_keys_set. unfold jm_has. rewrite Hget.
    split_and!; try done;
      try (rewrite restarts_failed, Hr; lia); by apply same_session_failed.
Qed.

Lemma bc_failed_reports n p pc s :
  jm_get p (BroadcasterRtc.peerConnections s) = Some pc →
  let s' := Nat.iter n (BroadcasterRtc.connectionStateChanged p StFailed) s in
  ∃ pc', jm_get p (BroadcasterRtc.peerConnections s') = Some pc' ∧
         restarts pc' = restarts pc + n ∧ same_session pc pc' ∧
         jm_keys (BroadcasterRtc.peerConnections s')
           = jm_keys (BroadcasterRtc.peerConnections s) ∧
         BroadcasterRtc.viewers s' = BroadcasterRtc.viewers s ∧
         BroadcasterRtc.viewerCount s' = BroadcasterRtc.viewerCount s ∧
         BroadcasterRtc.pendingCandidates s' = BroadcasterRtc.pendingCandidates s ∧
         BroadcasterRtc.sent s' = BroadcasterRtc.sent s.
Proof.
  intros Hpc. induction n as [|n IH]; simpl.
  - exists pc. rewrite Nat.add_0_r. split_and!; try done; apply same_session_refl.
  - destruct IH as (pc' & Hget & Hr & Hsame & Hk & Hv & Hvc & Hpend & Hsent).
    set (s0 := Nat.iter n _ s) in *.
    unfold BroadcasterRtc.connectionStateChanged. rewrite Hget. simpl.
    eexists. rewrite jm_get_set_eq. split; [done|].
    rewrite jm_keys_set. unfold jm_has. rewrite Hget.
    split_and!; try done;
      try (rewrite restarts_failed, Hr; lia); by apply same_session_failed.
Qed.

(** C4 (amended).  Whenever the connection to a remote peer reports the
    connectivity state 'failed', the hook calls [restartIce] on that
    connection, in place: after [n] such reports the same connection
    (same instance, descriptions, candidates, not closed by the hook) is
    still registered under the peer and [restartIce] has been called [n]
    more times; the list of remote peers (viewers and viewer count for
    the broadcaster), the candidate queues and the messages sent are
    untouched.  A report of any other state calls nothing.  There is no
    bound on the restarts, no teardown and no report to the application.
    Stated for both mesh hooks and for the broadcaster hook. *)
Theorem failed_report_restarts_ice_in_place :
  (∀ st pc, st ≠ StFailed →
     restarts (onconnectionstatechange (setConnectionState st pc)) = restarts pc) ∧
  (∀ n p pc s,
     jm_get p (GroupCall.peerConnections s) = Some pc →
     let s' := Nat.iter n (GroupCall.connectionStateChanged p StFailed) s in
     ∃ pc', jm_get p (GroupCall.peerConnections s') = Some pc' ∧
            restarts pc' = restarts pc + n ∧ same_session pc pc' ∧
            jm_keys (GroupCall.peerConnections s') = jm_keys (GroupCall.peerConnections s) ∧
            GroupCall.remotePeers s' = GroupCall.remotePeers s ∧
            GroupCall.pendingCandidates s' = GroupCall.pendingCandidates s ∧
            GroupCall.sent s' = GroupCall.sent s) ∧
  (∀ n p pc s,
     jm_get p (ExpandedCall.peerConnections s) = Some pc →
     let s' := Nat.iter n (ExpandedCall.connectionStateChanged p StFailed) s in
     ∃ pc', jm_get p (ExpandedCall.peerConnections s') = Some pc' ∧
            restarts pc' = restarts pc + n ∧ same_session pc pc' ∧
            jm_keys (ExpandedCall.peerConnections s')
              = jm_keys (ExpandedCall.peerConnections s) ∧
            ExpandedCall.remotePeers s' = ExpandedCall.remotePeers s ∧
            ExpandedCall.pendingCandidates s' = ExpandedCall.pendingCandidates s ∧
            ExpandedCall.sent s' = ExpandedCall.sent s) ∧
  (∀ n p pc s,
     jm_get p (BroadcasterRtc.peerConnections s) = Some pc →
     let s' := Nat.iter n (BroadcasterRtc.connectionStateChanged p StFailed) s in
     ∃ pc', jm_get p (BroadcasterRtc.peerConnections s') = Some pc' ∧
            restarts pc' = restarts pc + n ∧ same_session pc pc' ∧
            jm_keys (BroadcasterRtc.peerConnections s')
              = jm_keys (BroadcasterRtc.peerConnections s) ∧
            BroadcasterRtc.viewers s' = BroadcasterRtc.viewers s ∧
            BroadcasterRtc.viewerCount s' = BroadcasterRtc.viewerCount s ∧
            BroadcasterRtc.pendingCandidates s' = BroadcasterRtc.pendingCandidates s ∧
            BroadcasterRtc.sent s' = BroadcasterRtc.sent s).
Proof.
  split_and!.
  - apply restarts_not_failed.
  - apply group_failed_reports.
  - apply expc_failed_reports.
  - apply bc_failed_reports.
Qed.

(** Three 'failed' reports on the connection to P: three restarts. *)
Lemma failed_report_restarts_ice_in_place_witness :
  let s := GroupCall.createPeerConnection "P" true (GroupCall.init None "me") in
  ∃ pc', jm_get "P" (GroupCall.peerConnections
                       (Nat.iter 3 (GroupCall.connectionStateChanged "P" StFailed) s))
         = Some pc' ∧
         restarts pc' = 3 ∧ closed pc' = false.
Proof.
  intros s.
  destruct (proj1 (proj2 failed_report_restarts_ice_in_place) 3 "P"
              (setLocalDescription (LocalOffer 0) (new_pc 0)) s eq_refl)
    as (pc' & Hget & Hr & Hsame & _).
  exists pc'. split; [exact Hget|]. split; [exact Hr|].
  destruct Hsame as (_ & _ & _ & _ & _ & _ & Hclosed). by rewrite <- Hclosed.
Defined.

(** The claim as stated fails: the connection to P reports 'failed'
    twice.  [restartIce] has then been called twice, not once, and after
    the second failure the connection is still registered and not closed,
    P is still in the list of remote peers, and nothing tells the
    application. *)
Lemma second_failure_restarts_again_without_teardown :
  let s := GroupCall.run (GroupCall.init None "me")
             [GroupCall.Create "P" true;
              GroupCall.StateChanged "P" StFailed;
              GroupCall.StateChanged "P" StFailed] in
  (restarts <$> jm_get "P" (GroupCall.peerConnections s)) = Some 2 ∧
  (closed <$> jm_get "P" (GroupCall.peerConnections s)) = Some false ∧
  GroupCall.remotePeers s = [{| GroupCall.peerId := "P"; GroupCall.stream := None |}] ∧
  ¬ ((restarts <$> jm_get "P" (GroupCall.peerConnections s)) = Some 1 ∧
     jm_has "P" (GroupCall.peerConnections s) = false).
Proof. vm_compute. split_and!; try done. by intros [? ?]. Qed.

End ConnectivityFailure.

(** ** Going live and ending (star relay) *)

Section LiveFlag.
Import StarRelay.

(** C10.  A start-broadcast or end-broadcast message is acted upon exactly
    when the named room exists, has a broadcaster, and the peerId of the
    sending connection ([currentPeerId]) equals the broadcaster's peerId.
    Then the room's [isLive] becomes true (false for end-broadcast), every
    viewer whose socket is open is sent broadcast-started
    (broadcast-ended), nobody else is sent anything, and the connection's
    variables are unchanged.  Otherwise the world and the connection are
    returned as they were and there is no effect at all. *)
Theorem live_flag_gated_by_broadcaster_peer_id :
  ∀ w c fresh bid,
    (∀ room, is_broadcaster_of room c = true ↔
       ∃ b, broadcaster room = Some b ∧ currentPeerId c = Some (peerId b)) ∧
    ((∀ room, jm_get bid (broadcasts w) = Some room → is_broadcaster_of room c = false) →
     on_message w c fresh (Parsed (StartBroadcast bid)) = (w, c, []) ∧
     on_message w c fresh (Parsed (EndBroadcast bid)) = (w, c, [])) ∧
    (∀ room,
       jm_get bid (broadcasts w) = Some room →
       is_broadcaster_of room c = true →
       on_message w c fresh (Parsed (StartBroadcast bid))
         = (with_broadcasts w (jm_set bid (set_live room true) (broadcasts w)), c,
            to_viewers w room (BroadcastStarted bid)
              ++ [Log (LogLive bid (jm_size (viewers room)))]) ∧
       on_message w c fresh (Parsed (EndBroadcast bid))
         = (with_broadcasts w (jm_set bid (set_live room false) (broadcasts w)), c,
            to_viewers w room (BroadcastEnded bid) ++ [Log (LogEnded bid)]) ∧
       (∀ notice s m,
          Send s m ∈ to_viewers w room notice ↔
          m = notice ∧
          ∃ v, v ∈ jm_values (viewers room) ∧ ws v = s ∧ sock_open w s = true)).
Proof.
  intros w c fresh bid. split_and!.
  - intros room. apply star_is_broadcaster_of.
  - intros H. simpl. destruct (jm_get bid (broadcasts w)) as [room|] eqn:E; [|done].
    by rewrite (H room eq_refl).
  - intros room Hroom Hb. simpl. rewrite Hroom, Hb. split_and!; [done..|].
    intros notice s m. rewrite star_elem_of_to_viewers. split.
    + intros (v & Hv & Hopen & [= -> ->]). split; [done|]. by exists v.
    + intros [-> (v & Hv & Hws & Hopen)]. subst s. by exists v.
Qed.

(** Room ABC of broadcaster B with viewers V (socket open) and W (socket
    closed).  A start-broadcast from V's connection changes nothing; the
    one from B's connection sets the flag and notifies V only. *)
Lemma live_flag_gated_by_broadcaster_peer_id_witness :
  let room := {| broadcastId := "ABC";
                 broadcaster := Some {| peerId := "B"; username := "Bea"; ws := 0 |};
                 viewers := [("V", {| peerId := "V"; username := "Vic"; ws := 1 |});
                             ("W", {| peerId := "W"; username := "Wes"; ws := 2 |})];
                 isLive := false |} in
  let w := {| broadcasts := [("ABC", room)];
              readyState := λ s, if decide (s = 2) then CLOSED else OPEN;
              now := 0%N; timers := [] |} in
  let cB := {| conn_ws := 0; currentBroadcastId := Some "ABC";
               currentPeerId := Some "B"; currentUsername := "Bea";
               currentRole := Some Broadcaster |} in
  let cV := {| conn_ws := 1; currentBroadcastId := Some "ABC";
               currentPeerId := Some "V"; currentUsername := "Vic";
               currentRole := Some Viewer |} in
  on_message w cV "" (Parsed (StartBroadcast "ABC")) = (w, cV, []) ∧
  on_message w cB "" (Parsed (StartBroadcast "ABC"))
    = (with_broadcasts w [("ABC", set_live room true)], cB,
       [Send 1 (BroadcastStarted "ABC"); Log (LogLive "ABC" 2)]).
Proof.
  intros room w cB cV. split.
  - refine (proj1 (proj1 (proj2 (live_flag_gated_by_broadcaster_peer_id w cV "" "ABC")) _)).
    intros r [= <-]. reflexivity.
  - exact (proj1 (proj2 (proj2 (live_flag_gated_by_broadcaster_peer_id w cB "" "ABC"))
                   room eq_refl eq_refl)).
Defined.

End LiveFlag.

(** ** Chat fan-out (star relay) *)

Section ChatFanOut.
Import StarRelay.

(** C8 (amended).  For every chat-message naming a registered broadcast,
    the relay builds one chat message (stamped with the sender's peerId,
    username and the clock) and sends it to the broadcaster, if its socket
    is open, and then to every viewer whose socket is open, the sender
    included; the registry and the connection are unchanged.  The sends
    are exactly these. *)
Theorem chat_fans_out_to_every_open_member :
  ∀ w c fresh bid text room,
    jm_get bid (broadcasts w) = Some room →
    let chat := Chat (now w, currentPeerId c) (currentPeerId c) (currentUsername c)
                     text (now w) in
    on_message w c fresh (Parsed (ChatMessage bid text))
      = (w, c, to_broadcaster w room [chat] ++ to_viewers w room chat) ∧
    (∀ e, e ∈ to_broadcaster w room [chat] ++ to_viewers w room chat ↔
       ∃ p, (broadcaster room = Some p ∨ p ∈ jm_values (viewers room)) ∧
            sock_open w (ws p) = true ∧ e = Send (ws p) chat) ∧
    (∀ v, v ∈ jm_values (viewers room) → ws v = conn_ws c →
       sock_open w (conn_ws c) = true →
       Send (conn_ws c) chat ∈ to_broadcaster w room [chat] ++ to_viewers w room chat).
Proof.
  intros w c fresh bid text room Hroom chat.
  assert (Hall : ∀ e, e ∈ to_broadcaster w room [chat] ++ to_viewers w room chat ↔
      ∃ p, (broadcaster room = Some p ∨ p ∈ jm_values (viewers room)) ∧
           sock_open w (ws p) = true ∧ e = Send (ws p) chat).
  { intros e. rewrite elem_of_app, star_elem_of_to_broadcaster, star_elem_of_to_viewers.
    split.
    - intros [(b & Hb & Hopen & m & ->%list_elem_of_singleton & ->)
             |(v & Hv & Hopen & ->)]; eauto 6.
    - intros (p & [Hb|Hv] & Hopen & ->).
      + left. exists p. split_and!; [done..|]. exists chat.
        split; [apply list_elem_of_here | done].
      + right. by exists p. }
  split_and!.
  - simpl. by rewrite Hroom.
  - exact Hall.
  - intros v Hv Hws Hopen. apply Hall. exists v. rewrite Hws. eauto.
Qed.

(** Viewer V of room ABC (broadcaster B, viewers V and W, every socket
    open) sends a chat: V's own socket is among the recipients. *)
Lemma chat_fans_out_to_every_open_member_witness :
  let room := {| broadcastId := "ABC";
                 broadcaster := Some {| peerId := "B"; username := "Bea"; ws := 0 |};
                 viewers := [("V", {| peerId := "V"; username := "Vic"; ws := 1 |});
                             ("W", {| peerId := "W"; username := "Wes"; ws := 2 |})];
                 isLive := true |} in
  let w := {| broadcasts := [("ABC", room)]; readyState := λ _, OPEN;
              now := 1000%N; timers := [] |} in
  let cV := {| conn_ws := 1; currentBroadcastId := Some "ABC";
               currentPeerId := Some "V"; currentUsername := "Vic";
               currentRole := Some Viewer |} in
  let chat := Chat (1000%N, Some "V") (Some "V") "Vic" "hello" 1000%N in
  on_message w cV "" (Parsed (ChatMessage "ABC" "hello"))
    = (w, cV, [Send 0 chat; Send 1 chat; Send 2 chat]).
Proof.
  intros room w cV chat.
  exact (proj1 (chat_fans_out_to_every_open_member w cV "" "ABC" "hello" room eq_refl)).
Defined.

(** The claim as stated fails: in that room the chat V sends comes back
    to V.  The sends are to sockets 0 (B), 1 (V itself) and 2 (W). *)
Lemma chat_is_echoed_to_its_sender :
  let room := {| broadcastId := "ABC";
                 broadcaster := Some {| peerId := "B"; username := "Bea"; ws := 0 |};
                 viewers := [("V", {| peerId := "V"; username := "Vic"; ws := 1 |});
                             ("W", {| peerId := "W"; username := "Wes"; ws := 2 |})];
                 isLive := true |} in
  let w := {| broadcasts := [("ABC", room)]; readyState := λ _, OPEN;
              now := 1000%N; timers := [] |} in
  let cV := {| conn_ws := 1; currentBroadcastId := Some "ABC";
               currentPeerId := Some "V"; currentUsername := "Vic";
               currentRole := Some Viewer |} in
  let chat := Chat (1000%N, Some "V") (Some "V") "Vic" "hello" 1000%N in
  (on_message w cV "" (Parsed (ChatMessage "ABC" "hello"))).2
    = [Send 0 chat; Send 1 chat; Send 2 chat] ∧
  Send (conn_ws cV) chat ∈ (on_message w cV "" (Parsed (ChatMessage "ABC" "hello"))).2.
Proof.
  intros room w cV chat. split; [reflexivity|].
  apply list_elem_of_further, list_elem_of_here.
Qed.

End ChatFanOut.

(** ** References to unknown rooms, broadcasts and peers *)

Section DanglingReferences.

Lemma group_dangling_dropped w c m :
  GroupRelay.dangling w c m = true →
  GroupRelay.on_message w c (GroupRelay.Parsed m) = (w, c, []).
Proof.
  destruct m as [roomId pid|kind to body|]; try done.
  simpl. unfold GroupRelay.forwardToPeer, jm_has.
  destruct (GroupRelay.currentRoomId c) as [rid|]; [|done].
  destruct (jm_get rid (GroupRelay.rooms w)) as [room|]; [|done].
  by destruct (jm_get to room).
Qed.

(** A screen-share notice leaves the registry alone when the sender has
    no entry. *)
Lemma exp_set_sharing_absent w rid pid b :
  (∀ room, jm_get rid (ExpandedRelay.rooms w) = Some room → jm_get pid room = None) →
  ExpandedRelay.set_sharing w rid pid b = w.
Proof.
  intros H. unfold ExpandedRelay.set_sharing.
  destruct (jm_get rid (ExpandedRelay.rooms w)) as [room|]; [|done].
  by rewrite (H room eq_refl).
Qed.

Lemma exp_dangling_state w c m :
  ExpandedRelay.dangling w c m = true →
  (ExpandedRelay.on_message w c (ExpandedRelay.Parsed m)).1 = (w, c).
Proof.
  destruct m as [roomId pid uname|uname| | |kind to body|]; try done; simpl.
  - destruct (_ && _); [|done].
    destruct (ExpandedRelay.currentRoomId c) as [rid|]; [|done].
    destruct (ExpandedRelay.currentPeerId c) as [pid|]; [|done].
    unfold jm_has.
    destruct (jm_get rid (ExpandedRelay.rooms w)) as [room|]; [|done].
    by destruct (jm_get pid room).
  - destruct (_ && _); [|done].
    destruct (ExpandedRelay.currentRoomId c) as [rid|]; [|done].
    destruct (ExpandedRelay.currentPeerId c) as [pid|]; [|done].
    intros H. simpl. rewrite exp_set_sharing_absent; [done|].
    intros room Hr. rewrite Hr in H. unfold jm_has in H.
    by destruct (jm_get pid room).
  - destruct (_ && _); [|done].
    destruct (ExpandedRelay.currentRoomId c) as [rid|]; [|done].
    destruct (ExpandedRelay.currentPeerId c) as [pid|]; [|done].
    intros H. simpl. rewrite exp_set_sharing_absent; [done|].
    intros room Hr. rewrite Hr in H. unfold jm_has in H.
    by destruct (jm_get pid room).
Qed.

Lemma exp_dangling_dropped w c m :
  ExpandedRelay.dangling w c m = true →
  ExpandedRelay.peer_unchecked w c m = false →
  ExpandedRelay.on_message w c (ExpandedRelay.Parsed m) = (w, c, []).
Proof.
  destruct m as [roomId pid uname|uname| | |kind to body|]; try done; simpl.
  - destruct (_ && _); [|done].
    destruct (ExpandedRelay.currentRoomId c) as [rid|]; [|done].
    destruct (ExpandedRelay.currentPeerId c) as [pid|]; [|done].
    unfold jm_has.
    destruct (jm_get rid (ExpandedRelay.rooms w)) as [room|]; [|done].
    by destruct (jm_get pid room).
  - intros _.
    destruct (truthy (ExpandedRelay.currentRoomId c)
              && truthy (ExpandedRelay.currentPeerId c)); [|done].
    destruct (ExpandedRelay.currentRoomId c) as [rid|]; [|done].
    destruct (ExpandedRelay.currentPeerId c) as [pid|]; [|done].
    simpl. unfold jm_has, ExpandedRelay.set_sharing, ExpandedRelay.broadcast.
    destruct (jm_get rid (ExpandedRelay.rooms w)) eqn:E; [done|].
    intros _. by rewrite E.
  - intros _.
    destruct (truthy (ExpandedRelay.currentRoomId c)
              && truthy (ExpandedRelay.currentPeerId c)); [|done].
    destruct (ExpandedRelay.currentRoomId c) as [rid|]; [|done].
    destruct (ExpandedRelay.currentPeerId c) as [pid|]; [|done].
    simpl. unfold jm_has, ExpandedRelay.set_sharing, ExpandedRelay.broadcast.
    destruct (jm_get rid (ExpandedRelay.rooms w)) eqn:E; [done|].
    intros _. by rewrite E.
  - unfold ExpandedRelay.forwardToPeer, jm_has.
    destruct (ExpandedRelay.currentRoomId c) as [rid|]; [|done].
    destruct (jm_get rid (ExpandedRelay.rooms w)) as [room|]; [|done].
    by destruct (jm_get to room).
Qed.

Lemma star_world_eta w : StarRelay.with_broadcasts w (StarRelay.broadcasts w) = w.
Proof. by destruct w. Qed.

Lemma star_set_viewers_eta room :
  StarRelay.set_viewers room (StarRelay.viewers room) = room.
Proof. by destruct room. Qed.

Lemma star_dangling_state w c fresh m :
  StarRelay.dangling w c m = true →
  (StarRelay.on_message w c fresh (StarRelay.Parsed m)).1 = (w, c).
Proof.
  destruct m as [pid u|bid|bid|bid pid u|bid pid|to sdp|to sdp|to cand|bid text|];
    simpl; unfold jm_has; try done.
  - by destruct (jm_get bid (StarRelay.broadcasts w)).
  - by destruct (jm_get bid (StarRelay.broadcasts w)).
  - by destruct (jm_get bid (StarRelay.broadcasts w)).
  - destruct (jm_get bid (StarRelay.broadcasts w)) as [room|] eqn:E; [|done].
    destruct (jm_get pid (StarRelay.viewers room)) eqn:Ep; [done|]. intros _. simpl.
    rewrite (jm_delete_absent _ _ Ep), star_set_viewers_eta, (jm_set_id _ _ _ E).
    by rewrite star_world_eta.
  - destruct (StarRelay.current_room w c) as [room|]; [|done].
    by destruct (jm_get to (StarRelay.viewers room)).
  - by destruct (StarRelay.current_room w c).
  - destruct (StarRelay.current_room w c) as [room|]; [|done].
    destruct (StarRelay.currentRole c) as [[|]|]; try done.
    by destruct (jm_get to (StarRelay.viewers room)).
  - by destruct (jm_get bid (StarRelay.broadcasts w)).
Qed.

Lemma star_dangling_dropped w c fresh m :
  StarRelay.dangling w c m = true →
  StarRelay.peer_unchecked w c m = false →
  StarRelay.on_message w c fresh (StarRelay.Parsed m)
  = (w, c,
     match m with
     | StarRelay.JoinBroadcast _ _ _ =>
         [StarRelay.Send (StarRelay.conn_ws c) (StarRelay.Error "Broadcast not found")]
     | _ => []
     end).
Proof.
  destruct m as [pid u|bid|bid|bid pid u|bid pid|to sdp|to sdp|to cand|bid text|];
    simpl; unfold jm_has; try done.
  - by destruct (jm_get bid (StarRelay.broadcasts w)).
  - by destruct (jm_get bid (StarRelay.broadcasts w)).
  - by destruct (jm_get bid (StarRelay.broadcasts w)).
  - by destruct (jm_get bid (StarRelay.broadcasts w)).
  - destruct (StarRelay.current_room w c) as [room|]; [|done].
    by destruct (jm_get to (StarRelay.viewers room)).
  - by destruct (StarRelay.current_room w c).
  - destruct (StarRelay.current_room w c) as [room|]; [|done].
    destruct (StarRelay.currentRole c) as [[|]|]; try done.
    by destruct (jm_get to (StarRelay.viewers room)).
  - by destruct (jm_get bid (StarRelay.broadcasts w)).
Qed.

(** The only error message the star relay ever sends is the reply to a
    join-broadcast that names an unknown broadcast. *)
Lemma star_error_only_on_join w c fresh data s msg :
  StarRelay.Send s (StarRelay.Error msg)
    ∈ (StarRelay.on_message w c fresh data).2 →
  s = StarRelay.conn_ws c ∧ msg = "Broadcast not found" ∧
  ∃ bid pid u,
    data = StarRelay.Parsed (StarRelay.JoinBroadcast bid pid u) ∧
    jm_get bid (StarRelay.broadcasts w) = None.
Proof.
  destruct data as [m|]; simpl.
  2: { intros [H|H%elem_of_nil]%elem_of_cons; done. }
  destruct m as [pid un|bid|bid|bid pid un|bid pid|to sdp|to sdp|to cand|bid text|];
    simpl;
    repeat match goal with
      | |- context [match jm_get ?k ?m with _ => _ end] =>
          let E := fresh "E" in destruct (jm_get k m) eqn:E
      | |- context [match StarRelay.current_room ?w ?c with _ => _ end] =>
          destruct (StarRelay.current_room w c)
      | |- context [match StarRelay.currentRole ?c with _ => _ end] =>
          destruct (StarRelay.currentRole c) as [[|]|]
      | |- context [if StarRelay.is_broadcaster_of ?r ?c then _ else _] =>
          destruct (StarRelay.is_broadcaster_of r c)
      end; simpl;
    repeat first
      [ rewrite elem_of_app | rewrite elem_of_cons | rewrite elem_of_nil
      | rewrite star_elem_of_to_viewers | rewrite star_elem_of_to_broadcaster
      | rewrite star_elem_of_send_if_open ];
    repeat setoid_rewrite elem_of_cons; repeat setoid_rewrite elem_of_nil;
    try (intros H; exfalso; revert H; naive_solver).
  intros [[= -> <-]|[]]. split_and!; [done..|]. by exists bid, pid, un.
Qed.

(** C5 (amended).  For every inbound message that references an unknown
    room or broadcast or an unknown peer (a mesh join, which creates the
    room it names, aside), the relay returns the registry, the sockets'
    states, the clock, the timers and the connection's variables as they
    were, and the connection stays open.  It sends no error reply, except
    that a join-broadcast naming an unknown broadcast is answered on the
    sender's socket with the error message "Broadcast not found".  Where
    the handler checks the reference (every room and broadcast; [to] of a
    mesh signal, of a star offer and of a broadcaster's ice-candidate;
    the sender's own entry on a username-update) the message is dropped:
    nothing is logged and nothing else is sent.  The star relay does not
    read [to] of an answer or of an ice-candidate of a sender that is not
    the broadcaster: they go to the broadcaster of the sender's
    broadcast, if its socket is open.  What else is sent when a
    leave-broadcast names a peer that is not a viewer, or a screen-share
    notice comes from a connection whose entry is gone, is left open.
    Stated for every message kind of the three relays. *)
Theorem dangling_reference_is_dropped :
  (∀ w c m,
     GroupRelay.dangling w c m = true →
     GroupRelay.on_message w c (GroupRelay.Parsed m) = (w, c, [])) ∧
  (∀ w c m,
     ExpandedRelay.dangling w c m = true →
     (ExpandedRelay.on_message w c (ExpandedRelay.Parsed m)).1 = (w, c) ∧
     (ExpandedRelay.peer_unchecked w c m = false →
      ExpandedRelay.on_message w c (ExpandedRelay.Parsed m) = (w, c, []))) ∧
  (∀ w c fresh m,
     StarRelay.dangling w c m = true →
     (StarRelay.on_message w c fresh (StarRelay.Parsed m)).1 = (w, c) ∧
     (∀ s msg,
        StarRelay.Send s (StarRelay.Error msg)
          ∈ (StarRelay.on_message w c fresh (StarRelay.Parsed m)).2 →
        s = StarRelay.conn_ws c ∧ msg = "Broadcast not found" ∧
        ∃ bid pid u, m = StarRelay.JoinBroadcast bid pid u) ∧
     (StarRelay.peer_unchecked w c m = false →
      StarRelay.on_message w c fresh (StarRelay.Parsed m)
      = (w, c,
         match m with
         | StarRelay.JoinBroadcast _ _ _ =>
             [StarRelay.Send (StarRelay.conn_ws c)
                (StarRelay.Error "Broadcast not found")]
         | _ => []
         end))) ∧
  (∀ w c fresh to sdp,
     StarRelay.on_message w c fresh (StarRelay.Parsed (StarRelay.Answer to sdp))
     = (w, c,
        match StarRelay.current_room w c with
        | Some room =>
            match StarRelay.broadcaster room with
            | Some b =>
                if StarRelay.sock_open w (StarRelay.ws b)
                then [StarRelay.Send (StarRelay.ws b)
                        (StarRelay.AnswerFrom (StarRelay.currentPeerId c) sdp)]
                else []
            | None => []
            end
        | None => []
        end)) ∧
  (∀ w c fresh to candidate,
     StarRelay.currentRole c ≠ Some StarRelay.Broadcaster →
     StarRelay.on_message w c fresh
       (StarRelay.Parsed (StarRelay.IceCandidate to candidate))
     = (w, c,
        match StarRelay.current_room w c with
        | Some room =>
            match StarRelay.broadcaster room with
            | Some b =>
                if StarRelay.sock_open w (StarRelay.ws b)
                then [StarRelay.Send (StarRelay.ws b)
                        (StarRelay.IceCandidateFrom (StarRelay.currentPeerId c) candidate)]
                else []
            | None => []
            end
        | None => []
        end)).
Proof.
  split_and!.
  - apply group_dangling_dropped.
  - intros w c m H. split; [by apply exp_dangling_state|by apply exp_dangling_dropped].
  - intros w c fresh m H. split_and!.
    + by apply star_dangling_state.
    + intros s msg Hin.
      destruct (star_error_only_on_join _ _ _ _ _ _ Hin)
        as (-> & -> & bid & pid & u & [= ->] & _).
      split_and!; [done..|]. by exists bid, pid, u.
    + by apply star_dangling_dropped.
  - intros w c fresh to sdp. simpl.
    destruct (StarRelay.current_room w c) as [room|]; [|done].
    unfold StarRelay.to_broadcaster, StarRelay.send_if_open.
    destruct (StarRelay.broadcaster room) as [b|]; [|done].
    by destruct (StarRelay.sock_open w (StarRelay.ws b)).
  - intros w c fresh to cand Hrole. simpl.
    destruct (StarRelay.current_room w c) as [room|]; [|done].
    unfold StarRelay.to_broadcaster, StarRelay.send_if_open.
    destruct (StarRelay.currentRole c) as [[|]|]; try done;
      (destruct (StarRelay.broadcaster room) as [b|]; [|done];
       by destruct (StarRelay.sock_open w (StarRelay.ws b))).
Qed.

(** An offer addressed to a peer that is not in the sender's room. *)
Lemma dangling_reference_is_dropped_witness :
  let w := {| GroupRelay.rooms :=
                [("r1", [("A", {| GroupRelay.peerId := "A"; GroupRelay.ws := 1 |})])];
              GroupRelay.readyState := λ _, OPEN |} in
  let c := {| GroupRelay.conn_ws := 1; GroupRelay.currentRoomId := Some "r1";
              GroupRelay.currentPeerId := Some "A" |} in
  GroupRelay.dangling w c (GroupRelay.Signal GroupRelay.KOffer "Z" "sdp") = true ∧
  GroupRelay.on_message w c
    (GroupRelay.Parsed (GroupRelay.Signal GroupRelay.KOffer "Z" "sdp"))
  = (w, c, []).
Proof.
  intros w c. split; [reflexivity|].
  exact (proj1 dangling_reference_is_dropped w c
           (GroupRelay.Signal GroupRelay.KOffer "Z" "sdp") eq_refl).
Defined.

(** The claim as stated fails: a join-broadcast that names an unknown
    broadcast is answered with an error message on the sender's socket,
    and nothing is logged. *)
Lemma join_unknown_broadcast_gets_error_reply :
  StarRelay.dangling StarRelay.init_world (StarRelay.new_conn 7)
    (StarRelay.JoinBroadcast "NOSUCH" "v1" "Vic") = true ∧
  StarRelay.on_message StarRelay.init_world (StarRelay.new_conn 7) ""
    (StarRelay.Parsed (StarRelay.JoinBroadcast "NOSUCH" "v1" "Vic"))
  = (StarRelay.init_world, StarRelay.new_conn 7,
     [StarRelay.Send 7 (StarRelay.Error "Broadcast not found")]).
Proof. split; reflexivity. Qed.

End DanglingReferences.
(** ** Deleting rooms *)

Section RoomDeletion.

Lemma group_close_room w c rid pid room :
  GroupRelay.currentRoomId c = Some rid → GroupRelay.currentPeerId c = Some pid →
  rid ≠ "" → pid ≠ "" →
  jm_get rid (GroupRelay.rooms w) = Some room →
  let w' := (GroupRelay.on_close w c).1 in
  (jm_size (jm_delete pid room) = 0 → jm_get rid (GroupRelay.rooms w') = None) ∧
  (jm_size (jm_delete pid room) ≠ 0 →
   jm_get rid (GroupRelay.rooms w') = Some (jm_delete pid room)) ∧
  (∀ r, r ≠ rid → jm_get r (GroupRelay.rooms w') = jm_get r (GroupRelay.rooms w)).
Proof.
  intros Hr Hp Hrid Hpid Hroom. unfold GroupRelay.on_close.
  rewrite Hr, Hp. simpl. rewrite !decide_False by done. simpl. rewrite Hroom.
  destruct (decide (jm_size (jm_delete pid room) = 0)) as [Hz|Hnz]; simpl.
  - split_and!; [by rewrite jm_get_delete_eq | done |].
    intros r Hne. by rewrite jm_get_delete_ne, jm_get_set_ne.
  - split_and!; [done | by rewrite jm_get_set_eq |].
    intros r Hne. by rewrite jm_get_set_ne.
Qed.

Lemma exp_close_room w c rid pid room :
  ExpandedRelay.currentRoomId c = Some rid → ExpandedRelay.currentPeerId c = Some pid →
  rid ≠ "" → pid ≠ "" →
  jm_get rid (ExpandedRelay.rooms w) = Some room →
  let w' := (ExpandedRelay.on_close w c).1 in
  (jm_size (jm_delete pid room) = 0 → jm_get rid (ExpandedRelay.rooms w') = None) ∧
  (jm_size (jm_delete pid room) ≠ 0 →
   jm_get rid (ExpandedRelay.rooms w') = Some (jm_delete pid room)) ∧
  (∀ r, r ≠ rid → jm_get r (ExpandedRelay.rooms w') = jm_get r (ExpandedRelay.rooms w)).
Proof.
  intros Hr Hp Hrid Hpid Hroom. unfold ExpandedRelay.on_close.
  rewrite Hr, Hp. simpl. rewrite !decide_False by done. simpl. rewrite Hroom.
  destruct (decide (jm_size (jm_delete pid room) = 0)) as [Hz|Hnz]; simpl.
  - split_and!; [by rewrite jm_get_delete_eq | done |].
    intros r Hne. by rewrite jm_get_delete_ne, jm_get_set_ne.
  - split_and!; [done | by rewrite jm_get_set_eq |].
    intros r Hne. by rewrite jm_get_set_ne.
Qed.

(** C6 (amended).  Mesh relays: when the close handler of a connection
    that joined room [rid] as [pid] (both non-empty) removes [pid] from
    the room, the room is deleted from the registry in that same handler
    if it is left empty, and is kept with the remaining members
    otherwise; no other room is touched.  (Transport close is the only
    removal in the mesh relays.)
    Star relay: in every run of the relay from its initial state, a step
    after which a broadcast that was registered is no longer registered
    is the firing of a cleanup timer; that timer was armed by the close
    handler of a broadcaster connection bound to that broadcast, at the
    clock value at which the connection closed, and the clock has since
    advanced by at least the grace period, which is 30000 ms.  No message
    handler and no close handler deletes a broadcast.  And in every run
    in which the relay is never given the id of a registered broadcast
    for a new one, the connection that armed the timer is that of the
    broadcaster of the very room that is deleted: the socket of the
    room's broadcaster closed at least 30000 ms before, and the room is
    off air and without viewers. *)
Theorem room_deleted_when_empty_broadcast_after_grace :
  (∀ w c rid pid room,
     GroupRelay.currentRoomId c = Some rid → GroupRelay.currentPeerId c = Some pid →
     rid ≠ "" → pid ≠ "" →
     jm_get rid (GroupRelay.rooms w) = Some room →
     let w' := (GroupRelay.on_close w c).1 in
     (jm_size (jm_delete pid room) = 0 → jm_get rid (GroupRelay.rooms w') = None) ∧
     (jm_size (jm_delete pid room) ≠ 0 →
      jm_get rid (GroupRelay.rooms w') = Some (jm_delete pid room)) ∧
     (∀ r, r ≠ rid → jm_get r (GroupRelay.rooms w') = jm_get r (GroupRelay.rooms w))) ∧
  (∀ w c rid pid room,
     ExpandedRelay.currentRoomId c = Some rid → ExpandedRelay.currentPeerId c = Some pid →
     rid ≠ "" → pid ≠ "" →
     jm_get rid (ExpandedRelay.rooms w) = Some room →
     let w' := (ExpandedRelay.on_close w c).1 in
     (jm_size (jm_delete pid room) = 0 → jm_get rid (ExpandedRelay.rooms w') = None) ∧
     (jm_size (jm_delete pid room) ≠ 0 →
      jm_get rid (ExpandedRelay.rooms w') = Some (jm_delete pid room)) ∧
     (∀ r, r ≠ rid →
        jm_get r (ExpandedRelay.rooms w') = jm_get r (ExpandedRelay.rooms w))) ∧
  StarRelay.GRACE_MS = 30000%N ∧
  (∀ es e bid,
     let σ := StarRelay.run StarRelay.init_sys es in
     jm_has bid (StarRelay.broadcasts (StarRelay.world σ)) = true →
     jm_has bid (StarRelay.broadcasts (StarRelay.world (StarRelay.step σ e).1)) = false →
     ∃ i t c,
       e = StarRelay.EvFire i ∧
       StarRelay.timers (StarRelay.world σ) !! i = Some t ∧
       StarRelay.conns σ (StarRelay.owner t) = StarRelay.Gone c (StarRelay.armed_at t) ∧
       StarRelay.currentRole c = Some StarRelay.Broadcaster ∧
       StarRelay.currentBroadcastId c = Some bid ∧
       (StarRelay.armed_at t + StarRelay.GRACE_MS
        ≤ StarRelay.now (StarRelay.world σ))%N) ∧
  (∀ es e bid,
     StarRelay.fresh_ids StarRelay.init_sys es = true →
     let σ := StarRelay.run StarRelay.init_sys es in
     jm_has bid (StarRelay.broadcasts (StarRelay.world σ)) = true →
     jm_has bid (StarRelay.broadcasts (StarRelay.world (StarRelay.step σ e).1)) = false →
     ∃ i room b c closed_at,
       e = StarRelay.EvFire i ∧
       jm_get bid (StarRelay.broadcasts (StarRelay.world σ)) = Some room ∧
       StarRelay.broadcaster room = Some b ∧
       StarRelay.conns σ (StarRelay.ws b) = StarRelay.Gone c closed_at ∧
       StarRelay.currentPeerId c = Some (StarRelay.peerId b) ∧
       StarRelay.currentRole c = Some StarRelay.Broadcaster ∧
       StarRelay.currentBroadcastId c = Some bid ∧
       (closed_at + 30000 ≤ StarRelay.now (StarRelay.world σ))%N ∧
       StarRelay.isLive room = false ∧ StarRelay.viewers room = []).
Proof.
  split_and!.
  - apply group_close_room.
  - apply exp_close_room.
  - reflexivity.
  - intros es e bid σ. apply star_step_removal, star_run_armed.
  - intros es e bid Hfresh σ Hin Hout.
    destruct (star_run_bound es Hfresh) as (Harm & _ & Hb). fold σ in Harm, Hb.
    destruct (star_step_removal σ e bid Harm Hin Hout)
      as (i & t & c & -> & Hi & Hg & Hrole & Hbid & Hdue).
    destruct (Hb (StarRelay.owner t) c bid) as (room & b & Hroom & Hbr & Hws & Hp);
      [right; exists t, (StarRelay.armed_at t); split_and!; try done;
       by eapply list_elem_of_lookup_2|done..|].
    destruct (star_fire_removes_idle σ i bid Hin Hout) as (room2 & Hroom2 & Hl & Hv).
    assert (room2 = room) as -> by congruence.
    exists i, room, b, c, (StarRelay.armed_at t). rewrite Hws.
    split_and!; done.
Qed.

(** A's close empties room r1 and the room is gone; and the broadcast of
    the scenario survives a firing attempt 29999 ms after the close and
    is removed by the firing at 30000 ms, 30000 ms after the socket of
    its broadcaster B closed at clock 5000. *)
Lemma room_deleted_when_empty_broadcast_after_grace_witness :
  (let w := {| GroupRelay.rooms :=
                 [("r1", [("A", {| GroupRelay.peerId := "A"; GroupRelay.ws := 1 |})])];
               GroupRelay.readyState := λ _, CLOSED |} in
   let c := {| GroupRelay.conn_ws := 1; GroupRelay.currentRoomId := Some "r1";
               GroupRelay.currentPeerId := Some "A" |} in
   jm_get "r1" (GroupRelay.rooms (GroupRelay.on_close w c).1) = None) ∧
  (let σ := StarRelay.run StarRelay.init_sys (StarRelay.grace_scenario 29999) in
   jm_has "ABC123"
     (StarRelay.broadcasts (StarRelay.world (StarRelay.step σ (StarRelay.EvFire 0)).1))
   = true) ∧
  (let σ := StarRelay.run StarRelay.init_sys (StarRelay.grace_scenario 30000) in
   ∃ i t c,
     StarRelay.EvFire 0 = StarRelay.EvFire i ∧
     StarRelay.timers (StarRelay.world σ) !! i = Some t ∧
     StarRelay.conns σ (StarRelay.owner t) = StarRelay.Gone c (StarRelay.armed_at t) ∧
     StarRelay.currentRole c = Some StarRelay.Broadcaster ∧
     StarRelay.currentBroadcastId c = Some "ABC123" ∧
     (StarRelay.armed_at t + StarRelay.GRACE_MS ≤ StarRelay.now (StarRelay.world σ))%N) ∧
  (let σ := StarRelay.run StarRelay.init_sys (StarRelay.grace_scenario 30000) in
   StarRelay.fresh_ids StarRelay.init_sys (StarRelay.grace_scenario 30000) = true ∧
   StarRelay.now (StarRelay.world σ) = 35000%N ∧
   ∃ i room b c closed_at,
     StarRelay.EvFire 0 = StarRelay.EvFire i ∧
     jm_get "ABC123" (StarRelay.broadcasts (StarRelay.world σ)) = Some room ∧
     StarRelay.broadcaster room = Some b ∧
     StarRelay.conns σ (StarRelay.ws b) = StarRelay.Gone c closed_at ∧
     StarRelay.currentPeerId c = Some (StarRelay.peerId b) ∧
     StarRelay.currentRole c = Some StarRelay.Broadcaster ∧
     StarRelay.currentBroadcastId c = Some "ABC123" ∧
     (closed_at + 30000 ≤ StarRelay.now (StarRelay.world σ))%N ∧
     StarRelay.isLive room = false ∧ StarRelay.viewers room = []).
Proof.
  split_and!.
  - intros w c.
    refine (proj1 (proj1 room_deleted_when_empty_broadcast_after_grace w c "r1" "A"
                     _ eq_refl eq_refl _ _ eq_refl) eq_refl); done.
  - reflexivity.
  - intros σ.
    exact (proj1 (proj2 (proj2 (proj2 room_deleted_when_empty_broadcast_after_grace)))
             (StarRelay.grace_scenario 30000) (StarRelay.EvFire 0) "ABC123" eq_refl eq_refl).
  - intros σ. split; [reflexivity|]. split; [reflexivity|].
    exact (proj2 (proj2 (proj2 (proj2 room_deleted_when_empty_broadcast_after_grace)))
             (StarRelay.grace_scenario 30000) (StarRelay.EvFire 0) "ABC123"
             eq_refl eq_refl eq_refl).
Defined.

(** The claim as stated fails when an id is issued twice.  B1 creates
    ABC123 and disconnects at clock 0; at clock 10000 B2 creates a
    broadcast and the generator returns ABC123 again, which replaces the
    room.  B1's timer fires at clock 30000 and deletes B2's room: 10000
    ms after B2's socket closed at clock 20000, and, in the run in which
    B2 stays, while B2 is still connected. *)
Lemma broadcast_with_reissued_id_is_deleted_early :
  (let σ := StarRelay.run StarRelay.init_sys (StarRelay.reissue_scenario true) in
   StarRelay.fresh_ids StarRelay.init_sys (StarRelay.reissue_scenario true) = false ∧
   StarRelay.now (StarRelay.world σ) = 30000%N ∧
   StarRelay.broadcaster <$> jm_get "ABC123" (StarRelay.broadcasts (StarRelay.world σ))
   = Some (Some {| StarRelay.peerId := "B2"; StarRelay.username := "Bob";
                   StarRelay.ws := 1 |}) ∧
   StarRelay.conns σ 1
   = StarRelay.Gone
       {| StarRelay.conn_ws := 1; StarRelay.currentBroadcastId := Some "ABC123";
          StarRelay.currentPeerId := Some "B2"; StarRelay.currentUsername := "Bob";
          StarRelay.currentRole := Some StarRelay.Broadcaster |} 20000 ∧
   jm_has "ABC123"
     (StarRelay.broadcasts (StarRelay.world (StarRelay.step σ (StarRelay.EvFire 0)).1))
   = false) ∧
  (let σ := StarRelay.run StarRelay.init_sys (StarRelay.reissue_scenario false) in
   StarRelay.broadcaster <$> jm_get "ABC123" (StarRelay.broadcasts (StarRelay.world σ))
   = Some (Some {| StarRelay.peerId := "B2"; StarRelay.username := "Bob";
                   StarRelay.ws := 1 |}) ∧
   StarRelay.conns σ 1
   = StarRelay.Connected
       {| StarRelay.conn_ws := 1; StarRelay.currentBroadcastId := Some "ABC123";
          StarRelay.currentPeerId := Some "B2"; StarRelay.currentUsername := "Bob";
          StarRelay.currentRole := Some StarRelay.Broadcaster |} ∧
   jm_has "ABC123"
     (StarRelay.broadcasts (StarRelay.world (StarRelay.step σ (StarRelay.EvFire 0)).1))
   = false).
Proof. by vm_compute. Qed.

End RoomDeletion.

(** ** Going live and session initiation (star) *)

Section GoLive.
Import StarRelay BroadcastApp.

Lemma app_viewer_joined_elsewhere pid uname s :
  view s ≠ Broadcasting →
  handleSignalingMessage (ViewerJoined pid uname) s = s.
Proof. simpl. by destruct (view s). Qed.

Lemma app_viewer_joined_broadcasting pid uname s :
  view s = Broadcasting →
  handleSignalingMessage (ViewerJoined pid uname) s
  = with_broadcaster
      (BroadcasterRtc.createConnectionForViewer pid uname (broadcasterWebRTC s)) s.
Proof. simpl. by intros ->. Qed.

Lemma app_go_live s :
  broadcasterWebRTC (handleGoLive s) = broadcasterWebRTC s ∧
  (∀ bid, broadcastId s = Some bid → bid ≠ "" →
     view (handleGoLive s) = Broadcasting ∧
     (signalingOpen s = true →
      sent (handleGoLive s) = sent s ++ [StartBroadcast bid])).
Proof.
  unfold handleGoLive, send. split.
  - destruct (truthy (broadcastId s)); [|done].
    by destruct (broadcastId s), (signalingOpen s).
  - intros bid -> Hne. simpl. rewrite decide_False by done. split.
    + by destruct (signalingOpen s).
    + by intros ->.
Qed.

Lemma star_start_broadcast_effects w c fresh bid e :
  e ∈ (on_message w c fresh (Parsed (StartBroadcast bid))).2 →
  (∃ n, e = Log (LogLive bid n)) ∨
  ∃ room v, jm_get bid (broadcasts w) = Some room ∧
            v ∈ jm_values (viewers room) ∧ sock_open w (ws v) = true ∧
            e = Send (ws v) (BroadcastStarted bid).
Proof.
  simpl. destruct (jm_get bid (broadcasts w)) as [room|] eqn:E;
    [|by intros ?%elem_of_nil].
  destruct (is_broadcaster_of room c); [|by intros ?%elem_of_nil]. simpl.
  rewrite elem_of_app, list_elem_of_singleton, star_elem_of_to_viewers.
  intros [(v & Hv & Hopen & ->)|Heq].
  - right. by exists room, v.
  - left. subst e. eauto.
Qed.

(** What a start-broadcast from the broadcaster does, in full. *)
Lemma star_start_broadcast_exact w c fresh bid room :
  jm_get bid (broadcasts w) = Some room → is_broadcaster_of room c = true →
  let r := on_message w c fresh (Parsed (StartBroadcast bid)) in
  r.1.2 = c ∧
  jm_get bid (broadcasts r.1.1)
  = Some {| StarRelay.broadcastId := StarRelay.broadcastId room;
            broadcaster := broadcaster room; viewers := viewers room;
            StarRelay.isLive := true |} ∧
  (∀ b, b ≠ bid → jm_get b (broadcasts r.1.1) = jm_get b (broadcasts w)) ∧
  r.2 = ((λ v, Send (ws v) (BroadcastStarted bid))
           <$> filter (λ v, sock_open w (ws v) = true) (jm_values (viewers room)))
        ++ [Log (LogLive bid (jm_size (viewers room)))].
Proof.
  intros Hroom Hbc. simpl. rewrite Hroom, Hbc. simpl. split_and!.
  - done.
  - by rewrite jm_get_set_eq.
  - intros b Hne. by rewrite jm_get_set_ne.
  - by rewrite star_to_viewers_list.
Qed.

(** The relay sends viewer-joined for a peer only while handling that
    peer's join-broadcast. *)
Lemma star_viewer_joined_only_on_join w c fresh data s p u :
  Send s (ViewerJoined p u) ∈ (on_message w c fresh data).2 →
  ∃ bid uname, data = Parsed (JoinBroadcast bid p uname).
Proof.
  destruct data as [m|]; simpl.
  2: { intros [H|H%elem_of_nil]%elem_of_cons; done. }
  destruct m as [pid un|bid|bid|bid pid un|bid pid|to sdp|to sdp|to cand|bid text|];
    simpl;
    repeat match goal with
      | |- context [match jm_get ?k ?m with _ => _ end] => destruct (jm_get k m)
      | |- context [match current_room ?w ?c with _ => _ end] =>
          destruct (current_room w c)
      | |- context [match currentRole ?c with _ => _ end] =>
          destruct (currentRole c) as [[|]|]
      | |- context [if is_broadcaster_of ?r ?c then _ else _] =>
          destruct (is_broadcaster_of r c)
      end; simpl;
    repeat first
      [ rewrite elem_of_app | rewrite elem_of_cons | rewrite elem_of_nil
      | rewrite star_elem_of_to_viewers | rewrite star_elem_of_to_broadcaster
      | rewrite star_elem_of_send_if_open ];
    repeat setoid_rewrite elem_of_cons; repeat setoid_rewrite elem_of_nil;
    naive_solver.
Qed.

(** Neither the close handler nor the cleanup timer sends it. *)
Lemma star_viewer_joined_not_on_close w c s p u :
  (Send s (ViewerJoined p u) ∉ (on_close w c).2) ∧
  (Send s (ViewerJoined p u) ∉ (cleanup w c).2).
Proof.
  split.
  - unfold on_close.
    repeat match goal with
      | |- context [if ?b then _ else _] => destruct b
      | |- context [match ?x with _ => _ end] => destruct x
      end; simpl;
      repeat first
        [ rewrite elem_of_app | rewrite elem_of_cons | rewrite elem_of_nil
        | rewrite star_elem_of_to_viewers | rewrite star_elem_of_to_broadcaster ];
      repeat setoid_rewrite elem_of_cons; repeat setoid_rewrite elem_of_nil;
      naive_solver.
  - unfold cleanup.
    repeat match goal with
      | |- context [if ?b then _ else _] => destruct b
      | |- context [match ?x with _ => _ end] => destruct x
      end; simpl;
      rewrite ?elem_of_cons, ?elem_of_nil; naive_solver.
Qed.

(** In the App a connection toward [p] comes into being only by handling
    a viewer-joined for [p] while broadcasting. *)
Lemma app_connection_only_by_viewer_joined m s p :
  jm_has p (BroadcasterRtc.peerConnections
              (broadcasterWebRTC (handleSignalingMessage m s))) = true →
  jm_has p (BroadcasterRtc.peerConnections (broadcasterWebRTC s)) = true ∨
  (view s = Broadcasting ∧ ∃ u, m = ViewerJoined p u).
Proof.
  destruct m as [bid|bid|bid|bid live un|q un|q|n|f sdp|f sdp|f cand|i f un t ts|msg];
    simpl; try (by left).
  - by destruct (view s); left.
  - destruct (view s) eqn:Hv; simpl; try (by left).
    destruct (decide (q = p)) as [->|Hne]; [right; eauto|].
    rewrite bc_create_has_other by done. by left.
  - intros H%bc_remove_has. by left.
  - destruct (view s); simpl; by left.
  - destruct (view s), f as [f|]; simpl; try (by left).
    destruct (decide (f = "")); simpl; [by left|].
    rewrite bc_answer_has. by left.
  - destruct (view s), f as [f|]; simpl; try (by left).
    destruct (decide (f = "")); simpl; [by left|].
    rewrite bc_candidate_has. by left.
Qed.

(** X22.  Going live initiates no session.  A start-broadcast from the
    broadcaster of a registered broadcast leaves the connection's
    variables alone, sets the [isLive] flag of that room and of no other,
    and sends broadcast-started to exactly the viewers whose socket is
    open, once each in registry order, followed by one log line; whoever
    sends it, every message the relay sends for it is a
    broadcast-started to a viewer of that room whose socket is open, so
    nothing is sent to the broadcaster.  In the broadcaster's App, going
    live sends start-broadcast (the socket being open) and switches the
    view to 'broadcasting' without touching the peer connections; a
    viewer-joined notice creates the connection and the offer for that
    viewer when the view is 'broadcasting', and is ignored in any other
    view.  No other message brings a connection into being, and the
    relay sends viewer-joined for a peer only while it handles that
    peer's join-broadcast. *)
Theorem go_live_initiates_no_session :
  (∀ w c fresh bid room,
     jm_get bid (broadcasts w) = Some room → is_broadcaster_of room c = true →
     let r := on_message w c fresh (Parsed (StartBroadcast bid)) in
     r.1.2 = c ∧
     jm_get bid (broadcasts r.1.1)
     = Some {| StarRelay.broadcastId := StarRelay.broadcastId room;
               broadcaster := broadcaster room; viewers := viewers room;
               StarRelay.isLive := true |} ∧
     (∀ b, b ≠ bid → jm_get b (broadcasts r.1.1) = jm_get b (broadcasts w)) ∧
     r.2 = ((λ v, Send (ws v) (BroadcastStarted bid))
              <$> filter (λ v, sock_open w (ws v) = true) (jm_values (viewers room)))
           ++ [Log (LogLive bid (jm_size (viewers room)))]) ∧
  (∀ w c fresh bid e,
     e ∈ (on_message w c fresh (Parsed (StartBroadcast bid))).2 →
     (∃ n, e = Log (LogLive bid n)) ∨
     ∃ room v, jm_get bid (broadcasts w) = Some room ∧
               v ∈ jm_values (viewers room) ∧ sock_open w (ws v) = true ∧
               e = Send (ws v) (BroadcastStarted bid)) ∧
  (∀ s,
     broadcasterWebRTC (handleGoLive s) = broadcasterWebRTC s ∧
     (∀ bid, broadcastId s = Some bid → bid ≠ "" →
        view (handleGoLive s) = Broadcasting ∧
        (signalingOpen s = true →
         sent (handleGoLive s) = sent s ++ [StartBroadcast bid]))) ∧
  (∀ pid uname s,
     view s = Broadcasting →
     handleSignalingMessage (ViewerJoined pid uname) s
     = with_broadcaster
         (BroadcasterRtc.createConnectionForViewer pid uname (broadcasterWebRTC s)) s) ∧
  (∀ pid uname s,
     view s ≠ Broadcasting →
     handleSignalingMessage (ViewerJoined pid uname) s = s) ∧
  (∀ m s p,
     jm_has p (BroadcasterRtc.peerConnections
                 (broadcasterWebRTC (handleSignalingMessage m s))) = true →
     jm_has p (BroadcasterRtc.peerConnections (broadcasterWebRTC s)) = true ∨
     (view s = Broadcasting ∧ ∃ u, m = ViewerJoined p u)) ∧
  (∀ w c fresh data s p u,
     Send s (ViewerJoined p u) ∈ (on_message w c fresh data).2 →
     ∃ bid uname, data = Parsed (JoinBroadcast bid p uname)) ∧
  (∀ w c s p u,
     (Send s (ViewerJoined p u) ∉ (on_close w c).2) ∧
     (Send s (ViewerJoined p u) ∉ (cleanup w c).2)).
Proof.
  split_and!.
  - apply star_start_broadcast_exact.
  - apply star_start_broadcast_effects.
  - apply app_go_live.
  - apply app_viewer_joined_broadcasting.
  - apply app_viewer_joined_elsewhere.
  - apply app_connection_only_by_viewer_joined.
  - apply star_viewer_joined_only_on_join.
  - apply star_viewer_joined_not_on_close.
Qed.

(** B goes live with V (socket 1) and a viewer with a closed socket
    registered: the flag is set and V alone is told.  In the lobby a
    viewer-joined changes nothing; once broadcasting, it creates
    connection number 0 and sends the offer. *)
Lemma go_live_initiates_no_session_witness :
  let room := {| StarRelay.broadcastId := "ABC123";
                 broadcaster := Some {| StarRelay.peerId := "B"; StarRelay.username := "Bea";
                                        ws := 0 |};
                 viewers := [("V", {| StarRelay.peerId := "V"; StarRelay.username := "Vic";
                                      ws := 1 |});
                             ("W", {| StarRelay.peerId := "W"; StarRelay.username := "Wes";
                                      ws := 2 |})];
                 StarRelay.isLive := false |} in
  let w := {| broadcasts := [("ABC123", room)];
              readyState := λ s, if decide (s = 2) then CLOSED else OPEN;
              now := 0%N; timers := [] |} in
  let c := {| conn_ws := 0; currentBroadcastId := Some "ABC123";
              currentPeerId := Some "B"; currentUsername := "Bea";
              currentRole := Some Broadcaster |} in
  let r := on_message w c "" (Parsed (StartBroadcast "ABC123")) in
  let lobby := with_view BroadcasterLobby (init "B" (Some ["video"])) in
  let live := with_view Broadcasting (init "B" (Some ["video"])) in
  r.2 = [Send 1 (BroadcastStarted "ABC123"); Log (LogLive "ABC123" 2)] ∧
  StarRelay.isLive <$> jm_get "ABC123" (broadcasts r.1.1) = Some true ∧
  handleSignalingMessage (ViewerJoined "V" "Vic") lobby = lobby ∧
  BroadcasterRtc.sent
    (broadcasterWebRTC (handleSignalingMessage (ViewerJoined "V" "Vic") live))
  = [BroadcasterRtc.OfferTo "V" (Rtc.LocalOffer 0)].
Proof.
  intros room w c r lobby live.
  pose proof (proj1 go_live_initiates_no_session w c "" "ABC123" room eq_refl eq_refl)
    as (_ & H2 & _ & H4).
  split_and!.
  - exact H4.
  - subst r. by rewrite H2.
  - refine (proj1 (proj2 (proj2 (proj2 (proj2 go_live_initiates_no_session))))
              "V" "Vic" lobby _).
    discriminate.
  - rewrite (proj1 (proj2 (proj2 (proj2 go_live_initiates_no_session)))
               "V" "Vic" live eq_refl).
    reflexivity.
Defined.

(** C7 at its failing input.  B creates broadcast ABC123 and waits in
    the lobby; V joins; the relay tells B (viewer-joined, viewer-count),
    which B's App ignores; B goes live; the relay sets the flag and sends
    broadcast-started to V alone.  V is a viewer of the live room, B's
    App is broadcasting, and B has no connection to V and has sent no
    offer.  W, who joins after B went live, is announced to B in the same
    way and gets a connection and an offer; V still has none. *)
Lemma viewer_who_joined_before_live_gets_no_offer :
  let σ0 := run init_sys
              [EvConnect 0; EvConnect 1;
               EvMessage 0 "ABC123" (Parsed (CreateBroadcast "B" "Bea"))] in
  let join := step σ0 (EvMessage 1 "" (Parsed (JoinBroadcast "ABC123" "V" "Vic"))) in
  let app0 := with_view BroadcasterLobby
                (handleSignalingMessage (BroadcastCreated "ABC123")
                   (onopen (init "B" (Some ["video"])))) in
  let app1 := receive (inbox 0 join.2) app0 in
  let app2 := handleGoLive app1 in
  let live := step join.1 (EvMessage 0 "" (Parsed (StartBroadcast "ABC123"))) in
  let app3 := receive (inbox 0 live.2) app2 in
  let joinW := step (step live.1 (EvConnect 2)).1
                 (EvMessage 2 "" (Parsed (JoinBroadcast "ABC123" "W" "Wes"))) in
  let app4 := receive (inbox 0 joinW.2) app3 in
  inbox 0 join.2 = [ViewerJoined "V" "Vic"; ViewerCount 1] ∧
  sent app2 = [StartBroadcast "ABC123"] ∧
  live.2 = [Send 1 (BroadcastStarted "ABC123"); Log (LogLive "ABC123" 1)] ∧
  ((λ room, (StarRelay.isLive room, jm_keys (viewers room)))
     <$> jm_get "ABC123" (broadcasts (world live.1))) = Some (true, ["V"]) ∧
  view app3 = Broadcasting ∧
  BroadcasterRtc.peerConnections (broadcasterWebRTC app3) = [] ∧
  BroadcasterRtc.sent (broadcasterWebRTC app3) = [] ∧
  inbox 0 joinW.2 = [ViewerJoined "W" "Wes"; ViewerCount 2] ∧
  jm_keys (BroadcasterRtc.peerConnections (broadcasterWebRTC app4)) = ["W"] ∧
  BroadcasterRtc.sent (broadcasterWebRTC app4)
  = [BroadcasterRtc.OfferTo "W" (Rtc.LocalOffer 0)].
Proof. by vm_compute. Qed.

End GoLive.

(** ** Leaving twice (star) *)

Section LeaveTwice.
Import StarRelay BroadcastApp.

(** On the relay the second cleanup finds nothing to remove: after a
    leave-broadcast for [pid], the close handler of that viewer's
    connection leaves the viewers of the room as they are. *)
Lemma star_close_after_leave_keeps_viewers w c fresh bid pid :
  currentBroadcastId c = Some bid → currentPeerId c = Some pid →
  currentRole c = Some Viewer →
  let w1 := (on_message w c fresh (Parsed (LeaveBroadcast bid pid))).1.1 in
  (viewers <$> jm_get bid (broadcasts (on_close w1 c).1))
  = (viewers <$> jm_get bid (broadcasts w1)).
Proof.
  intros Hb Hp Hr. simpl.
  destruct (jm_get bid (broadcasts w)) as [room|] eqn:E; simpl.
  - unfold on_close. rewrite Hb, Hp, Hr. simpl.
    destruct (decide (bid = "")); simpl; [done|].
    destruct (decide (pid = "")); simpl; [done|].
    rewrite jm_get_set_eq. simpl. rewrite !jm_get_set_eq. simpl.
    f_equal. apply jm_delete_idemp.
  - unfold on_close. rewrite Hb, Hp, Hr. simpl.
    destruct (decide (bid = "")); simpl; [done|].
    destruct (decide (pid = "")); simpl; [done|].
    rewrite E. simpl. by rewrite E.
Qed.

(** In the broadcaster hook the second [removeViewer] leaves the viewer
    list, the connections and the queues as the first left them, and
    decrements [viewerCount] again. *)
Lemma bc_remove_viewer_twice p s :
  let s1 := BroadcasterRtc.removeViewer p s in
  let s2 := BroadcasterRtc.removeViewer p s1 in
  BroadcasterRtc.viewers s2 = BroadcasterRtc.viewers s1 ∧
  BroadcasterRtc.peerConnections s2 = BroadcasterRtc.peerConnections s1 ∧
  BroadcasterRtc.pendingCandidates s2 = BroadcasterRtc.pendingCandidates s1 ∧
  BroadcasterRtc.viewerCount s2 = Z.max 0 (BroadcasterRtc.viewerCount s1 - 1).
Proof.
  simpl. split_and!; [|apply jm_delete_idemp..|done].
  induction (BroadcasterRtc.viewers s) as [|v l IH]; [done|].
  rewrite filter_cons. destruct (decide (BroadcasterRtc.peerId v ≠ p)); [|done].
  rewrite filter_cons_True by done. by rewrite IH.
Qed.

(** C9 at its failing input.  B broadcasts ABC123 live to viewers A and
    V.  A's App leaves: [handleLeaveBroadcast] sends leave-broadcast and
    closes its socket, so the relay runs the leave handler and then the
    close handler for A.  The relay's viewer map loses A once and both viewer-count
    messages say 1, but B is sent viewer-left for A twice, and B's hook
    ends with the viewer list [V] and a viewer count of 0. *)
Lemma leave_then_close_decrements_viewer_count_twice :
  let σ0 := run init_sys
              [EvConnect 0; EvConnect 1; EvConnect 2;
               EvMessage 0 "ABC123" (Parsed (CreateBroadcast "B" "Bea"));
               EvMessage 0 "" (Parsed (StartBroadcast "ABC123"))] in
  let joinA := step σ0 (EvMessage 1 "" (Parsed (JoinBroadcast "ABC123" "A" "Ann"))) in
  let joinV := step joinA.1 (EvMessage 2 "" (Parsed (JoinBroadcast "ABC123" "V" "Vic"))) in
  let app0 := handleGoLive
                (with_view BroadcasterLobby
                   (handleSignalingMessage (BroadcastCreated "ABC123")
                      (onopen (init "B" (Some ["video"]))))) in
  let appA := {| view := Viewing; broadcastId := Some "ABC123"; peerId := "A";
                 isLive := true; broadcasterUsername := Some "Bea";
                 messages := []; isConnecting := false;
                 broadcasterWebRTC := BroadcasterRtc.init None;
                 viewerWebRTC := ViewerRtc.init; signalingOpen := true;
                 sent := [JoinBroadcast "ABC123" "A" "Ann"] |} in
  let app1 := receive (inbox 0 joinA.2 ++ inbox 0 joinV.2) app0 in
  let leave := step joinV.1 (EvMessage 1 "" (Parsed (LeaveBroadcast "ABC123" "A"))) in
  let close := step leave.1 (EvClose 1) in
  let app2 := receive (inbox 0 leave.2 ++ inbox 0 close.2) app1 in
  BroadcasterRtc.viewerCount (broadcasterWebRTC app1) = 2%Z ∧
  sent (handleLeaveBroadcast appA)
  = [JoinBroadcast "ABC123" "A" "Ann"; LeaveBroadcast "ABC123" "A"] ∧
  signalingOpen (handleLeaveBroadcast appA) = false ∧
  inbox 0 leave.2 = [ViewerLeft "A"; ViewerCount 1] ∧
  inbox 0 close.2 = [ViewerLeft "A"; ViewerCount 1] ∧
  ((λ room, jm_keys (viewers room))
     <$> jm_get "ABC123" (broadcasts (world close.1))) = Some ["V"] ∧
  BroadcasterRtc.viewers (broadcasterWebRTC app2)
  = [{| BroadcasterRtc.peerId := "V"; BroadcasterRtc.username := "Vic" |}] ∧
  BroadcasterRtc.viewerCount (broadcasterWebRTC app2) = 0%Z.
Proof. by vm_compute. Qed.

End LeaveTwice.

(** ** Meeting ids and the hash route *)

Section RoutingFacts.
Import Stdlib.Strings.Ascii Routing.

Lemma routing_strip_prefix p s r : strip_prefix p s = Some r ↔ s = p +:+ r.
Proof.
  revert s. induction p as [|a p IH]; intros s; simpl.
  - change ("" +:+ r) with r. split; congruence.
  - destruct s as [|b s]; change (String a p +:+ r) with (String a (p +:+ r)).
    + split; [done|discriminate].
    + destruct (Ascii.eqb a b) eqn:E.
      * apply Ascii.eqb_eq in E as ->. rewrite IH. split; [by intros ->|by intros [= ->]].
      * apply Ascii.eqb_neq in E. split; [done|]. intros [= -> _]. done.
Qed.

Lemma routing_id_char a :
  id_char a = existsb (Ascii.eqb a) (String.list_ascii_of_string (chars +:+ "-")).
Proof. by destruct a as [[] [] [] [] [] [] [] []]. Qed.

Lemma routing_all_id_chars s :
  all_id_chars s = true ↔
  ∀ a, In a (String.list_ascii_of_string s) →
       In a (String.list_ascii_of_string (chars +:+ "-")).
Proof.
  induction s as [|b s IH]; simpl.
  - split; [by intros _ a []|done].
  - rewrite andb_true_iff, IH, routing_id_char, existsb_exists. split.
    + intros [(x & Hx & ->%Ascii.eqb_eq) Hs] a [<-|Ha]; [done|by apply Hs].
    + intros H. split.
      * exists b. split; [apply H; by left|apply Ascii.eqb_refl].
      * intros a Ha. apply H. by right.
Qed.

Lemma routing_match_meeting hash id :
  match_meeting hash = Some id ↔
  hash = "/meeting/" +:+ id ∧ id ≠ "" ∧ all_id_chars id = true.
Proof.
  unfold match_meeting. split.
  - destruct (strip_prefix "/meeting/" hash) as [rest|] eqn:E; [|done].
    destruct (String.eqb rest "") eqn:Er; simpl; [done|].
    destruct (all_id_chars rest) eqn:Ea; [|done].
    intros [= <-]. apply routing_strip_prefix in E. by apply String.eqb_neq in Er.
  - intros (Hh & Hne & Hall). apply routing_strip_prefix in Hh. rewrite Hh.
    apply String.eqb_neq in Hne. by rewrite Hne, Hall.
Qed.

Lemma routing_char_at n :
  n < 36 → ∃ a, char_at n = String a "" ∧ id_char a = true.
Proof.
  intros Hn.
  do 36 (destruct n as [|n]; [by eexists|]). lia.
Qed.

(** X1.  The route parser accepts exactly the locations that are one
    character (the [#]) followed by [/meeting/] and a non-empty id over
    the generator's alphabet and the hyphen; every other location is the
    home route. *)
Theorem parse_route_accepts_exactly_meeting_hashes location :
  (∀ id,
     parseRoute location = RouteMeeting id ↔
     ∃ c0, location = String c0 ("/meeting/" +:+ id) ∧ id ≠ "" ∧
           ∀ a, In a (String.list_ascii_of_string id) →
                In a (String.list_ascii_of_string (chars +:+ "-"))) ∧
  ((∀ id, parseRoute location ≠ RouteMeeting id) → parseRoute location = RouteHome).
Proof.
  split.
  - intros id. unfold parseRoute.
    destruct location as [|c0 hash]; simpl.
    { split; [done|]. by intros (? & ? & _). }
    split.
    + destruct (String.eqb hash "" || String.eqb hash "/"); [done|].
      destruct (match_meeting hash) as [m|] eqn:Em; [|done].
      intros [= ->]. apply routing_match_meeting in Em as (-> & Hne & Hall).
      exists c0. split_and!; [done..|]. by apply routing_all_id_chars.
    + intros (c & [= <- ->] & Hne & Hall%routing_all_id_chars).
      assert (match_meeting ("/meeting/" +:+ id) = Some id) as ->
        by by apply routing_match_meeting.
      by destruct id.
  - intros H. destruct (parseRoute location) as [|id]; [done|]. by destruct (H id).
Qed.

(** X2.  A generated meeting id is three groups of four characters of
    [chars] joined by hyphens, and the location reached by navigating to
    it parses back to that id. *)
Theorem generated_meeting_id_round_trips (rnd : nat → nat) :
  (∀ k, k < 12 → rnd k < 36) →
  let id := generateMeetingId rnd in
  id = segment rnd 0 4 +:+ "-" +:+ segment rnd 4 4 +:+ "-" +:+ segment rnd 8 4 ∧
  (∀ k, k < 12 → ∃ a, char_at (rnd k) = String a "" ∧
                      In a (String.list_ascii_of_string chars)) ∧
  String.length id = 14 ∧
  parseRoute (navigateToMeeting id) = RouteMeeting id.
Proof.
  intros Hrnd id. split_and!.
  - reflexivity.
  - intros k Hk. specialize (Hrnd k Hk). revert Hrnd. generalize (rnd k). intros n Hn.
    do 36 (destruct n as [|n]; [eexists; split; [done|]; simpl; tauto|]). lia.
  - subst id. unfold generateMeetingId, segments, map_segments, segment. simpl.
    repeat match goal with
    | |- context [char_at (rnd ?k)] =>
        let a := fresh "a" in let Ha := fresh "Ha" in let Hi := fresh "Hi" in
        destruct (routing_char_at (rnd k)) as (a & Ha & Hi); [apply Hrnd; lia|];
        rewrite Ha; clear Ha
    end. reflexivity.
  - subst id. unfold generateMeetingId, segments, map_segments, segment. simpl.
    repeat match goal with
    | |- context [char_at (rnd ?k)] =>
        let a := fresh "a" in let Ha := fresh "Ha" in let Hi := fresh "Hi" in
        destruct (routing_char_at (rnd k)) as (a & Ha & Hi); [apply Hrnd; lia|];
        rewrite Ha; clear Ha
    end.
    unfold navigateToMeeting, navigateTo, parseRoute, match_meeting. simpl.
    by repeat match goal with H : id_char _ = true |- _ => rewrite H; clear H end.
Qed.

(** Draws 0, 1, ..., 11 give the id abcd-efgh-ijkl. *)
Lemma generated_meeting_id_round_trips_witness :
  generateMeetingId (λ k, k) = "abcd-efgh-ijkl" ∧
  parseRoute (navigateToMeeting (generateMeetingId (λ k, k)))
  = RouteMeeting (generateMeetingId (λ k, k)).
Proof.
  split; [reflexivity|].
  refine (proj2 (proj2 (proj2 (generated_meeting_id_round_trips (λ k, k) _)))).
  intros k Hk. lia.
Defined.

End RoutingFacts.

(** ** More on JavaScript maps *)

Section JsMapMore.
Context {V : Type}.
Implicit Types (m : JsMap V) (k : string) (v : V).

Lemma jm_elem_iff_get k v m :
  NoDup (jm_keys m) → (k, v) ∈ m ↔ jm_get k m = Some v.
Proof. intros Hnd. split; [by apply jm_elem_get|apply jm_get_Some_elem]. Qed.

Lemma jm_all_set (P : V → Prop) k v m :
  NoDup (jm_keys m) → (∀ k' v', (k', v') ∈ m → P v') → P v →
  NoDup (jm_keys (jm_set k v m)) ∧ ∀ k' v', (k', v') ∈ jm_set k v m → P v'.
Proof.
  intros Hnd Hall Hv. split; [by apply jm_set_NoDup|].
  intros k' v' Hin. apply jm_elem_iff_get in Hin; [|by apply jm_set_NoDup].
  destruct (decide (k = k')) as [->|Hne].
  - rewrite jm_get_set_eq in Hin. by injection Hin as <-.
  - rewrite jm_get_set_ne in Hin by done. by eapply Hall, jm_get_Some_elem.
Qed.

Lemma jm_all_delete (P : V → Prop) k m :
  NoDup (jm_keys m) → (∀ k' v', (k', v') ∈ m → P v') →
  NoDup (jm_keys (jm_delete k m)) ∧ ∀ k' v', (k', v') ∈ jm_delete k m → P v'.
Proof.
  intros Hnd Hall. split; [by apply jm_delete_NoDup|].
  intros k' v' [_ Hin]%jm_delete_elem. by eapply Hall.
Qed.

Lemma jm_set_nonempty k v m : jm_set k v m ≠ [].
Proof. destruct m as [|[k' v'] m]; simpl; [done|]. by destruct (decide (k' = k)). Qed.

Lemma jm_size_0 m : jm_size m = 0 ↔ m = [].
Proof. unfold jm_size. by destruct m. Qed.

End JsMapMore.

(** ** The registries of the mesh relays *)

Section MeshRegistry.

Lemma group_room_ok_join (room : JsMap GroupRelay.Peer) pid s :
  (room = [] ∨ (NoDup (jm_keys room) ∧ GroupRelay.keyed room = true)) →
  let room' := jm_set pid {| GroupRelay.peerId := pid; GroupRelay.ws := s |} room in
  room' ≠ [] ∧ NoDup (jm_keys room') ∧ GroupRelay.keyed room' = true.
Proof.
  intros H room'. split; [apply jm_set_nonempty|].
  destruct H as [->|[Hnd Hk]].
  - split; [apply NoDup_singleton|]. simpl. by rewrite bool_decide_eq_true_2.
  - split; [by apply jm_set_NoDup|].
    apply jm_forallb_set; [done|]. simpl. by apply bool_decide_eq_true_2.
Qed.

Lemma group_registry_on_message w c data :
  GroupSystem.registry_ok w → GroupSystem.registry_ok (GroupRelay.on_message w c data).1.1.
Proof.
  intros [Hnd Hall]. destruct data as [[rid pid|k to body|]|]; simpl; try done.
  set (rooms1 := if jm_has rid (GroupRelay.rooms w) then GroupRelay.rooms w
                 else jm_set rid [] (GroupRelay.rooms w)).
  set (room := default [] (jm_get rid rooms1)).
  assert (NoDup (jm_keys rooms1) ∧
          ∀ r rm, (r, rm) ∈ rooms1 → r ≠ rid →
                  rm ≠ [] ∧ NoDup (jm_keys rm) ∧ GroupRelay.keyed rm = true) as [Hnd1 Hall1].
  { subst rooms1. destruct (jm_has rid (GroupRelay.rooms w)); [by eauto|].
    split; [by apply jm_set_NoDup|]. intros r rm Hin Hne.
    apply jm_elem_iff_get in Hin; [|by apply jm_set_NoDup].
    rewrite jm_get_set_ne in Hin by done. by eapply Hall, jm_get_Some_elem. }
  assert (room = [] ∨ (NoDup (jm_keys room) ∧ GroupRelay.keyed room = true)) as Hroom.
  { subst room rooms1. destruct (jm_has rid (GroupRelay.rooms w)) eqn:E.
    - apply jm_has_true in E as [rm E]. rewrite E. simpl.
      apply jm_get_Some_elem, Hall in E. naive_solver.
    - rewrite jm_get_set_eq. by left. }
  split; [by apply jm_set_NoDup|].
  intros r rm Hin. simpl in Hin.
  apply jm_elem_iff_get in Hin; [|by apply jm_set_NoDup].
  destruct (decide (rid = r)) as [<-|Hne].
  - rewrite jm_get_set_eq in Hin. injection Hin as <-. by apply group_room_ok_join.
  - rewrite jm_get_set_ne in Hin by done.
    eapply Hall1; [by apply jm_get_Some_elem|done].
Qed.

Lemma group_registry_on_close w c :
  GroupSystem.registry_ok w → GroupSystem.registry_ok (GroupRelay.on_close w c).1.
Proof.
  intros [Hnd Hall]. unfold GroupRelay.on_close.
  destruct (truthy _ && truthy _); [|done].
  destruct (GroupRelay.currentRoomId c) as [rid|]; [|done].
  destruct (GroupRelay.currentPeerId c) as [pid|]; [|done].
  destruct (jm_get rid (GroupRelay.rooms w)) as [room|] eqn:E; [|done].
  apply jm_get_Some_elem, Hall in E as (Hne & Hndr & Hk).
  destruct (decide (jm_size (jm_delete pid room) = 0)) as [H0|H0]; simpl.
  - split; [by apply jm_delete_NoDup, jm_set_NoDup|].
    intros r rm [Hr Hin]%jm_delete_elem. simpl in Hin.
    apply jm_elem_iff_get in Hin; [|by apply jm_set_NoDup].
    rewrite jm_get_set_ne in Hin by done. by eapply Hall, jm_get_Some_elem.
  - split; [by apply jm_set_NoDup|].
    intros r rm Hin. simpl in Hin.
    apply jm_elem_iff_get in Hin; [|by apply jm_set_NoDup].
    destruct (decide (rid = r)) as [<-|Hr].
    + rewrite jm_get_set_eq in Hin. injection Hin as <-. split_and!.
      * by rewrite <-jm_size_0.
      * by apply jm_delete_NoDup.
      * by apply jm_forallb_delete.
    + rewrite jm_get_set_ne in Hin by done. by eapply Hall, jm_get_Some_elem.
Qed.

Lemma group_system_run_snoc σ es e :
  GroupSystem.run σ (es ++ [e]) = (GroupSystem.step (GroupSystem.run σ es) e).1.
Proof. unfold GroupSystem.run. by rewrite foldl_app. Qed.

Lemma group_registry_step σ e :
  GroupSystem.registry_ok (GroupSystem.world σ) →
  GroupSystem.registry_ok (GroupSystem.world (GroupSystem.step σ e).1).
Proof.
  intros H. destruct e as [s|s data|s|s rs]; simpl.
  - by destruct (GroupSystem.conns σ s).
  - destruct (GroupSystem.conns σ s) as [|c|]; try done.
    pose proof (group_registry_on_message (GroupSystem.world σ) c data H) as H'.
    by destruct (GroupRelay.on_message _ c data) as [[w' c'] effs].
  - destruct (GroupSystem.conns σ s) as [|c|]; try done.
    pose proof (group_registry_on_close (GroupSystem.world σ) c H) as H'.
    by destruct (GroupRelay.on_close _ c) as [w' effs].
  - done.
Qed.

(** X3.  The mesh relay of group-video-call keeps its registry tidy: at any
    point of any run no room is registered twice, no registered room is
    empty, and within a room no peer id occurs twice and every entry is
    stored under its own peer id. *)
Theorem group_registry_has_no_empty_room es :
  GroupSystem.registry_ok (GroupSystem.world (GroupSystem.run GroupSystem.init_sys es)).
Proof.
  induction es as [|e es IH] using rev_ind.
  - split; [apply NoDup_nil_2|]. intros r rm H. by apply elem_of_nil in H.
  - rewrite group_system_run_snoc. by apply group_registry_step.
Qed.

Lemma exp_room_ok_join (room : JsMap ExpandedRelay.PeerInfo) pid u s b :
  (room = [] ∨ (NoDup (jm_keys room) ∧ ExpandedRelay.keyed room = true)) →
  let room' := jm_set pid {| ExpandedRelay.peerId := pid; ExpandedRelay.username := u;
                             ExpandedRelay.ws := s;
                             ExpandedRelay.isScreenSharing := b |} room in
  room' ≠ [] ∧ NoDup (jm_keys room') ∧ ExpandedRelay.keyed room' = true.
Proof.
  intros H room'. split; [apply jm_set_nonempty|].
  destruct H as [->|[Hnd Hk]].
  - split; [apply NoDup_singleton|]. simpl. by rewrite bool_decide_eq_true_2.
  - split; [by apply jm_set_NoDup|].
    apply jm_forallb_set; [done|]. simpl. by apply bool_decide_eq_true_2.
Qed.

(** Writing a changed entry back under the key it was found at. *)
Lemma exp_registry_update w rid pid room (peer peer' : ExpandedRelay.PeerInfo) :
  ExpandedSystem.registry_ok w →
  jm_get rid (ExpandedRelay.rooms w) = Some room →
  jm_get pid room = Some peer →
  ExpandedRelay.peerId peer' = ExpandedRelay.peerId peer →
  ExpandedSystem.registry_ok
    (ExpandedRelay.with_rooms w (jm_set rid (jm_set pid peer' room) (ExpandedRelay.rooms w))).
Proof.
  intros [Hnd Hall] Hroom Hpeer Hid.
  pose proof Hroom as (Hne & Hndr & Hk)%jm_get_Some_elem%Hall.
  split; [by apply jm_set_NoDup|]. simpl.
  intros r rm Hin. apply jm_elem_iff_get in Hin; [|by apply jm_set_NoDup].
  destruct (decide (rid = r)) as [<-|Hr].
  - rewrite jm_get_set_eq in Hin. injection Hin as <-.
    split_and!; [apply jm_set_nonempty|by apply jm_set_NoDup|].
    apply jm_forallb_set; [done|]. simpl. apply bool_decide_eq_true_2.
    rewrite Hid.
    pose proof (jm_forallb_get _ _ _ _ Hk Hpeer) as Hp. simpl in Hp.
    by apply bool_decide_eq_true_1 in Hp.
  - rewrite jm_get_set_ne in Hin by done. by eapply Hall, jm_get_Some_elem.
Qed.

Lemma exp_registry_set_sharing w rid pid b :
  ExpandedSystem.registry_ok w →
  ExpandedSystem.registry_ok (ExpandedRelay.set_sharing w rid pid b).
Proof.
  intros H. unfold ExpandedRelay.set_sharing.
  destruct (jm_get rid (ExpandedRelay.rooms w)) as [room|] eqn:E; [|done].
  destruct (jm_get pid room) as [peer|] eqn:Ep; [|done].
  by eapply exp_registry_update.
Qed.

Lemma exp_registry_on_message w c data :
  ExpandedSystem.registry_ok w →
  ExpandedSystem.registry_ok (ExpandedRelay.on_message w c data).1.1.
Proof.
  intros Hok. pose proof Hok as [Hnd Hall].
  destruct data as [[rid pid uname|uname| | |k to body|]|]; simpl; try done.
  - set (rooms1 := if jm_has rid (ExpandedRelay.rooms w) then ExpandedRelay.rooms w
                   else jm_set rid [] (ExpandedRelay.rooms w)).
    set (room := default [] (jm_get rid rooms1)).
    assert (NoDup (jm_keys rooms1) ∧
            ∀ r rm, (r, rm) ∈ rooms1 → r ≠ rid →
                    rm ≠ [] ∧ NoDup (jm_keys rm) ∧ ExpandedRelay.keyed rm = true)
      as [Hnd1 Hall1].
    { subst rooms1. destruct (jm_has rid (ExpandedRelay.rooms w)); [by eauto|].
      split; [by apply jm_set_NoDup|]. intros r rm Hin Hne.
      apply jm_elem_iff_get in Hin; [|by apply jm_set_NoDup].
      rewrite jm_get_set_ne in Hin by done. by eapply Hall, jm_get_Some_elem. }
    assert (room = [] ∨ (NoDup (jm_keys room) ∧ ExpandedRelay.keyed room = true)) as Hroom.
    { subst room rooms1. destruct (jm_has rid (ExpandedRelay.rooms w)) eqn:E.
      - apply jm_has_true in E as [rm E]. rewrite E. simpl.
        apply jm_get_Some_elem, Hall in E. naive_solver.
      - rewrite jm_get_set_eq. by left. }
    split; [by apply jm_set_NoDup|].
    intros r rm Hin. simpl in Hin.
    apply jm_elem_iff_get in Hin; [|by apply jm_set_NoDup].
    destruct (decide (rid = r)) as [<-|Hne].
    + rewrite jm_get_set_eq in Hin. injection Hin as <-. by apply exp_room_ok_join.
    + rewrite jm_get_set_ne in Hin by done.
      eapply Hall1; [by apply jm_get_Some_elem|done].
  - destruct (truthy _ && truthy _); [|done].
    destruct (ExpandedRelay.currentRoomId c) as [rid|]; [|done].
    destruct (ExpandedRelay.currentPeerId c) as [pid|]; [|done].
    destruct (jm_get rid (ExpandedRelay.rooms w)) as [room|] eqn:E; [|done].
    destruct (jm_get pid room) as [peer|] eqn:Ep; [|done].
    simpl. by eapply exp_registry_update.
  - destruct (truthy _ && truthy _); [|done].
    destruct (ExpandedRelay.currentRoomId c) as [rid|]; [|done].
    destruct (ExpandedRelay.currentPeerId c) as [pid|]; [|done].
    simpl. by apply exp_registry_set_sharing.
  - destruct (truthy _ && truthy _); [|done].
    destruct (ExpandedRelay.currentRoomId c) as [rid|]; [|done].
    destruct (ExpandedRelay.currentPeerId c) as [pid|]; [|done].
    simpl. by apply exp_registry_set_sharing.
Qed.

Lemma exp_registry_on_close w c :
  ExpandedSystem.registry_ok w → ExpandedSystem.registry_ok (ExpandedRelay.on_close w c).1.
Proof.
  intros [Hnd Hall]. unfold ExpandedRelay.on_close.
  destruct (truthy _ && truthy _); [|done].
  destruct (ExpandedRelay.currentRoomId c) as [rid|]; [|done].
  destruct (ExpandedRelay.currentPeerId c) as [pid|]; [|done].
  destruct (jm_get rid (ExpandedRelay.rooms w)) as [room|] eqn:E; [|done].
  apply jm_get_Some_elem, Hall in E as (Hne & Hndr & Hk).
  destruct (decide (jm_size (jm_delete pid room) = 0)) as [H0|H0]; simpl.
  - split; [by apply jm_delete_NoDup, jm_set_NoDup|].
    intros r rm [Hr Hin]%jm_delete_elem. simpl in Hin.
    apply jm_elem_iff_get in Hin; [|by apply jm_set_NoDup].
    rewrite jm_get_set_ne in Hin by done. by eapply Hall, jm_get_Some_elem.
  - split; [by apply jm_set_NoDup|].
    intros r rm Hin. simpl in Hin.
    apply jm_elem_iff_get in Hin; [|by apply jm_set_NoDup].
    destruct (decide (rid = r)) as [<-|Hr].
    + rewrite jm_get_set_eq in Hin. injection Hin as <-. split_and!.
      * by rewrite <-jm_size_0.
      * by apply jm_delete_NoDup.
      * by apply jm_forallb_delete.
    + rewrite jm_get_set_ne in Hin by done. by eapply Hall, jm_get_Some_elem.
Qed.

Lemma exp_system_run_snoc σ es e :
  ExpandedSystem.run σ (es ++ [e])
  = (ExpandedSystem.step (ExpandedSystem.run σ es) e).1.
Proof. unfold ExpandedSystem.run. by rewrite foldl_app. Qed.

Lemma exp_registry_step σ e :
  ExpandedSystem.registry_ok (ExpandedSystem.world σ) →
  ExpandedSystem.registry_ok (ExpandedSystem.world (ExpandedSystem.step σ e).1).
Proof.
  intros H. destruct e as [s|s data|s|s rs]; simpl.
  - by destruct (ExpandedSystem.conns σ s).
  - destruct (ExpandedSystem.conns σ s) as [|c|]; try done.
    pose proof (exp_registry_on_message (ExpandedSystem.world σ) c data H) as H'.
    by destruct (ExpandedRelay.on_message _ c data) as [[w' c'] effs].
  - destruct (ExpandedSystem.conns σ s) as [|c|]; try done.
    pose proof (exp_registry_on_close (ExpandedSystem.world σ) c H) as H'.
    by destruct (ExpandedRelay.on_close _ c) as [w' effs].
  - done.
Qed.

(** X4.  The relay of expanded-video-call keeps its registry tidy as
    well, although username updates and screen-share notices rewrite
    entries in place: at any point of any run no room is registered
    twice, no registered room is empty, and within a room no peer id
    occurs twice and every entry is stored under its own peer id. *)
Theorem expanded_registry_has_no_empty_room es :
  ExpandedSystem.registry_ok
    (ExpandedSystem.world (ExpandedSystem.run ExpandedSystem.init_sys es)).
Proof.
  induction es as [|e es IH] using rev_ind.
  - split; [apply NoDup_nil_2|]. intros r rm H. by apply elem_of_nil in H.
  - rewrite exp_system_run_snoc. by apply exp_registry_step.
Qed.

End MeshRegistry.
(** ** Leaving a room, and registering twice under one peer id (mesh) *)

Section MeshLeave.
Import GroupRelay.





Lemma group_join_result w c rid pid :
  let r := on_message w c (Parsed (Join rid pid)) in
  jm_get rid (rooms r.1.1)
  = Some (jm_set pid {| peerId := pid; ws := conn_ws c |} (members w rid)) ∧
  r.1.2 = {| conn_ws := conn_ws c; currentRoomId := Some rid;
             currentPeerId := Some pid |} ∧
  ∃ rest, r.2 = Send (conn_ws c) (RoomPeers (jm_keys (members w rid))) :: rest.
Proof.
  unfold on_message. cbv zeta. rewrite group_join_room_lookup.
  fold (members w rid). simpl. split_and!; [apply jm_get_set_eq|done|by eexists].
Qed.



End MeshLeave.
(** ** Names and screen-share flags in the expanded relay *)

Section ExpandedSnapshot.
Import ExpandedRelay.





End ExpandedSnapshot.
(** ** The broadcast registry *)

Section StarRegistry.
Import StarRelay StarInvariant.

Lemma or_default_nonempty a b : b ≠ "" → or_default a b ≠ "".
Proof. intros Hb. unfold or_default. by destruct (decide (a = "")). Qed.

Lemma or_default_id a b : a ≠ "" → or_default a b = a.
Proof. intros Ha. unfold or_default. by rewrite decide_False. Qed.

Lemma star_registry_get w bid room :
  registry_ok w → jm_get bid (broadcasts w) = Some room → room_ok bid room.
Proof. intros [_ Hall] H. by apply Hall, jm_get_Some_elem. Qed.

(** Writing a room back under the id it is registered or created with. *)
Lemma star_registry_set w bid room :
  registry_ok w → room_ok bid room →
  registry_ok (with_broadcasts w (jm_set bid room (broadcasts w))).
Proof.
  intros [Hnd Hall] Hroom. split; [by apply jm_set_NoDup|]. simpl.
  intros b r Hin. apply jm_elem_iff_get in Hin; [|by apply jm_set_NoDup].
  destruct (decide (bid = b)) as [<-|Hne].
  - rewrite jm_get_set_eq in Hin. by injection Hin as <-.
  - rewrite jm_get_set_ne in Hin by done. by eapply Hall, jm_get_Some_elem.
Qed.

Lemma star_registry_delete w bid :
  registry_ok w → registry_ok (with_broadcasts w (jm_delete bid (broadcasts w))).
Proof.
  intros [Hnd Hall]. split; [by apply jm_delete_NoDup|]. simpl.
  intros b r [_ Hin]%jm_delete_elem. by apply Hall.
Qed.

Lemma star_room_ok_live bid room b : room_ok bid room → room_ok bid (set_live room b).
Proof. done. Qed.

Lemma star_room_ok_leave bid room pid :
  room_ok bid room → room_ok bid (set_viewers room (jm_delete pid (viewers room))).
Proof.
  intros (Hid & Hb & Hnd & Hv). split_and!; [done|done|by apply jm_delete_NoDup|].
  simpl. intros k v [_ Hin]%jm_delete_elem. by apply Hv.
Qed.

Lemma star_room_ok_join bid room pid uname s :
  room_ok bid room →
  room_ok bid
    (set_viewers room
       (jm_set pid {| peerId := pid; username := or_default uname "Viewer"; ws := s |}
          (viewers room))).
Proof.
  intros (Hid & Hb & Hnd & Hv). split_and!; [done|done|by apply jm_set_NoDup|].
  simpl. intros k v Hin. apply jm_elem_iff_get in Hin; [|by apply jm_set_NoDup].
  destruct (decide (pid = k)) as [<-|Hne].
  - rewrite jm_get_set_eq in Hin. injection Hin as <-. simpl.
    split; [done|]. by apply or_default_nonempty.
  - rewrite jm_get_set_ne in Hin by done. by eapply Hv, jm_get_Some_elem.
Qed.

Lemma star_registry_on_message w c fresh data :
  registry_ok w → registry_ok (on_message w c fresh data).1.1.
Proof.
  intros Hok. destruct data as [m|]; [|done].
  destruct m as [pid u|bid|bid|bid pid u|bid pid|to sdp|to sdp|to cand|bid text|];
    simpl; try done.
  - apply star_registry_set; [done|]. split_and!; simpl; try done.
    + eexists. split; [done|]. simpl. by apply or_default_nonempty.
    + apply NoDup_nil_2.
    + intros k v H. by apply elem_of_nil in H.
  - destruct (jm_get bid (broadcasts w)) as [room|] eqn:E; [|done].
    destruct (is_broadcaster_of room c); [|done]. simpl.
    apply star_registry_set; [done|]. by eapply star_room_ok_live, star_registry_get.
  - destruct (jm_get bid (broadcasts w)) as [room|] eqn:E; [|done].
    destruct (is_broadcaster_of room c); [|done]. simpl.
    apply star_registry_set; [done|]. by eapply star_room_ok_live, star_registry_get.
  - destruct (jm_get bid (broadcasts w)) as [room|] eqn:E; [|done]. simpl.
    apply star_registry_set; [done|]. by eapply star_room_ok_join, star_registry_get.
  - destruct (jm_get bid (broadcasts w)) as [room|] eqn:E; [|done]. simpl.
    apply star_registry_set; [done|]. by eapply star_room_ok_leave, star_registry_get.
  - destruct (current_room w c) as [room|]; [|done].
    by destruct (jm_get to (viewers room)).
  - by destruct (current_room w c).
  - destruct (current_room w c) as [room|]; [|done].
    destruct (currentRole c) as [[|]|]; try done.
    by destruct (jm_get to (viewers room)).
  - by destruct (jm_get bid (broadcasts w)).
Qed.

Lemma star_registry_on_close w c : registry_ok w → registry_ok (on_close w c).1.
Proof.
  intros Hok. unfold on_close.
  destruct (truthy (currentBroadcastId c) && truthy (currentPeerId c)); [|done].
  destruct (currentBroadcastId c) as [b|]; [|done].
  destruct (currentPeerId c) as [pid|]; [|done].
  destruct (jm_get b (broadcasts w)) as [room|] eqn:E; [|done].
  destruct (currentRole c) as [[|]|]; simpl.
  - apply (star_registry_set w b (set_live room false)) in Hok;
      [|by eapply star_room_ok_live, star_registry_get]. done.
  - apply star_registry_set; [done|]. by eapply star_room_ok_leave, star_registry_get.
  - apply star_registry_set; [done|]. by eapply star_room_ok_leave, star_registry_get.
Qed.

Lemma star_registry_cleanup w c : registry_ok w → registry_ok (cleanup w c).1.
Proof.
  intros Hok. unfold cleanup.
  destruct (currentBroadcastId c) as [b|]; [|done].
  destruct (jm_get b (broadcasts w)) as [room|]; [|done].
  destruct (negb (isLive room) && bool_decide (jm_size (viewers room) = 0)); [|done].
  by apply star_registry_delete.
Qed.

Lemma star_registry_step σ e :
  registry_ok (world σ) → registry_ok (world (step σ e).1).
Proof.
  intros H. destruct e as [s|s fresh data|s|s rs|dt|i]; simpl.
  - by destruct (conns σ s).
  - destruct (conns σ s) as [|c|]; try done.
    pose proof (star_registry_on_message (world σ) c fresh data H) as H'.
    by destruct (on_message _ c fresh data) as [[w' c'] effs].
  - destruct (conns σ s) as [|c|]; try done.
    pose proof (star_registry_on_close (world σ) c H) as H'.
    by destruct (on_close _ c) as [w' effs].
  - done.
  - done.
  - destruct (timers (world σ) !! i) as [t|]; [|done].
    destruct (bool_decide (due t ≤ now (world σ))%N); [|done].
    assert (registry_ok (with_timers (world σ) (delete i (timers (world σ))))) as H1
      by done.
    destruct (conns σ (owner t)) as [|c|c ?]; try done.
    + pose proof (star_registry_cleanup _ c H1) as H'.
      by destruct (cleanup _ c) as [w' effs].
    + pose proof (star_registry_cleanup _ c H1) as H'.
      by destruct (cleanup _ c) as [w' effs].
Qed.

Lemma star_registry_run es : registry_ok (world (run init_sys es)).
Proof.
  induction es as [|e es IH] using rev_ind.
  - split; [apply NoDup_nil_2|]. intros b r H. by apply elem_of_nil in H.
  - rewrite star_run_snoc. by apply star_registry_step.
Qed.

(** X8.  At any point of any run of the broadcast relay every registered
    room carries the id it is registered under, has a broadcaster with a
    username that is not empty, and holds each viewer once, under its
    own peer id; and the broadcast-info that answers a join-broadcast
    carries that broadcaster's username and the room's live flag, never
    the fallback name. *)
Theorem star_room_always_has_its_broadcaster es :
  let σ := run init_sys es in
  registry_ok (world σ) ∧
  ∀ s fresh data s' bid live name,
    Send s' (BroadcastInfo bid live name) ∈ (step σ (EvMessage s fresh data)).2 →
    ∃ room b,
      jm_get bid (broadcasts (world σ)) = Some room ∧
      broadcaster room = Some b ∧ name = username b ∧ live = isLive room.
Proof.
  intros σ. pose proof (star_registry_run es) as Hok. fold σ in Hok.
  split; [done|].
  intros s fresh data s' bid live name. simpl.
  destruct (conns σ s) as [|c|]; try by intros ?%elem_of_nil.
  destruct (on_message (world σ) c fresh data) as [[w' c'] effs] eqn:E. simpl.
  intros Hin.
  assert (effs = (on_message (world σ) c fresh data).2) as -> by by rewrite E.
  clear E. destruct data as [m|].
  2: { simpl in Hin. by apply list_elem_of_singleton in Hin. }
  destruct m as [pid u|b|b|b pid u|b pid|to sdp|to sdp|to cand|b text|];
    simpl in Hin;
    repeat match type of Hin with
      | context [match jm_get ?k ?m with _ => _ end] =>
          let E := fresh "E" in destruct (jm_get k m) eqn:E
      | context [match current_room ?w ?c with _ => _ end] =>
          destruct (current_room w c)
      | context [match currentRole ?c with _ => _ end] =>
          destruct (currentRole c) as [[|]|]
      | context [if is_broadcaster_of ?r ?c then _ else _] =>
          destruct (is_broadcaster_of r c)
      end; simpl in Hin;
    repeat first
      [ rewrite elem_of_app in Hin | rewrite elem_of_cons in Hin
      | rewrite elem_of_nil in Hin
      | rewrite star_elem_of_to_viewers in Hin
      | rewrite star_elem_of_to_broadcaster in Hin
      | rewrite star_elem_of_send_if_open in Hin ];
    repeat setoid_rewrite elem_of_cons in Hin;
    repeat setoid_rewrite elem_of_nil in Hin;
    try (exfalso; naive_solver).
  destruct Hin as [[= -> -> -> ->]|Hin]; [|exfalso; naive_solver].
  match goal with E : jm_get _ (broadcasts _) = Some ?r |- _ =>
    destruct (star_registry_get _ _ _ Hok E) as (_ & (bc & Hb & Hne) & _);
    exists r, bc
  end.
  split_and!; [done|done| |done].
  rewrite Hb. by apply or_default_id.
Qed.

End StarRegistry.
(** ** When a broadcast leaves the registry *)

Section StarRemoval.
Import StarRelay.




End StarRemoval.
(** ** The broadcast hooks over time *)

Section ViewerCandidates.
Import Rtc ViewerRtc ViewerRun.

Lemma viewer_run_snoc s es e : run s (es ++ [e]) = step (run s es) e.
Proof. unfold run. by rewrite foldl_app. Qed.

Lemma viewer_arrivals_snoc es e :
  arrivals (es ++ [e])
  = match e with
    | GotIceCandidate c => arrivals es ++ [c]
    | Close => []
    | GotOffer _ => arrivals es
    end.
Proof. unfold arrivals. by rewrite foldl_app. Qed.

Lemma viewer_step_inv s arr e :
  applied s ++ pendingCandidates s = arr →
  (described s = true → pendingCandidates s = []) →
  applied (step s e) ++ pendingCandidates (step s e)
  = match e with
    | GotIceCandidate c => arr ++ [c]
    | Close => []
    | GotOffer _ => arr
    end ∧
  (described (step s e) = true → pendingCandidates (step s e) = []).
Proof.
  intros Harr Hq. destruct e as [sdp|c|]; simpl.
  - unfold handleOffer, applied, described in *.
    destruct (peerConnection s) as [pc|]; simpl;
      rewrite drain_candidates, app_nil_r; simpl; by split.
  - unfold handleIceCandidate, applied, described in *.
    destruct (peerConnection s) as [pc|]; simpl.
    + destruct (remoteDescription pc) eqn:E; simpl.
      * rewrite Hq in * by done. rewrite app_nil_r in *. rewrite E. by subst.
      * rewrite E. split; [|done]. by rewrite app_assoc, Harr.
    + split; [|done]. simpl in Harr. by rewrite Harr.
  - done.
Qed.

(** X10.  The viewer hook, each handler invocation run to completion: the
    candidates it has passed to the connection followed by those it
    still holds back are the candidates received since the connection
    was last closed, in arrival order; none is held back once a remote
    description is set, and right after an offer was handled all of them
    have been passed on. *)
Theorem viewer_candidates_reach_engine_in_order es :
  let s := run init es in
  applied s ++ pendingCandidates s = arrivals es ∧
  (described s = true → pendingCandidates s = []) ∧
  (∀ sdp, let s' := step s (GotOffer sdp) in
          applied s' = arrivals es ∧ pendingCandidates s' = [] ∧ described s' = true).
Proof.
  assert (let s := run init es in
          applied s ++ pendingCandidates s = arrivals es ∧
          (described s = true → pendingCandidates s = [])) as H.
  { induction es as [|e es [IH1 IH2]] using rev_ind; [done|].
    rewrite viewer_run_snoc, viewer_arrivals_snoc.
    destruct (viewer_step_inv (run init es) (arrivals es) e IH1 IH2) as [H1 H2].
    split; [|done]. rewrite H1. by destruct e. }
  destruct H as [H1 H2]. intros s. split_and!; [done..|].
  intros sdp s'.
  destruct (viewer_step_inv s (arrivals es) (GotOffer sdp) H1 H2) as [H3 H4].
  assert (described s' = true) as Hd.
  { subst s'. unfold described. simpl. unfold handleOffer.
    destruct (peerConnection s); simpl; by rewrite drain_remoteDescription. }
  fold s' in H3, H4. specialize (H4 Hd). rewrite H4, app_nil_r in H3. done.
Qed.

End ViewerCandidates.

Section BroadcasterCount.
Import Rtc BroadcasterRtc BroadcasterRun.

Lemma bc_run_snoc s es e : run s (es ++ [e]) = step (run s es) e.
Proof. unfold run. by rewrite foldl_app. Qed.

Lemma bc_knows_iff p (l : list ViewerInfo) : knows p l = true ↔ p ∈ peerId <$> l.
Proof.
  unfold knows. rewrite existsb_exists, list_elem_of_fmap. split.
  - intros (v & Hin%list_elem_of_In & Hv%bool_decide_eq_true). by exists v.
  - intros (v & -> & Hin). exists v. split; [by apply list_elem_of_In|].
    by apply bool_decide_eq_true.
Qed.

Lemma bc_filter_peerId p (l : list ViewerInfo) :
  peerId <$> filter (λ v, peerId v ≠ p) l = filter (λ k, k ≠ p) (peerId <$> l).
Proof.
  induction l as [|v l IH]; [done|]. rewrite fmap_cons, !filter_cons.
  destruct (decide (peerId v ≠ p)); [rewrite fmap_cons|]; by rewrite IH.
Qed.

Lemma bc_filter_absent p (l : list string) : p ∉ l → filter (λ k, k ≠ p) l = l.
Proof.
  induction l as [|k l IH]; [done|]. intros [Hpk Hk]%not_elem_of_cons.
  rewrite filter_cons_True by done. by rewrite IH.
Qed.

Lemma bc_filter_length p (l : list string) :
  NoDup l → p ∈ l → S (length (filter (λ k, k ≠ p) l)) = length l.
Proof.
  induction l as [|k l IH]; intros Hnd Hin; [by apply elem_of_nil in Hin|].
  apply NoDup_cons in Hnd as [Hk Hnd]. rewrite filter_cons.
  destruct (decide (k ≠ p)) as [Hne|Heq]; simpl.
  - apply elem_of_cons in Hin as [->|Hin]; [done|]. by rewrite IH.
  - apply dec_stable in Heq as ->. by rewrite bc_filter_absent.
Qed.


Lemma bc_keys_length (m : JsMap PeerConnection) : length (jm_keys m) = jm_size m.
Proof. unfold jm_keys, jm_size. by rewrite length_fmap. Qed.

Lemma bc_keys_set_present p pc (m : JsMap PeerConnection) :
  is_Some (jm_get p m) → jm_keys (jm_set p pc m) = jm_keys m ∧
                         jm_size (jm_set p pc m) = jm_size m.
Proof.
  intros H%jm_has_true.
  assert (jm_keys (jm_set p pc m) = jm_keys m) as Hk by by rewrite jm_keys_set, H.
  split; [done|]. by rewrite <-!bc_keys_length, Hk.
Qed.

Lemma bc_tally_step s e : tally_ok s → tally_ok (step s e).
Proof.
  intros (Hc & Hv & Hnd). destruct e as [p u|p sdp|p c|p| |p st]; simpl.
  - unfold createConnectionForViewer.
    destruct (jm_has p (peerConnections s)) eqn:E; [done|].
    apply jm_has_false in E. pose proof E as Hnin%jm_get_None_keys.
    assert (knows p (viewers s) = false) as ->.
    { apply not_true_is_false. rewrite bc_knows_iff. by rewrite Hv. }
    (split; [|split]); cbn [viewerCount peerConnections viewers].
    + rewrite jm_set_absent by done. unfold jm_size in *. rewrite length_app. simpl. lia.
    + rewrite fmap_app, Hv, jm_keys_set. unfold jm_has. by rewrite E.
    + by apply jm_set_NoDup.
  - unfold handleAnswer.
    destruct (jm_get p (peerConnections s)) as [pc|] eqn:E; [|done].
    destruct (bc_keys_set_present p (drain (default [] (jm_get p (pendingCandidates s)))
                                       (setRemoteDescription (Remote sdp) pc))
                (peerConnections s)) as [Hk Hs]; [by rewrite E|].
    (split; [|split]); simpl; by rewrite ?Hk, ?Hs.
  - unfold handleIceCandidate, has_remote.
    destruct (jm_get p (peerConnections s)) as [pc|] eqn:E; [|done].
    destruct (remoteDescription pc); [|done].
    destruct (bc_keys_set_present p (addIceCandidate c pc) (peerConnections s))
      as [Hk Hs]; [by rewrite E|].
    (split; [|split]); simpl; by rewrite ?Hk, ?Hs.
  - (split; [|split]); simpl.
    + rewrite <-bc_keys_length, jm_keys_delete.
      rewrite <-bc_keys_length in Hc.
      destruct (decide (p ∈ jm_keys (peerConnections s))) as [Hin|Hnin].
      * pose proof (bc_filter_length p _ Hnd Hin). lia.
      * rewrite bc_filter_absent by done. lia.
    + by rewrite bc_filter_peerId, Hv, jm_keys_delete.
    + by apply jm_delete_NoDup.
  - (split; [|split]); simpl; [done|done|apply NoDup_nil_2].
  - unfold connectionStateChanged.
    destruct (jm_get p (peerConnections s)) as [pc|] eqn:E; [|done].
    destruct (bc_keys_set_present p (onconnectionstatechange (setConnectionState st pc))
                (peerConnections s)) as [Hk Hs]; [by rewrite E|].
    (split; [|split]); simpl; by rewrite ?Hk, ?Hs.
Qed.

(** X11.  The broadcaster hook, each handler invocation run to completion:
    after any sequence of calls the viewer list names exactly the peers
    that have a connection, once each and in the order of the map, and
    the viewer count lies between zero and the number of connections; so
    the count shown can fall short of the viewers connected but never
    exceeds them. *)
Theorem broadcaster_viewer_count_never_exceeds_connections localStream es :
  let s := run (init localStream) es in
  (0 ≤ viewerCount s ≤ Z.of_nat (jm_size (peerConnections s)))%Z ∧
  peerId <$> viewers s = jm_keys (peerConnections s) ∧
  NoDup (jm_keys (peerConnections s)).
Proof.
  induction es as [|e es IH] using rev_ind.
  - (split; [|split]); [done|done|apply NoDup_nil_2].
  - rewrite bc_run_snoc. by apply bc_tally_step.
Qed.

End BroadcasterCount.
(** ** The broadcast App: chat and the end of a broadcast *)

Section BroadcastAppChat.
Import StarRelay BroadcastApp BroadcastAppOps.

Lemma app_messages_step m s :
  messages (handleSignalingMessage m s) = messages s ++ chats_of [m].
Proof.
  unfold chats_of. rewrite bind_cons. cbn [mbind list_bind]. rewrite !app_nil_r.
  destruct m as [bid|bid|bid|bid live un|q un|q|n|f sdp|f sdp|f cand|i f un t ts|msg];
    simpl; rewrite ?app_nil_r; try done.
  - by destruct (view s).
  - by destruct (view s).
  - by destruct (view s).
  - destruct (view s), f as [f|]; simpl; try done; by destruct (decide (f = "")).
  - destruct (view s), f as [f|]; simpl; try done; by destruct (decide (f = "")).
Qed.

Lemma app_chats_of_app ms1 ms2 : chats_of (ms1 ++ ms2) = chats_of ms1 ++ chats_of ms2.
Proof. unfold chats_of. apply bind_app. Qed.

(** X12.  The chat list of the App is the chat messages it received from the
    relay, in arrival order: every received chat is appended, no other
    message touches the list, and sending a message appends nothing (a
    sender sees its own message when the relay sends it back).  A
    message is sent only with a broadcast id at hand and the socket
    open; otherwise it is dropped. *)
Theorem app_chat_list_is_the_chats_received :
  (∀ ms s, messages (receive ms s) = messages s ++ chats_of ms) ∧
  (∀ text s,
     messages (handleSendMessage text s) = messages s ∧
     sent (handleSendMessage text s)
     = match broadcastId s with
       | Some bid =>
           if bool_decide (bid ≠ "") && signalingOpen s
           then sent s ++ [StarRelay.ChatMessage bid text] else sent s
       | None => sent s
       end).
Proof.
  split.
  - intros ms. induction ms as [|m ms IH] using rev_ind; intros s.
    + by rewrite app_nil_r.
    + unfold receive in *. rewrite foldl_app. simpl.
      rewrite app_messages_step, IH, app_chats_of_app. by rewrite app_assoc.
  - intros text s. unfold handleSendMessage, send.
    destruct (broadcastId s) as [bid|]; simpl; [|done].
    destruct (decide (bid = "")) as [->|Hne]; simpl; [done|].
    rewrite bool_decide_eq_true_2 by done. simpl.
    by destruct (signalingOpen s).
Qed.

End BroadcastAppChat.

Section BroadcastEnd.
Import StarRelay BroadcastApp BroadcastAppOps.

(** X13.  Ending a broadcast.  The broadcaster's App sends end-broadcast and
    closes its socket, so the relay runs the end-broadcast case and then
    the close handler of that connection: each of them sends
    broadcast-ended to every viewer whose socket is open, so a viewer is
    told twice; the [isLive] flag of the room is cleared by the first
    and is clear after the second, and the room stays registered with
    its broadcaster and its viewers.  In a viewer's App a second
    broadcast-ended changes nothing, and neither of them closes the
    viewer's peer connection. *)
Theorem broadcast_end_is_announced_twice_and_absorbed :
  (∀ s bid,
     broadcastId s = Some bid → bid ≠ "" → signalingOpen s = true →
     sent (handleEndBroadcast s) = sent s ++ [EndBroadcast bid] ∧
     signalingOpen (handleEndBroadcast s) = false ∧
     view (handleEndBroadcast s) = Home ∧
     BroadcasterRtc.peerConnections (broadcasterWebRTC (handleEndBroadcast s)) = []) ∧
  (∀ w c fresh bid pid room,
     currentBroadcastId c = Some bid → currentPeerId c = Some pid →
     currentRole c = Some Broadcaster → bid ≠ "" → pid ≠ "" →
     jm_get bid (broadcasts w) = Some room → is_broadcaster_of room c = true →
     let r1 := on_message w c fresh (Parsed (EndBroadcast bid)) in
     let r2 := on_close r1.1.1 r1.1.2 in
     let told := (λ v, Send (ws v) (BroadcastEnded bid))
                   <$> filter (λ v, sock_open w (ws v) = true) (jm_values (viewers room)) in
     let off_air := {| StarRelay.broadcastId := StarRelay.broadcastId room;
                       broadcaster := broadcaster room; viewers := viewers room;
                       StarRelay.isLive := false |} in
     r1.2 = told ++ [Log (LogEnded bid)] ∧
     r2.2 = told ++ [Log (LogBroadcasterDisconnected (currentUsername c) bid)] ∧
     jm_get bid (broadcasts r1.1.1) = Some off_air ∧
     jm_get bid (broadcasts r2.1) = Some off_air) ∧
  (∀ s b1 b2,
     handleSignalingMessage (BroadcastEnded b2) (handleSignalingMessage (BroadcastEnded b1) s)
     = handleSignalingMessage (BroadcastEnded b1) s ∧
     viewerWebRTC (handleSignalingMessage (BroadcastEnded b1) s) = viewerWebRTC s).
Proof.
  split_and!.
  - intros s bid Hb Hne Hopen. unfold handleEndBroadcast, send.
    rewrite Hb, Hopen. simpl. by rewrite decide_False.
  - intros w c fresh bid pid room Hb Hp Hrole Hbid Hpid Hroom Hbc. cbv zeta.
    assert (on_message w c fresh (Parsed (EndBroadcast bid))
            = (with_broadcasts w (jm_set bid (set_live room false) (broadcasts w)), c,
               to_viewers w room (BroadcastEnded bid) ++ [Log (LogEnded bid)])) as ->.
    { simpl. by rewrite Hroom, Hbc. }
    cbn [fst snd]. unfold on_close. rewrite Hb, Hp, Hrole. simpl.
    rewrite !decide_False by done. simpl. rewrite jm_get_set_eq. simpl.
    rewrite !star_to_viewers_list, !jm_get_set_eq. done.
  - intros s b1 b2. simpl. destruct (view s) eqn:E; simpl; rewrite ?E; by split.
Qed.

(** B ends broadcast ABC123 that V (socket 1) and a viewer with a closed
    socket are registered in; V in view 'viewing' drops back to the
    lobby at the first notice and stays there at the second. *)
Lemma broadcast_end_is_announced_twice_and_absorbed_witness :
  let room := {| StarRelay.broadcastId := "ABC123";
                 broadcaster := Some {| StarRelay.peerId := "B"; StarRelay.username := "Bea";
                                        ws := 0 |};
                 viewers := [("V", {| StarRelay.peerId := "V"; StarRelay.username := "Vic";
                                      ws := 1 |});
                             ("W", {| StarRelay.peerId := "W"; StarRelay.username := "Wes";
                                      ws := 2 |})];
                 StarRelay.isLive := true |} in
  let w := {| broadcasts := [("ABC123", room)];
              readyState := λ s, if decide (s = 2) then CLOSED else OPEN;
              now := 0%N; timers := [] |} in
  let c := {| conn_ws := 0; currentBroadcastId := Some "ABC123";
              currentPeerId := Some "B"; currentUsername := "Bea";
              currentRole := Some Broadcaster |} in
  let r1 := on_message w c "" (Parsed (EndBroadcast "ABC123")) in
  let r2 := on_close r1.1.1 r1.1.2 in
  inbox 1 r1.2 = [BroadcastEnded "ABC123"] ∧
  inbox 1 r2.2 = [BroadcastEnded "ABC123"] ∧
  inbox 2 (r1.2 ++ r2.2) = [] ∧
  view (receive (inbox 1 r1.2 ++ inbox 1 r2.2)
          (with_view Viewing (BroadcastApp.init "V" None))) = ViewerLobby ∧
  StarRelay.isLive <$> jm_get "ABC123" (broadcasts w) = Some true ∧
  r1.2 = [Send 1 (BroadcastEnded "ABC123"); Log (LogEnded "ABC123")] ∧
  StarRelay.isLive <$> jm_get "ABC123" (broadcasts r1.1.1) = Some false ∧
  StarRelay.isLive <$> jm_get "ABC123" (broadcasts r2.1) = Some false.
Proof.
  intros room w c r1 r2.
  pose proof (proj1 (proj2 broadcast_end_is_announced_twice_and_absorbed)
                w c "" "ABC123" "B" room eq_refl eq_refl eq_refl
                ltac:(done) ltac:(done) eq_refl eq_refl) as (H1 & _ & H3 & H4).
  split_and!; [reflexivity..|exact H1| |].
  - subst r1. by rewrite H3.
  - subst r1 r2. by rewrite H4.
Defined.

End BroadcastEnd.
(** ** Relaying offers, answers and candidates in the star relay *)

Section StarSignals.
Import StarRelay.


End StarSignals.
(** ** Who initiates a mesh session *)

Section GroupInitiation.
Import Rtc GroupCall GroupApp.

Lemma addTracks_shape stream pc :
  inst (addTracks stream pc) = inst pc ∧
  localDescription (addTracks stream pc) = localDescription pc.
Proof.
  unfold addTracks. destruct stream as [tracks|]; [|done].
  revert pc. induction tracks as [|t l IH]; intros pc; [done|]. simpl.
  destruct (IH (addTrack t pc)) as [-> ->]. done.
Qed.

Lemma group_offers_to_app l1 l2 : offers_to (l1 ++ l2) = offers_to l1 ++ offers_to l2.
Proof. unfold offers_to. apply bind_app. Qed.

(** One [createPeerConnection(p, true)] for a peer without connection. *)
Lemma group_initiate_one p h :
  jm_get p (peerConnections h) = None →
  let h1 := createPeerConnection p true h in
  jm_keys (peerConnections h1) = jm_keys (peerConnections h) ++ [p] ∧
  sent h1 = sent h ++ [OfferTo (props_peerId h) p (LocalOffer (constructed h))] ∧
  (∃ pc, jm_get p (peerConnections h1) = Some pc ∧
         localDescription pc = Some (LocalOffer (inst pc)) ∧
         remoteDescription pc = None) ∧
  (∀ q, q ≠ p → jm_get q (peerConnections h1) = jm_get q (peerConnections h)).
Proof.
  intros Hp. unfold createPeerConnection.
  assert (jm_has p (peerConnections h) = false) as -> by by apply jm_has_false.
  simpl. split_and!.
  - rewrite jm_keys_set. unfold jm_has. by rewrite Hp.
  - unfold createOffer. by rewrite (proj1 (addTracks_shape _ _)).
  - eexists. split; [apply jm_get_set_eq|]. simpl. split.
    + unfold createOffer. by rewrite (proj1 (addTracks_shape _ _)).
    + by rewrite addTracks_remoteDescription.
  - intros q Hq. by rewrite jm_get_set_ne.
Qed.

Lemma group_connect_all peers h :
  NoDup peers →
  (∀ p, p ∈ peers → jm_get p (peerConnections h) = None) →
  let h' := connect_all peers h in
  jm_keys (peerConnections h') = jm_keys (peerConnections h) ++ peers ∧
  offers_to (sent h') = offers_to (sent h) ++ peers ∧
  (∃ new, sent h' = sent h ++ new ∧ length new = length peers) ∧
  (∀ p, p ∈ peers →
     ∃ pc, jm_get p (peerConnections h') = Some pc ∧
           localDescription pc = Some (LocalOffer (inst pc)) ∧
           remoteDescription pc = None) ∧
  (∀ q, q ∉ peers → jm_get q (peerConnections h') = jm_get q (peerConnections h)).
Proof.
  revert h. induction peers as [|p peers IH]; intros h Hnd Hnew; simpl.
  - rewrite !app_nil_r. split_and!; try done.
    + exists []. by rewrite app_nil_r.
    + intros p Hp. by apply elem_of_nil in Hp.
  - apply NoDup_cons in Hnd as [Hp Hnd].
    destruct (group_initiate_one p h) as (Hk & Hs & (pc & Hpc & Hl & Hr) & Ho).
    { apply Hnew. by left. }
    destruct (IH (createPeerConnection p true h) Hnd) as (Hk' & Hs' & (new & Hn & Hlen) & Hp' & Ho').
    { intros q Hq. rewrite Ho; [apply Hnew; by right|]. by intros ->. }
    fold (connect_all peers (createPeerConnection p true h)).
    split_and!.
    + by rewrite Hk', Hk, <-app_assoc.
    + rewrite Hs', Hs, group_offers_to_app, <-app_assoc. done.
    + eexists (_ :: new). split; [by rewrite Hn, Hs, <-app_assoc|]. simpl. by rewrite Hlen.
    + intros q [->|Hq]%elem_of_cons.
      * exists pc. by rewrite Ho'.
      * by apply Hp'.
    + intros q [Hqp Hq]%not_elem_of_cons. by rewrite Ho', Ho.
Qed.

(** X15.  Who initiates, each handler invocation run to completion.  On
    room-peers the joiner's App creates one connection per listed peer
    it has no connection to yet and sends each of them one offer, in
    list order and nothing else; a peer-joined notice changes nothing;
    an offer from a peer without connection makes the receiver create
    the connection and send back one answer and no offer.  So between a
    joiner and a member found in the room the joiner is the only side
    that offers; and the peers the relay lists in its reply to a join
    are exactly the peers the joiner then holds a connection to. *)
Theorem group_joiner_offers_to_every_snapshot_member :
  (∀ peers s,
     webrtcRef s = true → NoDup peers →
     (∀ p, p ∈ peers → jm_get p (peerConnections (webrtc s)) = None) →
     let s' := handleSignalingMessage (RoomPeers (Some peers)) s in
     jm_keys (peerConnections (webrtc s'))
     = jm_keys (peerConnections (webrtc s)) ++ peers ∧
     offers_to (sent (webrtc s')) = offers_to (sent (webrtc s)) ++ peers ∧
     (∃ new, sent (webrtc s') = sent (webrtc s) ++ new ∧ length new = length peers) ∧
     (∀ p, p ∈ peers →
        ∃ pc, jm_get p (peerConnections (webrtc s')) = Some pc ∧
              localDescription pc = Some (LocalOffer (inst pc)) ∧
              remoteDescription pc = None)) ∧
  (∀ p s, handleSignalingMessage (PeerJoined p) s = s) ∧
  (∀ from sdp s,
     webrtcRef s = true → from ≠ "" →
     jm_get from (peerConnections (webrtc s)) = None →
     let s' := handleSignalingMessage (Offer (Some from) (Some sdp)) s in
     ∃ pc, jm_get from (peerConnections (webrtc s')) = Some pc ∧
           remoteDescription pc = Some (Remote sdp) ∧
           sent (webrtc s')
           = sent (webrtc s)
               ++ [AnswerTo (props_peerId (webrtc s)) from (LocalAnswer (inst pc))]) ∧
  (∀ w c rid pid s,
     GroupSystem.registry_ok w → webrtcRef s = true →
     peerConnections (webrtc s) = [] →
     ∃ rest,
       (GroupRelay.on_message w c (GroupRelay.Parsed (GroupRelay.Join rid pid))).2
       = GroupRelay.Send (GroupRelay.conn_ws c)
           (GroupRelay.RoomPeers (jm_keys (GroupRelay.members w rid))) :: rest ∧
       jm_keys (peerConnections
                  (webrtc (handleSignalingMessage
                             (RoomPeers (Some (jm_keys (GroupRelay.members w rid)))) s)))
       = jm_keys (GroupRelay.members w rid)).
Proof.
  split_and!.
  - intros peers s Href Hnd Hnew. cbv zeta. unfold handleSignalingMessage.
    rewrite Href. simpl.
    destruct (group_connect_all peers (webrtc s) Hnd Hnew) as (H1 & H2 & H3 & H4 & _).
    done.
  - intros p s. unfold handleSignalingMessage. by destruct (webrtcRef s).
  - intros from sdp s Href Hne Hnew. cbv zeta. unfold handleSignalingMessage.
    rewrite Href. simpl. rewrite decide_False by done. simpl.
    unfold handleOffer.
    assert (jm_has from (peerConnections (webrtc s)) = false) as Hh by by apply jm_has_false.
    rewrite Hh. simpl.
    set (h1 := createPeerConnection from false (webrtc s)).
    assert (jm_get from (peerConnections h1)
            = Some (addTracks (props_localStream (webrtc s))
                      (new_pc (constructed (webrtc s)))) ∧
            sent h1 = sent (webrtc s) ∧
            props_peerId h1 = props_peerId (webrtc s)) as (Hg & Hs & Hid).
    { subst h1. unfold createPeerConnection. rewrite Hh. simpl.
      by rewrite jm_get_set_eq. }
    rewrite Hg. simpl. rewrite Hs, Hid.
    eexists. split; [apply jm_get_set_eq|].
    simpl. rewrite drain_remoteDescription. simpl. split; [done|].
    unfold createAnswer. by rewrite drain_inst.
  - intros w c rid pid s [Hnd Hall] Href Hempty.
    destruct (group_join_result w c rid pid) as (_ & _ & rest & Hrest).
    exists rest. split; [done|].
    unfold handleSignalingMessage. rewrite Href. simpl.
    assert (NoDup (jm_keys (GroupRelay.members w rid))) as Hndm.
    { unfold GroupRelay.members.
      destruct (jm_get rid (GroupRelay.rooms w)) as [room|] eqn:E; [|apply NoDup_nil_2].
      simpl. by apply jm_get_Some_elem, Hall in E as (_ & ? & _). }
    destruct (group_connect_all (jm_keys (GroupRelay.members w rid)) (webrtc s) Hndm)
      as (H1 & _).
    { intros p _. by rewrite Hempty. }
    by rewrite H1, Hempty.
Qed.

(** C joins a room that holds A and B: C's App ends with connections to
    A and B and has sent them the offers of connections 0 and 1. *)
Lemma group_joiner_offers_to_every_snapshot_member_witness :
  let s := {| webrtcRef := true; webrtc := init (Some ["audio"; "video"]) "C" |} in
  let s' := handleSignalingMessage (RoomPeers (Some ["A"; "B"])) s in
  sent (webrtc s') = [OfferTo "C" "A" (LocalOffer 0); OfferTo "C" "B" (LocalOffer 1)] ∧
  jm_keys (peerConnections (webrtc s')) = ["A"; "B"].
Proof.
  intros s s'. split; [reflexivity|].
  refine (proj1 (proj1 group_joiner_offers_to_every_snapshot_member ["A"; "B"] s
                   eq_refl _ _)).
  - by apply (bool_decide_unpack _).
  - done.
Defined.

End GroupInitiation.
(** ** useWebRTC of expanded-video-call: participants and connections *)

Section ExpandedParticipants.
Import Rtc ExpandedCall ExpandedOps.

Lemma expo_run_snoc s es e :
  ExpandedOps.run s (es ++ [e]) = ExpandedOps.step (ExpandedOps.run s es) e.
Proof. unfold ExpandedOps.run. by rewrite foldl_app. Qed.

Lemma expo_knows_iff p (l : list RemotePeer) : knows p l = true ↔ p ∈ peerId <$> l.
Proof.
  unfold knows. rewrite existsb_exists, list_elem_of_fmap. split.
  - intros (v & Hin%list_elem_of_In & Hv%bool_decide_eq_true). by exists v.
  - intros (v & -> & Hin). exists v. split; [by apply list_elem_of_In|].
    by apply bool_decide_eq_true.
Qed.

Lemma expo_filter_peerId p (l : list RemotePeer) :
  peerId <$> filter (λ v, peerId v ≠ p) l = filter (λ k, k ≠ p) (peerId <$> l).
Proof.
  induction l as [|v l IH]; [done|]. rewrite fmap_cons, !filter_cons.
  destruct (decide (peerId v ≠ p)); [rewrite fmap_cons|]; by rewrite IH.
Qed.

(** A map over the participant list that keeps every peer id. *)
Lemma expo_map_peerId (f : RemotePeer → RemotePeer) (l : list RemotePeer) :
  (∀ p, peerId (f p) = peerId p) → peerId <$> (f <$> l) = peerId <$> l.
Proof.
  intros Hf. rewrite <-list_fmap_compose. apply list_fmap_ext. intros i p _. apply Hf.
Qed.

Lemma expo_keys_set_present p pc (m : JsMap PeerConnection) :
  is_Some (jm_get p m) → jm_keys (jm_set p pc m) = jm_keys m.
Proof. intros H%jm_has_true. by rewrite jm_keys_set, H. Qed.

Lemma expo_keys_prod_map (f : PeerConnection → PeerConnection) (m : JsMap PeerConnection) :
  jm_keys (prod_map id f <$> m) = jm_keys m.
Proof.
  unfold jm_keys. rewrite <-list_fmap_compose. apply list_fmap_ext. by intros i [k v] _.
Qed.

Lemma expo_on_stream_peerId st p : peerId (on_stream st p) = peerId p.
Proof. unfold on_stream. destruct (stream p); [|done]. by destruct (decide _). Qed.

Lemma expo_rename_unknown_peerId q u p : peerId (rename_unknown q u p) = peerId p.
Proof. unfold rename_unknown. by destruct (_ && _). Qed.

(** What the hook keeps between calls. *)
Lemma expo_call_inv s e :
  peerId <$> remotePeers s = jm_keys (peerConnections s) →
  NoDup (jm_keys (peerConnections s)) →
  peerId <$> remotePeers (ExpandedCall.step s e)
  = jm_keys (peerConnections (ExpandedCall.step s e)) ∧
  NoDup (jm_keys (peerConnections (ExpandedCall.step s e))).
Proof.
  intros Hv Hnd.
  assert (∀ p u i,
            let s1 := createPeerConnection p u i s in
            peerId <$> remotePeers s1 = jm_keys (peerConnections s1) ∧
            NoDup (jm_keys (peerConnections s1))) as Hcreate.
  { intros p u i. cbv zeta. unfold createPeerConnection.
    destruct (jm_has p (peerConnections s)) eqn:E; [done|].
    apply jm_has_false in E. pose proof E as Hnin%jm_get_None_keys.
    assert (knows p (remotePeers s) = false) as ->.
    { apply not_true_is_false. rewrite expo_knows_iff. by rewrite Hv. }
    cbn [remotePeers peerConnections]. split; [|by apply jm_set_NoDup].
    rewrite fmap_app, Hv, jm_keys_set. unfold jm_has. by rewrite E. }
  destruct e as [p u i|p u sdp|p sdp|p c|p st]; simpl.
  - apply Hcreate.
  - unfold handleOffer.
    destruct (jm_has p (peerConnections s)) eqn:E; simpl.
    + apply jm_has_true in E as [pc E]. rewrite E. simpl.
      rewrite expo_keys_set_present by (by rewrite E).
      split; [|done]. rewrite expo_map_peerId; [done|].
      apply expo_rename_unknown_peerId.
    + destruct (Hcreate p u false) as [H1 H2].
      destruct (jm_get p (peerConnections (createPeerConnection p u false s)))
        as [pc|] eqn:E1; [|done].
      simpl. by rewrite expo_keys_set_present by (by rewrite E1).
  - unfold handleAnswer.
    destruct (jm_get p (peerConnections s)) as [pc|] eqn:E; [|done]. simpl.
    by rewrite expo_keys_set_present by (by rewrite E).
  - unfold handleIceCandidate, has_remote.
    destruct (jm_get p (peerConnections s)) as [pc|] eqn:E; [|done].
    destruct (remoteDescription pc); [|done]. simpl.
    by rewrite expo_keys_set_present by (by rewrite E).
  - unfold connectionStateChanged.
    destruct (jm_get p (peerConnections s)) as [pc|] eqn:E; [|done]. simpl.
    by rewrite expo_keys_set_present by (by rewrite E).
Qed.

Lemma expo_step_inv s e :
  peerId <$> remotePeers s = jm_keys (peerConnections s) →
  NoDup (jm_keys (peerConnections s)) →
  peerId <$> remotePeers (ExpandedOps.step s e)
  = jm_keys (peerConnections (ExpandedOps.step s e)) ∧
  NoDup (jm_keys (peerConnections (ExpandedOps.step s e))).
Proof.
  intros Hv Hnd.
  destruct e as [e|p| |p u st|p u|p|o|stream| ]; simpl.
  - by apply expo_call_inv.
  - split; [|by apply jm_delete_NoDup].
    by rewrite expo_filter_peerId, Hv, jm_keys_delete.
  - split; [done|apply NoDup_nil_2].
  - destruct (jm_has p (peerConnections s)) eqn:E; [|done]. simpl.
    assert (knows p (remotePeers s) = true) as ->.
    { apply expo_knows_iff. rewrite Hv. apply dec_stable.
      rewrite <-jm_get_None_keys. apply jm_has_true in E as [pc E]. by rewrite E. }
    split; [|done]. rewrite expo_map_peerId; [done|].
    intros q. destruct (decide _); [apply expo_on_stream_peerId|done].
  - split; [|done]. rewrite expo_map_peerId; [done|].
    intros q. by destruct (decide _).
  - split; [|done]. rewrite expo_map_peerId; [done|].
    intros q. by destruct (decide _).
  - done.
  - by rewrite !expo_keys_prod_map.
  - unfold removeScreenShareTrack. destruct (screenStreamRef s); [|done]. simpl.
    by rewrite !expo_keys_prod_map.
Qed.

Lemma expo_on_stream_idemp st p : on_stream st (on_stream st p) = on_stream st p.
Proof.
  unfold on_stream. destruct p as [pid u [st0|] sc]; simpl; [|by rewrite decide_False by naive_solver].
  destruct (decide (st ≠ st0)) as [Hne|Heq]; simpl.
  - by rewrite decide_True.
  - apply dec_stable in Heq as ->. by rewrite decide_False by naive_solver.
Qed.

Lemma expo_run_inv ls ss u es :
  let s := ExpandedOps.run (init ls ss u) es in
  peerId <$> remotePeers s = jm_keys (peerConnections s) ∧
  NoDup (jm_keys (peerConnections s)).
Proof.
  induction es as [|e es [IH1 IH2]] using rev_ind.
  - split; [done|apply NoDup_nil_2].
  - rewrite expo_run_snoc. by apply expo_step_inv.
Qed.

(** A map that touches the entries of [p] only, on a list that holds
    [p] once. *)
Lemma expo_map_at (f : RemotePeer → RemotePeer) p l1 e l2 :
  p ∉ peerId <$> l1 → p ∉ peerId <$> l2 → peerId e = p →
  (λ q, if decide (peerId q = p) then f q else q) <$> (l1 ++ e :: l2)
  = l1 ++ f e :: l2.
Proof.
  intros H1 H2 He.
  assert (∀ l : list RemotePeer, p ∉ peerId <$> l →
               (λ q, if decide (peerId q = p) then f q else q) <$> l = l) as Hid.
  { intros l Hl. rewrite <-(list_fmap_id l) at 2. apply list_fmap_ext.
    intros i q Hq. simpl. rewrite decide_False; [done|]. intros <-.
    apply Hl, list_elem_of_fmap. exists q. split; [done|].
    by eapply list_elem_of_lookup_2. }
  rewrite fmap_app, fmap_cons, !Hid by done. by rewrite decide_True.
Qed.

(** A peer that has a connection has one entry in the participant
    list. *)
Lemma expo_entry ls ss u es p :
  let s := ExpandedOps.run (init ls ss u) es in
  jm_has p (peerConnections s) = true →
  ∃ l1 e l2, remotePeers s = l1 ++ e :: l2 ∧ peerId e = p ∧
             (p ∉ peerId <$> l1) ∧ (p ∉ peerId <$> l2).
Proof.
  intros s Hhas. destruct (expo_run_inv ls ss u es) as [Hv Hnd]. fold s in Hv, Hnd.
  assert (p ∈ peerId <$> remotePeers s) as Hin.
  { rewrite Hv. apply dec_stable. rewrite <-jm_get_None_keys.
    apply jm_has_true in Hhas as [pc E]. by rewrite E. }
  apply list_elem_of_fmap in Hin as (e & -> & [l1 [l2 Hl]]%list_elem_of_split).
  exists l1, e, l2. rewrite <-Hv, Hl, fmap_app, fmap_cons in Hnd.
  apply NoDup_app in Hnd as (_ & Hdisj & [Hnot _]%NoDup_cons).
  split_and!; [done..| |done].
  intros Hin. apply (Hdisj _ Hin). apply elem_of_cons. by left.
Qed.

(** X16.  The hook of expanded-video-call, each handler invocation run to
    completion: after any sequence of calls and track events the
    participant list names exactly the peers that have a connection,
    once each and in the order of the map, so the participant count
    shown is one more than the number of connections.  A track event of
    a connection the hook holds finds the entry of its peer in the list:
    the first stream of the peer is filed as its camera and a later,
    different stream as its screen, in that entry, which keeps its place
    and its username; a further event of the same stream changes
    nothing. *)
Theorem expanded_participants_are_the_connected_peers :
  (∀ localStream screenStream uname es,
     let s := ExpandedOps.run (init localStream screenStream uname) es in
     peerId <$> remotePeers s = jm_keys (peerConnections s) ∧
     NoDup (jm_keys (peerConnections s)) ∧
     length (remotePeers s) = jm_size (peerConnections s)) ∧
  (∀ p u st s, ontrack p u st (ontrack p u st s) = ontrack p u st s) ∧
  (∀ localStream screenStream uname es p u1 u2 st1 st2,
     let s := ExpandedOps.run (init localStream screenStream uname) es in
     jm_has p (peerConnections s) = true → st1 ≠ st2 →
     ∃ l1 e l2,
       remotePeers s = l1 ++ e :: l2 ∧ peerId e = p ∧
       (stream e = None →
        remotePeers (ExpandedOps.run s [Track p u1 st1; Track p u2 st2])
        = l1 ++ {| peerId := p; username := username e; stream := Some st1;
                   screenStream := Some st2 |} :: l2) ∧
       (∀ st0, stream e = Some st0 → st1 ≠ st0 →
        remotePeers (ExpandedOps.step s (Track p u1 st1))
        = l1 ++ {| peerId := p; username := username e; stream := Some st0;
                   screenStream := Some st1 |} :: l2)).
Proof.
  split_and!.
  - intros ls ss u es.
    destruct (expo_run_inv ls ss u es) as [H1 H2].
    cbv zeta. split_and!; [done..|].
    unfold jm_size. unfold jm_keys in H1.
    by rewrite <-(length_fmap peerId), H1, length_fmap.
  - intros p u st s. unfold ontrack, with_remotePeers. simpl. f_equal.
    destruct (knows p (remotePeers s)) eqn:E.
    + assert (knows p ((λ q, if decide (peerId q = p) then on_stream st q else q)
                         <$> remotePeers s) = true) as ->.
      { apply expo_knows_iff. rewrite expo_map_peerId; [by apply expo_knows_iff|].
        intros q. destruct (decide _); [apply expo_on_stream_peerId|done]. }
      rewrite <-list_fmap_compose. apply list_fmap_ext. intros i q _. simpl.
      destruct (decide (peerId q = p)) as [Hq|Hq].
      * rewrite expo_on_stream_peerId. rewrite decide_True by done.
        apply expo_on_stream_idemp.
      * by rewrite decide_False.
    + assert (knows p (remotePeers s ++ [{| peerId := p; username := u;
                 stream := Some st; screenStream := None |}]) = true) as ->.
      { apply expo_knows_iff. rewrite fmap_app, elem_of_app. right.
        by apply list_elem_of_singleton. }
      rewrite fmap_app. f_equal.
      * rewrite <-(list_fmap_id (remotePeers s)) at 2.
        apply list_fmap_ext. intros i q Hq. simpl.
        rewrite decide_False; [done|]. intros <-.
        apply not_true_iff_false in E. apply E, expo_knows_iff.
        apply list_elem_of_fmap. exists q. split; [done|].
        by eapply list_elem_of_lookup_2.
      * simpl. rewrite decide_True by done. unfold on_stream. simpl.
        by rewrite decide_False by naive_solver.
  - intros ls ss u es p u1 u2 st1 st2 s Hhas Hne.
    destruct (expo_entry ls ss u es p Hhas) as (l1 & e & l2 & Hl & He & H1 & H2).
    fold s in Hl. exists l1, e, l2. split_and!; [done..| |].
    + intros Hs. unfold ExpandedOps.run. simpl. rewrite Hhas. simpl. rewrite Hhas.
      unfold ontrack, with_remotePeers. simpl.
      assert (knows p (remotePeers s) = true) as ->.
      { apply expo_knows_iff. rewrite Hl, fmap_app, elem_of_app. right.
        rewrite fmap_cons, He. apply elem_of_cons. by left. }
      rewrite Hl, (expo_map_at _ p l1 e l2) by done.
      assert (knows p (l1 ++ on_stream st1 e :: l2) = true) as ->.
      { apply expo_knows_iff. rewrite fmap_app, elem_of_app. right.
        rewrite fmap_cons, expo_on_stream_peerId, He. apply elem_of_cons. by left. }
      rewrite (expo_map_at _ p l1 (on_stream st1 e) l2);
        [|done..|by rewrite expo_on_stream_peerId].
      do 2 f_equal. unfold on_stream. rewrite Hs. simpl.
      rewrite decide_True by done. by rewrite He.
    + intros st0 Hs Hne0. simpl. rewrite Hhas.
      unfold ontrack, with_remotePeers. simpl.
      assert (knows p (remotePeers s) = true) as ->.
      { apply expo_knows_iff. rewrite Hl, fmap_app, elem_of_app. right.
        rewrite fmap_cons, He. apply elem_of_cons. by left. }
      rewrite Hl, (expo_map_at _ p l1 e l2) by done.
      do 2 f_equal. unfold on_stream. rewrite Hs.
      rewrite decide_True by done. by rewrite He.
Qed.

(** A connection to A is created; A's camera stream and then its screen
    stream arrive. *)
Lemma expanded_participants_are_the_connected_peers_witness :
  let s := ExpandedOps.run (init None None "me")
             [Call (Create "A" "Ann" true)] in
  remotePeers s = [{| peerId := "A"; username := "Ann"; stream := None;
                      screenStream := None |}] ∧
  remotePeers (ExpandedOps.run s [Track "A" "Ann" "camera-1"; Track "A" "Ann" "screen-1"])
  = [{| peerId := "A"; username := "Ann"; stream := Some "camera-1";
        screenStream := Some "screen-1" |}] ∧
  ∃ l1 e l2,
    remotePeers s = l1 ++ e :: l2 ∧ peerId e = "A" ∧
    (stream e = None →
     remotePeers (ExpandedOps.run s [Track "A" "Ann" "camera-1";
                                     Track "A" "Ann" "screen-1"])
     = l1 ++ {| peerId := "A"; username := username e; stream := Some "camera-1";
                screenStream := Some "screen-1" |} :: l2) ∧
    (∀ st0, stream e = Some st0 → "camera-1" ≠ st0 →
     remotePeers (ExpandedOps.step s (Track "A" "Ann" "camera-1"))
     = l1 ++ {| peerId := "A"; username := username e; stream := Some st0;
                screenStream := Some "camera-1" |} :: l2).
Proof.
  intros s. split; [reflexivity|]. split; [reflexivity|].
  refine (proj2 (proj2 expanded_participants_are_the_connected_peers)
            None None "me" [Call (Create "A" "Ann" true)]
            "A" "Ann" "Ann" "camera-1" "screen-1" eq_refl _).
  done.
Defined.

End ExpandedParticipants.
(** ** useWebRTC of expanded-video-call: screen sharing *)

Section ExpandedScreenShare.
Import Rtc ExpandedCall ExpandedOps.

Lemma expo_get_prod_map (f : PeerConnection → PeerConnection) p (m : JsMap PeerConnection) :
  jm_get p (prod_map id f <$> m) = f <$> jm_get p m.
Proof.
  induction m as [|[k v] m IH]; [done|]. rewrite fmap_cons. simpl.
  by destruct (decide (k = p)).
Qed.

Lemma expo_addTracks_senders tracks pc :
  senders (addTracks (Some tracks) pc) = senders pc ++ tracks.
Proof.
  unfold addTracks. revert pc. induction tracks as [|t l IH]; intros pc; simpl.
  - by rewrite app_nil_r.
  - rewrite IH. simpl. by rewrite <-app_assoc.
Qed.

Lemma expo_removeTracks_shape tracks pc :
  let pc' := foldl (λ pc t, removeTrack t pc) pc tracks in
  senders pc' = foldl (λ l t, remove_first t l) (senders pc) tracks ∧
  inst pc' = inst pc ∧ remoteDescription pc' = remoteDescription pc ∧
  candidates pc' = candidates pc ∧ localDescription pc' = localDescription pc.
Proof.
  revert pc. induction tracks as [|t l IH]; intros pc; [done|]. simpl.
  destruct (IH (removeTrack t pc)) as (-> & -> & -> & -> & ->). done.
Qed.

Lemma expo_remove_first_app t l r : t ∉ l → remove_first t (l ++ t :: r) = l ++ r.
Proof.
  induction l as [|x l IH]; simpl.
  - intros _. by rewrite decide_True.
  - intros [Hx Hl]%not_elem_of_cons. rewrite decide_False by done. by rewrite IH.
Qed.

Lemma expo_remove_all l tracks :
  NoDup tracks → (∀ t, t ∈ tracks → t ∉ l) →
  foldl (λ l t, remove_first t l) (l ++ tracks) tracks = l.
Proof.
  induction tracks as [|t r IH]; intros Hnd Hl; simpl.
  - by rewrite app_nil_r.
  - apply NoDup_cons in Hnd as [Ht Hnd].
    rewrite expo_remove_first_app by (apply Hl; by left).
    apply IH; [done|]. intros t' Ht'. apply Hl. by right.
Qed.

Lemma expo_offers_inst uname (f : PeerConnection → PeerConnection) pcs :
  (∀ pc, inst (f pc) = inst pc) →
  offers uname (prod_map id f <$> pcs)
  = (λ kp, OfferTo kp.1 (LocalOffer (inst kp.2)) uname) <$> pcs.
Proof.
  intros Hf. unfold offers. rewrite <-list_fmap_compose.
  apply list_fmap_ext. intros i [k pc] _. simpl. unfold createOffer. by rewrite Hf.
Qed.

(** X17.  Sharing the screen, each call run to completion.
    [addScreenShareTrack] adds the tracks of the stream to every
    connection, renews its local description and sends one offer per
    connection, in the order of the map, to the peer it belongs to and
    under the local username; it creates and drops no connection.
    [removeScreenShareTrack] does nothing without a screen stream at
    hand; otherwise it takes the tracks of that stream off every
    connection and sends one offer per connection again, so that adding
    a stream whose tracks no connection carried and removing it leaves
    every connection with the senders it had. *)
Theorem expanded_screen_share_renegotiates_every_connection :
  (∀ stream s,
     let s' := addScreenShareTrack stream s in
     jm_keys (peerConnections s') = jm_keys (peerConnections s) ∧
     constructed s' = constructed s ∧
     sent s' = sent s ++ ((λ kp, OfferTo kp.1 (LocalOffer (inst kp.2)) (usernameRef s))
                            <$> peerConnections s) ∧
     ∀ p pc, jm_get p (peerConnections s) = Some pc →
       ∃ pc', jm_get p (peerConnections s') = Some pc' ∧
              senders pc' = senders pc ++ stream ∧
              localDescription pc' = Some (LocalOffer (inst pc)) ∧
              inst pc' = inst pc ∧ remoteDescription pc' = remoteDescription pc ∧
              candidates pc' = candidates pc) ∧
  (∀ s, screenStreamRef s = None → removeScreenShareTrack s = s) ∧
  (∀ stream s,
     NoDup stream → screenStreamRef s = Some stream →
     (∀ p pc t, jm_get p (peerConnections s) = Some pc → t ∈ stream → t ∉ senders pc) →
     let s'' := removeScreenShareTrack (addScreenShareTrack stream s) in
     (∀ p pc, jm_get p (peerConnections s) = Some pc →
        ∃ pc'', jm_get p (peerConnections s'') = Some pc'' ∧
                senders pc'' = senders pc ∧ inst pc'' = inst pc ∧
                candidates pc'' = candidates pc) ∧
     sent s'' = sent s
                ++ ((λ kp, OfferTo kp.1 (LocalOffer (inst kp.2)) (usernameRef s))
                      <$> peerConnections s)
                ++ ((λ kp, OfferTo kp.1 (LocalOffer (inst kp.2)) (usernameRef s))
                      <$> peerConnections s)).
Proof.
  assert (∀ stream pc, inst (addTracks (Some stream) pc) = inst pc) as Hinst
    by (intros; apply addTracks_shape).
  split_and!.
  - intros stream s. cbv zeta. unfold addScreenShareTrack. simpl. split_and!.
    + by rewrite !expo_keys_prod_map.
    + done.
    + by rewrite expo_offers_inst.
    + intros p pc Hp. rewrite !expo_get_prod_map, Hp. simpl.
      eexists. split; [done|]. unfold renegotiate, createOffer. simpl.
      rewrite expo_addTracks_senders, Hinst, addTracks_remoteDescription,
        addTracks_candidates. done.
  - intros s Hs. unfold removeScreenShareTrack. by rewrite Hs.
  - intros stream s Hnd Hs Hfresh. cbv zeta.
    unfold removeScreenShareTrack, addScreenShareTrack. simpl. rewrite Hs. simpl.
    split.
    + intros p pc Hp. rewrite !expo_get_prod_map, Hp. simpl.
      eexists. split; [done|]. unfold renegotiate. simpl.
      destruct (expo_removeTracks_shape stream
                  (setLocalDescription (createOffer (addTracks (Some stream) pc))
                     (addTracks (Some stream) pc))) as (-> & -> & _ & -> & _).
      simpl. rewrite expo_addTracks_senders, Hinst, addTracks_candidates.
      split_and!; [|done|done]. apply expo_remove_all; [done|].
      intros t Ht. by eapply Hfresh.
    + rewrite <-app_assoc. do 2 f_equal.
      * by rewrite expo_offers_inst.
      * rewrite <-!list_fmap_compose. unfold offers. rewrite <-!list_fmap_compose.
        apply list_fmap_ext. intros i [k pc] _. simpl. unfold createOffer.
        destruct (expo_removeTracks_shape stream
                    (renegotiate (addTracks (Some stream) pc))) as (_ & -> & _).
        unfold renegotiate. simpl. by rewrite Hinst.
Qed.

(** With connections to A and B carrying audio and video, sharing the
    track screen and stopping again sends A and B two offers each and
    leaves A's senders as they were. *)
Lemma expanded_screen_share_renegotiates_every_connection_witness :
  let s0 := createPeerConnection "B" "Bo" true
              (createPeerConnection "A" "Ann" true
                 (init (Some ["audio"; "video"]) None "me")) in
  let s := setScreenStream (Some ["screen"]) s0 in
  let s'' := removeScreenShareTrack (addScreenShareTrack ["screen"] s) in
  (senders <$> jm_get "A" (peerConnections s'')) = Some ["audio"; "video"] ∧
  sent s'' = sent s
             ++ [OfferTo "A" (LocalOffer 0) "me"; OfferTo "B" (LocalOffer 1) "me"]
             ++ [OfferTo "A" (LocalOffer 0) "me"; OfferTo "B" (LocalOffer 1) "me"].
Proof.
  intros s0 s s''. split; [reflexivity|].
  refine (proj2 (proj2 (proj2 expanded_screen_share_renegotiates_every_connection)
                   ["screen"] s _ eq_refl _)).
  - apply NoDup_singleton.
  - intros p pc t Hp ->%list_elem_of_singleton.
    revert Hp. subst s s0. unfold createPeerConnection. simpl.
    repeat case_decide; intros [= <-]; simpl;
      intros Hin; repeat (apply elem_of_cons in Hin as [Hin|Hin]; [done|]);
      by apply elem_of_nil in Hin.
Defined.

End ExpandedScreenShare.
(** ** Chat of expanded-video-call *)

Section ExpandedChatFacts.
Import ExpandedChat.

Lemma chat_run_snoc s es e : run s (es ++ [e]) = step (run s es) e.
Proof. unfold run. by rewrite foldl_app. Qed.

Lemma chat_added_singleton e : [e] ≫= added = added e.
Proof. rewrite bind_cons. apply app_nil_r. Qed.

Lemma chat_step_messages s e :
  messages (chat (step s e)) = messages (chat s) ++ added e ∧
  isChatOpen (step s e) = (if e is Toggled then negb (isChatOpen s) else isChatOpen s) ∧
  unreadCount (chat (step s e))
  = (if e is Toggled
     then if isChatOpen s then unreadCount (chat s) else 0
     else unreadCount (chat s) + length (added e)).
Proof.
  destruct e as [[m|]|self u t t1 t2 ch|]; simpl; rewrite ?app_nil_r.
  - done.
  - split_and!; [done..|lia].
  - done.
  - by destruct (isChatOpen s).
Qed.

Lemma chat_run_after s es :
  (∀ e, e ∈ es → e ≠ Toggled) →
  isChatOpen (run s es) = isChatOpen s ∧
  unreadCount (chat (run s es)) = unreadCount (chat s) + length (es ≫= added).
Proof.
  induction es as [|e es IH] using rev_ind; intros Hes.
  - simpl. split; [done|lia].
  - rewrite chat_run_snoc.
    destruct (chat_step_messages (run s es) e) as (_ & Ho & Hu).
    destruct IH as [IH1 IH2].
    { intros e' He'. apply Hes. rewrite elem_of_app. by left. }
    assert (e ≠ Toggled) as Hne.
    { apply Hes. rewrite elem_of_app. right. by apply list_elem_of_singleton. }
    rewrite Ho, Hu, IH1, IH2, bind_app, length_app, chat_added_singleton.
    destruct e; try done; split; try done; lia.
Qed.

(** X18.  The chat of a call.  The chat list holds every message received on
    a data channel and every message sent, in the order they were
    handled, and the unread count never exceeds its length.  Opening the
    panel resets the unread count, and every message handled after that
    is counted again, the user's own messages and those handled while
    the panel is open included.  A sent message is handed to the data
    channel of exactly the peers whose channel is open, once each, and
    is added to the sender's own list whether or not any channel is. *)
Theorem expanded_chat_counts_every_message_since_opening :
  (∀ es,
     let s := run init es in
     messages (chat s) = es ≫= added ∧
     (unreadCount (chat s) ≤ length (messages (chat s)))%nat) ∧
  (∀ es1 es2,
     (∀ e, e ∈ es2 → e ≠ Toggled) → isChatOpen (run init es1) = false →
     let s := run init (es1 ++ [Toggled] ++ es2) in
     isChatOpen s = true ∧ unreadCount (chat s) = length (es2 ≫= added)) ∧
  (∀ self uname text t_id t_stamp channels s,
     let message := {| id := (self, t_id); from := self; username := uname;
                       text := text; timestamp := t_stamp |} in
     let s' := sendChatMessage self uname text t_id t_stamp channels s in
     messages (chat s') = messages (chat s) ++ [message] ∧
     ∃ new, handed s' = handed s ++ new ∧
            ∀ p m, (p, m) ∈ new ↔ m = message ∧ (p, ChOpen) ∈ channels).
Proof.
  split_and!.
  - intros es. cbv zeta. induction es as [|e es [IH1 IH2]] using rev_ind; [done|].
    rewrite chat_run_snoc, bind_app.
    destruct (chat_step_messages (run init es) e) as (Hm & _ & Hu).
    rewrite Hm, Hu, IH1, length_app. split.
    + by rewrite chat_added_singleton.
    + rewrite IH1 in IH2. destruct e; try lia. destruct (isChatOpen _); simpl; lia.
  - intros es1 es2 Hes Hclosed. cbv zeta.
    unfold run. rewrite !foldl_app. fold (run init es1). simpl.
    fold (run (handleToggleChat (run init es1)) es2).
    destruct (chat_run_after (handleToggleChat (run init es1)) es2 Hes) as [-> ->].
    simpl. by rewrite Hclosed.
  - intros self uname text t_id t_stamp channels s. cbv zeta. split; [done|].
    eexists. split; [done|]. intros p m. rewrite list_elem_of_bind. split.
    + intros ([k st] & Hin & Hk). simpl in Hin. destruct st; try by apply elem_of_nil in Hin.
      apply list_elem_of_singleton in Hin. by injection Hin as -> ->.
    + intros [-> Hin]. exists (p, ChOpen). split; [|done]. by apply list_elem_of_singleton.
Qed.

(** The panel is opened; then a message arrives and the user answers
    while only B's channel is open: both are counted unread. *)
Lemma expanded_chat_counts_every_message_since_opening_witness :
  let m := {| id := ("B", 5%N); from := "B"; username := "Bo"; text := "hi";
              timestamp := 5%N |} in
  let s := run init ([] ++ [Toggled]
                        ++ [Received (Some m);
                            Sent "me" "Me" "hello" 7 7 [("A", ChConnecting); ("B", ChOpen)]]) in
  isChatOpen s = true ∧ unreadCount (chat s) = 2 ∧
  handed s = [("B", {| id := ("me", 7%N); from := "me"; username := "Me";
                       text := "hello"; timestamp := 7%N |})].
Proof.
  intros m s.
  destruct (proj1 (proj2 expanded_chat_counts_every_message_since_opening)
              [] [Received (Some m);
                  Sent "me" "Me" "hello" 7 7 [("A", ChConnecting); ("B", ChOpen)]])
    as [H1 H2].
  - intros e [->|[->|H]%elem_of_cons]%elem_of_cons; [done..|]. by apply elem_of_nil in H.
  - reflexivity.
  - split_and!; [exact H1|exact H2|reflexivity].
Defined.

End ExpandedChatFacts.
(** ** App of expanded-video-call *)

Section ExpandedAppFacts.
Import Routing ExpandedApp.

Lemma routing_meeting_well_formed loc id :
  parseRoute loc = RouteMeeting id → id ≠ "" ∧ all_id_chars id = true.
Proof.
  unfold parseRoute. destruct (_ || _); [done|].
  destruct (match_meeting (slice1 loc)) as [m|] eqn:E; [|done].
  intros [= ->]. by apply routing_match_meeting in E as (_ & ? & ?).
Qed.

Lemma truthy_Some s : truthy (Some s) = true ↔ s ≠ "".
Proof. simpl. by destruct (decide (s = "")). Qed.

(** What holds of the App at any time, by view. *)
Lemma expapp_inv_render a :
  match view (appState a) with
  | Home => meetingId (appState a) = None ∧ username (appState a) = None
  | Lobby => ∃ id, meetingId (appState a) = Some id ∧ id ≠ "" ∧ all_id_chars id = true
  | Call =>
      ∃ id u stream,
        meetingId (appState a) = Some id ∧ id ≠ "" ∧ all_id_chars id = true ∧
        username (appState a) = Some u ∧ u ≠ "" ∧ streamRef a = Some stream
  end →
  match view (appState a) with
  | Home => render a = HomeScreen
  | Lobby => ∃ id, render a = LobbyScreen id ∧ meetingId (appState a) = Some id
  | Call => ∃ id u stream, render a = CallScreen id u stream ∧ streamRef a = Some stream
  end.
Proof.
  unfold render. destruct (view (appState a)); [done| |].
  - intros (id & -> & Hne & _). exists id. simpl. by rewrite decide_False.
  - intros (id & u & stream & -> & Hne & _ & -> & Hu & ->). exists id, u, stream.
    simpl. by rewrite !decide_False.
Qed.

Lemma expapp_step_inv a e :
  let inv a :=
    match view (appState a) with
    | Home => meetingId (appState a) = None ∧ username (appState a) = None
    | Lobby => ∃ id, meetingId (appState a) = Some id ∧ id ≠ "" ∧ all_id_chars id = true
    | Call =>
        ∃ id u stream,
          meetingId (appState a) = Some id ∧ id ≠ "" ∧ all_id_chars id = true ∧
          username (appState a) = Some u ∧ u ≠ "" ∧ streamRef a = Some stream
    end in
  inv a → inv (step a e).
Proof.
  intros inv Ha. destruct e as [loc|u stream au vi|]; simpl.
  - unfold inv, handleHashChange. simpl.
    destruct (parseRoute loc) as [|id] eqn:E; [done|].
    destruct (routing_meeting_well_formed loc id E) as [Hne Hall].
    simpl. rewrite decide_False by done.
    destruct (negb (is_call (view (appState a))) || bool_decide _) eqn:Ec; simpl.
    + exists id. by split_and!.
    + exact Ha.
  - pose proof (expapp_inv_render a Ha) as Hr. unfold inv in Ha.
    destruct (view (appState a)) eqn:Ev.
    + rewrite Hr. unfold inv. by rewrite Ev.
    + destruct Hr as (id & -> & Hid). destruct Ha as (id' & Hid' & Hne & Hall).
      simpl. destruct (decide (u = "")) as [->|Hu]; simpl.
      * unfold inv. rewrite Ev. exists id'. by split_and!.
      * unfold inv. simpl. exists id', u, stream. by split_and!.
    + destruct Hr as (id & u' & st & -> & _). unfold inv. by rewrite Ev.
  - pose proof (expapp_inv_render a Ha) as Hr. unfold inv in Ha.
    destruct (view (appState a)) eqn:Ev.
    + rewrite Hr. unfold inv. by rewrite Ev.
    + destruct Hr as (id & -> & Hid). unfold inv. by rewrite Ev.
    + destruct Hr as (id & u' & st & -> & _). done.
Qed.

(** X19.  The App of expanded-video-call.  At any point of any run, what is
    rendered is the screen of the current view: the lobby and the call
    are rendered for a meeting id that is not empty and made of lower
    case letters, digits and hyphens, the call with a username and a
    local stream, and in view 'home' no meeting id or username is kept;
    the render's last branch, home as a fallback, is never taken.  A
    hash change to a route that is not a meeting goes home without
    stopping the local stream, whereas leaving from the call screen
    stops every track of it; a hash change to the meeting of the running
    call changes nothing. *)
Theorem expanded_app_renders_the_screen_of_its_view :
  (∀ loc es,
     let a := run (init loc) es in
     match view (appState a) with
     | Home => render a = HomeScreen ∧ meetingId (appState a) = None ∧
               username (appState a) = None
     | Lobby => ∃ id, render a = LobbyScreen id ∧ id ≠ "" ∧ all_id_chars id = true
     | Call => ∃ id u stream, render a = CallScreen id u stream ∧
                              id ≠ "" ∧ all_id_chars id = true ∧ u ≠ ""
     end) ∧
  (∀ a loc,
     parseRoute loc = RouteHome →
     let a' := step a (HashChange loc) in
     view (appState a') = Home ∧ streamRef a' = streamRef a ∧ stopped a' = stopped a) ∧
  (∀ a id u stream,
     render a = CallScreen id u stream →
     let a' := step a LeaveCall in
     view (appState a') = Home ∧ streamRef a' = None ∧
     stopped a' = stopped a ++ stream ∧ parseRoute (location a') = RouteHome) ∧
  (∀ a loc id,
     view (appState a) = Call → meetingId (appState a) = Some id →
     parseRoute loc = RouteMeeting id →
     appState (step a (HashChange loc)) = appState a).
Proof.
  split_and!.
  - intros loc es.
    assert (let a := run (init loc) es in
            match view (appState a) with
            | Home => meetingId (appState a) = None ∧ username (appState a) = None
            | Lobby => ∃ id, meetingId (appState a) = Some id ∧ id ≠ "" ∧
                             all_id_chars id = true
            | Call =>
                ∃ id u stream,
                  meetingId (appState a) = Some id ∧ id ≠ "" ∧ all_id_chars id = true ∧
                  username (appState a) = Some u ∧ u ≠ "" ∧ streamRef a = Some stream
            end) as Hinv.
    { induction es as [|e es IH] using rev_ind.
      - simpl. destruct (parseRoute loc) as [|id] eqn:E; [done|].
        destruct (routing_meeting_well_formed loc id E) as [Hne Hall].
        exists id. unfold or_null. simpl. rewrite decide_False by done. by split_and!.
      - unfold run. rewrite foldl_app. simpl. by apply expapp_step_inv. }
    cbv zeta in *. pose proof (expapp_inv_render _ Hinv) as Hr.
    destruct (view (appState (run (init loc) es))) eqn:Ev.
    + done.
    + destruct Hinv as (id & Hid & Hne & Hall). destruct Hr as (id' & Hr & Hid').
      exists id. split_and!; [|done..]. congruence.
    + destruct Hinv as (id & u & st & Hid & Hne & Hall & Hu & Hune & Hs).
      exists id, u, st. split_and!; [|done..].
      unfold render. rewrite Ev, Hid, Hu, Hs. simpl. by rewrite !decide_False.
  - intros a loc Hloc. cbv zeta. simpl. unfold handleHashChange. by rewrite Hloc.
  - intros a id u stream Hr. cbv zeta. simpl. rewrite Hr.
    unfold handleLeaveCall, stopMedia. unfold render in Hr.
    destruct (view (appState a)), (meetingId (appState a)) as [i|]; try done.
    + by destruct (truthy (Some i)).
    + destruct (username (appState a)), (streamRef a) as [st|]; try done.
      destruct (_ && _); [|done]. by injection Hr as -> -> ->.
  - intros a loc id Hv Hid Hloc. simpl. unfold handleHashChange.
    rewrite Hloc, Hv, Hid. simpl.
    destruct (routing_meeting_well_formed loc id Hloc) as [Hne _].
    rewrite decide_False by done. by rewrite bool_decide_eq_false_2 by naive_solver.
Qed.

(** Opened at #/meeting/abcd-efgh-ijkl, joined as Ann, then the hash is
    set to #/: the App is home and the two tracks were not stopped. *)
Lemma expanded_app_renders_the_screen_of_its_view_witness :
  let a := run (init "#/meeting/abcd-efgh-ijkl")
             [JoinFromLobby "Ann" ["audio"; "video"] true true] in
  let a' := step a (HashChange "#/") in
  render a = CallScreen "abcd-efgh-ijkl" "Ann" ["audio"; "video"] ∧
  view (appState a') = Home ∧ streamRef a' = Some ["audio"; "video"] ∧ stopped a' = [].
Proof.
  intros a a'. split; [reflexivity|].
  exact (proj1 (proj2 expanded_app_renders_the_screen_of_its_view) a "#/" eq_refl).
Defined.

End ExpandedAppFacts.
(** ** The viewer count the star relay reports *)

Section StarViewerCount.
Import StarRelay.

Lemma star_viewer_count_on_message w c fresh data s n :
  Send s (ViewerCount n) ∈ (on_message w c fresh data).2 →
  ∃ bid room b,
    jm_get bid (broadcasts (on_message w c fresh data).1.1) = Some room ∧
    n = jm_size (viewers room) ∧ broadcaster room = Some b ∧ s = ws b.
Proof.
  destruct data as [m|]; simpl.
  2: { intros [H|H%elem_of_nil]%elem_of_cons; done. }
  destruct m as [pid un|bid|bid|bid pid un|bid pid|to sdp|to sdp|to cand|bid text|];
    simpl;
    repeat match goal with
      | |- context [match jm_get ?k ?m with _ => _ end] => destruct (jm_get k m)
      | |- context [match current_room ?w ?c with _ => _ end] =>
          destruct (current_room w c)
      | |- context [match currentRole ?c with _ => _ end] =>
          destruct (currentRole c) as [[|]|]
      | |- context [if is_broadcaster_of ?r ?c then _ else _] =>
          destruct (is_broadcaster_of r c)
      end; simpl;
    repeat first
      [ rewrite elem_of_app | rewrite elem_of_cons | rewrite elem_of_nil
      | rewrite star_elem_of_to_viewers | rewrite star_elem_of_to_broadcaster
      | rewrite star_elem_of_send_if_open ];
    repeat setoid_rewrite elem_of_cons; repeat setoid_rewrite elem_of_nil;
    try (intros H; exfalso; revert H; naive_solver).
  - intros [H|[(bc & Hb & _ & m & [->|[->|[]]] & [= -> ->])|[[=]|[]]]]; try done.
    eexists bid, _, bc. rewrite jm_get_set_eq. done.
  - intros [(bc & Hb & _ & m & [->|[->|[]]] & [= -> ->])|[[=]|[]]].
    eexists bid, _, bc. rewrite jm_get_set_eq. done.
Qed.

Lemma star_viewer_count_on_close w c s n :
  Send s (ViewerCount n) ∈ (on_close w c).2 →
  ∃ bid room b,
    jm_get bid (broadcasts (on_close w c).1) = Some room ∧
    n = jm_size (viewers room) ∧ broadcaster room = Some b ∧ s = ws b.
Proof.
  unfold on_close.
  destruct (truthy (currentBroadcastId c) && truthy (currentPeerId c));
    [|by intros ?%elem_of_nil].
  destruct (currentBroadcastId c) as [bid|]; [|by intros ?%elem_of_nil].
  destruct (currentPeerId c) as [pid|]; [|by intros ?%elem_of_nil].
  destruct (jm_get bid (broadcasts w)) as [room|]; [|by intros ?%elem_of_nil].
  destruct (currentRole c) as [[|]|]; simpl;
    repeat first
      [ rewrite elem_of_app | rewrite elem_of_cons | rewrite elem_of_nil
      | rewrite star_elem_of_to_viewers | rewrite star_elem_of_to_broadcaster ];
    repeat setoid_rewrite elem_of_cons; repeat setoid_rewrite elem_of_nil;
    try (intros H; exfalso; revert H; naive_solver).
  - intros [(bc & Hb & _ & m & [->|[->|[]]] & [= -> ->])|[[=]|[]]].
    eexists bid, _, bc. rewrite jm_get_set_eq. done.
  - intros [(bc & Hb & _ & m & [->|[->|[]]] & [= -> ->])|[[=]|[]]].
    eexists bid, _, bc. rewrite jm_get_set_eq. done.
Qed.

(** X20.  Every viewer-count the relay sends goes to the broadcaster of a
    registered broadcast and carries the number of viewers registered in
    that broadcast once the step that sends it is done. *)
Theorem star_viewer_count_is_exact σ e s n :
  Send s (ViewerCount n) ∈ (step σ e).2 →
  ∃ bid room b,
    jm_get bid (broadcasts (world (step σ e).1)) = Some room ∧
    n = jm_size (viewers room) ∧ broadcaster room = Some b ∧ s = ws b.
Proof.
  destruct e as [s0|s0 fresh data|s0|s0 rs|dt|i]; simpl;
    try by intros ?%elem_of_nil.
  - by destruct (conns σ s0); intros ?%elem_of_nil.
  - destruct (conns σ s0) as [|c|]; try by intros ?%elem_of_nil.
    pose proof (star_viewer_count_on_message (world σ) c fresh data s n) as H.
    by destruct (on_message (world σ) c fresh data) as [[w' c'] effs].
  - destruct (conns σ s0) as [|c|]; try by intros ?%elem_of_nil.
    pose proof (star_viewer_count_on_close (world σ) c s n) as H.
    by destruct (on_close (world σ) c) as [w' effs].
  - destruct (timers (world σ) !! i) as [t|]; [|by intros ?%elem_of_nil].
    destruct (bool_decide _); [|by intros ?%elem_of_nil].
    set (w1 := with_timers _ _).
    assert (∀ c, Send s (ViewerCount n) ∉ (cleanup w1 c).2) as Hc.
    { intros c. unfold cleanup.
      repeat case_match; simpl; rewrite ?elem_of_cons, ?elem_of_nil; naive_solver. }
    destruct (conns σ (owner t)) as [|c|c ?]; [by intros ?%elem_of_nil| |].
    + specialize (Hc c). by destruct (cleanup w1 c).
    + specialize (Hc c). by destruct (cleanup w1 c).
Qed.

(** V joins the live broadcast ABC123 that A watches: B is told 2. *)
Lemma star_viewer_count_is_exact_witness :
  let σ := run init_sys
             [EvConnect 0; EvConnect 1; EvConnect 2;
              EvMessage 0 "ABC123" (Parsed (CreateBroadcast "B" "Bea"));
              EvMessage 1 "" (Parsed (JoinBroadcast "ABC123" "A" "Ann"))] in
  let e := EvMessage 2 "" (Parsed (JoinBroadcast "ABC123" "V" "Vic")) in
  inbox 0 (step σ e).2 = [ViewerJoined "V" "Vic"; ViewerCount 2] ∧
  ∃ bid room b,
    jm_get bid (broadcasts (world (step σ e).1)) = Some room ∧
    2 = jm_size (viewers room) ∧ broadcaster room = Some b ∧ 0 = ws b.
Proof.
  intros σ e. split; [reflexivity|].
  apply (star_viewer_count_is_exact σ e 0 2).
  vm_compute. apply elem_of_cons. right. apply elem_of_cons. right.
  apply elem_of_cons. by left.
Defined.

End StarViewerCount.
(** ** The broadcaster hook: candidates of one viewer *)

Section BroadcasterCandidates.
Import Rtc BroadcasterRtc BroadcasterRun.

Lemma bc_arrivals_snoc p es e :
  arrivals p (es ++ [e])
  = match e with
    | GotIceCandidate q c => if decide (q = p) then arrivals p es ++ [c] else arrivals p es
    | ViewerLeft q => if decide (q = p) then [] else arrivals p es
    | CloseAll => []
    | _ => arrivals p es
    end.
Proof. unfold arrivals. by rewrite foldl_app. Qed.

Lemma bc_ice_step p s arr e :
  applied p s ++ queued p s = arr →
  (described p s = true → jm_get p (pendingCandidates s) = None) →
  applied p (step s e) ++ queued p (step s e)
  = match e with
    | GotIceCandidate q c => if decide (q = p) then arr ++ [c] else arr
    | ViewerLeft q => if decide (q = p) then [] else arr
    | CloseAll => []
    | _ => arr
    end ∧
  (described p (step s e) = true → jm_get p (pendingCandidates (step s e)) = None).
Proof.
  unfold applied, queued, described, has_remote. intros Harr Hq.
  destruct e as [q u|q sdp|q c|q| |q st]; simpl.
  - unfold createConnectionForViewer.
    destruct (jm_has q (peerConnections s)) eqn:Hh; [done|]. simpl.
    apply jm_has_false in Hh.
    destruct (decide (q = p)) as [->|Hne].
    + rewrite jm_get_set_eq. simpl. rewrite addTracks_candidates,
        addTracks_remoteDescription. simpl.
      rewrite Hh in Harr. by split.
    + by rewrite jm_get_set_ne.
  - unfold handleAnswer.
    destruct (jm_get q (peerConnections s)) as [pc|] eqn:Hpc; [|done]. simpl.
    destruct (decide (q = p)) as [->|Hne].
    + rewrite jm_get_set_eq, jm_get_delete_eq. simpl.
      rewrite drain_candidates, app_nil_r. simpl.
      rewrite Hpc in Harr. by split.
    + by rewrite jm_get_set_ne, jm_get_delete_ne.
  - unfold handleIceCandidate, has_remote.
    destruct (decide (q = p)) as [->|Hne].
    + destruct (jm_get p (peerConnections s)) as [pc|] eqn:Hpc; simpl.
      * destruct (remoteDescription pc) eqn:Hrd; simpl.
        -- rewrite jm_get_set_eq. simpl. rewrite Hrd.
           rewrite Hq in * by done. simpl in *. rewrite app_nil_r in *.
           by subst.
        -- rewrite Hpc, jm_get_set_eq, Hrd. simpl.
           split; [|done]. by rewrite app_assoc, Harr.
      * rewrite Hpc, jm_get_set_eq. simpl in *. by subst.
    + destruct (jm_get q (peerConnections s)) as [pc|]; simpl.
      * destruct (remoteDescription pc); simpl;
          by rewrite ?jm_get_set_ne.
      * by rewrite ?jm_get_set_ne.
  - destruct (decide (q = p)) as [->|Hne].
    + by rewrite !jm_get_delete_eq.
    + by rewrite !jm_get_delete_ne.
  - done.
  - unfold connectionStateChanged.
    destruct (jm_get q (peerConnections s)) as [pc|] eqn:Hpc; [|done]. simpl.
    destruct (decide (q = p)) as [->|Hne].
    + rewrite jm_get_set_eq. rewrite Hpc in *.
      rewrite onconnectionstatechange_candidates,
        onconnectionstatechange_remoteDescription. simpl.
      by destruct (remoteDescription pc).
    + by rewrite jm_get_set_ne.
Qed.

(** X21.  The broadcaster hook, each handler invocation run to completion: for
    every viewer, the candidates passed to its connection followed by
    the ones still held back are the candidates received from that
    viewer since its connection and queue were last dropped, in arrival
    order; none is held back once the viewer's answer is set, and
    handling an answer for an existing connection passes on all of them. *)
Theorem broadcaster_candidates_reach_engine_in_order localStream es p :
  let s := run (init localStream) es in
  applied p s ++ queued p s = arrivals p es ∧
  (described p s = true → queued p s = []) ∧
  (∀ sdp, jm_has p (peerConnections s) = true →
          let s' := step s (GotAnswer p sdp) in
          applied p s' = arrivals p es ∧ queued p s' = [] ∧ described p s' = true).
Proof.
  assert (let s := run (init localStream) es in
          applied p s ++ queued p s = arrivals p es ∧
          (described p s = true → jm_get p (pendingCandidates s) = None)) as H.
  { induction es as [|e es [IH1 IH2]] using rev_ind; [done|].
    rewrite bc_run_snoc, bc_arrivals_snoc.
    destruct (bc_ice_step p (run (init localStream) es) (arrivals p es) e IH1 IH2)
      as [H1 H2].
    split; [|done]. rewrite H1. by destruct e. }
  destruct H as [H1 H2]. intros s. split_and!; [done| |].
  - intros Hd. unfold queued. subst s. by rewrite H2.
  - intros sdp Hhas s'.
    destruct (bc_ice_step p s (arrivals p es) (GotAnswer p sdp) H1 H2) as [H3 H4].
    fold s' in H3, H4.
    assert (described p s' = true) as Hd.
    { subst s'. unfold described, has_remote. simpl. unfold handleAnswer.
      apply jm_has_true in Hhas as [pc Hpc]. rewrite Hpc. simpl.
      rewrite jm_get_set_eq. by rewrite drain_remoteDescription. }
    specialize (H4 Hd). unfold queued in *. rewrite H4 in H3 |- *. simpl in *.
    by rewrite app_nil_r in H3.
Qed.

(** Two candidates of V arrive before its answer, one after: all three
    are on the connection, in arrival order. *)
Lemma broadcaster_candidates_reach_engine_in_order_witness :
  let es := [ViewerJoined "V" "Vic"; GotIceCandidate "V" "c1";
             GotIceCandidate "V" "c2"] in
  let s := run (init (Some ["audio"; "video"])) es in
  let s' := step s (GotAnswer "V" "answer") in
  jm_has "V" (peerConnections s) = true ∧
  queued "V" s = ["c1"; "c2"] ∧
  applied "V" (step s' (GotIceCandidate "V" "c3")) = ["c1"; "c2"; "c3"] ∧
  applied "V" s' = arrivals "V" es ∧ queued "V" s' = [] ∧ described "V" s' = true.
Proof.
  intros es s s'. split; [reflexivity|]. split; [reflexivity|].
  split; [reflexivity|].
  apply (proj2 (proj2 (broadcaster_candidates_reach_engine_in_order
                         (Some ["audio"; "video"]) es "V")) "answer").
  reflexivity.
Defined.

End BroadcasterCandidates.
